(** * Terminal Markdown renderer (opencode CLI): a shallow embedding

    Source files embedded here:
    - [packages/opencode/src/cli/markdown-renderer.ts]
    - [packages/opencode/src/cli/theme-loader.ts]

    JavaScript strings are sequences of UTF-16 code units; they are modelled
    as lists of [N].  A thrown [RangeError] is modelled by [None] in the
    option monad.  Regular expressions are kept as syntax trees and run by a
    backtracking matcher that follows the ECMAScript pattern semantics. *)

From Stdlib Require Import ZArith NArith List Ascii String Lia QArith Qround.
From stdpp Require Import base option list gmap.

Open Scope Z_scope.

(** ** JavaScript strings *)

Module JS.

Abbreviation char := N.
Abbreviation jsstring := (list N).

(** An ASCII literal as a sequence of code units. *)
Definition lit (s : string) : jsstring :=
  List.map N_of_ascii (list_ascii_of_string s).

Definition ESC : char := 27%N.
Definition NL : char := 10%N.
Definition SP : char := 32%N.

Definition chr_eqb (a b : char) : bool := N.eqb a b.

Fixpoint str_eqb (a b : jsstring) : bool :=
  match a, b with
  | [], [] => true
  | x :: a', y :: b' => chr_eqb x y && str_eqb a' b'
  | _, _ => false
  end.

(** WhiteSpace and LineTerminator code units: what [String.prototype.trim]
    removes and what [\s] matches. *)
Definition isSpace (c : char) : bool :=
  ((9 <=? c) && (c <=? 13) || (c =? 32) || (c =? 160) || (c =? 5760)
   || (8192 <=? c) && (c <=? 8202) || (c =? 8232) || (c =? 8233)
   || (c =? 8239) || (c =? 8287) || (c =? 12288) || (c =? 65279))%N.

(** LineTerminator: excluded by [.] in a pattern without the [s] flag. *)
Definition isLineTerminator (c : char) : bool :=
  ((c =? 10) || (c =? 13) || (c =? 8232) || (c =? 8233))%N.

Definition isDigit (c : char) : bool := ((48 <=? c) && (c <=? 57))%N.

Fixpoint trimStart (s : jsstring) : jsstring :=
  match s with
  | c :: s' => if isSpace c then trimStart s' else s
  | [] => []
  end.

Definition trimEnd (s : jsstring) : jsstring := rev (trimStart (rev s)).

Definition trim (s : jsstring) : jsstring := trimEnd (trimStart s).

Fixpoint startsWith (s p : jsstring) : bool :=
  match p, s with
  | [], _ => true
  | x :: p', y :: s' => chr_eqb x y && startsWith s' p'
  | _ :: _, [] => false
  end.

Definition endsWith (s p : jsstring) : bool := startsWith (rev s) (rev p).

(** [s.slice(a, b)] for [0 <= a], [0 <= b]. *)
Definition slice {A} (l : list A) (a b : nat) : list A :=
  take (b - a) (drop a l).

(** [s.slice(a)] for [0 <= a]. *)
Definition sliceFrom {A} (l : list A) (a : nat) : list A := drop a l.

(** [l.slice(1, -1)]. *)
Definition sliceInner {A} (l : list A) : list A :=
  take (length l - 2) (drop 1 l).

(** [s.split(sep)] for a one-code-unit separator: never the empty array. *)
Fixpoint split (sep : char) (s : jsstring) : list jsstring :=
  match s with
  | [] => [[]]
  | c :: s' =>
      if chr_eqb c sep then [] :: split sep s'
      else match split sep s' with
           | cur :: more => (c :: cur) :: more
           | [] => [[c]]
           end
  end.

(** [parts.join(sep)]. *)
Fixpoint join (sep : jsstring) (parts : list jsstring) : jsstring :=
  match parts with
  | [] => []
  | [p] => p
  | p :: more => p ++ sep ++ join sep more
  end.

(** [s.repeat(n)]: a negative count throws a [RangeError]. *)
Definition repeat (s : jsstring) (n : Z) : option jsstring :=
  if n <? 0 then None else Some (concat (replicate (Z.to_nat n) s)).

(** [String(n)] for an integer: decimal digits, with a sign when negative. *)
Fixpoint digitsP (fuel : nat) (n : N) (acc : jsstring) : jsstring :=
  match fuel with
  | O => acc
  | S f =>
      let acc' := (48 + n mod 10)%N :: acc in
      if (n <? 10)%N then acc' else digitsP f (n / 10)%N acc'
  end.

Definition natToString (n : N) : jsstring := digitsP (S (N.to_nat (N.log2 n))) n [].

Definition intToString (z : Z) : jsstring :=
  if z <? 0 then 45%N :: natToString (Z.to_N (- z)) else natToString (Z.to_N z).

(** [Number(s)] for a string of decimal digits (the empty string is 0). *)
Definition digitsToNumber (s : jsstring) : Z :=
  fold_left (fun acc c => 10 * acc + (Z.of_N c - 48)) s 0.

End JS.

Import JS.

(** ** Regular expressions *)

Module Regex.

(** One item of a character class [[...]]. *)
Inductive citem :=
| IChar (c : char)
| IRange (lo hi : char)
| ISpace.

Inductive regex :=
| Eps
| Chr (c : char)
| Dot
| Cls (neg : bool) (items : list citem)
| Seq (r1 r2 : regex)
| Alt (r1 r2 : regex)
| Grp (i : nat) (r : regex)
| Ref (i : nat)
| Rep (greedy : bool) (min : nat) (max : option nat) (r : regex)
| Bol
| Eol.

Definition citem_matches (c : char) (it : citem) : bool :=
  match it with
  | IChar d => chr_eqb c d
  | IRange lo hi => ((lo <=? c) && (c <=? hi))%N
  | ISpace => isSpace c
  end.

Definition cls_matches (neg : bool) (items : list citem) (c : char) : bool :=
  xorb neg (existsb (citem_matches c) items).

(** Capture [i] is the half-open range of input positions it matched;
    [None] is JavaScript's [undefined]. *)
Definition captures := list (option (nat * nat)).

Record mstate := MState {
  mpos : nat;
  mrest : jsstring;
  mcaps : captures
}.

Fixpoint groups_of (r : regex) : list nat :=
  match r with
  | Seq a b | Alt a b => groups_of a ++ groups_of b
  | Grp i a => i :: groups_of a
  | Rep _ _ _ a => groups_of a
  | _ => []
  end.

Definition clear_caps (gs : list nat) (caps : captures) : captures :=
  fold_right (fun i cs => <[i := None]> cs) caps gs.

Definition step (p : char -> bool) (st : mstate)
    (k : mstate -> option mstate) : option mstate :=
  match mrest st with
  | c :: rest' =>
      if p c then k (MState (S (mpos st)) rest' (mcaps st)) else None
  | [] => None
  end.

Definition orElse {A} (x : option A) (y : option A) : option A :=
  match x with
  | Some _ => x
  | None => y
  end.

Section Matcher.
Variable input : jsstring.

  (** RepeatMatcher of the ECMAScript specification.  [fuel] bounds the
      number of iterations: an iteration either lowers [min] or, once [min]
      is 0, must consume input (an empty iteration is rejected), so
      [min + length rest] iterations are the most that can occur and the
      [O] case, which stops iterating, is exact. *)
Fixpoint repeatMatcher (mr : mstate -> (mstate -> option mstate) -> option mstate)
      (gs : list nat) (greedy : bool) (fuel : nat) (min : nat) (max : option nat)
      (x : mstate) (c : mstate -> option mstate) : option mstate :=
    match fuel with
    | O => if Nat.eqb min 0 then c x else None
    | S fuel' =>
        if (match max with Some O => true | _ => false end) then c x
        else
          let d := fun y : mstate =>
            if Nat.eqb min 0 && Nat.eqb (mpos y) (mpos x) then None
            else repeatMatcher mr gs greedy fuel' (Nat.pred min)
                   (option_map Nat.pred max) y c in
          let xr := MState (mpos x) (mrest x) (clear_caps gs (mcaps x)) in
          if negb (Nat.eqb min 0) then mr xr d
          else if greedy then orElse (mr xr d) (c x)
          else orElse (c x) (mr xr d)
    end.

  (** Match [r] at state [st], then continue with [k]; backtracking is the
      failure ([None]) of a continuation. *)
Fixpoint m (r : regex) (st : mstate) (k : mstate -> option mstate)
      {struct r} : option mstate :=
    match r with
    | Eps => k st
    | Chr c => step (chr_eqb c) st k
    | Dot => step (fun c => negb (isLineTerminator c)) st k
    | Cls neg items => step (cls_matches neg items) st k
    | Seq r1 r2 => m r1 st (fun st' => m r2 st' k)
    | Alt r1 r2 => orElse (m r1 st k) (m r2 st k)
    | Grp i r1 =>
        m r1 st (fun st' =>
          k (MState (mpos st') (mrest st')
               (<[i := Some (mpos st, mpos st')]> (mcaps st'))))
    | Ref i =>
        match mcaps st !! i with
        | Some (Some (a, b)) =>
            let s := slice input a b in
            if startsWith (mrest st) s
            then k (MState (mpos st + length s) (drop (length s) (mrest st)) (mcaps st))
            else None
        | _ => k st
        end
    | Rep greedy min max r1 =>
        repeatMatcher (m r1) (groups_of r1) greedy (min + length (mrest st)) min max st k
    | Bol => if Nat.eqb (mpos st) 0 then k st else None
    | Eol => match mrest st with [] => k st | _ => None end
    end.

  (** A successful match: index, end index and captures. *)
Record rmatch := RMatch {
    index : nat;
    endIndex : nat;
    caps : captures
  }.

Definition matchAt (r : regex) (ngroups : nat) (pos : nat) (rest : jsstring)
      : option rmatch :=
    match m r (MState pos rest (replicate (S ngroups) None)) Some with
    | Some st => Some (RMatch pos (mpos st) (mcaps st))
    | None => None
    end.

  (** The scan of [RegExpBuiltinExec]: the leftmost position at or after
      [pos] where the pattern matches. *)
Fixpoint execFrom (r : regex) (ngroups : nat) (pos : nat) (rest : jsstring)
      : option rmatch :=
    match matchAt r ngroups pos rest with
    | Some mt => Some mt
    | None =>
        match rest with
        | [] => None
        | _ :: rest' => execFrom r ngroups (S pos) rest'
        end
    end.

  (** [match[0]]. *)
Definition matched (mt : rmatch) : jsstring :=
    slice input (index mt) (endIndex mt).

  (** [match[i]], [undefined] as [None]. *)
Definition group (mt : rmatch) (i : nat) : option jsstring :=
    match caps mt !! i with
    | Some (Some (a, b)) => Some (slice input a b)
    | _ => None
    end.

  (** [match[i]] where [undefined] and the empty string are not told apart
      (truthiness tests, template substitution). *)
Definition groupStr (mt : rmatch) (i : nat) : jsstring :=
    default [] (group mt i).
End Matcher.

(** [re.exec(input)] with [lastIndex = from]. *)
Definition exec (r : regex) (ngroups : nat) (input : jsstring) (from : nat)
    : option rmatch :=
  if Nat.ltb (length input) from then None
  else execFrom input r ngroups from (drop from input).

(** [input.match(re)] for a pattern without the [g] flag. *)
Definition matchRe (r : regex) (ngroups : nat) (input : jsstring) : option rmatch :=
  exec r ngroups input 0.

(** [re.test(input)]. *)
Definition test (r : regex) (ngroups : nat) (input : jsstring) : bool :=
  bool_decide (is_Some (matchRe r ngroups input)).

(** [input.replace(re, f)] for a pattern with the [g] flag; [f] builds the
    replacement from the match.  After an empty match the scan advances by
    one code unit, so [fuel = S (length input)] iterations always suffice. *)
Fixpoint replaceLoop (r : regex) (ngroups : nat) (input : jsstring)
    (f : rmatch -> jsstring) (fuel : nat) (from : nat) : jsstring :=
  match fuel with
  | O => sliceFrom input from
  | S fuel' =>
      match exec r ngroups input from with
      | None => sliceFrom input from
      | Some mt =>
          slice input from (index mt) ++ f mt ++
          (if Nat.eqb (endIndex mt) (index mt)
           then slice input (index mt) (S (index mt)) ++
                replaceLoop r ngroups input f fuel' (S (index mt))
           else replaceLoop r ngroups input f fuel' (endIndex mt))
      end
  end.

Definition replaceAll (r : regex) (ngroups : nat) (input : jsstring)
    (f : rmatch -> jsstring) : jsstring :=
  replaceLoop r ngroups input f (S (length input)) 0.

(** [input.replace(re, f)] for a pattern without the [g] flag. *)
Definition replaceFirst (r : regex) (ngroups : nat) (input : jsstring)
    (f : rmatch -> jsstring) : jsstring :=
  match matchRe r ngroups input with
  | None => input
  | Some mt => slice input 0 (index mt) ++ f mt ++ sliceFrom input (endIndex mt)
  end.

(** Pattern syntax helpers. *)
Fixpoint Str (s : jsstring) : regex :=
  match s with
  | [] => Eps
  | [c] => Chr c
  | c :: s' => Seq (Chr c) (Str s')
  end.

Definition Lit (s : string) : regex := Str (lit s).
Definition star (r : regex) : regex := Rep true 0 None r.
Definition plus (r : regex) : regex := Rep true 1 None r.
Definition lazyStar (r : regex) : regex := Rep false 0 None r.
Definition lazyPlus (r : regex) : regex := Rep false 1 None r.
Definition opt (r : regex) : regex := Rep true 0 (Some 1%nat) r.
Definition atLeast (n : nat) (r : regex) : regex := Rep true n None r.
Definition between (n k : nat) (r : regex) : regex := Rep true n (Some k) r.
Definition ch (s : string) : char :=
  match lit s with c :: _ => c | [] => 0%N end.

Fixpoint seqs (rs : list regex) : regex :=
  match rs with
  | [] => Eps
  | [r] => r
  | r :: rs' => Seq r (seqs rs')
  end.

Fixpoint alts (rs : list regex) : regex :=
  match rs with
  | [] => Eps
  | [r] => r
  | r :: rs' => Alt r (alts rs')
  end.

End Regex.

Import Regex.

(** ** Width of visible text *)

(** \x1b \[ [0-9;] * m  (flag g) *)
Definition ansiRe : regex :=
  seqs [Chr ESC; Chr (ch "["); star (Cls false [IRange (ch "0") (ch "9"); IChar (ch ";")]);
        Chr (ch "m")].

(** Strip ANSI escape codes from a string. *)
Definition stripAnsi (str : jsstring) : jsstring :=
  replaceAll ansiRe 0 str (fun _ => []).

(** Visible width of a string (excluding ANSI codes). *)
Definition visibleWidth (str : jsstring) : nat := length (stripAnsi str).

(** ** Styled fragments *)

Module Color.
  (** [{ r, g, b, a }] with channels of type [C]. *)
Record rgba (C : Type) := mk { r : C; g : C; b : C; a : C }.
Arguments mk {C}.
Arguments r {C}.
Arguments g {C}.
Arguments b {C}.
Arguments a {C}.

Definition ofInts (x y z w : Z) : rgba (option Z) :=
    mk (Some x) (Some y) (Some z) (Some w).
End Color.

(** The renderer's internal colors: integer channels (0-255), or [NaN]
    ([None]) when a theme color failed to parse. *)
Abbreviation RGBA := (Color.rgba (option Z)).

(** TextChunk interface matching OpenTUI's format ([__isChunk] is the
    constant [true]). *)
Record TextChunk := Chunk {
  text : jsstring;
  fg : option RGBA;
  bg : option RGBA;
  attributes : option Z
}.

(** StyledText: the chunks it wraps. *)
Record StyledText := mkStyledText { chunks : list TextChunk }.

(** Text attribute flags. *)
Module Attr.
Definition BOLD : Z := Z.shiftl 1 0.
Definition DIM : Z := Z.shiftl 1 1.
Definition ITALIC : Z := Z.shiftl 1 2.
Definition UNDERLINE : Z := Z.shiftl 1 3.
Definition BLINK : Z := Z.shiftl 1 4.
Definition INVERSE : Z := Z.shiftl 1 5.
Definition HIDDEN : Z := Z.shiftl 1 6.
Definition STRIKETHROUGH : Z := Z.shiftl 1 7.
End Attr.

(** JavaScript's bitwise operators work on 32-bit two's complement. *)
Definition toInt32 (z : Z) : Z := (z + 2 ^ 31) mod 2 ^ 32 - 2 ^ 31.
Definition bitAnd (x y : Z) : Z := Z.land (toInt32 x) (toInt32 y).
Definition bitOr (x y : Z) : Z := toInt32 (Z.lor (toInt32 x) (toInt32 y)).

(** Template interpolation of a number. *)
Definition numToString (n : option Z) : jsstring :=
  match n with
  | Some z => intToString z
  | None => lit "NaN"
  end.

(** Convert RGB values to ANSI 24-bit color escape sequence. *)
Definition rgbToAnsi (r g b : option Z) : jsstring :=
  ESC :: lit "[38;2;" ++ numToString r ++ lit ";" ++ numToString g ++ lit ";"
      ++ numToString b ++ lit "m".

Definition attrCode (attrs mask : Z) (code : string) : jsstring :=
  if bitAnd attrs mask =? 0 then [] else ESC :: lit code.

(** The escape codes [textChunksToAnsi] puts before a chunk's text. *)
Definition chunkCodes (chunk : TextChunk) : jsstring :=
  (match attributes chunk with
   | Some at_ =>
       if at_ =? 0 then []
       else attrCode at_ Attr.BOLD "[1m" ++ attrCode at_ Attr.DIM "[2m"
            ++ attrCode at_ Attr.ITALIC "[3m" ++ attrCode at_ Attr.UNDERLINE "[4m"
            ++ attrCode at_ Attr.BLINK "[5m" ++ attrCode at_ Attr.INVERSE "[7m"
            ++ attrCode at_ Attr.HIDDEN "[8m" ++ attrCode at_ Attr.STRIKETHROUGH "[9m"
   | None => []
   end)
  ++ (match fg chunk with
      | Some c => rgbToAnsi (Color.r c) (Color.g c) (Color.b c)
      | None => []
      end)
  ++ (match bg chunk with
      | Some c => ESC :: lit "[48;2;" ++ numToString (Color.r c) ++ lit ";"
                    ++ numToString (Color.g c) ++ lit ";"
                    ++ numToString (Color.b c) ++ lit "m"
      | None => []
      end).

(** Convert TextChunks to ANSI string for CLI output. *)
Definition textChunksToAnsi (chunks : list TextChunk) : jsstring :=
  fold_left
    (fun result chunk =>
       let codes := chunkCodes chunk in
       result ++ codes ++ text chunk
              ++ (match codes with [] => [] | _ => ESC :: lit "[0m" end))
    chunks [].

(** ** Parsing ANSI escape codes *)

(** Standard ANSI colors (0-15), keyed by SGR code. *)
Definition AnsiColors (code : Z) : option (Z * Z * Z) :=
  match code with
  | 30 => Some (0, 0, 0)
  | 31 => Some (205, 49, 49)
  | 32 => Some (13, 188, 121)
  | 33 => Some (229, 229, 16)
  | 34 => Some (36, 114, 200)
  | 35 => Some (188, 63, 188)
  | 36 => Some (17, 168, 205)
  | 37 => Some (229, 229, 229)
  | 90 => Some (102, 102, 102)
  | 91 => Some (241, 76, 76)
  | 92 => Some (35, 209, 139)
  | 93 => Some (245, 245, 67)
  | 94 => Some (59, 142, 234)
  | 95 => Some (214, 112, 214)
  | 96 => Some (41, 184, 219)
  | 97 => Some (229, 229, 229)
  | _ => None
  end.

(** Background colors (40-47, 100-107). *)
Definition AnsiBgColors (code : Z) : option (Z * Z * Z) :=
  match code with
  | 40 => Some (0, 0, 0)
  | 41 => Some (205, 49, 49)
  | 42 => Some (13, 188, 121)
  | 43 => Some (229, 229, 16)
  | 44 => Some (36, 114, 200)
  | 45 => Some (188, 63, 188)
  | 46 => Some (17, 168, 205)
  | 47 => Some (229, 229, 229)
  | 100 => Some (102, 102, 102)
  | 101 => Some (241, 76, 76)
  | 102 => Some (35, 209, 139)
  | 103 => Some (245, 245, 67)
  | 104 => Some (59, 142, 234)
  | 105 => Some (214, 112, 214)
  | 106 => Some (41, 184, 219)
  | 107 => Some (229, 229, 229)
  | _ => None
  end.

Definition colors16 : list (Z * Z * Z) :=
  [ (0, 0, 0); (128, 0, 0); (0, 128, 0); (128, 128, 0);
    (0, 0, 128); (128, 0, 128); (0, 128, 128); (192, 192, 192);
    (128, 128, 128); (255, 0, 0); (0, 255, 0); (255, 255, 0);
    (0, 0, 255); (255, 0, 255); (0, 255, 255); (255, 255, 255) ].

(** Convert 256-color index to RGB.  Indexing the 16-color table out of
    range gives [undefined] ([None]). *)
Definition ansi256ToRgb (n : Z) : option (Z * Z * Z) :=
  if n <? 16 then
    if n <? 0 then None else colors16 !! Z.to_nat n
  else if n <? 232 then
    let idx := n - 16 in
    let r := idx / 36 in
    let g := (idx mod 36) / 6 in
    let b := idx mod 6 in
    Some (if r =? 0 then 0 else r * 40 + 55,
          if g =? 0 then 0 else g * 40 + 55,
          if b =? 0 then 0 else b * 40 + 55)
  else
    let gray := (n - 232) * 10 + 8 in
    Some (gray, gray, gray).

(** \x1b \[ ( [0-9;] * ) m  (flag g) *)
Definition ansiCodesRe : regex :=
  seqs [Chr ESC; Chr (ch "[");
        Grp 1 (star (Cls false [IRange (ch "0") (ch "9"); IChar (ch ";")]));
        Chr (ch "m")].

(** The style the parser carries between escape sequences. *)
Record AnsiStyle := mkStyle {
  sfg : option RGBA;
  sbg : option RGBA;
  sattrs : Z
}.

Definition rgb255 (t : Z * Z * Z) : RGBA :=
  let '(x, y, z) := t in Color.ofInts x y z 255.

(** One iteration of the loop over the codes of an escape sequence: the
    new style and the new value of [i] (before the final [i++]).  Reading a
    component of an [undefined] table entry throws ([None]). *)
Definition applyCode (codes : list Z) (i : nat) (code : Z) (st : AnsiStyle)
    : option (AnsiStyle * nat) :=
  let at_ k := codes !! (i + k)%nat in
  if code =? 0 then Some (mkStyle None None 0, i)
  else if code =? 1 then Some (mkStyle (sfg st) (sbg st) (bitOr (sattrs st) Attr.BOLD), i)
  else if code =? 2 then Some (mkStyle (sfg st) (sbg st) (bitOr (sattrs st) Attr.DIM), i)
  else if code =? 3 then Some (mkStyle (sfg st) (sbg st) (bitOr (sattrs st) Attr.ITALIC), i)
  else if code =? 4 then Some (mkStyle (sfg st) (sbg st) (bitOr (sattrs st) Attr.UNDERLINE), i)
  else if code =? 5 then Some (mkStyle (sfg st) (sbg st) (bitOr (sattrs st) Attr.BLINK), i)
  else if code =? 7 then Some (mkStyle (sfg st) (sbg st) (bitOr (sattrs st) Attr.INVERSE), i)
  else if code =? 9 then Some (mkStyle (sfg st) (sbg st) (bitOr (sattrs st) Attr.STRIKETHROUGH), i)
  else if (30 <=? code) && (code <=? 37) then
    rgb ← AnsiColors code; Some (mkStyle (Some (rgb255 rgb)) (sbg st) (sattrs st), i)
  else if (40 <=? code) && (code <=? 47) then
    rgb ← AnsiBgColors code; Some (mkStyle (sfg st) (Some (rgb255 rgb)) (sattrs st), i)
  else if (90 <=? code) && (code <=? 97) then
    rgb ← AnsiColors code; Some (mkStyle (Some (rgb255 rgb)) (sbg st) (sattrs st), i)
  else if (100 <=? code) && (code <=? 107) then
    rgb ← AnsiBgColors code; Some (mkStyle (sfg st) (Some (rgb255 rgb)) (sattrs st), i)
  else if (code =? 38) && bool_decide (at_ 1%nat = Some 2) then
    let c := Color.ofInts (default 0 (at_ 2%nat)) (default 0 (at_ 3%nat))
               (default 0 (at_ 4%nat)) 255 in
    Some (mkStyle (Some c) (sbg st) (sattrs st), (i + 4)%nat)
  else if (code =? 48) && bool_decide (at_ 1%nat = Some 2) then
    let c := Color.ofInts (default 0 (at_ 2%nat)) (default 0 (at_ 3%nat))
               (default 0 (at_ 4%nat)) 255 in
    Some (mkStyle (sfg st) (Some c) (sattrs st), (i + 4)%nat)
  else if (code =? 38) && bool_decide (at_ 1%nat = Some 5) then
    rgb ← ansi256ToRgb (default 0 (at_ 2%nat));
    Some (mkStyle (Some (rgb255 rgb)) (sbg st) (sattrs st), (i + 2)%nat)
  else if (code =? 48) && bool_decide (at_ 1%nat = Some 5) then
    rgb ← ansi256ToRgb (default 0 (at_ 2%nat));
    Some (mkStyle (sfg st) (Some (rgb255 rgb)) (sattrs st), (i + 2)%nat)
  else if code =? 39 then Some (mkStyle None (sbg st) (sattrs st), i)
  else if code =? 49 then Some (mkStyle (sfg st) None (sattrs st), i)
  else Some (st, i).

(** [while (i < codes.length) { ...; i++ }]: [i] grows in every iteration,
    so [length codes] iterations are enough. *)
Fixpoint codesLoop (fuel : nat) (codes : list Z) (i : nat) (st : AnsiStyle)
    : option AnsiStyle :=
  match fuel with
  | O => Some st
  | S fuel' =>
      match codes !! i with
      | None => Some st
      | Some code =>
          '(st', i') ← applyCode codes i code st;
          codesLoop fuel' codes (S i') st'
      end
  end.

Definition styledChunk (t : jsstring) (st : AnsiStyle) : TextChunk :=
  Chunk t (sfg st) (sbg st) (Some (sattrs st)).

(** [while ((match = regex.exec(input)) !== null)]: every match of
    [ansiCodesRe] is at least three code units long, so [length input]
    iterations are enough. *)
Fixpoint ansiLoop (fuel : nat) (input : jsstring) (lastIndex : nat)
    (st : AnsiStyle) (acc : list TextChunk) : option (list TextChunk) :=
  match fuel with
  | O => None
  | S fuel' =>
      match exec ansiCodesRe 1 input lastIndex with
      | Some mt =>
          let acc1 :=
            if Nat.ltb lastIndex (index mt) then
              let t := slice input lastIndex (index mt) in
              match t with [] => acc | _ => acc ++ [styledChunk t st] end
            else acc in
          let codes := List.map digitsToNumber (split (ch ";") (groupStr input mt 1)) in
          st' ← codesLoop (length codes) codes 0 st;
          ansiLoop fuel' input (endIndex mt) st' acc1
      | None =>
          Some (if Nat.ltb lastIndex (length input) then
                  let t := sliceFrom input lastIndex in
                  match t with [] => acc | _ => acc ++ [styledChunk t st] end
                else acc)
      end
  end.

(** Parse ANSI escape codes and convert to StyledText with TextChunks. *)
Definition ansiToStyledText (input : jsstring) : option StyledText :=
  cs ← ansiLoop (S (length input)) input 0 (mkStyle None None 0) [];
  Some (mkStyledText cs).

(** ** Themes *)

Module MarkdownTheme.
  (** The theme record, with colors of type [C]: the TUI theme has float
      channels, the renderer's internal copy has integer channels. *)
Record t (C : Type) := mk {
    text : C; textMuted : C; accent : C; primary : C; border : C;
    background : C; backgroundPanel : C; backgroundElement : C;
    markdownText : C; markdownHeading : C; markdownLink : C;
    markdownLinkText : C; markdownCode : C; markdownCodeBlock : C;
    markdownBlockQuote : C; markdownEmph : C; markdownStrong : C;
    markdownListItem : C; markdownListEnumeration : C;
    markdownHorizontalRule : C; diffAdded : C; diffRemoved : C
  }.
Arguments mk {C}.
Arguments text {C}.
Arguments textMuted {C}.
Arguments accent {C}.
Arguments primary {C}.
Arguments border {C}.
Arguments background {C}.
Arguments backgroundPanel {C}.
Arguments backgroundElement {C}.
Arguments markdownText {C}.
Arguments markdownHeading {C}.
Arguments markdownLink {C}.
Arguments markdownLinkText {C}.
Arguments markdownCode {C}.
Arguments markdownCodeBlock {C}.
Arguments markdownBlockQuote {C}.
Arguments markdownEmph {C}.
Arguments markdownStrong {C}.
Arguments markdownListItem {C}.
Arguments markdownListEnumeration {C}.
Arguments markdownHorizontalRule {C}.
Arguments diffAdded {C}.
Arguments diffRemoved {C}.

  (** Apply [f] to every role. *)
Definition map {C D} (f : C -> D) (th : t C) : t D :=
    mk (f (text th)) (f (textMuted th)) (f (accent th)) (f (primary th))
       (f (border th)) (f (background th)) (f (backgroundPanel th))
       (f (backgroundElement th)) (f (markdownText th)) (f (markdownHeading th))
       (f (markdownLink th)) (f (markdownLinkText th)) (f (markdownCode th))
       (f (markdownCodeBlock th)) (f (markdownBlockQuote th)) (f (markdownEmph th))
       (f (markdownStrong th)) (f (markdownListItem th))
       (f (markdownListEnumeration th)) (f (markdownHorizontalRule th))
       (f (diffAdded th)) (f (diffRemoved th)).
End MarkdownTheme.

(** TUI theme colors: channels are floats in 0-1, modelled by rationals. *)
Abbreviation TuiRGBA := (Color.rgba (option Q)).
Abbreviation TuiTheme := (MarkdownTheme.t TuiRGBA).
Abbreviation IntTheme := (MarkdownTheme.t RGBA).

(** ** Inline elements *)

Definition DQUOTE : char := 34%N.

(** [addChunk(t, color, attrs)]: the chunks it pushes. *)
Definition addChunk (t : jsstring) (color : option RGBA) (attrs : Z) : list TextChunk :=
  match t with
  | [] => []
  | _ => [Chunk t color None (Some attrs)]
  end.

(** [addChunkWithBg(text, fg, bg, attrs)]. *)
Definition addChunkWithBg (t : jsstring) (fg bg : option RGBA) (attrs : Z)
    : list TextChunk :=
  match t with
  | [] => []
  | _ => [Chunk t fg bg (Some attrs)]
  end.

(** The combined pattern for inline elements (flag g), as six alternatives:
    - ( \*\*\* | ___ ) ( . *? ) \1
    - \*\* ( . +? ) \*\*
    - \* ( . +? ) \*
    - a backtick, ( [^backtick] + ), a backtick
    - \[ ( [^\]] + ) \] \( ( [^)\s] + ) (?: \s+ DQUOTE [^DQUOTE] * DQUOTE ) ? \)
    - ~~ ( . +? ) ~~ *)
Definition inlineRegex : regex :=
  alts [
    seqs [Grp 1 (Alt (Lit "***") (Lit "___")); Grp 2 (lazyStar Dot); Ref 1];
    seqs [Lit "**"; Grp 3 (lazyPlus Dot); Lit "**"];
    seqs [Lit "*"; Grp 4 (lazyPlus Dot); Lit "*"];
    seqs [Lit "`"; Grp 5 (plus (Cls true [IChar (ch "`")])); Lit "`"];
    seqs [Lit "["; Grp 6 (plus (Cls true [IChar (ch "]")])); Lit "]"; Lit "(";
          Grp 7 (plus (Cls true [IChar (ch ")"); ISpace]));
          opt (seqs [plus (Cls false [ISpace]); Chr DQUOTE;
                     star (Cls true [IChar DQUOTE]); Chr DQUOTE]);
          Lit ")"];
    seqs [Lit "~~"; Grp 8 (lazyPlus Dot); Lit "~~"]
  ].

(** ^ ( . * ) ? \* ( . +? ) \* ( . * ) $ *)
Definition nestedItalicRegex : regex :=
  seqs [Bol; opt (Grp 1 (star Dot)); Lit "*"; Grp 2 (lazyPlus Dot); Lit "*";
        Grp 3 (star Dot); Eol].

(** ^ ( . * ) ? \*\* ( . +? ) \*\* ( . * ) $ *)
Definition nestedBoldRegex : regex :=
  seqs [Bol; opt (Grp 1 (star Dot)); Lit "**"; Grp 2 (lazyPlus Dot); Lit "**";
        Grp 3 (star Dot); Eol].

(** The chunks pushed for one match of [inlineRegex]. *)
Definition inlineMatchChunks (text : jsstring) (theme : IntTheme) (mt : rmatch)
    : list TextChunk :=
  let grp := group text mt in
  let strong := Some (MarkdownTheme.markdownStrong theme) in
  let emph := Some (MarkdownTheme.markdownEmph theme) in
  match grp 1%nat, grp 3%nat, grp 4%nat, grp 5%nat, grp 6%nat, grp 8%nat with
  | Some (_ :: _), _, _, _, _, _ =>
      (* Bold+Italic *)
      addChunk (groupStr text mt 2) strong (bitOr Attr.BOLD Attr.ITALIC)
  | _, Some boldContent, _, _, _, _ =>
      (* Bold - may contain nested italic *)
      match matchRe nestedItalicRegex 3 boldContent with
      | Some nested =>
          addChunk (groupStr boldContent nested 1) strong Attr.BOLD
          ++ addChunk (groupStr boldContent nested 2) strong (bitOr Attr.BOLD Attr.ITALIC)
          ++ addChunk (groupStr boldContent nested 3) strong Attr.BOLD
      | None => addChunk boldContent strong Attr.BOLD
      end
  | _, _, Some italicContent, _, _, _ =>
      (* Italic - may contain nested bold *)
      match matchRe nestedBoldRegex 3 italicContent with
      | Some nested =>
          addChunk (groupStr italicContent nested 1) emph Attr.ITALIC
          ++ addChunk (groupStr italicContent nested 2) strong (bitOr Attr.BOLD Attr.ITALIC)
          ++ addChunk (groupStr italicContent nested 3) emph Attr.ITALIC
      | None => addChunk italicContent emph Attr.ITALIC
      end
  | _, _, _, Some code, _, _ =>
      addChunk code (Some (MarkdownTheme.markdownCode theme)) 0
  | _, _, _, _, Some linkText, _ =>
      let url := groupStr text mt 7 in
      addChunk linkText (Some (MarkdownTheme.markdownLinkText theme)) Attr.UNDERLINE
      ++ addChunk (lit " (") (Some (MarkdownTheme.markdownText theme)) 0
      ++ addChunk url (Some (MarkdownTheme.markdownLink theme)) Attr.UNDERLINE
      ++ addChunk (lit ")") (Some (MarkdownTheme.markdownText theme)) 0
  | _, _, _, _, _, Some struck =>
      addChunk struck (Some (MarkdownTheme.textMuted theme)) Attr.STRIKETHROUGH
  | _, _, _, _, _, _ => []
  end.

(** [while ((match = inlineRegex.exec(text)) !== null)]: every match is at
    least three code units long, so [length text] iterations are enough. *)
Fixpoint inlineLoop (fuel : nat) (text : jsstring) (theme : IntTheme)
    (defaultColor : RGBA) (defaultAttrs : Z) (lastIndex : nat) : list TextChunk :=
  let remaining :=
    if Nat.ltb lastIndex (length text)
    then addChunk (sliceFrom text lastIndex) (Some defaultColor) defaultAttrs
    else [] in
  match fuel with
  | O => remaining
  | S fuel' =>
      match exec inlineRegex 8 text lastIndex with
      | Some mt =>
          (if Nat.ltb lastIndex (index mt)
           then addChunk (slice text lastIndex (index mt)) (Some defaultColor) defaultAttrs
           else [])
          ++ inlineMatchChunks text theme mt
          ++ inlineLoop fuel' text theme defaultColor defaultAttrs (endIndex mt)
      | None => remaining
      end
  end.

(** Render inline markdown with a default color/attribute for plain text:
    the chunks pushed. *)
Definition renderInlineThemedWithDefault (text : jsstring) (theme : IntTheme)
    (defaultColor : RGBA) (defaultAttrs : Z) : list TextChunk :=
  inlineLoop (length text) text theme defaultColor defaultAttrs 0.

(** Render inline markdown elements (bold, italic, code, links) with theme
    colors. *)
Definition renderInlineThemed (text : jsstring) (theme : IntTheme) : list TextChunk :=
  renderInlineThemedWithDefault text theme (MarkdownTheme.markdownText theme) 0.

(** ** Tables *)

Module Box.
Definition topLeft : jsstring := [9484%N].
Definition topRight : jsstring := [9488%N].
Definition bottomLeft : jsstring := [9492%N].
Definition bottomRight : jsstring := [9496%N].
Definition horizontal : jsstring := [9472%N].
Definition vertical : jsstring := [9474%N].
Definition leftT : jsstring := [9500%N].
Definition rightT : jsstring := [9508%N].
Definition topT : jsstring := [9516%N].
Definition bottomT : jsstring := [9524%N].
Definition cross : jsstring := [9532%N].
End Box.

(** Split on | but not \|, then unescape any \| to |: the loop over the
    code units of the row, with the cells closed so far and the open cell. *)
Fixpoint parseRowLoop (row : jsstring) (cells : list jsstring) (cell : jsstring)
    : list jsstring :=
  match row with
  | [] => cells ++ [cell]
  | c :: rest =>
      match rest with
      | c' :: rest' =>
          if chr_eqb c (ch "\") && chr_eqb c' (ch "|")
          then parseRowLoop rest' cells (cell ++ lit "|")
          else if chr_eqb c (ch "|") then parseRowLoop rest (cells ++ [cell]) []
          else parseRowLoop rest cells (cell ++ [c])
      | [] =>
          if chr_eqb c (ch "|") then parseRowLoop rest (cells ++ [cell]) []
          else parseRowLoop rest cells (cell ++ [c])
      end
  end.

Definition parseRow (row : jsstring) : list jsstring :=
  List.map trim (sliceInner (parseRowLoop row [] [])).

(** ^ \| [\s \- : | \s] + \| $ *)
Definition separatorRegex : regex :=
  seqs [Bol; Lit "|";
        plus (Cls false [ISpace; IChar (ch "-"); IChar (ch ":"); IChar (ch "|"); ISpace]);
        Lit "|"; Eol].

(** Check if a line is a separator line (contains only dashes, colons,
    pipes, spaces). *)
Definition isSeparatorLine (line : jsstring) : bool :=
  test separatorRegex 0 line.

(** The six patterns of [visibleLength] (all with flag g):
    - \*\*\* ( . +? ) \*\*\*
    - \*\* ( . +? ) \*\*
    - \* ( . +? ) \*
    - a backtick, ( [^backtick] + ), a backtick
    - ~~ ( . +? ) ~~
    - \[ ( [^\]] + ) \] \( ( [^)] + ) \) *)
Definition stripBoldItalicRe : regex := seqs [Lit "***"; Grp 1 (lazyPlus Dot); Lit "***"].
Definition stripBoldRe : regex := seqs [Lit "**"; Grp 1 (lazyPlus Dot); Lit "**"].
Definition stripItalicRe : regex := seqs [Lit "*"; Grp 1 (lazyPlus Dot); Lit "*"].
Definition stripCodeRe : regex :=
  seqs [Lit "`"; Grp 1 (plus (Cls true [IChar (ch "`")])); Lit "`"].
Definition stripStrikeRe : regex := seqs [Lit "~~"; Grp 1 (lazyPlus Dot); Lit "~~"].
Definition stripLinkRe : regex :=
  seqs [Lit "["; Grp 1 (plus (Cls true [IChar (ch "]")])); Lit "]"; Lit "(";
        Grp 2 (plus (Cls true [IChar (ch ")")])); Lit ")"].

(** The text [visibleLength] measures: markdown syntax stripped. *)
Definition stripMarkdown (text : jsstring) : jsstring :=
  let keep1 t (mt : rmatch) := groupStr t mt 1 in
  let t1 := replaceAll stripBoldItalicRe 1 text (keep1 text) in
  let t2 := replaceAll stripBoldRe 1 t1 (keep1 t1) in
  let t3 := replaceAll stripItalicRe 1 t2 (keep1 t2) in
  let t4 := replaceAll stripCodeRe 1 t3 (keep1 t3) in
  let t5 := replaceAll stripStrikeRe 1 t4 (keep1 t4) in
  replaceAll stripLinkRe 2 t5
    (fun mt => groupStr t5 mt 1 ++ lit " (" ++ groupStr t5 mt 2 ++ lit ")").

(** [Math.max(...l, 0)] *)
Definition maxWith0 (l : list Z) : Z := fold_right Z.max 0 l.

(** [Math.max(...l)] for a non-empty [l]. *)
Definition maxOf (l : list Z) : Z :=
  match l with
  | [] => 0
  | x :: l' => fold_left Z.max l' x
  end.

(** [l.indexOf(x)] *)
Fixpoint indexOf (x : Z) (l : list Z) : option nat :=
  match l with
  | [] => None
  | y :: l' => if y =? x then Some O else option_map S (indexOf x l')
  end.

(** Total width = sum of colWidths + 3 per col (2 padding + 1 border) + 1
    (final border). *)
Definition calcWidth (colWidths : list Z) : Z :=
  fold_left (fun a b => a + b + 3) colWidths 1.

(** The condition of the shrink loop. *)
Definition shrinkCond (maxWidth : Z) (colWidths : list Z) : bool :=
  (maxWidth <? calcWidth colWidths) && existsb (fun w => 10 <? w) colWidths.

(** The body of the shrink loop. *)
Definition shrinkStep (colWidths : list Z) : list Z :=
  match indexOf (maxOf colWidths) colWidths with
  | Some maxIdx =>
      <[maxIdx := Z.max 10 (default 0 (colWidths !! maxIdx) - 1)]> colWidths
  | None => colWidths
  end.

(** [while (calcWidth() > maxWidth && colWidths.some((w) => w > 10))] *)
Fixpoint shrinkLoop (fuel : nat) (maxWidth : Z) (colWidths : list Z) : list Z :=
  match fuel with
  | O => colWidths
  | S fuel' =>
      if shrinkCond maxWidth colWidths
      then shrinkLoop fuel' maxWidth (shrinkStep colWidths)
      else colWidths
  end.

(** The number of iterations the shrink loop can make at most. *)
Definition shrinkFuel (colWidths : list Z) : nat :=
  Z.to_nat (fold_right (fun w acc => Z.max 0 (w - 10) + acc) 0 colWidths).

Definition fitWidths (maxWidth : Z) (colWidths : list Z) : list Z :=
  shrinkLoop (shrinkFuel colWidths) maxWidth colWidths.

Section Table.
  (** [Bun.stringWidth], a primitive of the runtime: the display width of
      a string. *)
Variable stringWidth : jsstring -> nat.

  (** Calculate visible length (after markdown rendering). *)
Definition visibleLength (text : jsstring) : Z :=
    Z.of_nat (stringWidth (stripMarkdown text)).

  (** Split into tokens, keeping backtick-quoted sections together. *)
Fixpoint tokenize (text : jsstring) (tokens : list jsstring) (current : jsstring)
      (inBacktick : bool) : list jsstring :=
    match text with
    | [] => match current with [] => tokens | _ => tokens ++ [current] end
    | c :: rest =>
        if chr_eqb c (ch "`") then tokenize rest tokens (current ++ [c]) (negb inBacktick)
        else if chr_eqb c SP && negb inBacktick then
          tokenize rest
            ((match current with [] => tokens | _ => tokens ++ [current] end) ++ [lit " "])
            [] inBacktick
        else tokenize rest tokens (current ++ [c]) inBacktick
    end.

Definition quotePart (isQuoted : bool) (part : jsstring) : jsstring :=
    if isQuoted then lit "`" ++ part ++ lit "`" else part.

  (** The loop of [breakLongToken] over the code units of [inner]. *)
Fixpoint breakLoop (isQuoted : bool) (maxLen : Z) (inner : jsstring)
      (parts : list jsstring) (part : jsstring) : list jsstring :=
    match inner with
    | [] => match part with [] => parts | _ => parts ++ [quotePart isQuoted part] end
    | c :: rest =>
        let part' := part ++ [c] in
        let effectiveMax := if isQuoted then maxLen - 2 else maxLen in
        if (effectiveMax - 2 <=? Z.of_nat (length part'))
           && (chr_eqb c (ch ".") || chr_eqb c (ch "-"))
           && (match rest with [] => false | _ => true end)
        then breakLoop isQuoted maxLen rest (parts ++ [quotePart isQuoted part']) []
        else breakLoop isQuoted maxLen rest parts part'
    end.

  (** Break a long token on . or - characters. *)
Definition breakLongToken (token : jsstring) (maxLen : Z) : list jsstring :=
    if Z.of_nat (length token) <=? maxLen then [token]
    else
      let isQuoted := startsWith token (lit "`") && endsWith token (lit "`") in
      let inner := if isQuoted then sliceInner token else token in
      breakLoop isQuoted maxLen inner [] [].

  (** The loop over the parts of a broken token: the lines closed so far
      and the open line. *)
Definition placePart (width : Z) (st : list jsstring * jsstring) (part : jsstring)
      : list jsstring * jsstring :=
    let '(lines, line) := st in
    if visibleLength line =? 0 then (lines, part)
    else if visibleLength (line ++ part) <=? width then (lines, line ++ part)
    else (lines ++ [trimEnd line], part).

  (** The loop of [wordWrap] over the tokens. *)
Definition placeToken (width : Z) (st : list jsstring * jsstring) (token : jsstring)
      : list jsstring * jsstring :=
    let '(lines, line) := st in
    if str_eqb token (lit " ") then
      if (0 <? visibleLength line) && (visibleLength line <? width)
      then (lines, line ++ lit " ") else (lines, line)
    else if visibleLength line =? 0 then
      if width <? visibleLength token
      then fold_left (placePart width) (breakLongToken token width) (lines, line)
      else (lines, token)
    else if visibleLength (line ++ token) <=? width then (lines, line ++ token)
    else
      let lines' := lines ++ [trimEnd line] in
      if width <? visibleLength token
      then fold_left (placePart width) (breakLongToken token width) (lines', line)
      else (lines', token).

  (** Word wrap text to fit width, returns array of lines. *)
Definition wordWrap (text : jsstring) (width : Z) : list jsstring :=
    if visibleLength text <=? width then [text]
    else
      let tokens := tokenize text [] [] false in
      let '(lines, line) := fold_left (placeToken width) tokens ([], []) in
      let lines' := match line with [] => lines | _ => lines ++ [trimEnd line] end in
      match lines' with [] => [[]] | _ => lines' end.

  (** [tableLines.slice(1).filter((line) => !isSeparatorLine(line)).map(parseRow)] *)
Definition tableDataRows (tableLines : list jsstring) : list (list jsstring) :=
    List.map parseRow (List.filter (fun line => negb (isSeparatorLine line)) (drop 1 tableLines)).

  (** Natural column widths. *)
Definition naturalWidths (headerRow : list jsstring) (dataRows : list (list jsstring))
      : list Z :=
    imap (fun i h =>
            let dataMax :=
              maxWith0 (List.map (fun r => visibleLength (default [] (r !! i))) dataRows) in
            Z.max (visibleLength h) dataMax)
         headerRow.

  (** The column widths the table is drawn with. *)
Definition tableColWidths (tableLines : list jsstring) (cols : Z) : list Z :=
    let headerRow := parseRow (default [] (tableLines !! 0%nat)) in
    fitWidths (cols - 4) (naturalWidths headerRow (tableDataRows tableLines)).

  (** A border line: [left + colWidths.map(...).join(mid) + right + "\n"]. *)
Definition borderLine (left mid right : jsstring) (colWidths : list Z)
      : option jsstring :=
    segs ← mapM (fun w => JS.repeat Box.horizontal (w + 2)) colWidths;
    Some (left ++ join mid segs ++ right ++ [NL]).

Variable theme : IntTheme.

  (** One cell of the header row. *)
Definition headerCell (colWidths : list Z) (i : nat) (cell : jsstring)
      : option (list TextChunk) :=
    let border := Some (MarkdownTheme.border theme) in
    let heading := Some (MarkdownTheme.markdownHeading theme) in
    let cellWidth := Z.of_nat (stringWidth cell) in
    body ←
      match colWidths !! i with
      | Some targetWidth =>
          if cellWidth <=? targetWidth then
            pad ← JS.repeat (lit " ") (targetWidth - cellWidth);
            Some (addChunk (cell ++ pad) heading Attr.BOLD)
          else
            Some (addChunk (slice cell 0 (Z.to_nat targetWidth)) heading Attr.BOLD)
      | None => Some (addChunk cell heading Attr.BOLD)
      end;
    Some (addChunk (lit " ") border 0 ++ body ++ addChunk (lit " " ++ Box.vertical) border 0).

  (** Helper to render cell with inline formatting and pad to width. *)
Definition renderCell (txt : jsstring) (width : Z) (isHeader : bool)
      : option (list TextChunk) :=
    match txt with
    | [] =>
        pad ← JS.repeat (lit " ") width;
        Some (addChunk pad (Some (MarkdownTheme.markdownText theme)) 0)
    | _ =>
        let cellChunks :=
          if isHeader
          then [Chunk txt (Some (MarkdownTheme.markdownHeading theme)) None (Some Attr.BOLD)]
          else renderInlineThemed txt theme in
        let len := fold_left (fun len c => len + Z.of_nat (stringWidth (text c))) cellChunks 0 in
        if len <? width then
          pad ← JS.repeat (lit " ") (width - len);
          Some (cellChunks ++ addChunk pad (Some (MarkdownTheme.markdownText theme)) 0)
        else Some cellChunks
    end.

  (** One printed line of a data row: [wrappedCells.forEach(...)] between
      the left border and the newline. *)
Definition rowLine (colWidths : list Z) (wrappedCells : list (list jsstring))
      (lineIdx : nat) : option (list TextChunk) :=
    let border := Some (MarkdownTheme.border theme) in
    cells ← mapM id
      (imap (fun i lines =>
               body ← renderCell (default [] (lines !! lineIdx))
                                 (default 0 (colWidths !! i)) false;
               Some (addChunk (lit " ") border 0 ++ body
                     ++ addChunk (lit " " ++ Box.vertical) border 0))
            wrappedCells);
    Some (addChunk Box.vertical border 0 ++ concat cells ++ addChunk [NL] None 0).

  (** One data row, word wrapped: [maxLines] printed lines. *)
Definition dataRow (colWidths : list Z) (row : list jsstring)
      : option (list TextChunk) :=
    let wrappedCells := imap (fun i cell => wordWrap cell (default 10 (colWidths !! i))) row in
    let maxLines := fold_right Nat.max O (List.map (@length jsstring) wrappedCells) in
    rows ← mapM (rowLine colWidths wrappedCells) (seq 0 maxLines);
    Some (concat rows).

  (** Render table with theme colors: the chunks pushed. *)
Definition renderTableThemed (tableLines : list jsstring) (cols : Z)
      : option (list TextChunk) :=
    if Nat.ltb (length tableLines) 2 then Some []
    else
      let border := Some (MarkdownTheme.border theme) in
      let headerRow := parseRow (default [] (tableLines !! 0%nat)) in
      let dataRows := tableDataRows tableLines in
      let colWidths := tableColWidths tableLines cols in
      top ← borderLine Box.topLeft Box.topT Box.topRight colWidths;
      header ← mapM id (imap (headerCell colWidths) headerRow);
      sep ← borderLine Box.leftT Box.cross Box.rightT colWidths;
      rows ← mapM (dataRow colWidths) dataRows;
      bottom ← borderLine Box.bottomLeft Box.bottomT Box.bottomRight colWidths;
      Some (addChunk top border 0
            ++ addChunk Box.vertical border 0 ++ concat header ++ addChunk [NL] None 0
            ++ addChunk sep border 0
            ++ concat rows
            ++ addChunk bottom border 0).

  (** ** Blocks *)

  (** ^ ( #{1,6} ) \s+ ( . * ) $ *)
Definition headerRegex : regex :=
    seqs [Bol; Grp 1 (between 1 6 (Lit "#")); plus (Cls false [ISpace]);
          Grp 2 (star Dot); Eol].

  (** ^ ( -{3,} | _{3,} | \*{3,} ) $ *)
Definition hrRegex : regex :=
    seqs [Bol; Grp 1 (alts [atLeast 3 (Lit "-"); atLeast 3 (Lit "_"); atLeast 3 (Lit "*")]);
          Eol].

  (** ^ > \s* *)
Definition quoteMarkRegex : regex :=
    seqs [Bol; Lit ">"; star (Cls false [ISpace])].

Definition bulletClass : regex :=
    Cls false [IChar (ch "-"); IChar (ch "*"); IChar (ch "+")].

  (** ^ [-*+] \s+ \[ ( [ xX] ) \] \s+ ( . * ) $ *)
Definition taskRegex : regex :=
    seqs [Bol; bulletClass; plus (Cls false [ISpace]); Lit "[";
          Grp 1 (Cls false [IChar SP; IChar (ch "x"); IChar (ch "X")]); Lit "]";
          plus (Cls false [ISpace]); Grp 2 (star Dot); Eol].

  (** ^ ( \s* ) *)
Definition indentRegex : regex :=
    seqs [Bol; Grp 1 (star (Cls false [ISpace]))].

  (** ^ [-*+] \s+ ( . * ) $ *)
Definition ulRegex : regex :=
    seqs [Bol; bulletClass; plus (Cls false [ISpace]); Grp 1 (star Dot); Eol].

  (** ^ ( \d+ ) [.)] \s+ ( . * ) $ *)
Definition olRegex : regex :=
    seqs [Bol; Grp 1 (plus (Cls false [IRange (ch "0") (ch "9")]));
          Cls false [IChar (ch "."); IChar (ch ")")]; plus (Cls false [ISpace]);
          Grp 2 (star Dot); Eol].

  (** The leading whitespace of [line]: group 1 of its match with
      [indentRegex], or the empty string. *)
Definition lineIndent (line : jsstring) : jsstring :=
    match matchRe indentRegex 1 line with
    | Some mt => groupStr line mt 1
    | None => []
    end.

  (** A line that belongs to a table: starts and ends with a pipe. *)
Definition isTableLine (trimmed : jsstring) : bool :=
    startsWith trimmed (lit "|") && endsWith trimmed (lit "|").

  (** The state carried from line to line. *)
Record BlockState := mkBlockState {
    inCodeBlock : bool;
    codeBlockLang : jsstring;
    inTable : bool;
    tableLines : list jsstring
  }.

Definition initialBlockState : BlockState := mkBlockState false [] false [].

Definition fence : jsstring := lit "```".

  (** The body of the loop over the lines: the chunks pushed for [line]
      and the new state.  [next] is [lines[i + 1]]. *)
Definition renderLine (cols : Z) (line : jsstring) (next : option jsstring)
      (st : BlockState) : option (list TextChunk * BlockState) :=
    let trimmed := trim line in
    let T := MarkdownTheme.markdownText theme in
    if startsWith trimmed fence then
      (* Code block fence *)
      if inCodeBlock st
      then Some ([], mkBlockState false [] (inTable st) (tableLines st))
      else Some ([], mkBlockState true (trim (sliceFrom trimmed 3)) (inTable st) (tableLines st))
    else if inCodeBlock st then
      (* Inside code block - handle diff specially *)
      let t := lit "  " ++ line ++ [NL] in
      if str_eqb (codeBlockLang st) (lit "diff") then
        if startsWith trimmed (lit "+")
        then Some (addChunk t (Some (MarkdownTheme.diffAdded theme)) 0, st)
        else if startsWith trimmed (lit "-")
        then Some (addChunk t (Some (MarkdownTheme.diffRemoved theme)) 0, st)
        else Some (addChunk t (Some (MarkdownTheme.markdownCodeBlock theme)) 0, st)
      else Some (addChunk t (Some (MarkdownTheme.markdownCodeBlock theme)) Attr.ITALIC, st)
    else if isTableLine trimmed then
      (* Table detection *)
      let lines' := (if inTable st then tableLines st else []) ++ [trimmed] in
      let nextLine := option_map trim next in
      if (match nextLine with
          | None | Some [] => true
          | Some n => negb (startsWith n (lit "|")) || negb (endsWith n (lit "|"))
          end)
      then
        out ← renderTableThemed lines' cols;
        Some (out, mkBlockState (inCodeBlock st) (codeBlockLang st) false [])
      else Some ([], mkBlockState (inCodeBlock st) (codeBlockLang st) true lines')
    else
      match matchRe headerRegex 2 trimmed with
      | Some headerMatch =>
          (* Headers *)
          let level := length (groupStr trimmed headerMatch 1) in
          let txt := groupStr trimmed headerMatch 2 in
          let heading := MarkdownTheme.markdownHeading theme in
          let panel := Some (MarkdownTheme.backgroundPanel theme) in
          if Nat.leb level 2 then
            Some (addChunkWithBg (lit "  ") (Some heading) panel Attr.BOLD
                  ++ renderInlineThemedWithDefault txt theme heading Attr.BOLD
                  ++ addChunkWithBg (lit "  " ++ [NL]) (Some heading) panel Attr.BOLD, st)
          else
            Some (renderInlineThemedWithDefault txt theme heading Attr.BOLD
                  ++ addChunk [NL] None 0, st)
      | None =>
          if test hrRegex 1 trimmed then
            (* Horizontal rule *)
            rule ← JS.repeat Box.horizontal (cols - 4);
            Some (addChunk (rule ++ [NL]) (Some (MarkdownTheme.markdownHorizontalRule theme))
                    Attr.DIM, st)
          else if startsWith trimmed (lit ">") then
            (* Blockquote *)
            let content := replaceFirst quoteMarkRegex 0 trimmed (fun _ => []) in
            Some (addChunk (lit "  " ++ Box.vertical ++ lit " ")
                    (Some (MarkdownTheme.border theme)) Attr.DIM
                  ++ renderInlineThemedWithDefault content theme
                       (MarkdownTheme.markdownBlockQuote theme) Attr.ITALIC
                  ++ addChunk [NL] None 0, st)
          else
            match matchRe taskRegex 2 trimmed with
            | Some taskMatch =>
                (* Task list item with checkbox *)
                let indent := lineIndent line in
                let mark := groupStr trimmed taskMatch 1 in
                let checked := str_eqb mark (lit "x") || str_eqb mark (lit "X") in
                let content := groupStr trimmed taskMatch 2 in
                let item := Some (MarkdownTheme.markdownListItem theme) in
                Some (addChunk (indent ++ lit "- ") item 0
                      ++ addChunk (lit "[") item 0
                      ++ addChunk (if checked then lit "x" else lit " ")
                           (Some (if checked then MarkdownTheme.diffAdded theme
                                  else MarkdownTheme.textMuted theme)) 0
                      ++ addChunk (lit "] ") item 0
                      ++ renderInlineThemed content theme
                      ++ addChunk [NL] None 0, st)
            | None =>
                match matchRe ulRegex 1 trimmed with
                | Some ulMatch =>
                    (* Unordered list *)
                    let indent := lineIndent line in
                    let content := groupStr trimmed ulMatch 1 in
                    Some (addChunk (indent ++ lit "- ")
                            (Some (MarkdownTheme.markdownListItem theme)) 0
                          ++ renderInlineThemed content theme
                          ++ addChunk [NL] None 0, st)
                | None =>
                    match matchRe olRegex 2 trimmed with
                    | Some olMatch =>
                        (* Ordered list *)
                        let indent := lineIndent line in
                        let num := groupStr trimmed olMatch 1 in
                        let content := groupStr trimmed olMatch 2 in
                        Some (addChunk (indent ++ num ++ lit ". ")
                                (Some (MarkdownTheme.markdownListEnumeration theme)) 0
                              ++ renderInlineThemed content theme
                              ++ addChunk [NL] None 0, st)
                    | None =>
                        match trimmed with
                        | [] => Some (addChunk [NL] None 0, st)  (* Empty line *)
                        | _ =>
                            (* Regular text with inline formatting *)
                            Some (renderInlineThemed line theme ++ addChunk [NL] None 0, st)
                        end
                    end
                end
            end
      end.

  (** [for (let i = 0; i < lines.length; i++)] *)
Fixpoint blockLoop (cols : Z) (lines : list jsstring) (st : BlockState)
      : option (list TextChunk) :=
    match lines with
    | [] => Some []
    | line :: rest =>
        '(out, st') ← renderLine cols line (head rest) st;
        more ← blockLoop cols rest st';
        Some (out ++ more)
    end.
End Table.

(** [Math.round] on a rational: the nearest integer, ties upwards. *)
Definition Math_round (q : Q) : Z := Qfloor (q + (1 # 2))%Q.

(** Convert TUI RGBA (0-1 floats) to internal RGBA (0-255 ints). *)
Definition toIntRGBA (rgba : TuiRGBA) : RGBA :=
  let conv (x : option Q) := option_map (fun q => Math_round (q * inject_Z 255)%Q) x in
  Color.mk (conv (Color.r rgba)) (conv (Color.g rgba)) (conv (Color.b rgba))
           (conv (Color.a rgba)).

(** Render markdown directly to TextChunks using theme colors; [cols] is
    the resolved [options.cols ?? process.stdout.columns ?? 80]. *)
Definition renderMarkdownThemedStyled (stringWidth : jsstring -> nat)
    (md : jsstring) (tuiTheme : TuiTheme) (cols : Z) : option StyledText :=
  let theme := MarkdownTheme.map toIntRGBA tuiTheme in
  cs ← blockLoop stringWidth theme cols (split NL md) (initialBlockState);
  Some (mkStyledText cs).

(** ** Segments *)

(** Segment types for parsed markdown. *)
Inductive MarkdownSegment :=
| TextSegment (content : jsstring)
| CodeSegment (content : jsstring) (language : jsstring).

Module Segments.
Record state := mk {
  segments : list MarkdownSegment;
  currentText : list jsstring;
  inCodeBlock : bool;
  codeBlockLang : jsstring;
  codeBlockContent : list jsstring
}.

Definition flushText (st : state) : state :=
  match currentText st with
  | [] => st
  | _ =>
      mk (segments st ++ [TextSegment (join [NL] (currentText st))]) []
         (inCodeBlock st) (codeBlockLang st) (codeBlockContent st)
  end.

(** The body of [for (const line of lines)]. *)
Definition step (st : state) (line : jsstring) : state :=
  let trimmed := trim line in
  if startsWith trimmed (lit "```") then
    if inCodeBlock st then
      (* End code block *)
      mk (segments st ++ [CodeSegment (join [NL] (codeBlockContent st)) (codeBlockLang st)])
         (currentText st) false [] []
    else
      (* Start code block *)
      let st' := flushText st in
      let lang := trim (sliceFrom trimmed 3) in
      mk (segments st') (currentText st') true
         (match lang with [] => lit "text" | _ => lang end) (codeBlockContent st')
  else if inCodeBlock st then
    mk (segments st) (currentText st) (inCodeBlock st) (codeBlockLang st)
       (codeBlockContent st ++ [line])
  else
    mk (segments st) (currentText st ++ [line]) (inCodeBlock st) (codeBlockLang st)
       (codeBlockContent st).

Definition initial : state := mk [] [] false [] [].
End Segments.

(** Parse markdown into segments - separates code blocks from other
    content. *)
Definition parseMarkdownSegments (md : jsstring) : list MarkdownSegment :=
  let st := Segments.flushText (fold_left Segments.step (split NL md) Segments.initial) in
  (* Handle unclosed code block *)
  if Segments.inCodeBlock st
     && (match Segments.codeBlockContent st with [] => false | _ => true end)
  then Segments.segments st
       ++ [CodeSegment (join [NL] (Segments.codeBlockContent st)) (Segments.codeBlockLang st)]
  else Segments.segments st.

(** ** The main render function *)

Module Options.
(** TerminalMarkdownOptions: every field is optional. *)
Record t := mk {
  cols : option Z;
  indent : option jsstring;
  codePrefix : option jsstring;
  listPrefix : option jsstring;
  colors : option bool;
  theme : option TuiTheme
}.
End Options.

(** ^ ( #{1,6} ) \s+ ( . + ) $ *)
Definition simpleHeaderRegex : regex :=
  seqs [Bol; Grp 1 (between 1 6 (Lit "#")); plus (Cls false [ISpace]);
        Grp 2 (plus Dot); Eol].

(** ^ ( \s* ) [-*+] \s+ ( . + ) $ *)
Definition simpleListRegex : regex :=
  seqs [Bol; Grp 1 (star (Cls false [ISpace])); bulletClass; plus (Cls false [ISpace]);
        Grp 2 (plus Dot); Eol].

Module Simple.
Record state := mk {
  result : list jsstring;
  inCodeBlock : bool;
  codeBlockContent : list jsstring
}.

(** The body of [while (i < lines.length)]. *)
Definition step (cols : Z) (indent listPrefix : jsstring) (st : state) (line : jsstring)
    : option state :=
  if startsWith line (lit "```") then
    if inCodeBlock st
    then Some (mk (result st ++ [indent ++ join ([NL] ++ indent) (codeBlockContent st)])
                  false [])
    else Some (mk (result st) true (codeBlockContent st))
  else if inCodeBlock st then
    Some (mk (result st) (inCodeBlock st) (codeBlockContent st ++ [line]))
  else
    match matchRe simpleHeaderRegex 2 line with
    | Some headerMatch =>
        Some (mk (result st ++ [[NL] ++ groupStr line headerMatch 2 ++ [NL]])
                 (inCodeBlock st) (codeBlockContent st))
    | None =>
        if test hrRegex 1 (trim line) then
          rule ← JS.repeat Box.horizontal (Z.min (cols - 4) 60);
          Some (mk (result st ++ [[NL] ++ rule ++ [NL]]) (inCodeBlock st) (codeBlockContent st))
        else
          match matchRe simpleListRegex 2 line with
          | Some listMatch =>
              let depth := (Z.of_nat (length (groupStr line listMatch 1)) / 2) in
              pad ← JS.repeat indent depth;
              Some (mk (result st ++ [pad ++ listPrefix ++ groupStr line listMatch 2])
                       (inCodeBlock st) (codeBlockContent st))
          | None =>
              Some (mk (result st ++ [line]) (inCodeBlock st) (codeBlockContent st))
          end
    end.

Fixpoint loop (cols : Z) (indent listPrefix : jsstring) (lines : list jsstring) (st : state)
    : option state :=
  match lines with
  | [] => Some st
  | line :: rest =>
      st' ← step cols indent listPrefix st line;
      loop cols indent listPrefix rest st'
  end.
End Simple.

Section Render.
(** [process.stdout.columns], which may be undefined. *)
Variable stdoutColumns : option Z.
Variable stringWidth : jsstring -> nat.

(** [options.cols ?? process.stdout.columns ?? 80] *)
Definition resolveCols (options : Options.t) : Z :=
  match Options.cols options with
  | Some c => c
  | None => default 80 stdoutColumns
  end.

(** Simple markdown renderer without colors (fallback for colors: false). *)
Definition renderMarkdownSimple (md : jsstring) (options : Options.t) : option jsstring :=
  let cols := resolveCols options in
  let indent := default (lit "  ") (Options.indent options) in
  let listPrefix := default (lit "- ") (Options.listPrefix options) in
  st ← Simple.loop cols indent listPrefix (split NL md) (Simple.mk [] false []);
  Some (join [NL] (Simple.result st)).

(** Create a default CLI theme with ANSI-approximated colors. *)
Definition createDefaultCliTheme : TuiTheme :=
  let rgb (r g b : Z) : TuiRGBA :=
    Color.mk (Some (inject_Z r / inject_Z 255)%Q) (Some (inject_Z g / inject_Z 255)%Q)
             (Some (inject_Z b / inject_Z 255)%Q) (Some 1%Q) in
  MarkdownTheme.mk
    (rgb 229 229 229) (rgb 102 102 102) (rgb 36 114 200) (rgb 36 114 200)
    (rgb 102 102 102) (rgb 0 0 0) (rgb 60 60 60) (rgb 40 40 40)
    (rgb 229 229 229) (rgb 229 229 229) (rgb 36 114 200) (rgb 17 168 205)
    (rgb 13 188 121) (rgb 229 229 229) (rgb 229 229 16) (rgb 229 229 16)
    (rgb 229 229 229) (rgb 36 114 200) (rgb 17 168 205) (rgb 102 102 102)
    (rgb 13 188 121) (rgb 205 49 49).

(** Main render function. *)
Definition renderMarkdown (md : jsstring) (options : Options.t) : option jsstring :=
  let cols := resolveCols options in
  let colors := default true (Options.colors options) in
  if negb colors then renderMarkdownSimple md options
  else
    let theme := default createDefaultCliTheme (Options.theme options) in
    styledText ← renderMarkdownThemedStyled stringWidth md theme cols;
    Some (textChunksToAnsi (chunks styledText)).
End Render.

(** ** Theme loader *)

Module ThemeLoader.

(** [type ColorValue = string | { dark: string; light: string }] *)
Inductive ColorValue :=
| CString (s : jsstring)
| CModes (dark light : jsstring).

Inductive Mode := dark | light.

(** A theme JSON file: its [defs] and [theme] objects, either of which may
    be absent.  Only own properties are modelled. *)
Record ThemeData := mkThemeData {
  defs : option (gmap jsstring jsstring);
  theme : option (gmap jsstring ColorValue)
}.

(** [defs[key] || key] *)
Definition defOr (defs : gmap jsstring jsstring) (key : jsstring) : jsstring :=
  match defs !! key with
  | Some (c :: d) => c :: d
  | _ => key
  end.

(** Resolve a color value from theme defs. *)
Definition resolveColor (value : ColorValue) (defs : gmap jsstring jsstring) (mode : Mode)
    : jsstring :=
  match value with
  | CString s => defOr defs s
  | CModes d l =>
      let colorKey := match mode with dark => d | light => l end in
      defOr defs colorKey
  end.

Definition hexDigit (c : char) : option Z :=
  if ((48 <=? c) && (c <=? 57))%N then Some (Z.of_N c - 48)
  else if ((97 <=? c) && (c <=? 102))%N then Some (Z.of_N c - 87)
  else if ((65 <=? c) && (c <=? 70))%N then Some (Z.of_N c - 55)
  else None.

(** The value of the longest prefix of hexadecimal digits, and whether it
    is non-empty. *)
Fixpoint hexPrefix (s : jsstring) (acc : Z) (seen : bool) : option Z :=
  match s with
  | c :: s' =>
      match hexDigit c with
      | Some d => hexPrefix s' (16 * acc + d) true
      | None => if seen then Some acc else None
      end
  | [] => if seen then Some acc else None
  end.

(** [Number.parseInt(s, 16)]; [None] is [NaN]. *)
Definition parseInt16 (s : jsstring) : option Z :=
  let s1 := trimStart s in
  let '(sign, s2) :=
    match s1 with
    | c :: r =>
        if chr_eqb c (ch "-") then (-1, r)
        else if chr_eqb c (ch "+") then (1, r) else (1, s1)
    | [] => (1, s1)
    end in
  let s3 :=
    if startsWith s2 (lit "0x") || startsWith s2 (lit "0X") then drop 2 s2 else s2 in
  option_map (Z.mul sign) (hexPrefix s3 0 false).

(** [hex.replace("#", "")]: the first occurrence is removed. *)
Fixpoint removeFirstHash (hex : jsstring) : jsstring :=
  match hex with
  | [] => []
  | c :: rest => if chr_eqb c (ch "#") then rest else c :: removeFirstHash rest
  end.

(** Convert hex color to RGBA format (0-1 floats). *)
Definition hexToRGBA (hex : jsstring) : TuiRGBA :=
  let cleaned := removeFirstHash hex in
  let chan (a b : nat) :=
    option_map (fun n => (inject_Z n / inject_Z 255)%Q) (parseInt16 (slice cleaned a b)) in
  Color.mk (chan 0 2)%nat (chan 2 4)%nat (chan 4 6)%nat (Some 1%Q).

Definition white : TuiRGBA := Color.mk (Some 1%Q) (Some 1%Q) (Some 1%Q) (Some 1%Q).

Section Loader.
(** The bundled theme files are not part of the sources at hand: [opencode]
    is the [opencode] entry of [THEMES], [bundled] holds the other
    entries. *)
Variable opencode : ThemeData.
Variable bundled : gmap jsstring ThemeData.

Definition THEMES : gmap jsstring ThemeData := <[lit "opencode" := opencode]> bundled.

(** [THEMES[themeName || "opencode"] || THEMES.opencode] *)
Definition themeDataOf (themeName : option jsstring) : ThemeData :=
  let name := match themeName with Some (c :: n) => c :: n | _ => lit "opencode" end in
  default opencode (THEMES !! name).

(** The [resolve] closure of [loadTheme]. *)
Definition resolve (themeData : ThemeData) (mode : Mode) (key : jsstring) : TuiRGBA :=
  let defs := default ∅ (defs themeData) in
  let theme := default ∅ (theme themeData) in
  match theme !! key with
  | None | Some (CString []) => white  (* Default white *)
  | Some value => hexToRGBA (resolveColor value defs mode)
  end.

(** Load a theme by name and convert to MarkdownTheme format. *)
Definition loadTheme (themeName : option jsstring) (mode : Mode) : TuiTheme :=
  let res (s : string) := resolve (themeDataOf themeName) mode (lit s) in
  (MarkdownTheme.mk
    (res "text") (res "textMuted") (res "accent") (res "primary") (res "border")
    (res "background") (res "backgroundPanel") (res "backgroundElement")
    (res "markdownText") (res "markdownHeading") (res "markdownLink")
    (res "markdownLinkText") (res "markdownCode") (res "markdownCodeBlock")
    (res "markdownBlockQuote") (res "markdownEmph") (res "markdownStrong")
    (res "markdownListItem") (res "markdownListEnumeration")
    (res "markdownHorizontalRule") (res "diffAdded") (res "diffRemoved"))%string.
End Loader.

(** The color roles of a theme, with their keys in the theme file and
    their fields in the loaded theme. *)
Inductive Role :=
| text | textMuted | accent | primary | border | background | backgroundPanel
| backgroundElement | markdownText | markdownHeading | markdownLink
| markdownLinkText | markdownCode | markdownCodeBlock | markdownBlockQuote
| markdownEmph | markdownStrong | markdownListItem | markdownListEnumeration
| markdownHorizontalRule | diffAdded | diffRemoved.

Definition roleKey (role : Role) : jsstring :=
  lit (match role with
      | text => "text" | textMuted => "textMuted" | accent => "accent"
      | primary => "primary" | border => "border" | background => "background"
      | backgroundPanel => "backgroundPanel"
      | backgroundElement => "backgroundElement"
      | markdownText => "markdownText" | markdownHeading => "markdownHeading"
      | markdownLink => "markdownLink" | markdownLinkText => "markdownLinkText"
      | markdownCode => "markdownCode" | markdownCodeBlock => "markdownCodeBlock"
      | markdownBlockQuote => "markdownBlockQuote" | markdownEmph => "markdownEmph"
      | markdownStrong => "markdownStrong" | markdownListItem => "markdownListItem"
      | markdownListEnumeration => "markdownListEnumeration"
      | markdownHorizontalRule => "markdownHorizontalRule"
      | diffAdded => "diffAdded" | diffRemoved => "diffRemoved"
      end)%string.

Definition roleColor {C} (role : Role) (th : MarkdownTheme.t C) : C :=
  match role with
  | text => MarkdownTheme.text th | textMuted => MarkdownTheme.textMuted th
  | accent => MarkdownTheme.accent th | primary => MarkdownTheme.primary th
  | border => MarkdownTheme.border th | background => MarkdownTheme.background th
  | backgroundPanel => MarkdownTheme.backgroundPanel th
  | backgroundElement => MarkdownTheme.backgroundElement th
  | markdownText => MarkdownTheme.markdownText th
  | markdownHeading => MarkdownTheme.markdownHeading th
  | markdownLink => MarkdownTheme.markdownLink th
  | markdownLinkText => MarkdownTheme.markdownLinkText th
  | markdownCode => MarkdownTheme.markdownCode th
  | markdownCodeBlock => MarkdownTheme.markdownCodeBlock th
  | markdownBlockQuote => MarkdownTheme.markdownBlockQuote th
  | markdownEmph => MarkdownTheme.markdownEmph th
  | markdownStrong => MarkdownTheme.markdownStrong th
  | markdownListItem => MarkdownTheme.markdownListItem th
  | markdownListEnumeration => MarkdownTheme.markdownListEnumeration th
  | markdownHorizontalRule => MarkdownTheme.markdownHorizontalRule th
  | diffAdded => MarkdownTheme.diffAdded th
  | diffRemoved => MarkdownTheme.diffRemoved th
  end.

End ThemeLoader.

(** ** Helpers: padding, split and word wrap *)

(** Pad string to width, accounting for ANSI codes.  [char] is the optional
    third argument, a space when absent; [width] is an integer. *)
Definition padRight (str : jsstring) (width : Z) (char : option jsstring) : option jsstring :=
  let char := default (lit " ") char in
  let visible := Z.of_nat (visibleWidth str) in
  if width <=? visible then Some str
  else
    pad ← JS.repeat char (width - visible);
    Some (str ++ pad).

(** Pad on both sides; the left side gets [Math.floor((width - visible) / 2)]
    and the right side the rest. *)
Definition padCenter (str : jsstring) (width : Z) (char : option jsstring) : option jsstring :=
  let char := default (lit " ") char in
  let visible := Z.of_nat (visibleWidth str) in
  if width <=? visible then Some str
  else
    let left := (width - visible) / 2 in
    let right := width - visible - left in
    l ← JS.repeat char left;
    r ← JS.repeat char right;
    Some (l ++ str ++ r).

(** [input.split(re)] for a pattern without capture groups, after the
    split algorithm of ECMAScript: [p] is the start of the current piece,
    [q] the position where a separator is looked for.  An iteration moves
    [q] forward or, after a separator, [p]; [fuel] bounds the iterations. *)
Fixpoint splitLoop (r : regex) (input : jsstring) (fuel : nat) (p q : nat)
    : list jsstring :=
  match fuel with
  | O => [sliceFrom input p]
  | S fuel' =>
      if Nat.ltb q (length input) then
        match matchAt input r 0 q (drop q input) with
        | None => splitLoop r input fuel' p (S q)
        | Some mt =>
            let e := Nat.min (endIndex mt) (length input) in
            if Nat.eqb e p then splitLoop r input fuel' p (S q)
            else slice input p q :: splitLoop r input fuel' e e
        end
      else [sliceFrom input p]
  end.

(** [input.split(re)]: the empty input gives no piece when the pattern
    matches it and one empty piece when it does not. *)
Definition splitRe (r : regex) (input : jsstring) : list jsstring :=
  match input with
  | [] => match matchAt input r 0 0 [] with Some _ => [] | None => [[]] end
  | _ => splitLoop r input (2 * length input + 1) 0 0
  end.

(** The pattern of [wordWrap]: one or more whitespace code units. *)
Definition spacesRe : regex := plus (Cls false [ISpace]).

Module Helpers.

(** The body of the loop of [wordWrap] over the words: the lines closed so
    far and the open line. *)
Definition wrapWord (width : Z) (indent : jsstring) (st : list jsstring * jsstring)
    (word : jsstring) : list jsstring * jsstring :=
  let '(lines, line) := st in
  let testLine := line ++ (if str_eqb line indent then [] else lit " ") ++ word in
  if (width <? Z.of_nat (visibleWidth testLine)) && negb (str_eqb line indent)
  then (lines ++ [line], indent ++ word)
  else (lines, testLine).

(** The lines [wordWrap] joins. *)
Definition wordWrapLines (text : jsstring) (width : Z) (indent : option jsstring)
    : list jsstring :=
  let indent := default [] indent in
  let words := splitRe spacesRe text in
  let '(lines, line) := fold_left (wrapWord width indent) words ([], indent) in
  if str_eqb line indent then lines else lines ++ [line].

(** Word wrap text to specified width; [indent] is the optional third
    argument, empty when absent. *)
Definition wordWrap (text : jsstring) (width : Z) (indent : option jsstring) : jsstring :=
  join [NL] (wordWrapLines text width indent).

End Helpers.

(** * Properties *)

(** ** Definitions used to state and prove the properties *)

(** The text of a sequence of chunks. *)
Definition textOf (cs : list TextChunk) : jsstring := concat (List.map text cs).

(** The lines a sequence of chunks prints: its text split at the newlines,
    without the empty piece after the last newline. *)
Definition renderedRows (cs : list TextChunk) : list jsstring :=
  removelast (split NL (textOf cs)).

(** No ESC code unit in [s]. *)
Definition noEsc (s : jsstring) : bool := forallb (fun c => negb (chr_eqb c ESC)) s.

(** The same as a predicate on every code unit. *)
Abbreviation escFree := (Forall (fun c : char => c <> ESC)).

(** No newline in [s]. *)
Definition noNewline (s : jsstring) : bool := forallb (fun c => negb (chr_eqb c NL)) s.

(** [s] contains an ANSI escape sequence: the pattern of [stripAnsi]
    matches somewhere. *)
Definition containsAnsi (s : jsstring) : bool :=
  bool_decide (is_Some (exec ansiRe 0 s 0)).

(** Every ESC code unit of [s] begins a match of the pattern of
    [stripAnsi]. *)
Fixpoint everyEscOpens (s : jsstring) : bool :=
  match s with
  | [] => true
  | c :: r =>
      (if chr_eqb c ESC then bool_decide (is_Some (matchAt s ansiRe 0 0 s)) else true)
      && everyEscOpens r
  end.

(** A class member of [[0-9;]]. *)
Definition isParam (c : char) : bool :=
  cls_matches false [IRange (ch "0") (ch "9"); IChar (ch ";")] c.

(** The length of a run of parameters closed by [m], the [m] counted. *)
Fixpoint paramsLen (s : jsstring) : option nat :=
  match s with
  | c :: r =>
      if isParam c then option_map S (paramsLen r)
      else if chr_eqb (ch "m") c then Some 1%nat else None
  | [] => None
  end.

(** The length of the escape sequence at the head of [s], if there is one. *)
Definition ansiLen (s : jsstring) : option nat :=
  match s with
  | e :: b :: r =>
      if chr_eqb ESC e && chr_eqb (ch "[") b then option_map (fun n => S (S n)) (paramsLen r)
      else None
  | _ => None
  end.

(** [stripAnsi] seen as a scan from left to right: [skip] code units of
    an escape sequence are still to be dropped. *)
Fixpoint stripScan (skip : nat) (s : jsstring) : jsstring :=
  match s with
  | [] => []
  | c :: r =>
      match skip with
      | S k => stripScan k r
      | O => match ansiLen s with
             | Some n => stripScan (Nat.pred n) r
             | None => c :: stripScan 0 r
             end
      end
  end.

(** A concatenation of escape sequences. *)
Inductive sgrs : jsstring -> Prop :=
| sgrs_nil : sgrs []
| sgrs_cons ps s :
    forallb isParam ps = true -> sgrs s -> sgrs (ESC :: ch "[" :: ps ++ ch "m" :: s).

(** A color channel that prints as decimal digits: a non-negative integer. *)
Definition channelOk (n : option Z) : bool :=
  match n with
  | Some z => 0 <=? z
  | None => false
  end.

Definition colorOk (c : option RGBA) : bool :=
  match c with
  | Some c => channelOk (Color.r c) && channelOk (Color.g c) && channelOk (Color.b c)
  | None => true
  end.

(** A chunk whose text has no ESC and whose colors print as digits. *)
Definition plainChunk (c : TextChunk) : bool :=
  noEsc (text c) && colorOk (fg c) && colorOk (bg c).

(** What [textChunksToAnsi] appends for one chunk. *)
Definition chunkString (c : TextChunk) : jsstring :=
  chunkCodes c ++ text c ++ (match chunkCodes c with [] => [] | _ => ESC :: lit "[0m" end).

(** The shrink loop as the words of the specification describe it: while
    the table is too wide and some column is above the floor of 10, one
    widest column loses one unit. *)
Inductive shrinkRun (maxWidth : Z) : list Z -> list Z -> Prop :=
| shrink_done ws :
    calcWidth ws <= maxWidth \/ Forall (fun w => w <= 10) ws ->
    shrinkRun maxWidth ws ws
| shrink_more ws i w ws' :
    maxWidth < calcWidth ws ->
    ws !! i = Some w -> 10 < w -> Forall (fun v => v <= w) ws ->
    shrinkRun maxWidth (<[i := w - 1]> ws) ws' ->
    shrinkRun maxWidth ws ws'.

(** The units the shrink loop can still take away. *)
Definition sumExcess (ws : list Z) : Z :=
  fold_right (fun w acc => Z.max 0 (w - 10) + acc) 0 ws.

(** A column keeps its width or stays at or above the floor. *)
Definition widthKept (w0 w : Z) : Prop := w = w0 \/ (10 <= w /\ w <= w0).

(** The code-fence state after [lines], starting from [open]. *)
Definition fenceState (open : bool) (lines : list jsstring) : bool :=
  fold_left (fun open line => if startsWith (trim line) fence then negb open else open)
            lines open.

(** The document ends inside a code fence that was never closed. *)
Definition openFence (md : jsstring) : bool := fenceState false (split NL md).

Definition lastLine (md : jsstring) : jsstring := List.last (split NL md) [].

(** Outside a code block no text waits to be flushed. *)
Definition segInv (st : Segments.state) : Prop :=
  Segments.inCodeBlock st = true -> Segments.currentText st = [].

(** The state of the word-wrap loops holds only code units satisfying [P]. *)
Definition okState (P : char -> Prop) (st : list jsstring * jsstring) : Prop :=
  Forall (Forall P) (fst st) /\ Forall P (snd st).

(** The code units the table frame is drawn with: the space and the
    box-drawing block. *)
Definition frameChar (c : char) : bool :=
  chr_eqb c SP || ((9472 <=? c) && (c <=? 9599))%N.

Definition sumCols (ws : list Z) : Z := fold_right (fun w acc => w + 3 + acc) 0 ws.

Abbreviation nlFree := (Forall (fun c : char => c <> NL)).

(** The text of printed lines: each followed by a newline. *)
Definition linesText (contents : list jsstring) : jsstring :=
  concat (List.map (fun c => c ++ [NL]) contents).

(** Every data row has as many cells as the header. *)
Definition rectangular (headerRow : list jsstring) (dataRows : list (list jsstring)) : bool :=
  forallb (fun row => Nat.eqb (length row) (length headerRow)) dataRows.

(** A header cell fits its column, or its truncation to the column's number
    of code units is exactly as wide as the column. *)
Definition headerExact (stringWidth : jsstring -> nat) (headerRow : list jsstring)
    (colWidths : list Z) : bool :=
  forallb id
    (zip_with (fun cell w =>
                 (Z.of_nat (stringWidth cell) <=? w)
                 || (Z.of_nat (stringWidth (slice cell 0 (Z.to_nat w))) =? w))
              headerRow colWidths).

(** The display width of a cell line once its inline markdown is rendered. *)
Definition renderedWidth (stringWidth : jsstring -> nat) (theme : IntTheme)
    (line : jsstring) : Z :=
  Z.of_nat (stringWidth (textOf (renderInlineThemed line theme))).

(** No wrapped line of the cell is wider than the column once rendered. *)
Definition cellFits (stringWidth : jsstring -> nat) (theme : IntTheme)
    (cell : jsstring) (w : Z) : bool :=
  forallb (fun line => renderedWidth stringWidth theme line <=? w)
          (wordWrap stringWidth cell w).

Definition cellsFit (stringWidth : jsstring -> nat) (theme : IntTheme)
    (dataRows : list (list jsstring)) (colWidths : list Z) : bool :=
  forallb (fun row => forallb id (zip_with (cellFits stringWidth theme) row colWidths))
          dataRows.

(** The tables whose grid is regular: at least two lines without newline,
    at least one column, rectangular, an exactly truncated header and no
    cell line wider than its column. *)
Definition tableRegular (stringWidth : jsstring -> nat) (theme : IntTheme)
    (tableLines : list jsstring) (cols : Z) : bool :=
  let headerRow := parseRow (default [] (tableLines !! 0%nat)) in
  let dataRows := tableDataRows tableLines in
  let colWidths := tableColWidths stringWidth tableLines cols in
  Nat.leb 2 (length tableLines)
  && forallb noNewline tableLines
  && negb (Nat.eqb (length headerRow) 0)
  && rectangular headerRow dataRows
  && headerExact stringWidth headerRow colWidths
  && cellsFit stringWidth theme dataRows colWidths.

(** A piece of a printed line for a column of width [w]: the cell with its
    padding and border, three units wider than the column. *)
Definition cellPiece (stringWidth : jsstring -> nat) (w : Z) (cs : list TextChunk) : Prop :=
  Z.of_nat (stringWidth (textOf cs)) = w + 3 /\ nlFree (textOf cs).

(** A printed line of width [W]. *)
Definition goodLine (stringWidth : jsstring -> nat) (W : Z) (content : jsstring) : Prop :=
  nlFree content /\ Z.of_nat (stringWidth content) = W.

Definition lineFits (stringWidth : jsstring -> nat) (theme : IntTheme) (w : Z)
    (line : jsstring) : Prop :=
  nlFree line /\ renderedWidth stringWidth theme line <= w.

(** Chunks that print one line of width [W]. *)
Definition isLine (stringWidth : jsstring -> nat) (W : Z) (cs : list TextChunk) : Prop :=
  exists content, textOf cs = content ++ [NL] /\ goodLine stringWidth W content.

(** Chunks that print lines of width [W]. *)
Definition areLines (stringWidth : jsstring -> nat) (W : Z) (cs : list TextChunk) : Prop :=
  exists contents,
    textOf cs = linesText contents /\ Forall (goodLine stringWidth W) contents.

(** The renderer's copy of the default CLI theme, and a display width that
    counts one column per code unit: what [Bun.stringWidth] gives on
    printable ASCII and box-drawing text. *)
Definition defaultIntTheme : IntTheme := MarkdownTheme.map toIntRGBA createDefaultCliTheme.

Definition unitWidth (s : jsstring) : nat := length s.

(** The least number of code units a match of [r] consumes. *)
Fixpoint minLen (r : regex) : nat :=
  match r with
  | Chr _ | Dot | Cls _ _ => 1
  | Seq a b => minLen a + minLen b
  | Alt a b => Nat.min (minLen a) (minLen b)
  | Grp _ a => minLen a
  | Rep _ min max a =>
      match max with
      | Some O => 0
      | _ => if Nat.eqb min 0 then 0 else minLen a
      end
  | _ => 0
  end%nat.

(** [st'] is reached from [st] by consuming at least [n] code units. *)
Definition advances (n : nat) (st st' : mstate) : Prop :=
  (mpos st + n <= mpos st')%nat
  /\ (mpos st' + length (mrest st') = mpos st + length (mrest st))%nat.

(** The number of leading parameters of [s]. *)
Fixpoint paramsRun (s : jsstring) : nat :=
  match s with
  | c :: r => if isParam c then S (paramsRun r) else O
  | [] => O
  end.

(** A matcher whose result depends on its continuation only at the states
    reached by consuming input. *)
Definition extensional (mr : mstate -> (mstate -> option mstate) -> option mstate) : Prop :=
  forall st k1 k2,
    (forall st', advances 0 st st' -> k1 st' = k2 st') -> mr st k1 = mr st k2.

(** A matcher that hands its continuation a state no earlier than its own. *)
Definition progressing (mr : mstate -> (mstate -> option mstate) -> option mstate) : Prop :=
  forall st k res, mr st k = Some res -> exists st', k st' = Some res /\ advances 0 st st'.

(** ** Definitions used to state and prove the further properties *)

(** A line that opens or closes a code fence. *)
Definition isFenceLine (line : jsstring) : bool := startsWith (trim line) fence.

(** A code segment names a language. *)
Definition namesLanguage (seg : MarkdownSegment) : Prop :=
  match seg with
  | CodeSegment _ language => language <> []
  | TextSegment _ => True
  end.

(** The invariant of the loop of [parseMarkdownSegments]: the segments pushed
    so far name a language, and so does the code block that is open. *)
Definition langInv (st : Segments.state) : Prop :=
  Forall namesLanguage (Segments.segments st)
  /\ (Segments.inCodeBlock st = true -> Segments.codeBlockLang st <> []).

(** A cell as it is written in a table row: every pipe escaped. *)
Definition escapePipes (cell : jsstring) : jsstring :=
  concat (List.map (fun c => if chr_eqb c (ch "|") then lit "\|" else [c]) cell).

(** No backslash in [s]. *)
Definition noBackslash (s : jsstring) : bool :=
  forallb (fun c => negb (chr_eqb c (ch "\"))) s.

(** A table row as it is written: a pipe, then every cell followed by a
    pipe. *)
Definition tableRow (cells : list jsstring) : jsstring :=
  lit "|" ++ concat (List.map (fun c => escapePipes c ++ lit "|") cells).

(** A column that lost width ends within one unit of every other column. *)
Definition balanced (ws0 ws : list Z) : Prop :=
  Forall2 (fun w0 w => w = w0 \/ Forall (fun v => v - 1 <= w) ws) ws0 ws.

(** The byte two hexadecimal digits denote. *)
Definition hexByte (a b : char) : option Z :=
  x ← ThemeLoader.hexDigit a; y ← ThemeLoader.hexDigit b; Some (16 * x + y).

(** Three channels from 0 to 255. *)
Definition byteTriple (t : Z * Z * Z) : bool :=
  let '(r, g, b) := t in
  (0 <=? r) && (r <=? 255) && (0 <=? g) && (g <=? 255) && (0 <=? b) && (b <=? 255).

(** The first line of a document. *)
Definition firstLine (md : jsstring) : jsstring := List.hd [] (split NL md).

(** The code-fence state of the renderer without colors, which looks at
    the untrimmed line. *)
Definition simpleFenceState (open : bool) (lines : list jsstring) : bool :=
  fold_left (fun open line => if startsWith line fence then negb open else open) lines open.

(** An opaque color with non-negative integer channels, or no color. *)
Definition opaque (col : option RGBA) : bool :=
  match col with
  | Some c => channelOk (Color.r c) && channelOk (Color.g c) && channelOk (Color.b c)
              && bool_decide (Color.a c = Some 255)
  | None => true
  end.

(** Attributes made of the seven flags the parser knows: a byte without
    the hidden flag. *)
Definition knownAttrs (a : Z) : bool :=
  (0 <=? a) && (a <? 256) && (Z.land a Attr.HIDDEN =? 0).

(** A chunk as the parser builds it. *)
Definition parsedChunk (c : TextChunk) : bool :=
  match text c with [] => false | _ => true end
  && match attributes c with Some a => knownAttrs a | None => false end
  && opaque (fg c) && opaque (bg c).

(** A style as the parser keeps it between escape sequences. *)
Definition styleOk (st : AnsiStyle) : bool :=
  knownAttrs (sattrs st) && opaque (sfg st) && opaque (sbg st).

(** A code unit that cannot be part of an escape sequence. *)
Definition padSafe (c : char) : bool :=
  negb (chr_eqb c ESC) && negb (chr_eqb (ch "[") c) && negb (isParam c)
  && negb (chr_eqb (ch "m") c).

(** The padding code unit, when the padding string is one code unit that
    cannot be part of an escape sequence. *)
Definition padUnit (padding : option jsstring) : option char :=
  match default (lit " ") padding with
  | [c] => if padSafe c then Some c else None
  | _ => None
  end.

(** [t] does not begin with a code unit that could continue an escape
    sequence. *)
Definition safeTail (t : jsstring) : Prop :=
  match t with [] => True | c :: _ => padSafe c = true end.

(** The test of a pattern that matches exactly one code unit. *)
Definition charPred (r : regex) : option (char -> bool) :=
  match r with
  | Chr c => Some (chr_eqb c)
  | Dot => Some (fun c => negb (isLineTerminator c))
  | Cls neg items => Some (cls_matches neg items)
  | _ => None
  end.

(** A greedy run of code units satisfying [p], followed by [c]: the longest
    run is tried first. *)
Fixpoint greedyRun (p : char -> bool) (c : mstate -> option mstate) (pos : nat)
    (r : jsstring) (cps : captures) : option mstate :=
  match r with
  | x :: r' =>
      if p x then orElse (greedyRun p c (S pos) r' cps) (c (MState pos r cps))
      else c (MState pos r cps)
  | [] => c (MState pos [] cps)
  end.

(** The characters of a table separator line between its outer pipes:
    [[\s\-:|]]. *)
Definition sepChar (c : char) : bool :=
  cls_matches false [ISpace; IChar (ch "-"); IChar (ch ":"); IChar (ch "|"); ISpace] c.

(** The end of the separator pattern: a pipe, then the end of the line. *)
Definition sepTail (st : mstate) : option mstate :=
  step (chr_eqb (ch "|")) st (fun st' => match mrest st' with [] => Some st' | _ => None end).

(** The code units that open an inline element: [*], [_], a backtick,
    [[] and [~]. *)
Definition inlineMark (c : char) : bool :=
  chr_eqb c (ch "*") || chr_eqb c (ch "_") || chr_eqb c (ch "`")
  || chr_eqb c (ch "[") || chr_eqb c (ch "~").

(** The code units that open a block element when they come first on a
    line: a pipe, [#], [>], a bullet, a rule or fence character or a digit. *)
Definition blockMark (c : char) : bool :=
  chr_eqb c (ch "`") || chr_eqb c (ch "|") || chr_eqb c (ch "#") || chr_eqb c (ch ">")
  || chr_eqb c (ch "-") || chr_eqb c (ch "_") || chr_eqb c (ch "*") || chr_eqb c (ch "+")
  || isDigit c.

(** A line of plain text: no inline mark, and either empty or with a first
    visible code unit that opens no block. *)
Definition plainLine (line : jsstring) : bool :=
  forallb (fun c => negb (inlineMark c)) line
  && match line, trim line with
     | [], _ => true
     | _ :: _, c :: _ => negb (blockMark c)
     | _ :: _, [] => false
     end.

(** The chunks of a line of plain text. *)
Definition plainChunks (theme : IntTheme) (line : jsstring) : list TextChunk :=
  addChunk line (Some (MarkdownTheme.markdownText theme)) 0 ++ addChunk [NL] None 0.

(** A line fits the width. *)
Definition fitsWidth (width : Z) (line : jsstring) : bool :=
  Z.of_nat (visibleWidth line) <=? width.

(** [text.split(/\s+/)] as a scan: [cur] is the word being read. *)
Fixpoint wordsScan (cur : jsstring) (skipping : bool) (s : jsstring) : list jsstring :=
  match s with
  | [] => [cur]
  | c :: r =>
      if isSpace c then
        if skipping then wordsScan [] true r else cur :: wordsScan [] true r
      else wordsScan (cur ++ [c]) false r
  end.

(** The length of the longest prefix of [s] whose code units satisfy [p]. *)
Fixpoint runLen (p : char -> bool) (s : jsstring) : nat :=
  match s with
  | c :: r => if p c then S (runLen p r) else O
  | [] => O
  end.

(** The invariant of the loop of [wordWrap]: the closed lines fit, and the
    open line is the indent or fits. *)
Definition wrapInv (width : Z) (indent : jsstring) (st : list jsstring * jsstring) : Prop :=
  Forall (fun l => fitsWidth width l = true) (fst st)
  /\ (snd st = indent \/ fitsWidth width (snd st) = true).

(** The code units the renderer without colors reacts to: a backtick,
    [#], [-], [*], [+] and [_]. *)
Definition simpleMark (c : char) : bool :=
  chr_eqb c (ch "`") || chr_eqb c (ch "#") || chr_eqb c (ch "-") || chr_eqb c (ch "*")
  || chr_eqb c (ch "+") || chr_eqb c (ch "_").

(** A color of the theme, or no color. *)
Definition themeColor (theme : IntTheme) (col : option RGBA) : Prop :=
  col = None \/ exists role, col = Some (ThemeLoader.roleColor role theme).

(** The panel background of the theme, or no background. *)
Definition panelOrNone (theme : IntTheme) (col : option RGBA) : Prop :=
  col = None \/ col = Some (MarkdownTheme.backgroundPanel theme).

(** A chunk as the renderer builds it: a non-empty text of code units
    satisfying [P], colored from the theme. *)
Definition chunkOk (P : char -> Prop) (theme : IntTheme) (c : TextChunk) : Prop :=
  text c <> [] /\ Forall P (text c) /\ themeColor theme (fg c) /\ panelOrNone theme (bg c).

(** The code units the renderer writes of its own accord: space, newline,
    the punctuation of links, lists and task boxes, the backtick and the
    pipe of table cells, and the box-drawing block. *)
Definition literalChar (c : char) : bool :=
  chr_eqb c SP || chr_eqb c NL || chr_eqb c (ch "(") || chr_eqb c (ch ")")
  || chr_eqb c (ch "`") || chr_eqb c (ch "|") || chr_eqb c (ch "-")
  || chr_eqb c (ch "[") || chr_eqb c (ch "]") || chr_eqb c (ch "x") || chr_eqb c (ch ".")
  || ((9472 <=? c) && (c <=? 9599))%N.

(** The chunk of a line of code inside a fence that is not a diff. *)
Definition codeChunk (theme : IntTheme) (line : jsstring) : TextChunk :=
  Chunk (lit "  " ++ line ++ [NL]) (Some (MarkdownTheme.markdownCodeBlock theme)) None
        (Some Attr.ITALIC).

(** A fenced block: an opening fence line that does not announce a diff,
    lines of code none of which is a fence line, and a closing fence line;
    no line holds a newline. *)
Definition fencedBlock (opener : jsstring) (body : list jsstring) (closer : jsstring) : bool :=
  noNewline opener && forallb noNewline body && noNewline closer
  && startsWith (trim opener) fence && startsWith (trim closer) fence
  && negb (str_eqb (trim (sliceFrom (trim opener) 3)) (lit "diff"))
  && forallb (fun l => negb (startsWith (trim l) fence)) body.

(** The color roles of a theme. *)
Definition allRoles : list ThemeLoader.Role :=
  [ThemeLoader.text; ThemeLoader.textMuted; ThemeLoader.accent; ThemeLoader.primary;
   ThemeLoader.border; ThemeLoader.background; ThemeLoader.backgroundPanel;
   ThemeLoader.backgroundElement; ThemeLoader.markdownText; ThemeLoader.markdownHeading;
   ThemeLoader.markdownLink; ThemeLoader.markdownLinkText; ThemeLoader.markdownCode;
   ThemeLoader.markdownCodeBlock; ThemeLoader.markdownBlockQuote; ThemeLoader.markdownEmph;
   ThemeLoader.markdownStrong; ThemeLoader.markdownListItem;
   ThemeLoader.markdownListEnumeration; ThemeLoader.markdownHorizontalRule;
   ThemeLoader.diffAdded; ThemeLoader.diffRemoved].

(** Every color of the theme has channels that print as decimal digits. *)
Definition themePrintable (theme : IntTheme) : bool :=
  forallb (fun role => colorOk (Some (ThemeLoader.roleColor role theme))) allRoles.

(** The escape sequence with the parameters [codes]. *)
Definition sgr (codes : list Z) : jsstring :=
  ESC :: ch "[" :: join (lit ";") (List.map intToString codes) ++ [ch "m"].

(** One step of reading a decimal number. *)
Definition digitStep (acc : Z) (c : char) : Z := 10 * acc + (Z.of_N c - 48).

(** The parameters of an escape sequence as they are written. *)
Definition paramString (codes : list Z) : jsstring :=
  join (lit ";") (List.map intToString codes).

(** The parameter lists of the escape sequences [textChunksToAnsi] writes
    for the attributes [a]. *)
Definition attrSeqs (a : Z) : list (list Z) :=
  (if bitAnd a Attr.BOLD =? 0 then [] else [[1]])
  ++ (if bitAnd a Attr.DIM =? 0 then [] else [[2]])
  ++ (if bitAnd a Attr.ITALIC =? 0 then [] else [[3]])
  ++ (if bitAnd a Attr.UNDERLINE =? 0 then [] else [[4]])
  ++ (if bitAnd a Attr.BLINK =? 0 then [] else [[5]])
  ++ (if bitAnd a Attr.INVERSE =? 0 then [] else [[7]])
  ++ (if bitAnd a Attr.HIDDEN =? 0 then [] else [[8]])
  ++ (if bitAnd a Attr.STRIKETHROUGH =? 0 then [] else [[9]]).

(** The parameter list of the escape sequence [textChunksToAnsi] writes for
    a color: [lead] is 38 for the foreground and 48 for the background. *)
Definition colorSeq (lead : Z) (col : option RGBA) : list (list Z) :=
  match col with
  | Some c =>
      match Color.r c, Color.g c, Color.b c with
      | Some r, Some g, Some b => [[lead; 2; r; g; b]]
      | _, _, _ => []
      end
  | None => []
  end.

(** The parameter lists of the escape sequences written before the text of
    a chunk. *)
Definition chunkSeqs (c : TextChunk) : list (list Z) :=
  (match attributes c with
   | Some a => if a =? 0 then [] else attrSeqs a
   | None => []
   end) ++ colorSeq 38 (fg c) ++ colorSeq 48 (bg c).

(** The style after the escape sequences with the parameter lists [seqs]. *)
Fixpoint applySeqs (seqs : list (list Z)) (st : AnsiStyle) : option AnsiStyle :=
  match seqs with
  | [] => Some st
  | codes :: more => st' ← codesLoop (length codes) codes 0 st; applySeqs more st'
  end.

(** A chunk that survives the round trip through [textChunksToAnsi] and
    [ansiToStyledText]: a non-empty text without ESC, attributes among the
    seven flags the parser knows, opaque colors with non-negative integer
    channels, and at least one of these. *)
Definition roundTrips (c : TextChunk) : bool :=
  parsedChunk c && noEsc (text c)
  && match chunkCodes c with [] => false | _ => true end.

(** Parameters that are read back as they are written: at least one, none
    negative. *)
Definition goodCodes (codes : list Z) : Prop := codes <> [] /\ Forall (fun z => 0 <= z) codes.

(** Not a backtick: the class of the code-span pattern. *)
Definition notTick (c : char) : bool := cls_matches true [IChar (ch "`")] c.

(** A fenced block for the renderer without colors, which looks at the
    untrimmed line: an opening and a closing line that begin with the fence,
    at least one line of code, none beginning with the fence; no line holds
    a newline. *)
Definition simpleFenced (opener : jsstring) (body : list jsstring) (closer : jsstring) : bool :=
  noNewline opener && forallb noNewline body && noNewline closer
  && startsWith opener fence && startsWith closer fence
  && negb (Nat.eqb (length body) 0)
  && forallb (fun l => negb (startsWith l fence)) body.

(** A token is quoted when it begins and ends with a backtick. *)
Definition isQuotedToken (token : jsstring) : bool :=
  startsWith token (lit "`") && endsWith token (lit "`").

(** A token or a part of it without its quotes. *)
Definition unquote (isQuoted : bool) (part : jsstring) : jsstring :=
  if isQuoted then sliceInner part else part.

(** The shape of a table separator line: at least three code units, a pipe
    first and last, and nothing but whitespace, dashes, colons and pipes. *)
Definition separatorShape (line : jsstring) : bool :=
  Nat.leb 3 (length line) && startsWith line (lit "|") && endsWith line (lit "|")
  && forallb sepChar line.

(** A code unit of the document, or one the renderer writes of its own
    accord. *)
Definition fromDocument (md : jsstring) (c : char) : Prop :=
  In c md \/ literalChar c = true.

(** ** Strings *)

Section CharsOf.
Variable P : char -> Prop.

Lemma ok_slice s a b : Forall P s -> Forall P (slice s a b).
Proof. intros H. unfold slice. by apply Forall_take, Forall_drop. Qed.

Lemma ok_sliceFrom s a : Forall P s -> Forall P (sliceFrom s a).
Proof. intros H. by apply Forall_drop. Qed.

Lemma ok_sliceInner (l : jsstring) : Forall P l -> Forall P (sliceInner l).
Proof. intros H. unfold sliceInner. by apply Forall_take, Forall_drop. Qed.

Lemma ok_groupStr input mt i : Forall P input -> Forall P (groupStr input mt i).
Proof.
  intros H. unfold groupStr, group.
  destruct (caps mt !! i) as [[[a b]|]|]; cbn; try constructor. by apply ok_slice.
Qed.

Lemma ok_group input mt i s : Forall P input -> group input mt i = Some s -> Forall P s.
Proof.
  intros H. unfold group.
  destruct (caps mt !! i) as [[[a b]|]|]; cbn; try discriminate.
  intros [= <-]. by apply ok_slice.
Qed.

Lemma ok_join sep parts :
  Forall P sep -> Forall (Forall P) parts -> Forall P (join sep parts).
Proof.
  intros Hs. induction 1 as [|p parts Hp Hps IH]; [constructor|].
  cbn [join]. destruct parts; [done|]. repeat (apply Forall_app; split); done.
Qed.

Lemma ok_split sep s : Forall P s -> Forall (Forall P) (split sep s).
Proof.
  induction 1 as [|c s Hc Hs IH]; cbn [split]; [by repeat constructor|].
  destruct (chr_eqb c sep); [by constructor|].
  destruct (split sep s); [by repeat constructor|].
  inversion IH; subst. constructor; [by constructor|done].
Qed.

Lemma ok_repeat s n t : Forall P s -> JS.repeat s n = Some t -> Forall P t.
Proof.
  intros H. unfold JS.repeat. destruct (n <? 0); [discriminate|]. intros [= <-].
  induction (Z.to_nat n); cbn; [constructor|]. by apply Forall_app.
Qed.

Lemma ok_trimStart s : Forall P s -> Forall P (trimStart s).
Proof.
  induction 1 as [|c s Hc Hs IH]; cbn; [constructor|].
  destruct (isSpace c); [done|by constructor].
Qed.

Lemma ok_trimEnd s : Forall P s -> Forall P (trimEnd s).
Proof. intros H. unfold trimEnd. by apply Forall_rev, ok_trimStart, Forall_rev. Qed.

Lemma ok_trim s : Forall P s -> Forall P (trim s).
Proof. intros H. by apply ok_trimEnd, ok_trimStart. Qed.
End CharsOf.

Lemma noEsc_Forall s : noEsc s = true <-> Forall (fun c => c <> ESC) s.
Proof.
  unfold noEsc. rewrite forallb_forall, Forall_forall. setoid_rewrite <- list_elem_of_In.
  split; intros H c Hc; specialize (H c Hc).
  - apply negb_true_iff, N.eqb_neq in H. done.
  - apply negb_true_iff, N.eqb_neq. done.
Qed.

Lemma noNewline_Forall s : noNewline s = true <-> Forall (fun c => c <> NL) s.
Proof.
  unfold noNewline. rewrite forallb_forall, Forall_forall. setoid_rewrite <- list_elem_of_In.
  split; intros H c Hc; specialize (H c Hc).
  - apply negb_true_iff, N.eqb_neq in H. done.
  - apply negb_true_iff, N.eqb_neq. done.
Qed.

Lemma split_nonempty sep s : split sep s <> [].
Proof.
  destruct s as [|c s]; simpl; [done|].
  destruct (chr_eqb c sep); [done|]. by destruct (split sep s).
Qed.

Lemma split_app_sep sep a b : split sep (a ++ sep :: b) = split sep a ++ split sep b.
Proof.
  induction a as [|c a IH]; cbn [app split].
  - unfold chr_eqb. by rewrite N.eqb_refl.
  - rewrite IH. destruct (chr_eqb c sep); [reflexivity|].
    pose proof (split_nonempty sep a). by destruct (split sep a).
Qed.

Lemma drop_S_middle {A} (pre : list A) c rest :
  drop (S (length pre)) (pre ++ c :: rest) = rest.
Proof. induction pre as [|x pre IH]; [reflexivity|exact IH]. Qed.

Lemma repeat_nonneg s n : 0 <= n -> is_Some (JS.repeat s n).
Proof.
  intros H. unfold JS.repeat.
  replace (n <? 0) with false by (symmetry; apply Z.ltb_ge; lia). eauto.
Qed.

Lemma forallb_app' {A} (p : A -> bool) a b :
  forallb p a = true -> forallb p b = true -> forallb p (a ++ b) = true.
Proof. intros. rewrite forallb_app. by apply andb_true_intro. Qed.


(** ** The pattern of escape sequences *)

Lemma isParam_not_m c : isParam c = true -> chr_eqb (ch "m") c = false.
Proof.
  unfold isParam, cls_matches, chr_eqb. cbn. intros H.
  apply N.eqb_neq. intros <-. vm_compute in H. discriminate.
Qed.

Lemma star_params_then (input : jsstring) (tail : regex) (k : mstate -> option mstate)
    gs (Hgs : gs = []) :
  forall r fuel p caps,
    (length r <= fuel)%nat ->
    repeatMatcher (m input (Cls false [IRange (ch "0") (ch "9"); IChar (ch ";")])) gs
      true fuel 0 None (MState p r caps) (fun st => step (chr_eqb (ch "m")) st k)
    = match paramsLen r with
      | Some n => k (MState (p + n) (drop n r) caps)
      | None => None
      end.
Proof.
  subst gs.
  induction r as [|c r IH]; intros fuel p caps Hf.
  - destruct fuel; reflexivity.
  - destruct fuel as [|fuel]; [simpl in Hf; lia|].
    cbn [repeatMatcher]. cbn [Nat.eqb negb option_map clear_caps fold_right mpos mrest mcaps].
    cbn [m step mrest mpos mcaps].
    fold (isParam c). cbn [paramsLen].
    destruct (isParam c) eqn:Hc.
    + replace (Nat.eqb (S p) p) with false by (symmetry; apply Nat.eqb_neq; lia).
      cbn [andb Nat.pred]. rewrite IH by (simpl in Hf; lia).
      rewrite (isParam_not_m c Hc).
      destruct (paramsLen r) as [n|]; cbn [option_map orElse].
      * replace (p + S n)%nat with (S p + n)%nat by lia. cbn [drop].
        destruct (k _); reflexivity.
      * reflexivity.
    + cbn [orElse]. destruct (chr_eqb (ch "m") c); [|reflexivity].
      replace (p + 1)%nat with (S p) by lia. reflexivity.
Qed.

Lemma matchAt_ansi (input : jsstring) (pos : nat) (rest : jsstring) :
  matchAt input ansiRe 0 pos rest
  = option_map (fun n => RMatch pos (pos + n) [None]) (ansiLen rest).
Proof.
  unfold matchAt, ansiRe. cbn [seqs m replicate].
  destruct rest as [|e rest]; [reflexivity|].
  cbn [ansiLen step mrest mpos mcaps].
  destruct (chr_eqb ESC e); [|destruct rest; reflexivity].
  destruct rest as [|b rest]; [reflexivity|].
  cbn [andb step mrest mpos mcaps]. destruct (chr_eqb (ch "[") b); [|reflexivity].
  unfold star. cbn [m mrest groups_of Nat.add].
  rewrite (star_params_then input Eps Some [] eq_refl) by reflexivity.
  destruct (paramsLen rest) as [n|]; cbn [option_map mpos mcaps]; [|reflexivity].
  do 2 f_equal. lia.
Qed.

Lemma paramsLen_le s n : paramsLen s = Some n -> (1 <= n <= length s)%nat.
Proof.
  revert n. induction s as [|c r IH]; intros n; cbn [paramsLen]; [discriminate|].
  destruct (isParam c).
  - destruct (paramsLen r) as [k|]; cbn; [|discriminate].
    intros [= <-]. specialize (IH k eq_refl). simpl. lia.
  - destruct (chr_eqb _ _); [|discriminate]. intros [= <-]. simpl. lia.
Qed.

Lemma ansiLen_le s n : ansiLen s = Some n -> (3 <= n <= length s)%nat.
Proof.
  destruct s as [|e [|b r]]; cbn [ansiLen]; try discriminate.
  destruct (_ && _); [|discriminate].
  destruct (paramsLen r) as [k|] eqn:E; cbn; [|discriminate].
  intros [= <-]. apply paramsLen_le in E. simpl. lia.
Qed.

Lemma ansiLen_head s n : ansiLen s = Some n -> exists r, s = ESC :: r.
Proof.
  destruct s as [|e [|b r]]; cbn [ansiLen]; try discriminate.
  destruct (chr_eqb ESC e) eqn:E; [|discriminate]. intros _.
  apply N.eqb_eq in E. subst. eauto.
Qed.

Lemma stripScan_skip k s : stripScan k s = stripScan 0 (drop k s).
Proof.
  revert k. induction s as [|c r IH]; intros [|k]; try reflexivity.
  cbn [stripScan drop]. apply IH.
Qed.

Section ReplaceView.
Variables (r : regex) (ng : nat) (f : rmatch -> jsstring).

Lemma execFrom_index input pos rest mt :
  execFrom input r ng pos rest = Some mt -> (pos <= index mt)%nat.
Proof.
  revert pos. induction rest as [|c rest IH]; intros pos; cbn [execFrom].
  - unfold matchAt. destruct (m _ _ _ _); [|discriminate]. intros [= <-]. reflexivity.
  - destruct (matchAt input r ng pos (c :: rest)) as [mt'|] eqn:E.
    + intros [= <-]. unfold matchAt in E. destruct (m _ _ _ _); [|discriminate].
      injection E as <-. reflexivity.
    + intros H. apply IH in H. lia.
Qed.

Lemma exec_at pre rest :
  exec r ng (pre ++ rest) (length pre) = execFrom (pre ++ rest) r ng (length pre) rest.
Proof.
  unfold exec. rewrite length_app.
  replace (Nat.ltb _ _) with false by (symmetry; apply Nat.ltb_ge; lia).
  by rewrite drop_app_length.
Qed.

Lemma exec_at_S pre c rest :
  exec r ng (pre ++ c :: rest) (S (length pre))
  = execFrom (pre ++ c :: rest) r ng (S (length pre)) rest.
Proof.
  unfold exec. rewrite length_app. cbn [length].
  replace (Nat.ltb _ _) with false by (symmetry; apply Nat.ltb_ge; lia).
  by rewrite drop_S_middle.
Qed.

Lemma replaceLoop_no_match pre c rest fuel :
  matchAt (pre ++ c :: rest) r ng (length pre) (c :: rest) = None ->
  replaceLoop r ng (pre ++ c :: rest) f (S fuel) (length pre)
  = c :: replaceLoop r ng (pre ++ c :: rest) f (S fuel) (S (length pre)).
Proof.
  intros Hno. cbn [replaceLoop].
  rewrite exec_at, exec_at_S. cbn [execFrom]. rewrite Hno.
  destruct (execFrom _ r ng (S (length pre)) rest) as [mt|] eqn:E.
  - apply execFrom_index in E.
    unfold slice at 1 3.
    replace (index mt - length pre)%nat with (S (index mt - S (length pre))) by lia.
    rewrite drop_app_length, drop_S_middle. reflexivity.
  - unfold sliceFrom. rewrite drop_app_length, drop_S_middle. reflexivity.
Qed.

Lemma replaceLoop_match pre rest fuel mt :
  matchAt (pre ++ rest) r ng (length pre) rest = Some mt ->
  (index mt < endIndex mt)%nat ->
  replaceLoop r ng (pre ++ rest) f (S fuel) (length pre)
  = f mt ++ replaceLoop r ng (pre ++ rest) f fuel (endIndex mt).
Proof.
  intros Hm Hlt. cbn [replaceLoop]. rewrite exec_at.
  assert (E : execFrom (pre ++ rest) r ng (length pre) rest = Some mt).
  { destruct rest; cbn [execFrom]; rewrite Hm; reflexivity. }
  rewrite E.
  assert (Hi : index mt = length pre).
  { unfold matchAt in Hm. destruct (m _ _ _ _); [|discriminate]. by injection Hm as <-. }
  rewrite Hi in *. unfold slice at 1. rewrite Nat.sub_diag. cbn [take app].
  replace (Nat.eqb _ _) with false by (symmetry; apply Nat.eqb_neq; lia).
  reflexivity.
Qed.
End ReplaceView.

Lemma stripLoop_scan n : forall rest pre fuel,
  (length rest <= n)%nat -> (length rest < fuel)%nat ->
  replaceLoop ansiRe 0 (pre ++ rest) (fun _ => []) fuel (length pre) = stripScan 0 rest.
Proof.
  induction n as [|n IH]; intros rest pre fuel Hn Hf.
  - destruct rest; [|simpl in Hn; lia]. destruct fuel; [lia|].
    cbn [replaceLoop]. rewrite exec_at. cbn [execFrom]. rewrite matchAt_ansi. cbn.
    unfold sliceFrom. by rewrite drop_app_length.
  - destruct fuel as [|fuel]; [lia|].
    destruct rest as [|c rest].
    { cbn [replaceLoop]. rewrite exec_at. cbn [execFrom]. rewrite matchAt_ansi. cbn.
      unfold sliceFrom. by rewrite drop_app_length. }
    destruct (ansiLen (c :: rest)) as [k|] eqn:E.
    + pose proof (ansiLen_le _ _ E) as Hk.
      rewrite (replaceLoop_match _ _ _ _ _ _ (RMatch (length pre) (length pre + k) [None])).
      2:{ rewrite matchAt_ansi, E. reflexivity. }
      2:{ cbn. lia. }
      cbn [app endIndex]. cbn [stripScan]. rewrite E.
      rewrite stripScan_skip.
      rewrite <- (take_drop k (c :: rest)) at 1. rewrite app_assoc.
      replace (length pre + k)%nat with (length (pre ++ take k (c :: rest))).
      2:{ rewrite length_app, length_take. lia. }
      rewrite IH.
      * destruct k; [lia|]. reflexivity.
      * rewrite length_drop. simpl in *. lia.
      * rewrite length_drop. simpl in *. lia.
    + rewrite replaceLoop_no_match by (rewrite matchAt_ansi, E; reflexivity).
      cbn [stripScan]. rewrite E. f_equal.
      replace (pre ++ c :: rest) with ((pre ++ [c]) ++ rest) by (by rewrite <- app_assoc).
      replace (S (length pre)) with (length (pre ++ [c])) by (rewrite length_app; simpl; lia).
      apply IH; simpl in *; lia.
Qed.

Lemma stripAnsi_scan s : stripAnsi s = stripScan 0 s.
Proof.
  unfold stripAnsi, replaceAll.
  apply (stripLoop_scan (length s) s [] (S (length s))); lia.
Qed.

Lemma ansiLen_other c r : chr_eqb c ESC = false -> ansiLen (c :: r) = None.
Proof.
  intros H. destruct r as [|b r]; [reflexivity|]. cbn [ansiLen].
  unfold chr_eqb in *. rewrite N.eqb_sym, H. reflexivity.
Qed.

Lemma stripScan_plain t rest :
  noEsc t = true -> stripScan 0 (t ++ rest) = t ++ stripScan 0 rest.
Proof.
  induction t as [|c t IH]; [reflexivity|]. cbn [noEsc forallb]. intros H.
  apply andb_prop in H as [Hc Ht]. apply negb_true_iff in Hc.
  cbn [app stripScan]. rewrite (ansiLen_other _ _ Hc). f_equal. by apply IH.
Qed.

Lemma stripScan_noEsc t : noEsc t = true -> stripScan 0 t = t.
Proof.
  intros H. rewrite <- (app_nil_r t) at 1. rewrite stripScan_plain by done.
  by rewrite app_nil_r.
Qed.

Lemma execFrom_escFree input rest : forall pos,
  escFree rest -> execFrom input ansiRe 0 pos rest = None.
Proof.
  induction rest as [|c rest IH]; intros pos H; cbn [execFrom]; rewrite matchAt_ansi.
  - reflexivity.
  - inversion H as [|? ? Hc Hr]; subst.
    rewrite ansiLen_other by (by apply N.eqb_neq). cbn [option_map]. by apply IH.
Qed.

Lemma containsAnsi_escFree s : escFree s -> containsAnsi s = false.
Proof.
  intros H. unfold containsAnsi, exec. cbn [Nat.ltb Nat.leb drop].
  rewrite execFrom_escFree by done. apply bool_decide_eq_false. by intros [? ?].
Qed.

Lemma stripScan_out skip s : everyEscOpens s = true -> noEsc (stripScan skip s) = true.
Proof.
  revert skip. induction s as [|c r IH]; intros skip H; [reflexivity|].
  cbn [everyEscOpens] in H. apply andb_prop in H as [Hc Hr].
  cbn [stripScan]. destruct skip as [|k]; [|by apply IH].
  destruct (chr_eqb c ESC) eqn:E.
  - apply bool_decide_eq_true in Hc. rewrite matchAt_ansi in Hc.
    destruct (ansiLen (c :: r)); [by apply IH|]. by destruct Hc.
  - rewrite (ansiLen_other _ _ E). cbn [noEsc forallb]. rewrite E. cbn. by apply IH.
Qed.

Lemma sgrs_app a b : sgrs a -> sgrs b -> sgrs (a ++ b).
Proof.
  induction 1 as [|ps s Hps Hs IH]; intros Hb; [done|].
  cbn [app]. rewrite <- app_assoc. cbn [app]. constructor; auto.
Qed.

Lemma sgrs_one ps : forallb isParam ps = true -> sgrs (ESC :: ch "[" :: ps ++ [ch "m"]).
Proof. intros. by repeat constructor. Qed.

Lemma paramsLen_params ps rest :
  forallb isParam ps = true -> paramsLen (ps ++ ch "m" :: rest) = Some (S (length ps)).
Proof.
  induction ps as [|c ps IH]; cbn [forallb app paramsLen length]; [reflexivity|].
  intros H. apply andb_prop in H as [-> H]. by rewrite IH.
Qed.

Lemma stripScan_sgrs codes rest : sgrs codes -> stripScan 0 (codes ++ rest) = stripScan 0 rest.
Proof.
  induction 1 as [|ps s Hps Hs IH]; [reflexivity|].
  cbn [app stripScan ansiLen]. rewrite <- app_assoc. cbn [app].
  replace (chr_eqb ESC ESC && chr_eqb (ch "[") (ch "[")) with true by reflexivity.
  rewrite paramsLen_params by done. cbn [option_map Nat.pred].
  rewrite stripScan_skip. cbn [drop].
  rewrite drop_S_middle. exact IH.
Qed.

Lemma isParam_digit n : (n < 10)%N -> isParam (48 + n)%N = true.
Proof.
  intros H. unfold isParam, cls_matches, citem_matches. cbn [existsb xorb].
  replace (ch "0") with 48%N by reflexivity. replace (ch "9") with 57%N by reflexivity.
  replace (48 <=? 48 + n)%N with true by (symmetry; apply N.leb_le; lia).
  replace (48 + n <=? 57)%N with true by (symmetry; apply N.leb_le; lia).
  reflexivity.
Qed.

Lemma digitsP_params fuel : forall n acc,
  forallb isParam acc = true -> forallb isParam (digitsP fuel n acc) = true.
Proof.
  induction fuel as [|fuel IH]; intros n acc H; [exact H|].
  cbn [digitsP].
  assert (H' : forallb isParam ((48 + n mod 10)%N :: acc) = true).
  { cbn [forallb]. rewrite isParam_digit; [exact H|]. apply N.mod_lt. lia. }
  destruct (n <? 10)%N; [exact H'|]. by apply IH.
Qed.

Lemma numToString_params n : channelOk n = true -> forallb isParam (numToString n) = true.
Proof.
  destruct n as [z|]; [|discriminate]. cbn [channelOk numToString]. intros H.
  apply Z.leb_le in H. unfold intToString.
  replace (z <? 0) with false by (symmetry; apply Z.ltb_ge; lia).
  by apply digitsP_params.
Qed.

Lemma attrCode_sgrs attrs mask code :
  forallb isParam (removelast (drop 1 (lit code))) = true ->
  lit code = ch "[" :: removelast (drop 1 (lit code)) ++ [ch "m"] ->
  sgrs (attrCode attrs mask code).
Proof.
  intros Hp Hc. unfold attrCode. destruct (_ =? _); [constructor|].
  rewrite Hc. by apply sgrs_one.
Qed.

Lemma chunkCodes_sgrs c : colorOk (fg c) = true -> colorOk (bg c) = true -> sgrs (chunkCodes c).
Proof.
  intros Hf Hb. unfold chunkCodes. repeat apply sgrs_app.
  - destruct (attributes c) as [at_|]; [|constructor].
    destruct (at_ =? 0); [constructor|].
    repeat apply sgrs_app; by apply attrCode_sgrs.
  - destruct (fg c) as [col|]; [|constructor]. cbn [colorOk] in Hf.
    apply andb_prop in Hf as [Hf H3]. apply andb_prop in Hf as [H1 H2].
    unfold rgbToAnsi.
    change (lit "[38;2;") with (ch "[" :: lit "38;2;"). cbn [app].
    rewrite !app_assoc. apply sgrs_one.
    repeat apply forallb_app'; try reflexivity; by apply numToString_params.
  - destruct (bg c) as [col|]; [|constructor]. cbn [colorOk] in Hb.
    apply andb_prop in Hb as [Hb H3]. apply andb_prop in Hb as [H1 H2].
    change (lit "[48;2;") with (ch "[" :: lit "48;2;"). cbn [app].
    rewrite !app_assoc. apply sgrs_one.
    repeat apply forallb_app'; try reflexivity; by apply numToString_params.
Qed.

Lemma textChunksToAnsi_concat chunks :
  textChunksToAnsi chunks = concat (List.map chunkString chunks).
Proof.
  unfold textChunksToAnsi.
  enough (forall acc, fold_left
    (fun result chunk =>
       let codes := chunkCodes chunk in
       result ++ codes ++ text chunk
              ++ (match codes with [] => [] | _ => ESC :: lit "[0m" end)) chunks acc
    = acc ++ concat (List.map chunkString chunks)) as H by apply (H []).
  induction chunks as [|c chunks IH]; intros acc; cbn [fold_left List.map concat].
  - by rewrite app_nil_r.
  - rewrite IH. unfold chunkString. by rewrite <- !app_assoc.
Qed.

(** ** The shrink loop *)

Lemma sumExcess_nonneg ws : 0 <= sumExcess ws.
Proof. induction ws; simpl; lia. Qed.

Lemma sumExcess_zero ws : sumExcess ws <= 0 -> Forall (fun w => w <= 10) ws.
Proof.
  induction ws as [|w ws IH]; simpl; intros H; constructor.
  - pose proof (sumExcess_nonneg ws). lia.
  - apply IH. pose proof (sumExcess_nonneg ws). lia.
Qed.

Lemma sumExcess_insert ws : forall i w,
  ws !! i = Some w -> 10 < w -> sumExcess (<[i := w - 1]> ws) = sumExcess ws - 1.
Proof.
  induction ws as [|v ws IH]; intros [|i] w H Hw; simpl in *; try discriminate.
  - injection H as ->. lia.
  - rewrite (IH i w H Hw). lia.
Qed.

Lemma fold_left_max_ge l : forall x, x <= fold_left Z.max l x /\ Forall (fun v => v <= fold_left Z.max l x) l.
Proof.
  induction l as [|y l IH]; intros x; simpl; [split; [lia|constructor]|].
  destruct (IH (Z.max x y)) as [H1 H2]. split; [lia|]. constructor; [lia|done].
Qed.

Lemma fold_left_max_in l : forall x, fold_left Z.max l x = x \/ In (fold_left Z.max l x) l.
Proof.
  induction l as [|y l IH]; intros x; simpl; [by left|].
  destruct (IH (Z.max x y)) as [H|H]; [|by right; right].
  rewrite H. destruct (Z.max_spec x y) as [[_ ->]|[_ ->]]; [right; by left|by left].
Qed.

Lemma maxOf_ge ws : Forall (fun v => v <= maxOf ws) ws.
Proof.
  destruct ws as [|x l]; [constructor|]. simpl.
  destruct (fold_left_max_ge l x). by constructor.
Qed.

Lemma maxOf_in ws : ws <> [] -> In (maxOf ws) ws.
Proof.
  destruct ws as [|x l]; [done|]. intros _. simpl.
  destruct (fold_left_max_in l x) as [->|H]; [by left|by right].
Qed.

Lemma indexOf_in x l : In x l -> exists i, indexOf x l = Some i /\ l !! i = Some x.
Proof.
  induction l as [|y l IH]; [done|]. intros H. simpl.
  destruct (y =? x) eqn:E.
  - apply Z.eqb_eq in E. subst. exists 0%nat. split; reflexivity.
  - destruct H as [->|H]; [rewrite Z.eqb_refl in E; discriminate|].
    destruct (IH H) as (i & -> & Hi). exists (S i). split; [reflexivity|exact Hi].
Qed.

Lemma shrinkStep_widest ws :
  existsb (fun w => 10 <? w) ws = true ->
  exists i w, ws !! i = Some w /\ 10 < w /\ Forall (fun v => v <= w) ws
              /\ shrinkStep ws = <[i := w - 1]> ws.
Proof.
  intros H. apply existsb_exists in H as (v & Hv & Hgt). apply Z.ltb_lt in Hgt.
  assert (Hne : ws <> []) by (intros ->; destruct Hv).
  destruct (indexOf_in _ _ (maxOf_in ws Hne)) as (i & Hi & Hl).
  pose proof (maxOf_ge ws) as Hge.
  assert (10 < maxOf ws).
  { rewrite Forall_forall in Hge. specialize (Hge v). rewrite <- list_elem_of_In in Hv. specialize (Hge Hv). lia. }
  exists i, (maxOf ws). repeat split; try done.
  unfold shrinkStep. rewrite Hi, Hl. cbn [default from_option id]. f_equal. lia.
Qed.

Lemma widthKept_insert ws : forall i w,
  ws !! i = Some w -> 10 < w -> Forall2 widthKept ws (<[i := w - 1]> ws).
Proof.
  induction ws as [|v ws IH]; intros [|i] w H Hw; simpl in *; try discriminate.
  - injection H as ->. constructor; [right; lia|]. apply Forall2_same_length_lookup_2; [done|].
    intros j x y Hx Hy. left. congruence.
  - constructor; [by left|]. by apply IH.
Qed.

Lemma widthKept_trans l1 l2 l3 :
  Forall2 widthKept l1 l2 -> Forall2 widthKept l2 l3 -> Forall2 widthKept l1 l3.
Proof.
  intros H. revert l3. induction H as [|a b l1 l2 Hab H IH]; intros l3 H3; inversion H3; subst; constructor.
  - unfold widthKept in *. lia.
  - by apply IH.
Qed.

Lemma widthKept_refl l : Forall2 widthKept l l.
Proof. induction l; constructor; [by left|done]. Qed.

Lemma shrinkLoop_run maxWidth n : forall ws,
  sumExcess ws <= Z.of_nat n ->
  shrinkRun maxWidth ws (shrinkLoop n maxWidth ws)
  /\ Forall2 widthKept ws (shrinkLoop n maxWidth ws).
Proof.
  induction n as [|n IH]; intros ws Hn.
  - cbn [shrinkLoop]. split; [|apply widthKept_refl].
    constructor. right. apply sumExcess_zero. lia.
  - cbn [shrinkLoop]. unfold shrinkCond.
    destruct (maxWidth <? calcWidth ws) eqn:Hc; cbn [andb].
    2:{ split; [|apply widthKept_refl]. constructor. left. apply Z.ltb_ge in Hc. lia. }
    destruct (existsb _ ws) eqn:He.
    2:{ split; [|apply widthKept_refl]. constructor. right.
        rewrite Forall_forall. intros v Hv.
        destruct (Z.ltb_spec 10 v); [|done].
        assert (existsb (fun w => 10 <? w) ws = true); [|congruence].
        apply existsb_exists. exists v. split; [by apply list_elem_of_In|by apply Z.ltb_lt]. }
    destruct (shrinkStep_widest ws He) as (i & w & Hi & Hw & Hall & ->).
    destruct (IH (<[i := w - 1]> ws)) as [Hrun Hk].
    { rewrite (sumExcess_insert ws i w Hi Hw). lia. }
    split.
    + apply Z.ltb_lt in Hc. by eapply shrink_more.
    + eapply widthKept_trans; [by apply widthKept_insert|done].
Qed.

Lemma shrinkRun_exit maxWidth ws ws' :
  shrinkRun maxWidth ws ws' ->
  calcWidth ws' <= maxWidth \/ Forall (fun w => w <= 10) ws'.
Proof. induction 1; auto. Qed.

Lemma fitWidths_run maxWidth ws :
  shrinkRun maxWidth ws (fitWidths maxWidth ws)
  /\ Forall2 widthKept ws (fitWidths maxWidth ws)
  /\ (calcWidth (fitWidths maxWidth ws) <= maxWidth
      \/ Forall (fun w => w <= 10) (fitWidths maxWidth ws)).
Proof.
  unfold fitWidths.
  destruct (shrinkLoop_run maxWidth (shrinkFuel ws) ws) as [Hrun Hk].
  { unfold shrinkFuel. fold (sumExcess ws). pose proof (sumExcess_nonneg ws). lia. }
  split; [exact Hrun|]. split; [exact Hk|]. by eapply shrinkRun_exit.
Qed.


(** ** Code fences *)

Lemma split_fence : split NL fence = [fence].
Proof. reflexivity. Qed.

Lemma fence_is_fence : startsWith (trim fence) fence = true.
Proof. reflexivity. Qed.

Section Blocks.
Variable stringWidth : jsstring -> nat.
Variable theme : IntTheme.
Variable cols : Z.

Lemma renderLine_fence line next st :
  startsWith (trim line) fence = true ->
  renderLine stringWidth theme cols line next st
  = Some ([], if inCodeBlock st
              then mkBlockState false [] (inTable st) (tableLines st)
              else mkBlockState true (trim (sliceFrom (trim line) 3)) (inTable st) (tableLines st)).
Proof. intros H. unfold renderLine. rewrite H. by destruct (inCodeBlock st). Qed.

Lemma renderLine_code line next next' st :
  inCodeBlock st = true ->
  renderLine stringWidth theme cols line next st
  = renderLine stringWidth theme cols line next' st.
Proof.
  intros H. unfold renderLine. rewrite H. destruct (startsWith (trim line) fence); reflexivity.
Qed.

Lemma renderLine_state line next st out st' :
  renderLine stringWidth theme cols line next st = Some (out, st') ->
  inCodeBlock st' = if startsWith (trim line) fence then negb (inCodeBlock st) else inCodeBlock st.
Proof.
  destruct (startsWith (trim line) fence) eqn:Hf.
  - rewrite renderLine_fence by done. intros [= <- <-]. by destruct (inCodeBlock st).
  - unfold renderLine. rewrite Hf. intros H.
    repeat (case_match; simplify_option_eq; try done).
Qed.

Lemma blockLoop_close_fence lines : forall st,
  fenceState (inCodeBlock st) lines = true ->
  blockLoop stringWidth theme cols (lines ++ [fence]) st
  = blockLoop stringWidth theme cols lines st.
Proof.
  induction lines as [|line rest IH]; intros st H.
  - cbn [fenceState fold_left] in H. cbn [app blockLoop head].
    rewrite (renderLine_fence _ _ _ fence_is_fence), H. reflexivity.
  - cbn [app blockLoop].
    assert (Hr : renderLine stringWidth theme cols line (head (rest ++ [fence])) st
                 = renderLine stringWidth theme cols line (head rest) st).
    { destruct rest as [|l2 rest]; [|reflexivity].
      cbn [fenceState fold_left] in H.
      destruct (startsWith (trim line) fence) eqn:Hf.
      - by rewrite !renderLine_fence.
      - by apply renderLine_code. }
    rewrite Hr.
    destruct (renderLine stringWidth theme cols line (head rest) st) as [[out st']|] eqn:E;
      [|reflexivity].
    cbn [mbind option_bind]. rewrite IH; [reflexivity|].
    rewrite (renderLine_state _ _ _ _ _ E). exact H.
Qed.
End Blocks.

Lemma seg_step_inCode st line :
  Segments.inCodeBlock (Segments.step st line)
  = if startsWith (trim line) fence then negb (Segments.inCodeBlock st) else Segments.inCodeBlock st.
Proof.
  unfold Segments.step. change (lit "```") with fence.
  destruct (startsWith (trim line) fence); [|by destruct (Segments.inCodeBlock st)].
  destruct (Segments.inCodeBlock st); reflexivity.
Qed.

Lemma seg_fold_inCode lines : forall st,
  Segments.inCodeBlock (fold_left Segments.step lines st)
  = fenceState (Segments.inCodeBlock st) lines.
Proof.
  induction lines as [|l lines IH]; intros st; [reflexivity|].
  cbn [fold_left fenceState]. rewrite IH, seg_step_inCode. reflexivity.
Qed.

Lemma seg_flush_text st : Segments.currentText (Segments.flushText st) = [].
Proof. unfold Segments.flushText. by destruct (Segments.currentText st) eqn:E. Qed.

Lemma seg_step_inv st line : segInv st -> segInv (Segments.step st line).
Proof.
  unfold segInv, Segments.step. intros H.
  destruct (startsWith (trim line) (lit "```")).
  - destruct (Segments.inCodeBlock st); cbn; [done|]. intros _. apply seg_flush_text.
  - destruct (Segments.inCodeBlock st); cbn; [auto|done].
Qed.

Lemma seg_fold_inv lines : forall st, segInv st -> segInv (fold_left Segments.step lines st).
Proof.
  induction lines as [|l lines IH]; intros st H; [done|]. apply IH. by apply seg_step_inv.
Qed.

Lemma seg_step_close st :
  Segments.inCodeBlock st = true ->
  Segments.step st fence
  = Segments.mk
      (Segments.segments st
       ++ [CodeSegment (join [NL] (Segments.codeBlockContent st)) (Segments.codeBlockLang st)])
      (Segments.currentText st) false [] [].
Proof.
  intros H. unfold Segments.step.
  rewrite (fence_is_fence : startsWith (trim fence) (lit "```") = true), H. reflexivity.
Qed.

Lemma seg_step_content st x :
  Segments.inCodeBlock st = true -> startsWith (trim x) fence = false ->
  Segments.step st x
  = Segments.mk (Segments.segments st) (Segments.currentText st) true
      (Segments.codeBlockLang st) (Segments.codeBlockContent st ++ [x]).
Proof.
  intros H Hx. unfold Segments.step. change (lit "```") with fence. rewrite Hx, H.
  reflexivity.
Qed.

Lemma parseMarkdownSegments_close md :
  openFence md = true ->
  startsWith (trim (lastLine md)) fence = false ->
  parseMarkdownSegments (md ++ NL :: fence) = parseMarkdownSegments md.
Proof.
  unfold openFence, lastLine, parseMarkdownSegments. intros Hopen Hlast.
  rewrite split_app_sep, split_fence, fold_left_app. cbn [fold_left].
  destruct (exists_last (split_nonempty NL md)) as (lines & x & E). rewrite E in *.
  rewrite last_last in Hlast. rewrite fold_left_app in *. cbn [fold_left] in *.
  set (st0 := fold_left Segments.step lines Segments.initial) in *.
  assert (Hinv0 : segInv st0) by (by apply seg_fold_inv).
  assert (Hin0 : Segments.inCodeBlock st0 = true).
  { unfold fenceState in Hopen. rewrite fold_left_app in Hopen. cbn [fold_left] in Hopen.
    rewrite Hlast in Hopen. unfold st0. rewrite seg_fold_inCode. exact Hopen. }
  rewrite (seg_step_content st0 x Hin0 Hlast).
  rewrite seg_step_close by reflexivity.
  unfold Segments.flushText.
  cbn [Segments.currentText Segments.inCodeBlock Segments.codeBlockContent
       Segments.segments Segments.codeBlockLang andb].
  rewrite (Hinv0 Hin0).
  cbn [Segments.currentText Segments.inCodeBlock Segments.codeBlockContent
       Segments.segments Segments.codeBlockLang andb].
  destruct (Segments.codeBlockContent st0); reflexivity.
Qed.

(** ** The renderer without colors *)

Lemma simple_step_total cols indent listPrefix st line :
  4 <= cols -> is_Some (Simple.step cols indent listPrefix st line).
Proof.
  intros Hc. unfold Simple.step.
  repeat case_match; eauto.
  - destruct (repeat_nonneg Box.horizontal (Z.min (cols - 4) 60)) as [t ->]; [lia|]. cbn. eauto.
  - match goal with |- context [JS.repeat indent ?d] =>
      destruct (repeat_nonneg indent d) as [t ->]; [apply Z.div_pos; lia|] end. cbn. eauto.
Qed.

Lemma simple_step_clean cols indent listPrefix st line st' :
  Simple.step cols indent listPrefix st line = Some st' ->
  escFree line -> escFree indent -> escFree listPrefix ->
  Forall escFree (Simple.result st) -> Forall escFree (Simple.codeBlockContent st) ->
  Forall escFree (Simple.result st') /\ Forall escFree (Simple.codeBlockContent st').
Proof.
  intros H Hl Hi Hp Hr Hc. unfold Simple.step in H.
  assert (Hnl : escFree [NL]) by (by repeat constructor).
  assert (Hbox : escFree Box.horizontal) by (by repeat constructor).
  repeat case_match; simplify_option_eq; cbn; split; try done;
    repeat (apply Forall_app; split); try done;
    repeat (apply Forall_cons; split); try done;
    repeat (apply Forall_app; split); try done;
    try (by apply ok_groupStr);
    try (by apply ok_join; [constructor|]);
    try (eapply ok_repeat; [|eassumption]; done).
Qed.

Lemma simple_loop_clean cols indent listPrefix lines : forall st,
  4 <= cols ->
  Forall escFree lines -> escFree indent -> escFree listPrefix ->
  Forall escFree (Simple.result st) -> Forall escFree (Simple.codeBlockContent st) ->
  exists st', Simple.loop cols indent listPrefix lines st = Some st'
              /\ Forall escFree (Simple.result st').
Proof.
  induction lines as [|line rest IH]; intros st Hc Hl Hi Hp Hr Hcc.
  - exists st. done.
  - inversion Hl; subst. cbn [Simple.loop].
    destruct (simple_step_total cols indent listPrefix st line Hc) as [st1 E]. rewrite E.
    cbn [mbind option_bind].
    destruct (simple_step_clean _ _ _ _ _ _ E) as [Hr1 Hc1]; try done.
    by apply IH.
Qed.


(** ** Chunks and their text *)

Lemma textOf_app a b : textOf (a ++ b) = textOf a ++ textOf b.
Proof. unfold textOf. by rewrite map_app, concat_app. Qed.

Lemma textOf_nil : textOf [] = [].
Proof. reflexivity. Qed.

Lemma textOf_addChunk t c a : textOf (addChunk t c a) = t.
Proof. destruct t; [reflexivity|]. unfold textOf. cbn. by rewrite app_nil_r. Qed.

Lemma textOf_addChunkWithBg t c d a : textOf (addChunkWithBg t c d a) = t.
Proof. destruct t; [reflexivity|]. unfold textOf. cbn. by rewrite app_nil_r. Qed.

Lemma textOf_concat css : textOf (concat css) = concat (List.map textOf css).
Proof.
  induction css as [|cs css IH]; [reflexivity|].
  cbn [concat List.map]. by rewrite textOf_app, IH.
Qed.

Section InlineChars.
Variable P : char -> Prop.
Hypothesis P_sp : P SP.
Hypothesis P_open : P (ch "(").
Hypothesis P_close : P (ch ")").
Variable theme : IntTheme.

Lemma ok_inlineMatchChunks text mt :
  Forall P text -> Forall P (textOf (inlineMatchChunks text theme mt)).
Proof.
  intros H. unfold inlineMatchChunks.
  assert (Hlit1 : Forall P (lit " (")) by (by repeat constructor).
  assert (Hlit2 : Forall P (lit ")")) by (by repeat constructor).
  repeat case_match; rewrite ?textOf_app, ?textOf_addChunk, ?textOf_nil;
    repeat (apply Forall_app; split); try done;
    try (by apply ok_groupStr);
    repeat match goal with
    | |- Forall P (groupStr _ _ _) => apply ok_groupStr
    | Hg : group text ?mt ?i = Some ?s |- Forall P ?s =>
        apply (ok_group P text mt i s); [assumption|exact Hg]
    end.
Qed.

Lemma ok_inlineLoop text color attrs fuel : forall lastIndex,
  Forall P text ->
  Forall P (textOf (inlineLoop fuel text theme color attrs lastIndex)).
Proof.
  induction fuel as [|fuel IH]; intros lastIndex H; cbn [inlineLoop].
  - case_match; rewrite ?textOf_addChunk; [by apply ok_sliceFrom|constructor].
  - destruct (exec inlineRegex 8 text lastIndex) as [mt|].
    + rewrite !textOf_app. repeat (apply Forall_app; split).
      * case_match; rewrite ?textOf_addChunk; [by apply ok_slice|constructor].
      * by apply ok_inlineMatchChunks.
      * by apply IH.
    + case_match; rewrite ?textOf_addChunk; [by apply ok_sliceFrom|constructor].
Qed.

Lemma ok_renderInlineThemed text :
  Forall P text -> Forall P (textOf (renderInlineThemed text theme)).
Proof. intros H. by apply ok_inlineLoop. Qed.
End InlineChars.

Section TableChars.
Variable P : char -> Prop.
Hypothesis P_sp : P SP.
Hypothesis P_tick : P (ch "`").
Hypothesis P_pipe : P (ch "|").
Variable stringWidth : jsstring -> nat.

Lemma ok_parseRowLoop_n n : forall row cells cell,
  (length row <= n)%nat ->
  Forall P row -> Forall (Forall P) cells -> Forall P cell ->
  Forall (Forall P) (parseRowLoop row cells cell).
Proof.
  induction n as [|n IH]; intros row cells cell Hn Hrow Hcells Hcell.
  - destruct row; [|simpl in Hn; lia]. cbn [parseRowLoop].
    apply Forall_app; split; [done|by constructor].
  - destruct row as [|c rest]; cbn [parseRowLoop].
    { apply Forall_app; split; [done|by constructor]. }
    inversion Hrow as [|? ? Hc Hrest]; subst. simpl in Hn.
    assert (Hclose : Forall (Forall P) (cells ++ [cell])).
    { apply Forall_app; split; [done|by constructor]. }
    assert (Hadd : Forall P (cell ++ [c])).
    { apply Forall_app; split; [done|by constructor]. }
    destruct rest as [|c' rest'].
    + destruct (chr_eqb c (ch "|")); apply IH; simpl; try lia; done.
    + inversion Hrest; subst. simpl in Hn.
      destruct (chr_eqb c (ch "\") && chr_eqb c' (ch "|")).
      * apply IH; simpl; try lia; try done.
        apply Forall_app; split; [done|by repeat constructor].
      * destruct (chr_eqb c (ch "|")); apply IH; simpl; try lia; done.
Qed.

Lemma ok_parseRowLoop row cells cell :
  Forall P row -> Forall (Forall P) cells -> Forall P cell ->
  Forall (Forall P) (parseRowLoop row cells cell).
Proof. by apply (ok_parseRowLoop_n (length row)). Qed.

Lemma ok_parseRow row : Forall P row -> Forall (Forall P) (parseRow row).
Proof.
  intros H. unfold parseRow. apply Forall_fmap.
  assert (H1 : Forall (Forall P) (parseRowLoop row [] [])) by (by apply ok_parseRowLoop).
  unfold sliceInner.
  eapply Forall_impl; [by apply Forall_take, Forall_drop|].
  intros x Hx. by apply ok_trim.
Qed.

Lemma ok_tokenize text : forall tokens current inBacktick,
  Forall P text -> Forall (Forall P) tokens -> Forall P current ->
  Forall (Forall P) (tokenize text tokens current inBacktick).
Proof.
  induction text as [|c rest IH]; intros tokens current inB Ht Hts Hc; cbn [tokenize].
  - destruct current; [done|]. apply Forall_app; split; [done|by constructor].
  - inversion Ht; subst.
    assert (Forall P (current ++ [c])) by (apply Forall_app; split; [done|by constructor]).
    destruct (chr_eqb c (ch "`")); [by apply IH|].
    destruct (chr_eqb c SP && negb inB); [|by apply IH].
    apply IH; try done.
    apply Forall_app; split; [|by repeat constructor].
    destruct current; [done|]. apply Forall_app; split; [done|by constructor].
Qed.

Lemma ok_quotePart q part : Forall P part -> Forall P (quotePart q part).
Proof.
  intros H. unfold quotePart. destruct q; [|done].
  repeat (apply Forall_app; split); try done; by repeat constructor.
Qed.

Lemma ok_breakLoop q maxLen inner : forall parts part,
  Forall P inner -> Forall (Forall P) parts -> Forall P part ->
  Forall (Forall P) (breakLoop q maxLen inner parts part).
Proof.
  induction inner as [|c rest IH]; intros parts part Hi Hps Hp; cbn [breakLoop].
  - destruct part; [done|]. apply Forall_app; split; [done|]. constructor; [|done].
    by apply ok_quotePart.
  - inversion Hi; subst.
    assert (Forall P (part ++ [c])) by (apply Forall_app; split; [done|by constructor]).
    case_match; apply IH; try done.
    apply Forall_app; split; [done|]. constructor; [|done]. by apply ok_quotePart.
Qed.

Lemma ok_breakLongToken token maxLen :
  Forall P token -> Forall (Forall P) (breakLongToken token maxLen).
Proof.
  intros H. unfold breakLongToken. case_match; [by repeat constructor|].
  apply ok_breakLoop; try done. case_match; [by apply ok_sliceInner|done].
Qed.

Lemma ok_placePart width st part :
  okState P st -> Forall P part -> okState P (placePart stringWidth width st part).
Proof.
  intros [H1 H2] Hp. destruct st as [lines line]. cbn [fst snd] in *. unfold placePart.
  repeat case_match; split; cbn [fst snd]; try done.
  - by apply Forall_app.
  - apply Forall_app; split; [done|]. constructor; [|done]. by apply ok_trimEnd.
Qed.

Lemma ok_placeParts width parts : forall st,
  okState P st -> Forall (Forall P) parts ->
  okState P (fold_left (placePart stringWidth width) parts st).
Proof.
  induction parts as [|p parts IH]; intros st Hst Hps; [done|].
  inversion Hps; subst. cbn [fold_left]. apply IH; [|done]. by apply ok_placePart.
Qed.

Lemma ok_placeToken width st token :
  okState P st -> Forall P token -> okState P (placeToken stringWidth width st token).
Proof.
  intros [H1 H2] Hp. destruct st as [lines line]. cbn [fst snd] in *. unfold placeToken.
  assert (Hsp : Forall P (lit " ")) by (by repeat constructor).
  assert (Hpush : Forall (Forall P) (lines ++ [trimEnd line])).
  { apply Forall_app; split; [done|]. constructor; [|done]. by apply ok_trimEnd. }
  repeat case_match; try (split; cbn [fst snd]; try done; by apply Forall_app);
    apply ok_placeParts; try (by apply ok_breakLongToken); by split.
Qed.

Lemma ok_placeTokens width tokens : forall st,
  okState P st -> Forall (Forall P) tokens ->
  okState P (fold_left (placeToken stringWidth width) tokens st).
Proof.
  induction tokens as [|p tokens IH]; intros st Hst Hps; [done|].
  inversion Hps; subst. cbn [fold_left]. apply IH; [|done]. by apply ok_placeToken.
Qed.

Lemma ok_wordWrap text width :
  Forall P text -> Forall (Forall P) (wordWrap stringWidth text width).
Proof.
  intros H. unfold wordWrap. case_match; [by repeat constructor|].
  destruct (fold_left _ _ _) as [lines line] eqn:E.
  assert (Hst : okState P (lines, line)).
  { rewrite <- E. apply ok_placeTokens; [by split|]. by apply ok_tokenize. }
  destruct Hst as [H1 H2]. cbn [fst snd] in *.
  assert (Forall (Forall P) (lines ++ [trimEnd line])).
  { apply Forall_app; split; [done|]. constructor; [|done]. by apply ok_trimEnd. }
  repeat case_match; subst; try done.
  - by repeat constructor.
  - match goal with Heq : _ = ?x |- Forall _ ?x => by rewrite <- Heq end.
Qed.
End TableChars.

(** ** Table layout *)

(** generic list lemmas *)
Lemma imap_zip_with {A C} (G : A -> Z -> C) (l : list A) : forall (F : nat -> A -> C) (ws : list Z),
  length l = length ws ->
  (forall i x w, l !! i = Some x -> ws !! i = Some w -> F i x = G x w) ->
  imap F l = zip_with G l ws.
Proof.
  induction l as [|x l IH]; intros F ws Hlen HF; destruct ws as [|w ws]; try discriminate;
    [reflexivity|].
  cbn [imap zip_with]. f_equal.
  - by apply (HF 0%nat).
  - apply IH; [simpl in Hlen; lia|]. intros i y v Hy Hv. by apply (HF (S i)).
Qed.

Lemma mapM_id_zip_with {A B} (G : A -> Z -> option B) (R : Z -> B -> Prop) l ws :
  Forall2 (fun x w => exists y, G x w = Some y /\ R w y) l ws ->
  exists ys, mapM id (zip_with G l ws) = Some ys /\ Forall2 R ws ys.
Proof.
  induction 1 as [|x w l ws (y & Hy & HR) H IH].
  - exists []. split; [reflexivity|constructor].
  - destruct IH as (ys & Hys & HRs). exists (y :: ys). split; [|by constructor].
    apply mapM_Some in Hys. apply mapM_Some. cbn [zip_with]. by constructor.
Qed.

Lemma mapM_all {A B} (f : A -> option B) (R : B -> Prop) l :
  Forall (fun x => exists y, f x = Some y /\ R y) l ->
  exists ys, mapM f l = Some ys /\ Forall R ys.
Proof.
  induction 1 as [|x l (y & Hy & HR) H IH].
  - exists []. split; [reflexivity|constructor].
  - destruct IH as (ys & Hys & HRs). exists (y :: ys). split; [|by constructor].
    apply mapM_Some in Hys. apply mapM_Some. by constructor.
Qed.

Lemma forallb_zip_Forall2 {A} (chk : A -> Z -> bool) l ws :
  length l = length ws ->
  forallb id (zip_with chk l ws) = true ->
  Forall2 (fun x w => chk x w = true) l ws.
Proof.
  revert ws. induction l as [|x l IH]; intros [|w ws] Hlen H; try discriminate; constructor.
  - cbn in H. by apply andb_prop in H as [? _].
  - apply IH; [simpl in Hlen; lia|]. cbn in H. by apply andb_prop in H as [_ ?].
Qed.

Lemma split_nlFree s : nlFree s -> split NL s = [s].
Proof.
  induction 1 as [|c s Hc Hs IH]; [reflexivity|]. cbn [split].
  replace (chr_eqb c NL) with false by (symmetry; by apply N.eqb_neq). by rewrite IH.
Qed.

Lemma split_linesText contents :
  Forall nlFree contents -> split NL (linesText contents) = contents ++ [[]].
Proof.
  induction 1 as [|c cs Hc Hcs IH]; [reflexivity|].
  unfold linesText in *. cbn [List.map concat]. rewrite <- app_assoc. cbn [app].
  rewrite split_app_sep, split_nlFree, IH by done. reflexivity.
Qed.

Lemma linesText_app a b : linesText (a ++ b) = linesText a ++ linesText b.
Proof. unfold linesText. by rewrite map_app, concat_app. Qed.

Lemma calcWidth_sum ws : calcWidth ws = 1 + sumCols ws.
Proof.
  unfold calcWidth.
  enough (forall acc, fold_left (fun a b => a + b + 3) ws acc = acc + sumCols ws) by done.
  induction ws as [|w ws IH]; intros acc; cbn [fold_left sumCols fold_right]; [lia|].
  rewrite IH. unfold sumCols. lia.
Qed.

Section Widths.
Variable stringWidth : jsstring -> nat.
Hypothesis sw_app : forall a b, stringWidth (a ++ b) = (stringWidth a + stringWidth b)%nat.
Hypothesis sw_frame : forall c, frameChar c = true -> stringWidth [c] = 1%nat.

Lemma sw_nil : stringWidth [] = 0%nat.
Proof. pose proof (sw_app [] []) as H. cbn [app] in H. lia. Qed.

Lemma sw_replicate c n :
  frameChar c = true -> stringWidth (concat (replicate n [c])) = n.
Proof.
  intros H. induction n as [|n IH]; cbn [replicate concat]; [apply sw_nil|].
  rewrite sw_app, (sw_frame c H), IH. lia.
Qed.

Lemma sw_textOf_fold cs :
  fold_left (fun len c => len + Z.of_nat (stringWidth (text c))) cs 0
  = Z.of_nat (stringWidth (textOf cs)).
Proof.
  enough (forall acc, fold_left (fun len c => len + Z.of_nat (stringWidth (text c))) cs acc
                      = acc + Z.of_nat (stringWidth (textOf cs))) as H by (rewrite H; lia).
  induction cs as [|c cs IH]; intros acc; cbn [fold_left].
  - unfold textOf. cbn. rewrite sw_nil. lia.
  - rewrite IH. unfold textOf. cbn [List.map concat]. rewrite sw_app. lia.
Qed.

Lemma pieces_line ws ys :
  Forall2 (cellPiece stringWidth) ws ys ->
  Z.of_nat (stringWidth (textOf (concat ys))) = sumCols ws /\ nlFree (textOf (concat ys)).
Proof.
  induction 1 as [|w y ws ys [Hw Hn] H [IH1 IH2]].
  - cbn. rewrite sw_nil. split; [done|constructor].
  - cbn [concat sumCols fold_right]. rewrite textOf_app, sw_app. fold (sumCols ws).
    split; [lia|by apply Forall_app].
Qed.
End Widths.

Lemma mapM_rel {A B} (f : A -> option B) (R : A -> B -> Prop) l :
  Forall (fun x => exists y, f x = Some y /\ R x y) l ->
  exists ys, mapM f l = Some ys /\ Forall2 R l ys.
Proof.
  induction 1 as [|x l (y & Hy & HR) H IH].
  - exists []. split; [reflexivity|constructor].
  - destruct IH as (ys & Hys & HRs). exists (y :: ys). split; [|by constructor].
    apply mapM_Some in Hys. apply mapM_Some. by constructor.
Qed.

Lemma frameChar_not_nl c : frameChar c = true -> c <> NL.
Proof. intros H ->. discriminate. Qed.

Section Layout.
Variable stringWidth : jsstring -> nat.
Hypothesis sw_app : forall a b, stringWidth (a ++ b) = (stringWidth a + stringWidth b)%nat.
Hypothesis sw_frame : forall c, frameChar c = true -> stringWidth [c] = 1%nat.
Variable theme : IntTheme.

Lemma repeat_frame c n :
  frameChar c = true -> 0 <= n ->
  exists t, JS.repeat [c] n = Some t /\ Z.of_nat (stringWidth t) = n /\ nlFree t.
Proof.
  intros Hc Hn. unfold JS.repeat.
  replace (n <? 0) with false by (symmetry; apply Z.ltb_ge; lia).
  eexists. split; [reflexivity|]. split.
  - rewrite (sw_replicate stringWidth sw_app sw_frame) by done. lia.
  - apply Forall_concat.
    induction (Z.to_nat n); cbn; constructor; try done.
    constructor; [by apply frameChar_not_nl|constructor].
Qed.

Lemma join_width m segs ws :
  frameChar m = true ->
  Forall2 (fun w seg => Z.of_nat (stringWidth seg) = w + 2 /\ nlFree seg) ws segs ->
  ws <> [] ->
  Z.of_nat (stringWidth (join [m] segs)) = sumCols ws - 1 /\ nlFree (join [m] segs).
Proof.
  intros Hm. induction 1 as [|w seg ws segs [Hw Hn] H IH]; [done|]. intros _.
  cbn [join sumCols fold_right]. fold (sumCols ws).
  destruct H as [|w' seg' ws' segs' H' Hrest].
  - cbn. split; [lia|done].
  - destruct IH as [IH1 IH2]; [done|].
    rewrite !sw_app, (sw_frame m Hm). split; [lia|].
    repeat (apply Forall_app; split); try done.
    constructor; [by apply frameChar_not_nl|constructor].
Qed.

Lemma borderLine_good l m r ws :
  frameChar l = true -> frameChar m = true -> frameChar r = true ->
  Forall (fun w => 0 <= w) ws -> ws <> [] ->
  exists content, borderLine [l] [m] [r] ws = Some (content ++ [NL])
                  /\ goodLine stringWidth (calcWidth ws) content.
Proof.
  intros Hl Hm Hr Hws Hne. unfold borderLine.
  destruct (mapM_rel (fun w => JS.repeat Box.horizontal (w + 2))
              (fun w seg => Z.of_nat (stringWidth seg) = w + 2 /\ nlFree seg) ws)
    as (segs & -> & Hsegs).
  { eapply Forall_impl; [exact Hws|]. intros w Hw. cbn beta in Hw.
    destruct (repeat_frame 9472%N (w + 2)) as (t & Ht & Hsw & Hnl); [done|lia|].
    exists t. done. }
  cbn [mbind option_bind].
  exists ([l] ++ join [m] segs ++ [r]). split; [by rewrite <- !app_assoc|].
  destruct (join_width m segs ws Hm Hsegs Hne) as [Hj1 Hj2].
  split.
  - repeat (apply Forall_app; split); try done;
      (constructor; [by apply frameChar_not_nl|constructor]).
  - rewrite !sw_app, (sw_frame l Hl), (sw_frame r Hr), calcWidth_sum. lia.
Qed.

(** header cells *)
Lemma headerCell_piece cell w :
  0 <= w -> nlFree cell ->
  ((Z.of_nat (stringWidth cell) <=? w)
   || (Z.of_nat (stringWidth (slice cell 0 (Z.to_nat w))) =? w)) = true ->
  exists y, headerCell stringWidth theme [w] 0 cell = Some y /\ cellPiece stringWidth w y.
Proof.
  intros Hw Hn Hchk. unfold headerCell. cbn [lookup list_lookup].
  change (JS.repeat (lit " ")) with (JS.repeat [SP]).
  assert (Hsp : stringWidth (lit " ") = 1%nat) by (by apply sw_frame).
  assert (Hv : stringWidth Box.vertical = 1%nat) by (by apply sw_frame).
  assert (Hnl1 : nlFree (lit " ")) by (by repeat constructor).
  assert (Hnl2 : nlFree (lit " " ++ Box.vertical)) by (by repeat constructor).
  destruct (Z.of_nat (stringWidth cell) <=? w) eqn:E.
  - apply Z.leb_le in E.
    destruct (repeat_frame SP (w - Z.of_nat (stringWidth cell))) as (pad & -> & Hp & Hpn);
      [done|lia|].
    cbn [mbind option_bind]. eexists. split; [reflexivity|].
    unfold cellPiece. rewrite !textOf_app, !textOf_addChunk. split.
    + rewrite !sw_app, Hsp, Hv. lia.
    + repeat (apply Forall_app; split); try done; by repeat constructor.
  - cbn [orb] in Hchk. apply Z.eqb_eq in Hchk.
    cbn [mbind option_bind]. eexists. split; [reflexivity|].
    unfold cellPiece. rewrite !textOf_app, !textOf_addChunk. split.
    + rewrite !sw_app, Hsp, Hv.
      lia.
    + repeat (apply Forall_app; split); try done; try (by apply ok_slice);
        by repeat constructor.
Qed.

Lemma renderCell_piece txt w :
  0 <= w -> nlFree txt ->
  txt = [] \/ renderedWidth stringWidth theme txt <= w ->
  exists body, renderCell stringWidth theme txt w false = Some body
               /\ Z.of_nat (stringWidth (textOf body)) = w /\ nlFree (textOf body).
Proof.
  intros Hw Hn Hfit. unfold renderCell.
  change (JS.repeat (lit " ")) with (JS.repeat [SP]).
  destruct txt as [|c txt'].
  { destruct (repeat_frame SP w) as (pad & -> & Hp & Hpn); [done|lia|].
    cbn [mbind option_bind]. eexists. split; [reflexivity|].
    by rewrite textOf_addChunk. }
  destruct Hfit as [|Hfit]; [discriminate|].
  set (txt := c :: txt') in *. unfold renderedWidth in Hfit.
  rewrite (sw_textOf_fold stringWidth sw_app).
  assert (Hin : nlFree (textOf (renderInlineThemed txt theme))).
  { apply ok_renderInlineThemed; try done. }
  destruct (_ <? w) eqn:E.
  - apply Z.ltb_lt in E.
    destruct (repeat_frame SP (w - Z.of_nat (stringWidth (textOf (renderInlineThemed txt theme)))))
      as (pad & -> & Hp & Hpn); [done|lia|].
    cbn [mbind option_bind]. eexists. split; [reflexivity|].
    rewrite textOf_app, textOf_addChunk, sw_app. split; [lia|by apply Forall_app].
  - apply Z.ltb_ge in E. eexists. split; [reflexivity|]. split; [lia|done].
Qed.

Lemma cell_in_line_piece txt w :
  0 <= w -> nlFree txt ->
  txt = [] \/ renderedWidth stringWidth theme txt <= w ->
  exists y,
    (body ← renderCell stringWidth theme txt w false;
     Some (addChunk (lit " ") (Some (MarkdownTheme.border theme)) 0 ++ body
           ++ addChunk (lit " " ++ Box.vertical) (Some (MarkdownTheme.border theme)) 0))
    = Some y /\ cellPiece stringWidth w y.
Proof.
  intros Hw Hn Hfit.
  destruct (renderCell_piece txt w Hw Hn Hfit) as (body & -> & Hb & Hbn).
  cbn [mbind option_bind]. eexists. split; [reflexivity|].
  assert (Hsp : stringWidth (lit " ") = 1%nat) by (by apply sw_frame).
  assert (Hv : stringWidth Box.vertical = 1%nat) by (by apply sw_frame).
  unfold cellPiece. rewrite !textOf_app, !textOf_addChunk. split.
  - rewrite !sw_app, Hsp, Hv. lia.
  - repeat (apply Forall_app; split); try done; by repeat constructor.
Qed.

(** a printed line built from pieces *)
Lemma line_of_pieces ws ys :
  Forall2 (cellPiece stringWidth) ws ys ->
  exists content,
    textOf (addChunk Box.vertical (Some (MarkdownTheme.border theme)) 0 ++ concat ys
            ++ addChunk [NL] None 0) = content ++ [NL]
    /\ goodLine stringWidth (calcWidth ws) content.
Proof.
  intros H. destruct (pieces_line stringWidth sw_app ws ys H) as [H1 H2].
  exists (Box.vertical ++ textOf (concat ys)).
  rewrite !textOf_app, !textOf_addChunk. split; [by rewrite <- app_assoc|].
  split.
  - apply Forall_app; split; [by repeat constructor|done].
  - rewrite sw_app, (sw_frame 9474%N eq_refl : stringWidth Box.vertical = 1%nat), calcWidth_sum. lia.
Qed.
End Layout.

Lemma Forall2_zip_with_l {A B} (G : A -> Z -> B) (Q : B -> Z -> Prop) l ws :
  Forall2 (fun x w => Q (G x w) w) l ws -> Forall2 Q (zip_with G l ws) ws.
Proof. induction 1; cbn [zip_with]; by constructor. Qed.

Section Rows.
Variable stringWidth : jsstring -> nat.
Hypothesis sw_app : forall a b, stringWidth (a ++ b) = (stringWidth a + stringWidth b)%nat.
Hypothesis sw_frame : forall c, frameChar c = true -> stringWidth [c] = 1%nat.
Variable theme : IntTheme.

Lemma rowLine_good ws wrapped idx :
  Forall2 (fun lines w => 0 <= w /\ Forall (lineFits stringWidth theme w) lines) wrapped ws ->
  exists cs, rowLine stringWidth theme ws wrapped idx = Some cs /\ isLine stringWidth (calcWidth ws) cs.
Proof.
  intros H. unfold rowLine.
  pose (G := fun (lines : list jsstring) (w : Z) =>
    body ← renderCell stringWidth theme (default [] (lines !! idx)) w false;
    Some (addChunk (lit " ") (Some (MarkdownTheme.border theme)) 0 ++ body
          ++ addChunk (lit " " ++ Box.vertical) (Some (MarkdownTheme.border theme)) 0)).
  rewrite (imap_zip_with G wrapped _ ws).
  2:{ by eapply Forall2_length. }
  2:{ intros i x w Hx Hw. unfold G. by rewrite Hw. }
  destruct (mapM_id_zip_with G (cellPiece stringWidth) wrapped ws) as (ys & -> & Hys).
  { eapply Forall2_impl; [exact H|]. intros lines w [Hw Hl]. cbn beta in *.
    apply (cell_in_line_piece stringWidth sw_app sw_frame theme); [done| |].
    - destruct (lines !! idx) as [line|] eqn:E; cbn; [|constructor].
      rewrite Forall_forall in Hl. apply list_elem_of_lookup_2 in E. by apply Hl in E as [? _].
    - destruct (lines !! idx) as [line|] eqn:E; cbn; [|by left]. right.
      rewrite Forall_forall in Hl. apply list_elem_of_lookup_2 in E. by apply Hl in E as [_ ?]. }
  cbn [mbind option_bind]. eexists. split; [reflexivity|].
  by apply (line_of_pieces stringWidth sw_app sw_frame theme).
Qed.

Lemma lines_concat W css :
  Forall (isLine stringWidth W) css -> areLines stringWidth W (concat css).
Proof.
  induction 1 as [|cs css (content & Hc & Hg) H (contents & Hcs & Hgs)].
  - exists []. split; [reflexivity|constructor].
  - exists (content :: contents). split; [|by constructor].
    cbn [concat]. rewrite textOf_app, Hc, Hcs. reflexivity.
Qed.

Lemma areLines_concat W css :
  Forall (areLines stringWidth W) css -> areLines stringWidth W (concat css).
Proof.
  induction 1 as [|cs css (c1 & Hc & Hg) H (c2 & Hcs & Hgs)].
  - exists []. split; [reflexivity|constructor].
  - exists (c1 ++ c2). split; [|by apply Forall_app].
    cbn [concat]. rewrite textOf_app, Hc, Hcs, linesText_app. reflexivity.
Qed.

Lemma dataRow_good ws row :
  Forall2 (fun cell w => 0 <= w /\ nlFree cell /\ cellFits stringWidth theme cell w = true)
          row ws ->
  exists cs, dataRow stringWidth theme ws row = Some cs /\ areLines stringWidth (calcWidth ws) cs.
Proof.
  intros H. unfold dataRow.
  rewrite (imap_zip_with (fun cell w => wordWrap stringWidth cell w) row _ ws).
  2:{ by eapply Forall2_length. }
  2:{ intros i x w Hx Hw. by rewrite Hw. }
  set (wrapped := zip_with _ row ws).
  assert (Hwr : Forall2 (fun lines w => 0 <= w /\ Forall (lineFits stringWidth theme w) lines) wrapped ws).
  { apply Forall2_zip_with_l. eapply Forall2_impl; [exact H|].
    intros cell w (Hw & Hn & Hfit). cbn beta. split; [done|].
    unfold cellFits in Hfit. rewrite forallb_forall in Hfit.
    pose proof (ok_wordWrap (fun c => c <> NL) ltac:(done) ltac:(done) stringWidth cell w Hn) as Hnl.
    rewrite Forall_forall in Hnl |- *. intros line Hline. split; [by apply Hnl|].
    apply Z.leb_le, Hfit. by apply list_elem_of_In. }
  destruct (mapM_all (rowLine stringWidth theme ws wrapped) (isLine stringWidth (calcWidth ws))
              (seq 0 (fold_right Nat.max 0%nat (List.map length wrapped))))
    as (rows & -> & Hrows).
  { apply Forall_forall. intros idx _. by apply rowLine_good. }
  cbn [mbind option_bind]. eexists. split; [reflexivity|]. by apply lines_concat.
Qed.
End Rows.

Lemma naturalWidths_facts sw hdr rows :
  length (naturalWidths sw hdr rows) = length hdr
  /\ Forall (fun w => 0 <= w) (naturalWidths sw hdr rows).
Proof.
  unfold naturalWidths. split; [apply length_imap|].
  apply Forall_forall. intros w Hw. apply list_elem_of_lookup_1 in Hw as [i Hi].
  rewrite list_lookup_imap in Hi. destruct (hdr !! i); [|discriminate].
  cbn in Hi. injection Hi as <-. unfold visibleLength. lia.
Qed.

Lemma widthKept_facts ws ws' :
  Forall2 widthKept ws ws' -> Forall (fun w => 0 <= w) ws ->
  length ws' = length ws /\ Forall (fun w => 0 <= w) ws'.
Proof.
  intros H Hws. split; [symmetry; by eapply Forall2_length|].
  induction H as [|w w' ws ws' Hk H IH]; [constructor|].
  inversion Hws; subst. constructor; [unfold widthKept in Hk; lia|by apply IH].
Qed.

Lemma tableColWidths_facts sw tableLines cols :
  length (tableColWidths sw tableLines cols)
  = length (parseRow (default [] (tableLines !! 0%nat)))
  /\ Forall (fun w => 0 <= w) (tableColWidths sw tableLines cols).
Proof.
  unfold tableColWidths, fitWidths.
  set (hdr := parseRow _). set (rows := tableDataRows _).
  destruct (naturalWidths_facts sw hdr rows) as [Hl Hn].
  destruct (shrinkLoop_run (cols - 4) (shrinkFuel (naturalWidths sw hdr rows))
              (naturalWidths sw hdr rows)) as [_ Hk].
  { unfold shrinkFuel. fold (sumExcess (naturalWidths sw hdr rows)).
    pose proof (sumExcess_nonneg (naturalWidths sw hdr rows)). lia. }
  destruct (widthKept_facts _ _ Hk Hn) as [H1 H2]. split; [congruence|done].
Qed.

Lemma tableDataRows_nlFree tableLines :
  Forall nlFree tableLines -> Forall (Forall nlFree) (tableDataRows tableLines).
Proof.
  intros H. unfold tableDataRows. apply Forall_fmap.
  eapply Forall_impl.
  - apply Forall_forall. intros x Hx. apply list_elem_of_In, filter_In in Hx as [Hx _].
    apply list_elem_of_In in Hx.
    pose proof (Forall_drop _ 1 _ H) as Hd. rewrite Forall_forall in Hd. exact (Hd x Hx).
  - intros x Hx. cbn. by apply ok_parseRow.
Qed.


(** ** Progress of the matcher and the fuel of the loops *)

Lemma advances_refl st : advances 0 st st.
Proof. unfold advances. lia. Qed.

Lemma advances_trans n k a b c :
  advances n a b -> advances k b c -> advances (n + k) a c.
Proof. unfold advances. lia. Qed.

Lemma advances_weaken n k a b : (k <= n)%nat -> advances n a b -> advances k a b.
Proof. unfold advances. lia. Qed.

Lemma startsWith_length s p : startsWith s p = true -> (length p <= length s)%nat.
Proof.
  revert s. induction p as [|x p IH]; intros [|y s]; cbn; try lia; try discriminate.
  intros H. apply andb_prop in H as [_ H]. apply IH in H. lia.
Qed.

Section Progress.
Variable input : jsstring.

Lemma step_progress p st k res :
  step p st k = Some res ->
  exists st', k st' = Some res /\ advances 1 st st'.
Proof.
  unfold step. destruct (mrest st) as [|c rest] eqn:E; [discriminate|].
  destruct (p c); [|discriminate]. intros H. eexists. split; [exact H|].
  unfold advances. cbn. rewrite E. simpl. lia.
Qed.

Lemma repeat_progress (mr : mstate -> (mstate -> option mstate) -> option mstate) gs greedy n :
  (forall st k res, mr st k = Some res -> exists st', k st' = Some res /\ advances n st st') ->
  forall fuel min max x c res,
    repeatMatcher mr gs greedy fuel min max x c = Some res ->
    exists st', c st' = Some res
      /\ advances (match max with
                   | Some O => 0
                   | _ => if Nat.eqb min 0 then 0 else n
                   end) x st'.
Proof.
  intros Hmr. induction fuel as [|fuel IH]; intros min max x c res H; cbn [repeatMatcher] in H.
  - destruct (Nat.eqb min 0) eqn:E; [|discriminate].
    exists x. split; [done|]. destruct max as [[|?]|]; apply advances_refl.
  - destruct max as [[|mx]|].
    + exists x. split; [done|apply advances_refl].
    + set (xr := MState (mpos x) (mrest x) (clear_caps gs (mcaps x))) in *.
      assert (Hd : forall y, 
        (if Nat.eqb min 0 && Nat.eqb (mpos y) (mpos x) then None
         else repeatMatcher mr gs greedy fuel (Nat.pred min) (option_map Nat.pred (Some (S mx))) y c)
        = Some res -> advances n xr y ->
        exists st', c st' = Some res /\ advances n x st').
      { intros y Hy Hadv. destruct (_ && _); [discriminate|].
        apply IH in Hy as (st' & Hc & Ha). exists st'. split; [done|].
        eapply advances_weaken; [|eapply advances_trans; [exact Hadv|exact Ha]]. lia. }
      destruct (Nat.eqb min 0) eqn:E; cbn [negb] in H.
      * destruct greedy.
        -- destruct (mr xr _) as [r1|] eqn:E1; cbn [orElse] in H.
           ++ injection H as <-. apply Hmr in E1 as (y & Hy & Hadv).
              destruct (Hd y Hy Hadv) as (st' & ? & ?). exists st'. split; [done|].
              eapply advances_weaken; [|eassumption]. lia.
           ++ exists x. split; [done|apply advances_refl].
        -- destruct (c x) as [r1|] eqn:E1; cbn [orElse] in H.
           ++ injection H as <-. exists x. split; [done|apply advances_refl].
           ++ apply Hmr in H as (y & Hy & Hadv).
              destruct (Hd y Hy Hadv) as (st' & ? & ?). exists st'. split; [done|].
              eapply advances_weaken; [|eassumption]. lia.
      * apply Hmr in H as (y & Hy & Hadv). exact (Hd y Hy Hadv).
    + set (xr := MState (mpos x) (mrest x) (clear_caps gs (mcaps x))) in *.
      assert (Hd : forall y, 
        (if Nat.eqb min 0 && Nat.eqb (mpos y) (mpos x) then None
         else repeatMatcher mr gs greedy fuel (Nat.pred min) (option_map Nat.pred None) y c)
        = Some res -> advances n xr y ->
        exists st', c st' = Some res /\ advances n x st').
      { intros y Hy Hadv. destruct (_ && _); [discriminate|].
        apply IH in Hy as (st' & Hc & Ha). exists st'. split; [done|].
        eapply advances_weaken; [|eapply advances_trans; [exact Hadv|exact Ha]]. lia. }
      destruct (Nat.eqb min 0) eqn:E; cbn [negb] in H.
      * destruct greedy.
        -- destruct (mr xr _) as [r1|] eqn:E1; cbn [orElse] in H.
           ++ injection H as <-. apply Hmr in E1 as (y & Hy & Hadv).
              destruct (Hd y Hy Hadv) as (st' & ? & ?). exists st'. split; [done|].
              eapply advances_weaken; [|eassumption]. lia.
           ++ exists x. split; [done|apply advances_refl].
        -- destruct (c x) as [r1|] eqn:E1; cbn [orElse] in H.
           ++ injection H as <-. exists x. split; [done|apply advances_refl].
           ++ apply Hmr in H as (y & Hy & Hadv).
              destruct (Hd y Hy Hadv) as (st' & ? & ?). exists st'. split; [done|].
              eapply advances_weaken; [|eassumption]. lia.
      * apply Hmr in H as (y & Hy & Hadv). exact (Hd y Hy Hadv).
Qed.

Lemma m_progress r : forall st k res,
  m input r st k = Some res ->
  exists st', k st' = Some res /\ advances (minLen r) st st'.
Proof.
  induction r as [|c| |neg items|r1 IH1 r2 IH2|r1 IH1 r2 IH2|i r1 IH1|i|g mn mx r1 IH1| |];
    intros st k res H; cbn [m minLen] in *.
  - exists st. split; [done|apply advances_refl].
  - by apply step_progress in H.
  - by apply step_progress in H.
  - by apply step_progress in H.
  - apply IH1 in H as (st1 & H & A1). apply IH2 in H as (st2 & H & A2).
    exists st2. split; [done|]. by eapply advances_trans.
  - destruct (m input r1 st k) as [r|] eqn:E; cbn [orElse] in H.
    + injection H as <-. apply IH1 in E as (st' & ? & ?). exists st'. split; [done|].
      eapply advances_weaken; [|eassumption]. lia.
    + apply IH2 in H as (st' & ? & ?). exists st'. split; [done|].
      eapply advances_weaken; [|eassumption]. lia.
  - apply IH1 in H as (st1 & H & A1). eexists. split; [exact H|].
    unfold advances in *. cbn. lia.
  - destruct (mcaps st !! i) as [[[a b]|]|].
    + destruct (startsWith _ _) eqn:E; [|discriminate].
      apply startsWith_length in E.
      eexists. split; [exact H|]. unfold advances. cbn. rewrite length_drop. lia.
    + exists st. split; [done|apply advances_refl].
    + exists st. split; [done|apply advances_refl].
  - by apply (repeat_progress (m input r1) (groups_of r1) g (minLen r1) IH1) in H.
  - destruct (Nat.eqb _ _); [|discriminate]. exists st. split; [done|apply advances_refl].
  - destruct (mrest st); [|discriminate]. exists st. split; [done|apply advances_refl].
Qed.

Lemma matchAt_progress r ng pos rest mt :
  matchAt input r ng pos rest = Some mt ->
  index mt = pos /\ (pos + minLen r <= endIndex mt <= pos + length rest)%nat.
Proof.
  unfold matchAt. destruct (m _ _ _ _) as [st|] eqn:E; [|discriminate].
  intros [= <-]. cbn. apply m_progress in E as (st' & [= ->] & [A1 A2]). cbn in *. lia.
Qed.

Lemma execFrom_progress r ng : forall rest pos mt,
  execFrom input r ng pos rest = Some mt ->
  (pos <= index mt)%nat /\ (index mt + minLen r <= endIndex mt <= pos + length rest)%nat.
Proof.
  induction rest as [|c rest IH]; intros pos mt; cbn [execFrom].
  - destruct (matchAt _ _ _ _ _) eqn:E; [|discriminate]. intros [= <-].
    apply matchAt_progress in E. cbn in *. lia.
  - destruct (matchAt _ _ _ _ _) eqn:E.
    + intros [= <-]. apply matchAt_progress in E. cbn in *. lia.
    + intros H. apply IH in H. cbn. lia.
Qed.
End Progress.

Lemma exec_progress r ng input from mt :
  exec r ng input from = Some mt ->
  (from <= index mt)%nat /\ (index mt + minLen r <= endIndex mt <= length input)%nat.
Proof.
  unfold exec. destruct (Nat.ltb _ _) eqn:E; [discriminate|]. apply Nat.ltb_ge in E.
  intros H. apply execFrom_progress in H. rewrite length_drop in H. lia.
Qed.

Lemma inlineLoop_fuel text theme color attrs : forall fuel lastIndex,
  (length text <= lastIndex + fuel)%nat ->
  inlineLoop (S fuel) text theme color attrs lastIndex
  = inlineLoop fuel text theme color attrs lastIndex.
Proof.
  induction fuel as [|fuel IH]; intros lastIndex H.
  - cbn [inlineLoop].
    destruct (exec inlineRegex 8 text lastIndex) as [mt|] eqn:E; [|reflexivity].
    apply exec_progress in E. change (minLen inlineRegex) with 3%nat in E. lia.
  - remember (S fuel) as f eqn:Hf. cbn [inlineLoop]. subst f.
    cbn [inlineLoop].
    destruct (exec inlineRegex 8 text lastIndex) as [mt|] eqn:E; [|reflexivity].
    apply exec_progress in E. change (minLen inlineRegex) with 3%nat in E.
    do 2 f_equal. apply IH. lia.
Qed.

Lemma renderInline_fuel text theme color attrs n :
  inlineLoop (length text + n) text theme color attrs 0
  = renderInlineThemedWithDefault text theme color attrs.
Proof.
  unfold renderInlineThemedWithDefault.
  induction n as [|n IH]; [by rewrite Nat.add_0_r|].
  rewrite Nat.add_succ_r, inlineLoop_fuel; [exact IH|lia].
Qed.

(** ** The ANSI parser never throws *)

Lemma star_params (input : jsstring) (c : mstate -> option mstate) gs (Hgs : gs = []) :
  (forall st ch rest', mrest st = ch :: rest' -> isParam ch = true -> c st = None) ->
  forall r fuel p caps,
    (length r <= fuel)%nat ->
    repeatMatcher (m input (Cls false [IRange (ch "0") (ch "9"); IChar (ch ";")])) gs
      true fuel 0 None (MState p r caps) c
    = c (MState (p + paramsRun r) (drop (paramsRun r) r) caps).
Proof.
  subst gs. intros Hc.
  induction r as [|x r IH]; intros fuel p caps Hf.
  - cbn [paramsRun drop]. rewrite Nat.add_0_r.
    destruct fuel; cbn [repeatMatcher Nat.eqb negb m step mrest orElse]; reflexivity.
  - destruct fuel as [|fuel]; [simpl in Hf; lia|].
    cbn [repeatMatcher]. cbn [Nat.eqb negb option_map clear_caps fold_right mpos mrest mcaps].
    cbn [m step mrest mpos mcaps].
    fold (isParam x). cbn [paramsRun].
    destruct (isParam x) eqn:Hx.
    + replace (Nat.eqb (S p) p) with false by (symmetry; apply Nat.eqb_neq; lia).
      cbn [andb Nat.pred]. rewrite IH by (simpl in Hf; lia).
      rewrite (Hc (MState p (x :: r) caps) x r eq_refl Hx).
      replace (p + S (paramsRun r))%nat with (S p + paramsRun r)%nat by lia. cbn [drop].
      by destruct (c _).
    + cbn [orElse drop]. by rewrite Nat.add_0_r.
Qed.

Lemma paramsRun_params s : Forall (fun c => isParam c = true) (take (paramsRun s) s).
Proof.
  induction s as [|c s IH]; cbn [paramsRun]; [constructor|].
  destruct (isParam c) eqn:E; cbn [take]; [by constructor|constructor].
Qed.

Lemma paramsRun_le s : (paramsRun s <= length s)%nat.
Proof. induction s as [|c s IH]; cbn [paramsRun]; [lia|]. destruct (isParam c); simpl; lia. Qed.

(** The match of [ansiCodesRe] at a position: the parameters are group 1. *)
Lemma matchAt_ansiCodes (input : jsstring) (pos : nat) (rest : jsstring) mt :
  matchAt input ansiCodesRe 1 pos rest = Some mt ->
  exists r, rest = ESC :: ch "[" :: r
    /\ caps mt !! 1%nat = Some (Some (S (S pos), S (S pos) + paramsRun r)%nat).
Proof.
  unfold matchAt, ansiCodesRe. cbn [seqs m replicate].
  destruct rest as [|e rest]; [discriminate|].
  cbn [step mrest mpos mcaps].
  destruct (chr_eqb ESC e) eqn:He; [|discriminate].
  destruct rest as [|b rest]; [discriminate|].
  cbn [step mrest mpos mcaps]. destruct (chr_eqb (ch "[") b) eqn:Hb; [|discriminate].
  apply N.eqb_eq in He, Hb. subst e b.
  unfold star. cbn [m mrest groups_of Nat.add mpos mcaps].
  rewrite (star_params input _ [] eq_refl).
  - destruct (drop (paramsRun rest) rest) as [|c rest'];
      cbn [mpos mrest mcaps step]; [discriminate|].
    destruct (chr_eqb (ch "m") c); [|discriminate].
    cbn [mpos mcaps]. intros [= <-]. eexists. split; [reflexivity|].
    cbn [caps]. reflexivity.
  - intros st c rest' Hst Hc. cbn [mpos mrest mcaps]. rewrite Hst.
    cbn [step mrest]. by rewrite (isParam_not_m c Hc).
  - reflexivity.
Qed.

Lemma execFrom_ansiCodes rest : forall pre mt,
  execFrom (pre ++ rest) ansiCodesRe 1 (length pre) rest = Some mt ->
  Forall (fun c => isParam c = true) (groupStr (pre ++ rest) mt 1).
Proof.
  induction rest as [|c rest IH]; intros pre mt; cbn [execFrom].
  - destruct (matchAt _ _ _ _ _) eqn:E; [|discriminate].
    apply matchAt_ansiCodes in E as (ps & Hr & _). discriminate.
  - destruct (matchAt _ _ _ _ _) as [mt'|] eqn:E.
    + intros [= <-]. apply matchAt_ansiCodes in E as (ps & Hr & Hcap).
      unfold groupStr, group. rewrite Hcap. cbn [default from_option id]. unfold slice.
      rewrite Hr.
      replace (pre ++ ESC :: ch "[" :: ps) with ((pre ++ [ESC; ch "["]) ++ ps)
        by (by rewrite <- app_assoc).
      replace (S (S (length pre))) with (length (pre ++ [ESC; ch "["]))
        by (rewrite length_app; simpl; lia).
      rewrite drop_app_length.
      replace (_ - _)%nat with (paramsRun ps) by lia.
      apply paramsRun_params.
    + intros H.
      replace (pre ++ c :: rest) with ((pre ++ [c]) ++ rest) in * by (by rewrite <- app_assoc).
      replace (S (length pre)) with (length (pre ++ [c])) in H
        by (rewrite length_app; simpl; lia).
      by apply IH.
Qed.

Lemma exec_ansiCodes input from mt :
  exec ansiCodesRe 1 input from = Some mt ->
  Forall (fun c => isParam c = true) (groupStr input mt 1).
Proof.
  unfold exec. destruct (Nat.ltb _ _) eqn:E; [discriminate|]. apply Nat.ltb_ge in E.
  intros H.
  pose proof (execFrom_ansiCodes (drop from input) (take from input) mt) as L.
  rewrite length_take_le, take_drop in L by lia. exact (L H).
Qed.

Lemma isParam_cases c : isParam c = true -> (48 <= c)%N.
Proof.
  unfold isParam, cls_matches, citem_matches, chr_eqb. cbn [existsb xorb].
  change (ch "0") with 48%N. change (ch "9") with 57%N. change (ch ";") with 59%N.
  intros H. apply orb_prop in H as [H|H].
  - apply andb_prop in H as [H _]. by apply N.leb_le.
  - apply orb_prop in H as [H|H]; [|discriminate]. apply N.eqb_eq in H. lia.
Qed.

Lemma split_chars sep s (P : char -> Prop) :
  Forall P s -> Forall (Forall P) (split sep s).
Proof. apply ok_split. Qed.

Lemma digitsToNumber_nonneg s : Forall (fun c => (48 <= c)%N) s -> 0 <= digitsToNumber s.
Proof.
  unfold digitsToNumber.
  enough (forall acc, 0 <= acc -> Forall (fun c => (48 <= c)%N) s ->
            0 <= fold_left (fun acc c => 10 * acc + (Z.of_N c - 48)) s acc) as H
    by (apply H; lia).
  induction s as [|c s IH]; intros acc Ha Hs; cbn [fold_left]; [done|].
  inversion Hs; subst. apply IH; [lia|done].
Qed.

Lemma codes_nonneg input from mt :
  exec ansiCodesRe 1 input from = Some mt ->
  Forall (fun z => 0 <= z) (List.map digitsToNumber (split (ch ";") (groupStr input mt 1))).
Proof.
  intros H. apply exec_ansiCodes in H. apply Forall_fmap.
  eapply Forall_impl; [apply ok_split; exact H|].
  intros s Hs. cbn. apply digitsToNumber_nonneg.
  eapply Forall_impl; [exact Hs|]. intros c Hc. by apply isParam_cases.
Qed.

Lemma AnsiColors_std code : 30 <= code <= 37 -> is_Some (AnsiColors code).
Proof.
  intros H. assert (code = 30 \/ code = 31 \/ code = 32 \/ code = 33 \/ code = 34
                    \/ code = 35 \/ code = 36 \/ code = 37) as Hc by lia.
  repeat destruct Hc as [->|Hc]; try subst; cbn; eauto.
Qed.

Lemma AnsiColors_bright code : 90 <= code <= 97 -> is_Some (AnsiColors code).
Proof.
  intros H. assert (code = 90 \/ code = 91 \/ code = 92 \/ code = 93 \/ code = 94
                    \/ code = 95 \/ code = 96 \/ code = 97) as Hc by lia.
  repeat destruct Hc as [->|Hc]; try subst; cbn; eauto.
Qed.

Lemma AnsiBgColors_std code : 40 <= code <= 47 -> is_Some (AnsiBgColors code).
Proof.
  intros H. assert (code = 40 \/ code = 41 \/ code = 42 \/ code = 43 \/ code = 44
                    \/ code = 45 \/ code = 46 \/ code = 47) as Hc by lia.
  repeat destruct Hc as [->|Hc]; try subst; cbn; eauto.
Qed.

Lemma AnsiBgColors_bright code : 100 <= code <= 107 -> is_Some (AnsiBgColors code).
Proof.
  intros H. assert (code = 100 \/ code = 101 \/ code = 102 \/ code = 103 \/ code = 104
                    \/ code = 105 \/ code = 106 \/ code = 107) as Hc by lia.
  repeat destruct Hc as [->|Hc]; try subst; cbn; eauto.
Qed.

Lemma ansi256ToRgb_total n : 0 <= n -> is_Some (ansi256ToRgb n).
Proof.
  intros H. unfold ansi256ToRgb.
  destruct (n <? 16) eqn:E; [|destruct (n <? 232); eauto].
  replace (n <? 0) with false by (symmetry; apply Z.ltb_ge; lia).
  apply Z.ltb_lt in E. apply lookup_lt_is_Some. cbn. lia.
Qed.

Lemma applyCode_total codes i code st :
  Forall (fun z => 0 <= z) codes -> is_Some (applyCode codes i code st).
Proof.
  intros Hc. unfold applyCode.
  assert (Hn : forall k, 0 <= default 0 (codes !! (i + k)%nat)).
  { intros k. destruct (codes !! (i + k)%nat) as [z|] eqn:E; cbn; [|lia].
    rewrite Forall_forall in Hc. apply Hc. by eapply list_elem_of_lookup_2. }
  repeat (case_match; eauto).
  all: repeat match goal with
       | H : (_ && _) = true |- _ => apply andb_prop in H as [? ?]
       | H : (_ <=? _) = true |- _ => apply Z.leb_le in H
       end.
  - destruct (AnsiColors_std code) as [x ->]; [lia|]. cbn. eauto.
  - destruct (AnsiBgColors_std code) as [x ->]; [lia|]. cbn. eauto.
  - destruct (AnsiColors_bright code) as [x ->]; [lia|]. cbn. eauto.
  - destruct (AnsiBgColors_bright code) as [x ->]; [lia|]. cbn. eauto.
  - destruct (ansi256ToRgb_total (default 0 (codes !! (i + 2)%nat))) as [x ->]; [done|].
    cbn. eauto.
  - destruct (ansi256ToRgb_total (default 0 (codes !! (i + 2)%nat))) as [x ->]; [done|].
    cbn. eauto.
Qed.

Lemma codesLoop_total codes : forall fuel i st,
  Forall (fun z => 0 <= z) codes -> is_Some (codesLoop fuel codes i st).
Proof.
  induction fuel as [|fuel IH]; intros i st Hc; cbn [codesLoop]; [eauto|].
  destruct (codes !! i) as [code|]; [|eauto].
  destruct (applyCode_total codes i code st Hc) as [[st' i'] ->]. cbn. by apply IH.
Qed.

Lemma ansiLoop_total input : forall fuel lastIndex st acc,
  (lastIndex <= length input < lastIndex + fuel)%nat ->
  is_Some (ansiLoop fuel input lastIndex st acc).
Proof.
  induction fuel as [|fuel IH]; intros lastIndex st acc Hf; [lia|].
  cbn [ansiLoop].
  destruct (exec ansiCodesRe 1 input lastIndex) as [mt|] eqn:E; [|eauto].
  pose proof (codes_nonneg _ _ _ E) as Hc.
  apply exec_progress in E. change (minLen ansiCodesRe) with 3%nat in E.
  match goal with |- context [codesLoop ?f ?c ?i ?s] =>
    destruct (codesLoop_total c f i s Hc) as [st' ->] end.
  cbn [mbind option_bind]. apply IH. lia.
Qed.

Theorem ansiToStyledText_total (input : jsstring) : is_Some (ansiToStyledText input).
Proof.
  unfold ansiToStyledText.
  destruct (ansiLoop_total input (S (length input)) 0 (mkStyle None None 0) []) as [cs ->];
    [lia|]. cbn. eauto.
Qed.

(** ** The styled renderer on terminals of width 4 and more *)

Lemma mapM_id_imap_total {A B} (l : list A) : forall (F : nat -> A -> option B),
  (forall i x, l !! i = Some x -> is_Some (F i x)) ->
  is_Some (mapM id (imap F l)).
Proof.
  intros F H. apply mapM_is_Some, Forall_forall. intros o Ho.
  apply list_elem_of_lookup_1 in Ho as [i Hi]. rewrite list_lookup_imap in Hi.
  destruct (l !! i) as [x|] eqn:E; [|discriminate]. cbn in Hi. injection Hi as <-.
  by apply (H i x).
Qed.

Section Total.
Variable stringWidth : jsstring -> nat.
Variable theme : IntTheme.

Lemma borderLine_total l m r ws :
  Forall (fun w => 0 <= w) ws -> is_Some (borderLine l m r ws).
Proof.
  intros H. unfold borderLine.
  destruct (mapM_is_Some_2 (fun w => JS.repeat Box.horizontal (w + 2)) ws) as [segs ->].
  { eapply Forall_impl; [exact H|]. intros w Hw. cbn in *. apply repeat_nonneg. lia. }
  cbn. eauto.
Qed.

Lemma headerCell_total ws i cell : is_Some (headerCell stringWidth theme ws i cell).
Proof.
  unfold headerCell. destruct (ws !! i) as [target|]; [|cbn; eauto].
  destruct (Z.of_nat (stringWidth cell) <=? target) eqn:E; [|cbn; eauto].
  apply Z.leb_le in E.
  destruct (repeat_nonneg (lit " ") (target - Z.of_nat (stringWidth cell))) as [pad ->]; [lia|].
  cbn. eauto.
Qed.

Lemma renderCell_total txt w isHeader :
  0 <= w -> is_Some (renderCell stringWidth theme txt w isHeader).
Proof.
  intros Hw. unfold renderCell. destruct txt as [|c txt].
  - destruct (repeat_nonneg (lit " ") w Hw) as [pad ->]. cbn. eauto.
  - match goal with |- context [if ?len <? w then _ else _] => destruct (len <? w) eqn:E end;
      [|eauto].
    apply Z.ltb_lt in E.
    match goal with |- context [JS.repeat _ ?n] =>
      destruct (repeat_nonneg (lit " ") n) as [pad ->]; [lia|] end.
    cbn. eauto.
Qed.

Lemma rowLine_total ws wrapped idx :
  Forall (fun w => 0 <= w) ws -> is_Some (rowLine stringWidth theme ws wrapped idx).
Proof.
  intros H. unfold rowLine.
  match goal with |- context [mapM id (imap ?F wrapped)] =>
    destruct (mapM_id_imap_total wrapped F) as [cells ->] end; [|cbn; eauto].
  intros i lines _.
  destruct (renderCell_total (default [] (lines !! idx)) (default 0 (ws !! i)) false)
    as [body ->]; [|cbn; eauto].
  destruct (ws !! i) as [w|] eqn:E; cbn; [|lia].
  rewrite Forall_forall in H. apply H. by eapply list_elem_of_lookup_2.
Qed.

Lemma dataRow_total ws row :
  Forall (fun w => 0 <= w) ws -> is_Some (dataRow stringWidth theme ws row).
Proof.
  intros H. unfold dataRow.
  match goal with |- context [mapM ?f ?l] =>
    destruct (mapM_is_Some_2 f l) as [rows ->] end; [|cbn; eauto].
  apply Forall_forall. intros idx _. by apply rowLine_total.
Qed.

Lemma renderTableThemed_total tableLines cols :
  is_Some (renderTableThemed stringWidth theme tableLines cols).
Proof.
  unfold renderTableThemed. destruct (Nat.ltb _ _); [eauto|].
  destruct (tableColWidths_facts stringWidth tableLines cols) as [_ Hpos].
  destruct (borderLine_total Box.topLeft Box.topT Box.topRight _ Hpos) as [top ->].
  destruct (borderLine_total Box.leftT Box.cross Box.rightT _ Hpos) as [sep ->].
  destruct (borderLine_total Box.bottomLeft Box.bottomT Box.bottomRight _ Hpos) as [bot ->].
  cbn [mbind option_bind].
  match goal with |- context [mapM id (imap ?F ?l)] =>
    destruct (mapM_id_imap_total l F) as [hdr ->] end.
  { intros i x _. apply headerCell_total. }
  cbn [mbind option_bind].
  match goal with |- context [mapM ?f ?l] =>
    destruct (mapM_is_Some_2 f l) as [rows ->] end; [|cbn; eauto].
  apply Forall_forall. intros row _. by apply dataRow_total.
Qed.

Lemma renderLine_total cols line next st :
  4 <= cols -> is_Some (renderLine stringWidth theme cols line next st).
Proof.
  intros Hc. unfold renderLine.
  repeat (case_match; eauto).
  all: try (match goal with |- context [renderTableThemed ?a ?b ?c ?d] =>
         destruct (renderTableThemed_total c d) as [out ->] end; cbn; eauto).
  all: destruct (repeat_nonneg Box.horizontal (cols - 4)) as [rule ->]; [lia|]; cbn; eauto.
Qed.

Lemma blockLoop_total cols lines : forall st,
  4 <= cols -> is_Some (blockLoop stringWidth theme cols lines st).
Proof.
  induction lines as [|line rest IH]; intros st Hc; cbn [blockLoop]; [eauto|].
  destruct (renderLine_total cols line (head rest) st Hc) as [[out st'] ->].
  cbn [mbind option_bind]. destruct (IH st' Hc) as [more ->]. cbn. eauto.
Qed.
End Total.

Theorem renderMarkdownThemedStyled_total (stringWidth : jsstring -> nat) (md : jsstring)
    (theme : TuiTheme) (cols : Z) :
  4 <= cols -> is_Some (renderMarkdownThemedStyled stringWidth md theme cols).
Proof.
  intros H. unfold renderMarkdownThemedStyled.
  destruct (blockLoop_total stringWidth (MarkdownTheme.map toIntRGBA theme) cols
              (split NL md) initialBlockState H) as [cs ->].
  cbn. eauto.
Qed.

(** ** Fuel

    The loops of the model run on fuel; the fuel the definitions pass is
    enough, and more of it changes nothing. *)

Lemma orElse_None_r {A} (x : option A) : orElse x None = x.
Proof. by destruct x. Qed.

Section Fuel.
Variable input : jsstring.

Lemma step_ext p : extensional (step p).
Proof.
  intros st k1 k2 H. unfold step. destruct (mrest st) as [|c rest] eqn:E; [done|].
  destruct (p c); [|done]. apply H. unfold advances. cbn. rewrite E. simpl. lia.
Qed.

Lemma repeat_ext mr gs greedy :
  extensional mr ->
  forall fuel min max x c1 c2,
    (forall st', advances 0 x st' -> c1 st' = c2 st') ->
    repeatMatcher mr gs greedy fuel min max x c1 = repeatMatcher mr gs greedy fuel min max x c2.
Proof.
  intros Hmr. induction fuel as [|fuel IH]; intros min max x c1 c2 H; cbn [repeatMatcher].
  - rewrite (H x (advances_refl x)). reflexivity.
  - rewrite (H x (advances_refl x)).
    assert (Hd : mr (MState (mpos x) (mrest x) (clear_caps gs (mcaps x)))
                   (fun y => if Nat.eqb min 0 && Nat.eqb (mpos y) (mpos x) then None
                             else repeatMatcher mr gs greedy fuel (Nat.pred min)
                                    (option_map Nat.pred max) y c1)
                 = mr (MState (mpos x) (mrest x) (clear_caps gs (mcaps x)))
                   (fun y => if Nat.eqb min 0 && Nat.eqb (mpos y) (mpos x) then None
                             else repeatMatcher mr gs greedy fuel (Nat.pred min)
                                    (option_map Nat.pred max) y c2)).
    { apply Hmr. intros y Hy. destruct (_ && _); [done|]. apply IH.
      intros st' Hst'. apply H. unfold advances in *. cbn in *. lia. }
    rewrite Hd. reflexivity.
Qed.

Lemma m_ext r : extensional (m input r).
Proof.
  induction r as [|c| |neg items|r1 IH1 r2 IH2|r1 IH1 r2 IH2|i r1 IH1|i|g mn mx r1 IH1| |];
    intros st k1 k2 H; cbn [m].
  - apply H, advances_refl.
  - by apply step_ext.
  - by apply step_ext.
  - by apply step_ext.
  - apply IH1. intros st1 H1. apply IH2. intros st2 H2. apply H.
    unfold advances in *. lia.
  - by rewrite (IH1 st k1 k2 H), (IH2 st k1 k2 H).
  - apply IH1. intros st1 H1. apply H. unfold advances in *. cbn. lia.
  - destruct (mcaps st !! i) as [[[a b]|]|]; try apply H, advances_refl.
    destruct (startsWith _ _) eqn:E; [|done]. apply startsWith_length in E.
    apply H. unfold advances. cbn. rewrite length_drop. lia.
  - by apply repeat_ext.
  - destruct (Nat.eqb _ _); [|done]. apply H, advances_refl.
  - destruct (mrest st); [|done]. apply H, advances_refl.
Qed.

Lemma m_progressing r : progressing (m input r).
Proof.
  intros st k res H. apply m_progress in H as (st' & ? & ?). exists st'. split; [done|].
  eapply advances_weaken; [|eassumption]. lia.
Qed.

Lemma repeatMatcher_S mr gs greedy fuel min max x c :
  repeatMatcher mr gs greedy (S fuel) min max x c
  = if (match max with Some O => true | _ => false end) then c x
    else
      let d := fun y : mstate =>
        if Nat.eqb min 0 && Nat.eqb (mpos y) (mpos x) then None
        else repeatMatcher mr gs greedy fuel (Nat.pred min) (option_map Nat.pred max) y c in
      let xr := MState (mpos x) (mrest x) (clear_caps gs (mcaps x)) in
      if negb (Nat.eqb min 0) then mr xr d
      else if greedy then orElse (mr xr d) (c x)
      else orElse (c x) (mr xr d).
Proof. reflexivity. Qed.

(** More fuel than [min + length rest] changes nothing. *)
Lemma repeat_fuel mr gs greedy :
  extensional mr -> progressing mr ->
  forall fuel min max x c,
    (min + length (mrest x) <= fuel)%nat ->
    repeatMatcher mr gs greedy (S fuel) min max x c
    = repeatMatcher mr gs greedy fuel min max x c.
Proof.
  intros Hext Hprog. induction fuel as [|fuel IH]; intros min max x c Hf.
  - assert (min = 0%nat) as -> by lia.
    assert (Hrest : length (mrest x) = 0%nat) by lia.
    cbn [repeatMatcher Nat.eqb negb andb Nat.pred].
    destruct (match max with Some 0%nat => true | _ => false end); [reflexivity|].
    set (xr := MState (mpos x) (mrest x) (clear_caps gs (mcaps x))).
    match goal with |- context [mr xr ?d0] => set (d := d0) end.
    assert (Hnone : mr xr d = None).
    { destruct (mr xr d) as [res|] eqn:E; [|reflexivity]. exfalso.
      apply Hprog in E as (y & Hy & [A1 A2]). unfold d in Hy. cbn in A1, A2.
      replace (Nat.eqb (mpos y) (mpos x)) with true in Hy
        by (symmetry; apply Nat.eqb_eq; lia).
      discriminate. }
    rewrite Hnone. destruct greedy; cbn [orElse]; by destruct (c x).
  - rewrite (repeatMatcher_S mr gs greedy (S fuel)), (repeatMatcher_S mr gs greedy fuel).
    cbv zeta.
    destruct (match max with Some 0%nat => true | _ => false end); [reflexivity|].
    assert (Hd : mr (MState (mpos x) (mrest x) (clear_caps gs (mcaps x)))
                   (fun y => if Nat.eqb min 0 && Nat.eqb (mpos y) (mpos x) then None
                             else repeatMatcher mr gs greedy (S fuel) (Nat.pred min)
                                    (option_map Nat.pred max) y c)
                 = mr (MState (mpos x) (mrest x) (clear_caps gs (mcaps x)))
                   (fun y => if Nat.eqb min 0 && Nat.eqb (mpos y) (mpos x) then None
                             else repeatMatcher mr gs greedy fuel (Nat.pred min)
                                    (option_map Nat.pred max) y c)).
    { apply Hext. intros y [A1 A2]. cbn in A1, A2.
      destruct (Nat.eqb min 0) eqn:Em; cbn [andb].
      - destruct (Nat.eqb (mpos y) (mpos x)) eqn:Ep; [reflexivity|].
        apply Nat.eqb_eq in Em. apply Nat.eqb_neq in Ep. apply IH. subst min. cbn. lia.
      - apply Nat.eqb_neq in Em. apply IH. lia. }
    rewrite Hd. reflexivity.
Qed.

Lemma repeat_fuel_enough r1 greedy min max st k extra :
  repeatMatcher (m input r1) (groups_of r1) greedy (min + length (mrest st) + extra)
    min max st k
  = m input (Rep greedy min max r1) st k.
Proof.
  cbn [m]. induction extra as [|extra IH]; [by rewrite Nat.add_0_r|].
  rewrite Nat.add_succ_r, repeat_fuel; [exact IH|apply m_ext|apply m_progressing|lia].
Qed.
End Fuel.

(** ** The loops over matches and over codes *)

Lemma replaceLoop_S r ng input f fuel from :
  replaceLoop r ng input f (S fuel) from
  = match exec r ng input from with
    | None => sliceFrom input from
    | Some mt =>
        slice input from (index mt) ++ f mt ++
        (if Nat.eqb (endIndex mt) (index mt)
         then slice input (index mt) (S (index mt)) ++
              replaceLoop r ng input f fuel (S (index mt))
         else replaceLoop r ng input f fuel (endIndex mt))
    end.
Proof. reflexivity. Qed.

Lemma replaceLoop_fuel r ng input f : forall fuel from,
  (length input < from + fuel)%nat ->
  replaceLoop r ng input f (S fuel) from = replaceLoop r ng input f fuel from.
Proof.
  induction fuel as [|fuel IH]; intros from H.
  - cbn [replaceLoop]. unfold exec.
    replace (Nat.ltb (length input) from) with true by (symmetry; apply Nat.ltb_lt; lia).
    reflexivity.
  - rewrite (replaceLoop_S r ng input f (S fuel)), (replaceLoop_S r ng input f fuel).
    destruct (exec r ng input from) as [mt|] eqn:E; [|reflexivity].
    apply exec_progress in E. do 2 f_equal.
    destruct (Nat.eqb (endIndex mt) (index mt)) eqn:Ee.
    + f_equal. apply IH. lia.
    + apply Nat.eqb_neq in Ee. apply IH. lia.
Qed.

Lemma replaceAll_fuel r ng input f extra :
  replaceLoop r ng input f (S (length input) + extra) 0 = replaceAll r ng input f.
Proof.
  unfold replaceAll. induction extra as [|extra IH]; [by rewrite Nat.add_0_r|].
  rewrite Nat.add_succ_r, replaceLoop_fuel; [exact IH|lia].
Qed.

Lemma applyCode_index codes i code st st' i' :
  applyCode codes i code st = Some (st', i') -> (i <= i')%nat.
Proof.
  unfold applyCode. intros H.
  repeat (case_match; simplify_option_eq; try lia).
Qed.

Lemma codesLoop_S fuel codes i st :
  codesLoop (S fuel) codes i st
  = match codes !! i with
    | None => Some st
    | Some code =>
        '(st', i') ← applyCode codes i code st;
        codesLoop fuel codes (S i') st'
    end.
Proof. reflexivity. Qed.

Lemma codesLoop_fuel codes : forall fuel i st,
  (length codes <= i + fuel)%nat ->
  codesLoop (S fuel) codes i st = codesLoop fuel codes i st.
Proof.
  induction fuel as [|fuel IH]; intros i st H.
  - cbn [codesLoop]. rewrite lookup_ge_None_2 by lia. reflexivity.
  - rewrite (codesLoop_S (S fuel)), (codesLoop_S fuel).
    destruct (codes !! i) as [code|]; [|reflexivity].
    destruct (applyCode codes i code st) as [[st' i']|] eqn:E; [|reflexivity].
    cbn [mbind option_bind]. apply applyCode_index in E. apply IH. lia.
Qed.

(** The codes the parser knows *)
Lemma attribute_codes_recognised codes i st :
  let set flag := Some (mkStyle (sfg st) (sbg st) (bitOr (sattrs st) flag), i) in
  applyCode codes i 1 st = set Attr.BOLD
  /\ applyCode codes i 2 st = set Attr.DIM
  /\ applyCode codes i 3 st = set Attr.ITALIC
  /\ applyCode codes i 4 st = set Attr.UNDERLINE
  /\ applyCode codes i 5 st = set Attr.BLINK
  /\ applyCode codes i 7 st = set Attr.INVERSE
  /\ applyCode codes i 9 st = set Attr.STRIKETHROUGH
  /\ applyCode codes i 8 st = Some (st, i).
Proof. repeat split. Qed.

Lemma reset_codes_recognised codes i st :
  applyCode codes i 0 st = Some (mkStyle None None 0, i)
  /\ applyCode codes i 39 st = Some (mkStyle None (sbg st) (sattrs st), i)
  /\ applyCode codes i 49 st = Some (mkStyle (sfg st) None (sattrs st), i).
Proof. repeat split. Qed.

Lemma unknown_code_ignored codes i code st :
  108 <= code \/ code < 0 \/ 50 <= code < 90 \/ 10 <= code < 30 \/ code = 6 \/ code = 8
  \/ code = 98 \/ code = 99 ->
  applyCode codes i code st = Some (st, i).
Proof.
  intros H. unfold applyCode.
  repeat match goal with
  | |- context [?a =? ?b] => 
      replace (a =? b) with false by (symmetry; apply Z.eqb_neq; lia); cbn [andb]
  | |- context [(?a <=? code) && (code <=? ?b)] =>
      replace ((a <=? code) && (code <=? b)) with false
        by (symmetry; apply andb_false_iff; rewrite !Z.leb_gt; lia)
  end.
  reflexivity.
Qed.

Example truecolor_code_recognised :
  ansiToStyledText (ESC :: lit "[38;2;1;2;3mx")
  = Some (mkStyledText [Chunk (lit "x") (Some (Color.ofInts 1 2 3 255)) None (Some 0)]).
Proof. vm_compute. reflexivity. Qed.

Example palette_code_recognised :
  ansiToStyledText (ESC :: lit "[1;48;5;200mx")
  = Some (mkStyledText [Chunk (lit "x") None (Some (Color.ofInts 255 0 215 255))
                          (Some Attr.BOLD)]).
Proof. vm_compute. reflexivity. Qed.

Example table_of_the_specification :
  option_map (fun cs => List.map (@length char) (renderedRows cs))
    (renderTableThemed unitWidth defaultIntTheme
       [lit "| a | b |"; lit "|---|---|"; lit "| 1 | 2 |"] 80)
  = Some [9; 9; 9; 9; 9]%nat
  /\ tableColWidths unitWidth [lit "| a | b |"; lit "|---|---|"; lit "| 1 | 2 |"] 80
     = [1; 1].
Proof. split; vm_compute; reflexivity. Qed.

Example unterminated_fence_three_lines :
  parseMarkdownSegments (lit "```" ++ NL :: lit "a" ++ NL :: lit "b" ++ NL :: lit "c")
  = [CodeSegment (lit "a" ++ NL :: lit "b" ++ NL :: lit "c") (lit "text")]
  /\ option_map (fun st => List.map text (chunks st))
       (renderMarkdownThemedStyled unitWidth
          (lit "```" ++ NL :: lit "a" ++ NL :: lit "b" ++ NL :: lit "c")
          createDefaultCliTheme 80)
     = Some [lit "  a" ++ [NL]; lit "  b" ++ [NL]; lit "  c" ++ [NL]].
Proof. split; vm_compute; reflexivity. Qed.

(** * Lemmas for the further properties *)

(** ** Segments, rows and tokens *)

Lemma join_cons sep p q more : join sep (p :: q :: more) = p ++ sep ++ join sep (q :: more).
Proof. reflexivity. Qed.

Lemma join_split sep s : join [sep] (split sep s) = s.
Proof.
  induction s as [|c s IH]; [reflexivity|].
  cbn [split]. destruct (split sep s) as [|p more] eqn:Es; [by apply split_nonempty in Es|].
  destruct (chr_eqb c sep) eqn:E.
  - apply N.eqb_eq in E. subst c. rewrite join_cons, IH. reflexivity.
  - destruct more as [|q more].
    + cbn [join] in *. by rewrite IH.
    + rewrite join_cons. rewrite join_cons in IH. rewrite <- IH. reflexivity.
Qed.

Lemma seg_fold_text lines : forall st,
  Segments.inCodeBlock st = false ->
  forallb (fun l => negb (isFenceLine l)) lines = true ->
  fold_left Segments.step lines st
  = Segments.mk (Segments.segments st) (Segments.currentText st ++ lines) false
      (Segments.codeBlockLang st) (Segments.codeBlockContent st).
Proof.
  induction lines as [|l lines IH]; intros st Hst H.
  - cbn [fold_left]. rewrite app_nil_r. destruct st; cbn in *. by subst.
  - cbn [forallb] in H. apply andb_prop in H as [Hl H]. apply negb_true_iff in Hl.
    cbn [fold_left]. unfold isFenceLine, fence in Hl.
    unfold Segments.step at 2. rewrite Hl, Hst. rewrite IH; [|reflexivity|done].
    cbn. by rewrite <- app_assoc.
Qed.

Lemma parseMarkdownSegments_plain md :
  forallb (fun l => negb (isFenceLine l)) (split NL md) = true ->
  parseMarkdownSegments md = [TextSegment md].
Proof.
  intros H. unfold parseMarkdownSegments.
  rewrite seg_fold_text by done. cbn.
  unfold Segments.flushText. cbn.
  destruct (split NL md) as [|l ls] eqn:E; [by apply split_nonempty in E|].
  cbn -[join]. rewrite <- E, join_split. reflexivity.
Qed.

Lemma langInv_flush st : langInv st -> langInv (Segments.flushText st).
Proof.
  intros [H1 H2]. unfold Segments.flushText.
  destruct (Segments.currentText st); [by split|].
  split; cbn; [|done]. apply Forall_app. split; [done|]. by repeat constructor.
Qed.

Lemma langInv_step st line : langInv st -> langInv (Segments.step st line).
Proof.
  intros H. unfold Segments.step.
  destruct (startsWith (trim line) (lit "```")).
  - destruct (Segments.inCodeBlock st) eqn:E.
    + destruct H as [H1 H2]. split; cbn; [|done].
      apply Forall_app. split; [done|]. repeat constructor. cbn. by apply H2.
    + apply langInv_flush in H. destruct H as [H1 H2]. split; cbn; [done|].
      intros _. by destruct (trim (sliceFrom (trim line) 3)).
  - destruct H as [H1 H2].
    destruct (Segments.inCodeBlock st) eqn:E; split; cbn; rewrite ?E; auto.
Qed.

Lemma langInv_fold lines : forall st, langInv st -> langInv (fold_left Segments.step lines st).
Proof.
  induction lines as [|l lines IH]; intros st H; [done|].
  cbn [fold_left]. by apply IH, langInv_step.
Qed.

Lemma parseMarkdownSegments_language md : Forall namesLanguage (parseMarkdownSegments md).
Proof.
  unfold parseMarkdownSegments.
  assert (H : langInv (Segments.flushText
                         (fold_left Segments.step (split NL md) Segments.initial))).
  { apply langInv_flush, langInv_fold. split; [constructor|discriminate]. }
  destruct H as [H1 H2].
  destruct (Segments.inCodeBlock _) eqn:E; cbn [andb]; [|done].
  destruct (Segments.codeBlockContent _); [done|].
  apply Forall_app. split; [done|]. repeat constructor. cbn. by apply H2.
Qed.

Lemma parseRowLoop_cell cell : forall rest cells cur,
  noBackslash cell = true ->
  parseRowLoop (escapePipes cell ++ ch "|" :: rest) cells cur
  = parseRowLoop rest (cells ++ [cur ++ cell]) [].
Proof.
  induction cell as [|c cell IH]; intros rest cells cur H.
  - cbn [escapePipes List.map concat app]. rewrite app_nil_r.
    destruct rest; cbn [parseRowLoop]; reflexivity.
  - cbn [noBackslash forallb] in H. apply andb_prop in H as [Hc H].
    apply negb_true_iff in Hc.
    unfold escapePipes. cbn [List.map concat]. fold (escapePipes cell).
    destruct (chr_eqb c (ch "|")) eqn:Ep.
    + apply N.eqb_eq in Ep. subst c. cbn [lit app]. cbn [parseRowLoop].
      change (cur ++ lit "|") with (cur ++ [ch "|"]).
      replace (cur ++ ch "|" :: cell) with ((cur ++ [ch "|"]) ++ cell) by (by rewrite <- app_assoc).
      by apply IH.
    + cbn [app]. 
      replace (cur ++ c :: cell) with ((cur ++ [c]) ++ cell) by (by rewrite <- app_assoc).
      rewrite <- IH by done.
      destruct (escapePipes cell ++ ch "|" :: rest) as [|c' r'] eqn:E.
      { by destruct (escapePipes cell). }
      cbn [parseRowLoop]. rewrite Hc, Ep. cbn [andb]. reflexivity.
Qed.

Lemma parseRowLoop_cells cells : forall done_,
  forallb noBackslash cells = true ->
  parseRowLoop (concat (List.map (fun c => escapePipes c ++ lit "|") cells)) done_ []
  = done_ ++ cells ++ [[]].
Proof.
  induction cells as [|c cells IH]; intros done_ H.
  - reflexivity.
  - cbn [forallb] in H. apply andb_prop in H as [Hc H].
    cbn [List.map concat]. rewrite <- app_assoc. cbn [lit app].
    change (lit "|" ++ ?x) with (ch "|" :: x).
    rewrite parseRowLoop_cell by done. rewrite IH by done.
    cbn [app]. by rewrite <- app_assoc.
Qed.

Lemma sliceInner_framed {A} (x y : A) (l : list A) : sliceInner ([x] ++ l ++ [y]) = l.
Proof.
  unfold sliceInner. cbn [app drop length]. rewrite length_app. cbn [length].
  replace (S (length l + 1) - 2)%nat with (length l) by lia.
  rewrite drop_0. by rewrite take_app_length.
Qed.

Lemma parseRow_tableRow_eq cells :
  forallb noBackslash cells = true ->
  parseRow (tableRow cells) = List.map trim cells.
Proof.
  intros H. unfold parseRow, tableRow.
  change (lit "|" ++ ?x) with (ch "|" :: x).
  assert (E : forall rest, parseRowLoop (ch "|" :: rest) [] [] = parseRowLoop rest [[]] []).
  { intros rest. destruct rest; reflexivity. }
  rewrite E, parseRowLoop_cells by done.
  by rewrite (sliceInner_framed [] [] cells).
Qed.

Lemma tokenize_concat text : forall tokens current inBacktick,
  concat (tokenize text tokens current inBacktick) = concat tokens ++ current ++ text.
Proof.
  induction text as [|c text IH]; intros tokens current b; cbn [tokenize].
  - rewrite app_nil_r. destruct current; [by rewrite app_nil_r|].
    by rewrite concat_app; cbn; rewrite app_nil_r.
  - destruct (chr_eqb c (ch "`")).
    + rewrite IH, <- app_assoc. reflexivity.
    + destruct (chr_eqb c SP && negb b) eqn:E.
      * apply andb_prop in E as [E _]. apply N.eqb_eq in E. subst c.
        rewrite IH. cbn [app]. rewrite concat_app. cbn [concat lit].
        destruct current; cbn; rewrite ?concat_app; cbn; rewrite ?app_nil_r, <- ?app_assoc;
          reflexivity.
      * rewrite IH, <- app_assoc. reflexivity.
Qed.

Lemma breakLoop_concat (q : bool) maxLen inner : forall parts part,
  concat (List.map (fun p : jsstring => if q then sliceInner p else p)
            (breakLoop q maxLen inner parts part))
  = concat (List.map (fun p : jsstring => if q then sliceInner p else p) parts) ++ part ++ inner.
Proof.
  assert (Hq : forall p, (if q then sliceInner (quotePart q p) else quotePart q p) = p).
  { intros p. unfold quotePart. destruct q; [|done].
    change (lit "`") with [ch "`"]. apply sliceInner_framed. }
  induction inner as [|c inner IH]; intros parts part; cbn [breakLoop].
  - rewrite app_nil_r. destruct part; [by rewrite app_nil_r|].
    rewrite map_app, concat_app. cbn [List.map concat]. by rewrite Hq, app_nil_r.
  - destruct (_ && _ && _).
    + rewrite IH, map_app, concat_app. cbn [List.map concat app].
      rewrite Hq, app_nil_r, <- !app_assoc. reflexivity.
    + rewrite IH, <- app_assoc. reflexivity.
Qed.

(** ** Shrinking, hexadecimal colors and the palette *)

Lemma sumCols_insert ws : forall i w v,
  ws !! i = Some w -> sumCols (<[i := v]> ws) = sumCols ws - w + v.
Proof.
  induction ws as [|x ws IH]; intros [|i] w v H; simpl in *; try discriminate.
  - injection H as ->. lia.
  - rewrite (IH i w v H). lia.
Qed.

Lemma calcWidth_insert ws i w v :
  ws !! i = Some w -> calcWidth (<[i := v]> ws) = calcWidth ws - w + v.
Proof. intros H. rewrite !calcWidth_sum, (sumCols_insert ws i w v H). lia. Qed.

Lemma shrinkRun_exact maxWidth ws ws' :
  shrinkRun maxWidth ws ws' ->
  calcWidth ws' = Z.min (calcWidth ws) maxWidth \/ Forall (fun w => w <= 10) ws'.
Proof.
  induction 1 as [ws [H|H]|ws i w ws' Hc Hi Hw Hall Hrun IH].
  - left. lia.
  - by right.
  - destruct IH as [IH|IH]; [|by right]. left.
    rewrite (calcWidth_insert ws i w (w - 1) Hi) in IH. lia.
Qed.

Lemma balanced_refl ws : balanced ws ws.
Proof. apply Forall2_same_length_lookup_2; [done|]. intros i x y Hx Hy. left. congruence. Qed.

Lemma shrinkRun_balanced maxWidth ws ws' :
  shrinkRun maxWidth ws ws' -> forall ws0, balanced ws0 ws -> balanced ws0 ws'.
Proof.
  induction 1 as [ws H|ws i w ws' Hc Hi Hw Hall Hrun IH]; intros ws0 Hb; [done|].
  apply IH. unfold balanced in *.
  assert (Hnew : Forall (fun v => v <= w) (<[i := w - 1]> ws)).
  { apply Forall_insert; [done|lia]. }
  apply Forall2_same_length_lookup_2.
  { rewrite length_insert. by eapply Forall2_length. }
  intros j w0 x Hw0 Hx.
  destruct (decide (j = i)) as [->|Hji].
  - rewrite list_lookup_insert_eq in Hx by (by eapply lookup_lt_Some).
    injection Hx as <-. right.
    eapply Forall_impl; [exact Hnew|]. intros v Hv. cbn in Hv. lia.
  - rewrite list_lookup_insert_ne in Hx by done.
    destruct (Forall2_lookup_lr _ _ _ _ _ _ Hb Hw0 Hx) as [->|Hold]; [by left|]. right.
    apply Forall_forall. intros v Hv.
    apply list_elem_of_lookup_1 in Hv as [k Hk].
    destruct (decide (k = i)) as [->|Hki].
    + rewrite list_lookup_insert_eq in Hk by (by eapply lookup_lt_Some).
      injection Hk as <-.
      rewrite Forall_forall in Hold. specialize (Hold w).
      assert (w ∈ ws) by (by eapply list_elem_of_lookup_2). specialize (Hold H). lia.
    + rewrite list_lookup_insert_ne in Hk by done.
      rewrite Forall_forall in Hold. apply Hold. by eapply list_elem_of_lookup_2.
Qed.

Section HexColors.
Import ThemeLoader.

Lemma hexDigit_range c v :
  hexDigit c = Some v ->
  0 <= v < 16 /\ ((48 <= c <= 57) \/ (65 <= c <= 70) \/ (97 <= c <= 102))%N.
Proof.
  unfold hexDigit.
  destruct ((48 <=? c) && (c <=? 57))%N eqn:E1.
  { apply andb_prop in E1 as [A B]. apply N.leb_le in A, B. intros [= <-]. lia. }
  destruct ((97 <=? c) && (c <=? 102))%N eqn:E2.
  { apply andb_prop in E2 as [A B]. apply N.leb_le in A, B. intros [= <-]. lia. }
  destruct ((65 <=? c) && (c <=? 70))%N eqn:E3; [|discriminate].
  apply andb_prop in E3 as [A B]. apply N.leb_le in A, B. intros [= <-]. lia.
Qed.

Lemma hexDigit_not_space c v : hexDigit c = Some v -> isSpace c = false.
Proof.
  intros H. apply hexDigit_range in H as [_ H].
  apply not_true_is_false. unfold isSpace. intros Hs.
  repeat (apply orb_prop in Hs as [Hs|Hs]);
    repeat match goal with
    | H : (_ && _)%bool = true |- _ => apply andb_prop in H as [? ?]
    | H : (_ <=? _)%N = true |- _ => apply N.leb_le in H
    | H : (_ =? _)%N = true |- _ => apply N.eqb_eq in H
    end; lia.
Qed.

Lemma hexDigit_not c v d :
  hexDigit c = Some v -> (d < 48 \/ 57 < d < 65 \/ 70 < d < 97 \/ 102 < d)%N ->
  chr_eqb c d = false.
Proof.
  intros H Hd. apply hexDigit_range in H as [_ H]. apply N.eqb_neq. lia.
Qed.

Lemma parseInt16_byte a b n : hexByte a b = Some n -> parseInt16 [a; b] = Some n.
Proof.
  unfold hexByte. destruct (hexDigit a) as [x|] eqn:Ea; [|discriminate].
  destruct (hexDigit b) as [y|] eqn:Eb; [|discriminate]. cbn. intros [= <-].
  unfold parseInt16. cbn [trimStart]. rewrite (hexDigit_not_space a x Ea).
  rewrite (hexDigit_not a x (ch "-") Ea) by (change (ch "-") with 45%N; lia).
  rewrite (hexDigit_not a x (ch "+") Ea) by (change (ch "+") with 43%N; lia).
  assert (Hx : startsWith [a; b] (lit "0x") || startsWith [a; b] (lit "0X") = false).
  { change (lit "0x") with [48%N; 120%N]. change (lit "0X") with [48%N; 88%N].
    cbn [startsWith]. unfold chr_eqb.
    pose proof (hexDigit_range b y Eb) as [_ Hb].
    replace (120 =? b)%N with false by (symmetry; apply N.eqb_neq; lia).
    replace (88 =? b)%N with false by (symmetry; apply N.eqb_neq; lia).
    by rewrite !andb_false_r. }
  rewrite Hx. cbn [hexPrefix]. rewrite Ea, Eb. cbn. f_equal. lia.
Qed.

Lemma parseInt16_digit a n : hexDigit a = Some n -> parseInt16 [a] = Some n.
Proof.
  intros Ea.
  unfold parseInt16. cbn [trimStart]. rewrite (hexDigit_not_space a n Ea).
  rewrite (hexDigit_not a n (ch "-") Ea) by (change (ch "-") with 45%N; lia).
  rewrite (hexDigit_not a n (ch "+") Ea) by (change (ch "+") with 43%N; lia).
  change (lit "0x") with [48%N; 120%N]. change (lit "0X") with [48%N; 88%N].
  cbn [startsWith]. rewrite !andb_false_r. cbn [orb hexPrefix]. rewrite Ea. cbn. f_equal. lia.
Qed.

Lemma Math_round_byte n : Math_round (inject_Z n / inject_Z 255 * inject_Z 255)%Q = n.
Proof.
  unfold Math_round.
  assert (E : (inject_Z n / inject_Z 255 * inject_Z 255 + (1 # 2) == (2 * n + 1) # 2)%Q).
  { unfold Qeq, Qdiv, Qmult, Qplus, Qinv, inject_Z. cbn. lia. }
  rewrite (Qfloor_comp _ _ E). unfold Qfloor. 
  cbn [Qnum Qden]. symmetry. apply Z.div_unique with (r := 1); lia.
Qed.

Lemma toInt_chan n :
  option_map (fun q => Math_round (q * inject_Z 255)%Q)
    (option_map (fun n => (inject_Z n / inject_Z 255)%Q) (Some n)) = Some n.
Proof. cbn [option_map]. by rewrite Math_round_byte. Qed.

Lemma hexToRGBA_six_digits (d1 d2 d3 d4 d5 d6 : char) (r g b : Z) :
  hexByte d1 d2 = Some r -> hexByte d3 d4 = Some g -> hexByte d5 d6 = Some b ->
  toIntRGBA (hexToRGBA (ch "#" :: [d1; d2; d3; d4; d5; d6])) = Color.ofInts r g b 255
  /\ 0 <= r <= 255 /\ 0 <= g <= 255 /\ 0 <= b <= 255.
Proof.
  intros Hr Hg Hb. split.
  - unfold hexToRGBA. cbn [removeFirstHash]. change (chr_eqb (ch "#") (ch "#")) with true.
    cbn iota. unfold slice. cbn [drop take Nat.sub].
    rewrite (parseInt16_byte _ _ _ Hr), (parseInt16_byte _ _ _ Hg), (parseInt16_byte _ _ _ Hb).
    unfold toIntRGBA. cbn [Color.r Color.g Color.b Color.a].
    rewrite !toInt_chan. unfold Color.ofInts. f_equal.
  - unfold hexByte in *.
    repeat match goal with
    | H : context [hexDigit ?c] |- _ =>
        let E := fresh "E" in destruct (hexDigit c) eqn:E; [|discriminate];
        apply hexDigit_range in E as [E _]
    end.
    cbn in *. injection Hr as <-. injection Hg as <-. injection Hb as <-. lia.
Qed.

Lemma hexToRGBA_three_digits (d1 d2 d3 : char) (r g : Z) :
  hexByte d1 d2 = Some r -> hexDigit d3 = Some g ->
  toIntRGBA (hexToRGBA (ch "#" :: [d1; d2; d3]))
  = Color.mk (Some r) (Some g) None (Some 255).
Proof.
  intros Hr Hg.
  unfold hexToRGBA. cbn [removeFirstHash]. change (chr_eqb (ch "#") (ch "#")) with true.
  cbn iota. unfold slice. cbn [drop take Nat.sub].
  rewrite (parseInt16_byte _ _ _ Hr), (parseInt16_digit _ _ Hg).
  unfold toIntRGBA. cbn [Color.r Color.g Color.b Color.a].
  rewrite !toInt_chan. reflexivity.
Qed.

Lemma loadTheme_fallback (opencode : ThemeData) (bundled : gmap jsstring ThemeData)
    (name : jsstring) (mode : Mode) :
  bundled !! name = None ->
  loadTheme opencode bundled (Some name) mode = loadTheme opencode bundled None mode.
Proof.
  intros H. unfold loadTheme.
  assert (E : themeDataOf opencode bundled (Some name) = themeDataOf opencode bundled None).
  { unfold themeDataOf, THEMES. destruct name as [|c n]; [reflexivity|].
    destruct (decide (c :: n = lit "opencode")) as [->|Hne]; [reflexivity|].
    rewrite lookup_insert_ne by done. rewrite H. cbn.
    by rewrite lookup_insert_eq. }
  by rewrite E.
Qed.

End HexColors.

Lemma ansi256_check :
  forallb (fun n => match ansi256ToRgb (Z.of_nat n) with
                    | Some t => byteTriple t
                    | None => false
                    end) (seq 0 256) = true.
Proof. vm_compute. reflexivity. Qed.

Lemma ansi256ToRgb_range (n : Z) :
  0 <= n <= 255 ->
  exists r g b, ansi256ToRgb n = Some (r, g, b)
                /\ 0 <= r <= 255 /\ 0 <= g <= 255 /\ 0 <= b <= 255.
Proof.
  intros H. pose proof ansi256_check as C. rewrite forallb_forall in C.
  specialize (C (Z.to_nat n)). rewrite Z2Nat.id in C by lia.
  destruct (ansi256ToRgb n) as [[[r g] b]|].
  - exists r, g, b. split; [reflexivity|].
    assert (Hin : In (Z.to_nat n) (seq 0 256)) by (apply in_seq; lia).
    specialize (C Hin). unfold byteTriple in C.
    repeat (apply andb_prop in C as [C ?]).
    repeat match goal with H : (_ <=? _) = true |- _ => apply Z.leb_le in H end. lia.
  - assert (Hin : In (Z.to_nat n) (seq 0 256)) by (apply in_seq; lia).
    specialize (C Hin). discriminate.
Qed.

(** ** Lone table rows and unclosed fences *)

Lemma pipe_not_fence s : startsWith s (lit "|") = true -> startsWith s fence = false.
Proof.
  destruct s as [|c s]; [discriminate|].
  change (lit "|") with [ch "|"]. cbn [startsWith].
  intros H. apply andb_prop in H as [H _]. apply N.eqb_eq in H. subst c. reflexivity.
Qed.

Section Lone.
Variable stringWidth : jsstring -> nat.
Variable theme : IntTheme.
Variable cols : Z.

Lemma renderLine_lone_row line next st :
  inCodeBlock st = false -> inTable st = false ->
  isTableLine (trim line) = true ->
  isTableLine (trim (default [] next)) = false ->
  renderLine stringWidth theme cols line next st
  = Some ([], mkBlockState false (codeBlockLang st) false []).
Proof.
  intros Hc Ht Hl Hn. unfold renderLine.
  assert (Hp : startsWith (trim line) (lit "|") = true).
  { unfold isTableLine in Hl. by apply andb_prop in Hl as [? _]. }
  rewrite (pipe_not_fence _ Hp), Hc, Hl, Ht.
  assert (E : (match option_map trim next with
               | None | Some [] => true
               | Some n => negb (startsWith n (lit "|")) || negb (endsWith n (lit "|"))
               end) = true).
  { destruct next as [n|]; [|reflexivity]. cbn [option_map default from_option id] in *.
    destruct (trim n) as [|c r] eqn:E; [reflexivity|].
    unfold isTableLine in Hn. by rewrite <- negb_andb, Hn. }
  rewrite E. cbn [app]. unfold renderTableThemed. cbn [length Nat.ltb Nat.leb].
  reflexivity.
Qed.

End Lone.

Lemma head_hd {A} (l : list A) (d : A) : default d (head l) = List.hd d l.
Proof. by destruct l. Qed.

Lemma lone_row_dropped stringWidth line rest theme cols :
  noNewline line = true ->
  isTableLine (trim line) = true ->
  isTableLine (trim (firstLine rest)) = false ->
  renderMarkdownThemedStyled stringWidth (line ++ NL :: rest) theme cols
  = renderMarkdownThemedStyled stringWidth rest theme cols.
Proof.
  intros Hnl Hl Hr. unfold renderMarkdownThemedStyled.
  rewrite split_app_sep, (split_nlFree line) by (by apply noNewline_Forall).
  cbn [app blockLoop].
  rewrite renderLine_lone_row; try done; [|by rewrite head_hd].
  cbn [mbind option_bind].
  change (mkBlockState false (codeBlockLang initialBlockState) false [])
    with initialBlockState.
  by destruct (blockLoop _ _ _ _ _).
Qed.

Lemma lone_row_alone stringWidth line theme cols :
  noNewline line = true ->
  isTableLine (trim line) = true ->
  renderMarkdownThemedStyled stringWidth line theme cols = Some (mkStyledText []).
Proof.
  intros Hnl Hl. unfold renderMarkdownThemedStyled.
  rewrite (split_nlFree line) by (by apply noNewline_Forall).
  cbn [blockLoop head]. rewrite renderLine_lone_row; try done.
Qed.

Lemma simple_loop_app cols indent listPrefix l1 : forall l2 st,
  Simple.loop cols indent listPrefix (l1 ++ l2) st
  = st' ← Simple.loop cols indent listPrefix l1 st; Simple.loop cols indent listPrefix l2 st'.
Proof.
  induction l1 as [|l l1 IH]; intros l2 st; [reflexivity|].
  cbn [app Simple.loop].
  destruct (Simple.step cols indent listPrefix st l) as [st1|]; [|reflexivity].
  cbn [mbind option_bind]. apply IH.
Qed.

Lemma simple_step_fence cols indent listPrefix st line st' :
  Simple.step cols indent listPrefix st line = Some st' ->
  Simple.inCodeBlock st'
  = if startsWith line fence then negb (Simple.inCodeBlock st) else Simple.inCodeBlock st.
Proof.
  unfold Simple.step. change (lit "```") with fence.
  destruct (startsWith line fence).
  - destruct (Simple.inCodeBlock st); by intros [= <-].
  - destruct (Simple.inCodeBlock st) eqn:E; [by intros [= <-]|].
    intros H. repeat (case_match; simplify_option_eq; try done).
Qed.

Lemma simple_loop_fence cols indent listPrefix lines : forall st st',
  Simple.loop cols indent listPrefix lines st = Some st' ->
  Simple.inCodeBlock st' = simpleFenceState (Simple.inCodeBlock st) lines.
Proof.
  induction lines as [|l lines IH]; intros st st'; cbn [Simple.loop simpleFenceState fold_left].
  - by intros [= <-].
  - destruct (Simple.step cols indent listPrefix st l) as [st1|] eqn:E; [|discriminate].
    cbn [mbind option_bind]. intros H. rewrite (IH _ _ H).
    by rewrite (simple_step_fence _ _ _ _ _ _ E).
Qed.

Lemma simple_loop_inside cols indent listPrefix lines : forall st,
  Simple.inCodeBlock st = true ->
  forallb (fun l => negb (startsWith l fence)) lines = true ->
  exists content,
    Simple.loop cols indent listPrefix lines st = Some (Simple.mk (Simple.result st) true content).
Proof.
  induction lines as [|l lines IH]; intros st Hin H.
  - exists (Simple.codeBlockContent st). cbn. destruct st; cbn in *. by subst.
  - cbn [forallb] in H. apply andb_prop in H as [Hl H]. apply negb_true_iff in Hl.
    cbn [Simple.loop]. unfold Simple.step. change (lit "```") with fence. rewrite Hl, Hin.
    cbn [mbind option_bind]. apply (IH (Simple.mk _ _ _)); done.
Qed.

Section Plain.
Variable stdoutColumns : option Z.

Lemma simple_unclosed_dropped md tail options :
  simpleFenceState false (split NL md) = false ->
  startsWith (firstLine tail) fence = true ->
  forallb (fun l => negb (startsWith l fence)) (List.tl (split NL tail)) = true ->
  renderMarkdownSimple stdoutColumns (md ++ NL :: tail) options
  = renderMarkdownSimple stdoutColumns md options.
Proof.
  intros Hmd Ht Hb. unfold renderMarkdownSimple.
  rewrite split_app_sep, simple_loop_app.
  destruct (Simple.loop _ _ _ (split NL md) _) as [st1|] eqn:E; [|reflexivity].
  cbn [mbind option_bind].
  pose proof (simple_loop_fence _ _ _ _ _ _ E) as Hst. cbn in Hst. rewrite Hmd in Hst.
  unfold firstLine in Ht.
  destruct (split NL tail) as [|opener body] eqn:Es; [by apply split_nonempty in Es|].
  cbn [List.hd List.tl] in *.
  cbn [Simple.loop]. unfold Simple.step at 1. change (lit "```") with fence.
  rewrite Ht, Hst. cbn [mbind option_bind].
  destruct (simple_loop_inside (resolveCols stdoutColumns options)
              (default (lit "  ") (Options.indent options))
              (default (lit "- ") (Options.listPrefix options)) body
              (Simple.mk (Simple.result st1) true (Simple.codeBlockContent st1)))
    as [content ->]; [reflexivity|done|].
  reflexivity.
Qed.

End Plain.

(** ** The text the ANSI parser keeps *)

Lemma stripScan_sublist s : forall k, sublist (stripScan k s) s.
Proof.
  induction s as [|c r IH]; intros k; cbn [stripScan]; [constructor|].
  destruct k as [|k]; [|by apply sublist_cons].
  destruct (ansiLen (c :: r)); [by apply sublist_cons|by apply sublist_skip].
Qed.

Lemma paramsLen_run r :
  paramsLen r = match drop (paramsRun r) r with
                | c :: _ => if chr_eqb (ch "m") c then Some (S (paramsRun r)) else None
                | [] => None
                end.
Proof.
  induction r as [|c r IH]; [reflexivity|]. cbn [paramsLen paramsRun].
  destruct (isParam c) eqn:E.
  - cbn [drop]. rewrite IH. destruct (drop (paramsRun r) r) as [|d ?]; [reflexivity|].
    by destruct (chr_eqb (ch "m") d).
  - reflexivity.
Qed.

Lemma matchAt_ansiCodes_spec (input : jsstring) (pos : nat) (rest : jsstring) :
  match ansiLen rest with
  | Some n => exists cps, matchAt input ansiCodesRe 1 pos rest = Some (RMatch pos (pos + n) cps)
  | None => matchAt input ansiCodesRe 1 pos rest = None
  end.
Proof.
  unfold matchAt, ansiCodesRe. cbn [seqs m replicate].
  destruct rest as [|e rest]; [reflexivity|].
  cbn [ansiLen step mrest mpos mcaps].
  destruct (chr_eqb ESC e) eqn:He; [|by destruct rest].
  destruct rest as [|b rest]; [reflexivity|].
  cbn [andb step mrest mpos mcaps]. destruct (chr_eqb (ch "[") b) eqn:Hb; [|reflexivity].
  unfold star. cbn [m mrest groups_of Nat.add mpos mcaps].
  rewrite (star_params input _ [] eq_refl).
  - rewrite paramsLen_run.
    destruct (drop (paramsRun rest) rest) as [|c rest'];
      cbn [mpos mrest mcaps step option_map]; [reflexivity|].
    destruct (chr_eqb (ch "m") c); cbn [option_map]; [|reflexivity].
    eexists. cbn [mpos mcaps]. do 2 f_equal. lia.
  - intros st c rest' Hst Hc. cbn [mpos mrest mcaps]. rewrite Hst.
    cbn [step mrest]. by rewrite (isParam_not_m c Hc).
  - reflexivity.
Qed.

Lemma execFrom_ansiCodes_scan rest : forall pre,
  match execFrom (pre ++ rest) ansiCodesRe 1 (length pre) rest with
  | Some mt =>
      exists k n, index mt = (length pre + k)%nat /\ endIndex mt = (length pre + k + n)%nat
                  /\ ansiLen (drop k rest) = Some n
                  /\ stripScan 0 rest = take k rest ++ stripScan 0 (drop (k + n) rest)
  | None => stripScan 0 rest = rest
  end.
Proof.
  induction rest as [|c r IH]; intros pre; cbn [execFrom].
  - pose proof (matchAt_ansiCodes_spec (pre ++ []) (length pre) []) as H. cbn [ansiLen] in H.
    rewrite H. reflexivity.
  - pose proof (matchAt_ansiCodes_spec (pre ++ c :: r) (length pre) (c :: r)) as H.
    destruct (ansiLen (c :: r)) as [n|] eqn:E.
    + destruct H as [cps ->]. exists 0%nat, n. cbn [index endIndex drop take app].
      repeat split; try lia; try done.
      cbn [stripScan]. rewrite E. rewrite stripScan_skip.
      apply ansiLen_le in E. destruct n as [|n]; [lia|]. reflexivity.
    + rewrite H. specialize (IH (pre ++ [c])).
      rewrite <- app_assoc in IH. cbn [app] in IH.
      rewrite length_app in IH. cbn [length] in IH.
      replace (length pre + 1)%nat with (S (length pre)) in IH by lia.
      destruct (execFrom (pre ++ c :: r) ansiCodesRe 1 (S (length pre)) r) as [mt|].
      * destruct IH as (k & n & H1 & H2 & H3 & H4).
        exists (S k), n. cbn [drop take app]. repeat split; try lia; try done.
        cbn [stripScan]. rewrite E. by rewrite H4.
      * cbn [stripScan]. rewrite E. by rewrite IH.
Qed.

Lemma ansiLoop_text fuel : forall rest pre st acc cs,
  (length rest < fuel)%nat ->
  ansiLoop fuel (pre ++ rest) (length pre) st acc = Some cs ->
  textOf cs = textOf acc ++ stripScan 0 rest.
Proof.
  induction fuel as [|fuel IH]; intros rest pre st acc cs Hf; [lia|].
  cbn [ansiLoop]. rewrite exec_at.
  pose proof (execFrom_ansiCodes_scan rest pre) as Hs.
  destruct (execFrom (pre ++ rest) ansiCodesRe 1 (length pre) rest) as [mt|].
  - destruct Hs as (k & n & Hi & He & Hn & Hscan).
    pose proof (ansiLen_le _ _ Hn) as Hle. rewrite length_drop in Hle.
    match goal with |- context [codesLoop ?a ?b ?c ?d] => destruct (codesLoop a b c d) as [st'|] end;
      [|discriminate].
    cbn [mbind option_bind].
    set (acc1 := if Nat.ltb (length pre) (index mt) then _ else acc).
    assert (Hacc : textOf acc1 = textOf acc ++ take k rest).
    { unfold acc1. rewrite Hi. unfold slice.
      rewrite drop_app_length. replace (length pre + k - length pre)%nat with k by lia.
      destruct (Nat.ltb_spec (length pre) (length pre + k)).
      - destruct (take k rest) eqn:Et.
        + by rewrite app_nil_r.
        + rewrite textOf_app. unfold textOf at 2. cbn. by rewrite app_nil_r.
      - replace k with 0%nat by lia. cbn. by rewrite app_nil_r. }
    clearbody acc1.
    rewrite He. rewrite <- (take_drop (k + n) rest) at 1. rewrite app_assoc.
    replace (length pre + k + n)%nat with (length (pre ++ take (k + n) rest))
      by (rewrite length_app, length_take; lia).
    intros H. apply IH in H; [|rewrite length_drop; lia].
    rewrite H, Hacc, Hscan, <- app_assoc. reflexivity.
  - intros [= <-]. rewrite Hs. rewrite length_app.
    unfold sliceFrom. rewrite drop_app_length.
    destruct (Nat.ltb_spec (length pre) (length pre + length rest)).
    + destruct rest; [by rewrite app_nil_r|].
      rewrite textOf_app. unfold textOf at 2. cbn. by rewrite app_nil_r.
    + destruct rest; [by rewrite app_nil_r|]. cbn [length] in *. lia.
Qed.

Lemma ansiToStyledText_text input :
  exists st, ansiToStyledText input = Some st /\ textOf (chunks st) = stripAnsi input.
Proof.
  destruct (ansiToStyledText_total input) as [st H]. exists st. split; [done|].
  unfold ansiToStyledText in H.
  destruct (ansiLoop _ _ _ _ _) as [cs|] eqn:E; [|discriminate].
  cbn in H. injection H as <-. cbn [chunks].
  rewrite stripAnsi_scan.
  apply (ansiLoop_text _ input [] _ _ _) in E; [|lia]. exact E.
Qed.

(** ** The chunks the ANSI parser builds *)

Lemma knownAttrs_check :
  forallb (fun n =>
             let a := Z.of_nat n in
             negb (knownAttrs a)
             || forallb (fun f => knownAttrs (bitOr a f))
                  [Attr.BOLD; Attr.DIM; Attr.ITALIC; Attr.UNDERLINE; Attr.BLINK;
                   Attr.INVERSE; Attr.STRIKETHROUGH]) (seq 0 256) = true.
Proof. vm_compute. reflexivity. Qed.

Lemma knownAttrs_or a f :
  knownAttrs a = true ->
  In f [Attr.BOLD; Attr.DIM; Attr.ITALIC; Attr.UNDERLINE; Attr.BLINK;
        Attr.INVERSE; Attr.STRIKETHROUGH] ->
  knownAttrs (bitOr a f) = true.
Proof.
  intros Ha Hf. pose proof knownAttrs_check as C. rewrite forallb_forall in C.
  assert (Hr : 0 <= a < 256).
  { unfold knownAttrs in Ha. apply andb_prop in Ha as [Ha _]. apply andb_prop in Ha as [A B].
    apply Z.leb_le in A. apply Z.ltb_lt in B. lia. }
  specialize (C (Z.to_nat a)). rewrite Z2Nat.id in C by lia.
  assert (Hin : In (Z.to_nat a) (seq 0 256)) by (apply in_seq; lia).
  specialize (C Hin). cbv zeta in C. rewrite Ha in C. cbn [negb orb] in C.
  rewrite forallb_forall in C. by apply C.
Qed.

Lemma opaque_rgb255 t :
  (let '(x, y, z) := t in 0 <= x /\ 0 <= y /\ 0 <= z) -> opaque (Some (rgb255 t)) = true.
Proof.
  destruct t as [[x y] z]. intros (A & B & C).
  unfold opaque, rgb255, Color.ofInts, channelOk. cbn [Color.r Color.g Color.b Color.a].
  repeat (apply andb_true_intro; split); try (apply Z.leb_le; lia).
  by apply bool_decide_eq_true.
Qed.

Lemma AnsiColors_nonneg code t :
  AnsiColors code = Some t -> let '(x, y, z) := t in 0 <= x /\ 0 <= y /\ 0 <= z.
Proof.
  unfold AnsiColors. intros H.
  repeat (case_match; simplify_eq; try lia).
Qed.

Lemma AnsiBgColors_nonneg code t :
  AnsiBgColors code = Some t -> let '(x, y, z) := t in 0 <= x /\ 0 <= y /\ 0 <= z.
Proof.
  unfold AnsiBgColors. intros H.
  repeat (case_match; simplify_eq; try lia).
Qed.

Lemma colors16_nonneg i t :
  colors16 !! i = Some t -> let '(x, y, z) := t in 0 <= x /\ 0 <= y /\ 0 <= z.
Proof.
  intros H. assert (Hi : (i < 16)%nat) by (apply lookup_lt_Some in H; exact H).
  do 16 (destruct i as [|i]; [cbn in H; injection H as <-; lia|]). lia.
Qed.

Lemma ansi256ToRgb_nonneg n t :
  0 <= n -> ansi256ToRgb n = Some t -> let '(x, y, z) := t in 0 <= x /\ 0 <= y /\ 0 <= z.
Proof.
  intros Hn. unfold ansi256ToRgb.
  destruct (n <? 16) eqn:E1.
  - destruct (n <? 0); [discriminate|]. apply colors16_nonneg.
  - apply Z.ltb_ge in E1. destruct (n <? 232) eqn:E2.
    + apply Z.ltb_lt in E2. intros [= <-].
      assert (0 <= (n - 16) / 36) by (apply Z.div_pos; lia).
      assert (0 <= (n - 16) mod 36 / 6) by (apply Z.div_pos; [apply Z.mod_pos_bound|]; lia).
      assert (0 <= (n - 16) mod 6) by (apply Z.mod_pos_bound; lia).
      repeat split; case_match; lia.
    + apply Z.ltb_ge in E2. intros [= <-]. lia.
Qed.

Lemma styleOk_intro a f b :
  knownAttrs a = true -> opaque f = true -> opaque b = true -> styleOk (mkStyle f b a) = true.
Proof. intros. unfold styleOk. cbn. by rewrite !andb_true_iff. Qed.

Lemma styleOk_elim st :
  styleOk st = true ->
  knownAttrs (sattrs st) = true /\ opaque (sfg st) = true /\ opaque (sbg st) = true.
Proof. unfold styleOk. rewrite !andb_true_iff. tauto. Qed.

Lemma opaque_true_color codes (i : nat) :
  Forall (fun z => 0 <= z) codes ->
  opaque (Some (Color.ofInts (default 0 (codes !! (i + 2)%nat)) (default 0 (codes !! (i + 3)%nat))
                  (default 0 (codes !! (i + 4)%nat)) 255)) = true.
Proof.
  intros Hc.
  assert (Hn : forall k, 0 <= default 0 (codes !! k)).
  { intros k. destruct (codes !! k) as [z|] eqn:E; cbn; [|lia].
    rewrite Forall_forall in Hc. apply Hc. by eapply list_elem_of_lookup_2. }
  apply (opaque_rgb255 (_, _, _)). repeat split; apply Hn.
Qed.

Lemma applyCode_ok codes i code st st' i' :
  Forall (fun z => 0 <= z) codes -> styleOk st = true ->
  applyCode codes i code st = Some (st', i') -> styleOk st' = true.
Proof.
  intros Hc Hst. apply styleOk_elim in Hst as (Ha & Hf & Hb).
  assert (Hn : forall k, 0 <= default 0 (codes !! k)).
  { intros k. destruct (codes !! k) as [z|] eqn:E; cbn; [|lia].
    rewrite Forall_forall in Hc. apply Hc. by eapply list_elem_of_lookup_2. }
  unfold applyCode. intros H.
  repeat (case_match; simplify_option_eq);
    try (apply styleOk_intro; try done;
         try (apply knownAttrs_or; [done|cbn; tauto]);
         try (by apply opaque_true_color);
         try (apply opaque_rgb255;
              first [by eapply AnsiColors_nonneg | by eapply AnsiBgColors_nonneg
                    | eapply ansi256ToRgb_nonneg; [apply Hn|eassumption]])).
Qed.

Lemma codesLoop_ok codes : forall fuel i st st',
  Forall (fun z => 0 <= z) codes -> styleOk st = true ->
  codesLoop fuel codes i st = Some st' -> styleOk st' = true.
Proof.
  induction fuel as [|fuel IH]; intros i st st' Hc Hst; cbn [codesLoop].
  - by intros [= <-].
  - destruct (codes !! i) as [code|]; [|by intros [= <-]].
    destruct (applyCode codes i code st) as [[st1 i1]|] eqn:E; [|discriminate].
    cbn [mbind option_bind]. apply IH; [done|]. by eapply applyCode_ok.
Qed.

Lemma parsedChunk_styled t st :
  t <> [] -> styleOk st = true -> parsedChunk (styledChunk t st) = true.
Proof.
  intros Ht Hst. apply styleOk_elim in Hst as (Ha & Hf & Hb).
  unfold parsedChunk, styledChunk. cbn. rewrite Ha, Hf, Hb. by destruct t.
Qed.

Lemma ansiLoop_ok input : forall fuel lastIndex st acc cs,
  styleOk st = true -> forallb parsedChunk acc = true ->
  ansiLoop fuel input lastIndex st acc = Some cs -> forallb parsedChunk cs = true.
Proof.
  induction fuel as [|fuel IH]; intros lastIndex st acc cs Hst Hacc; [discriminate|].
  cbn [ansiLoop].
  destruct (exec ansiCodesRe 1 input lastIndex) as [mt|] eqn:E.
  - pose proof (codes_nonneg _ _ _ E) as Hc.
    match goal with |- context [codesLoop ?a ?b ?c ?d] =>
      destruct (codesLoop a b c d) as [st'|] eqn:El end; [|discriminate].
    cbn [mbind option_bind]. apply IH.
    + by eapply codesLoop_ok.
    + destruct (Nat.ltb lastIndex (index mt)); [|done].
      destruct (slice input lastIndex (index mt)) eqn:Et; [done|].
      rewrite forallb_app, Hacc. cbn [forallb]. rewrite parsedChunk_styled; done.
  - intros [= <-]. destruct (Nat.ltb lastIndex (length input)); [|done].
    destruct (sliceFrom input lastIndex) eqn:Et; [done|].
    rewrite forallb_app, Hacc. cbn [forallb]. rewrite parsedChunk_styled; done.
Qed.

Lemma ansiToStyledText_chunks input :
  exists st, ansiToStyledText input = Some st /\ forallb parsedChunk (chunks st) = true.
Proof.
  destruct (ansiToStyledText_total input) as [st H]. exists st. split; [done|].
  unfold ansiToStyledText in H.
  destruct (ansiLoop _ _ _ _ _) as [cs|] eqn:E; [|discriminate].
  cbn in H. injection H as <-. cbn [chunks].
  by eapply ansiLoop_ok in E.
Qed.

(** ** Padding *)

Lemma padSafe_elim c :
  padSafe c = true ->
  chr_eqb c ESC = false /\ chr_eqb (ch "[") c = false /\ isParam c = false
  /\ chr_eqb (ch "m") c = false.
Proof.
  unfold padSafe. rewrite !andb_true_iff, !negb_true_iff. tauto.
Qed.

Lemma paramsLen_app_safe t : safeTail t -> forall ps, paramsLen (ps ++ t) = paramsLen ps.
Proof.
  intros Ht. induction ps as [|c ps IH]; cbn [app paramsLen].
  - destruct t as [|c t]; [reflexivity|]. cbn [paramsLen].
    apply padSafe_elim in Ht as (_ & _ & -> & ->). reflexivity.
  - by rewrite IH.
Qed.

Lemma ansiLen_app_safe t s : safeTail t -> ansiLen (s ++ t) = ansiLen s.
Proof.
  intros Ht. destruct s as [|e [|b r]]; cbn [app ansiLen].
  - destruct t as [|c [|d t]]; cbn [ansiLen]; try reflexivity.
    apply padSafe_elim in Ht as (Hc & _). unfold chr_eqb in *.
    rewrite N.eqb_sym, Hc. reflexivity.
  - destruct t as [|c t]; [reflexivity|]. cbn [ansiLen].
    apply padSafe_elim in Ht as (_ & -> & _). by rewrite andb_false_r.
  - by rewrite paramsLen_app_safe.
Qed.

Lemma stripScan_app_safe t :
  safeTail t -> noEsc t = true ->
  forall n s, (length s <= n)%nat -> stripScan 0 (s ++ t) = stripScan 0 s ++ t.
Proof.
  intros Ht Hn. induction n as [|n IH]; intros s Hs.
  - destruct s; [|simpl in Hs; lia]. cbn [app stripScan]. by apply stripScan_noEsc.
  - destruct s as [|c r]; [cbn [app stripScan]; by apply stripScan_noEsc|].
    change ((c :: r) ++ t) with (c :: (r ++ t)). cbn [stripScan].
    change (c :: (r ++ t)) with ((c :: r) ++ t). rewrite ansiLen_app_safe by done.
    destruct (ansiLen (c :: r)) as [k|] eqn:E.
    + apply ansiLen_le in E. cbn [length] in *.
      rewrite !(stripScan_skip (Nat.pred k)).
      rewrite drop_app_le by lia. apply IH. rewrite length_drop. lia.
    + cbn [app]. f_equal. apply IH. simpl in Hs. lia.
Qed.

Lemma repeat_unit c n :
  0 <= n -> JS.repeat [c] n = Some (replicate (Z.to_nat n) c).
Proof.
  intros H. unfold JS.repeat. replace (n <? 0) with false by (symmetry; apply Z.ltb_ge; lia).
  f_equal. induction (Z.to_nat n) as [|k IH]; [reflexivity|]. cbn. by rewrite IH.
Qed.

Lemma noEsc_replicate c n : chr_eqb c ESC = false -> noEsc (replicate n c) = true.
Proof.
  intros H. unfold noEsc. induction n as [|n IH]; [reflexivity|].
  cbn [replicate forallb]. by rewrite H, IH.
Qed.

Lemma safeTail_replicate c n : padSafe c = true -> safeTail (replicate n c).
Proof. intros H. by destruct n. Qed.

Lemma padUnit_elim padding c :
  padUnit padding = Some c -> default (lit " ") padding = [c] /\ padSafe c = true.
Proof.
  unfold padUnit. destruct (default (lit " ") padding) as [|d [|? ?]]; try discriminate.
  destruct (padSafe d) eqn:E; [|discriminate]. by intros [= <-].
Qed.

Lemma padRight_spec str width padding c :
  padUnit padding = Some c ->
  let missing := Z.to_nat (width - Z.of_nat (visibleWidth str)) in
  padRight str width padding = Some (str ++ replicate missing c)
  /\ stripAnsi (str ++ replicate missing c) = stripAnsi str ++ replicate missing c
  /\ Z.of_nat (visibleWidth (str ++ replicate missing c))
     = Z.max (Z.of_nat (visibleWidth str)) width.
Proof.
  intros Hu missing. apply padUnit_elim in Hu as [Hchar Hc].
  pose proof (padSafe_elim c Hc) as (Hesc & _).
  assert (Hs : stripAnsi (str ++ replicate missing c) = stripAnsi str ++ replicate missing c).
  { rewrite !stripAnsi_scan.
    apply (stripScan_app_safe _ (safeTail_replicate c missing Hc)
             (noEsc_replicate c missing Hesc) (length str)). lia. }
  split; [|split; [exact Hs|]].
  - unfold padRight. rewrite Hchar. cbv zeta.
    destruct (Z.leb_spec width (Z.of_nat (visibleWidth str))).
    + unfold missing. replace (Z.to_nat _) with 0%nat by lia. cbn. by rewrite app_nil_r.
    + rewrite repeat_unit by lia. reflexivity.
  - unfold visibleWidth at 1. rewrite Hs, length_app, length_replicate.
    fold (visibleWidth str). unfold missing. lia.
Qed.

Lemma padCenter_spec str width padding c :
  padUnit padding = Some c ->
  let missing := Z.to_nat (width - Z.of_nat (visibleWidth str)) in
  let left := (missing / 2)%nat in
  let right := (missing - left)%nat in
  padCenter str width padding = Some (replicate left c ++ str ++ replicate right c)
  /\ (left <= right <= left + 1)%nat
  /\ Z.of_nat (visibleWidth (replicate left c ++ str ++ replicate right c))
     = Z.max (Z.of_nat (visibleWidth str)) width.
Proof.
  intros Hu missing left right. apply padUnit_elim in Hu as [Hchar Hc].
  pose proof (padSafe_elim c Hc) as (Hesc & _).
  assert (Hdiv : (left <= missing - left <= left + 1)%nat).
  { unfold left. pose proof (Nat.div_mod_eq missing 2) as E.
    pose proof (Nat.mod_upper_bound missing 2). lia. }
  split; [|split; [exact Hdiv|]].
  - unfold padCenter. rewrite Hchar. cbv zeta.
    destruct (Z.leb_spec width (Z.of_nat (visibleWidth str))).
    + unfold left, right, missing. replace (Z.to_nat _) with 0%nat by lia. cbn.
      by rewrite app_nil_r.
    + assert (E : (width - Z.of_nat (visibleWidth str)) / 2 = Z.of_nat left).
      { unfold left, missing. rewrite Nat2Z.inj_div, Z2Nat.id by lia. reflexivity. }
      rewrite E, repeat_unit by lia. cbn [mbind option_bind].
      rewrite repeat_unit by (unfold left, missing in *; lia). cbn [mbind option_bind].
      rewrite Nat2Z.id. do 4 f_equal. unfold right, missing in *. lia.
  - unfold visibleWidth at 1. rewrite stripAnsi_scan.
    rewrite stripScan_plain by (by apply noEsc_replicate).
    rewrite (stripScan_app_safe _ (safeTail_replicate c right Hc)
               (noEsc_replicate c right Hesc) (length str)) by lia.
    rewrite !length_app, !length_replicate, <- stripAnsi_scan.
    fold (visibleWidth str). unfold right, missing in *. lia.
Qed.

(** ** Greedy runs and separator lines *)

Lemma charPred_step input r1 p st k :
  charPred r1 = Some p -> m input r1 st k = step p st k.
Proof. destruct r1; try discriminate; by intros [= <-]. Qed.

Lemma charPred_groups r1 p : charPred r1 = Some p -> groups_of r1 = [].
Proof. by destruct r1. Qed.

Lemma star_greedy input r1 p (c : mstate -> option mstate) :
  charPred r1 = Some p ->
  forall r fuel pos cps,
    (length r <= fuel)%nat ->
    repeatMatcher (m input r1) (groups_of r1) true fuel 0 None (MState pos r cps) c
    = greedyRun p c pos r cps.
Proof.
  intros Hp. rewrite (charPred_groups _ _ Hp).
  induction r as [|x r IH]; intros fuel pos cps Hf.
  - destruct fuel; cbn [repeatMatcher Nat.eqb negb greedyRun]; [reflexivity|].
    cbn [clear_caps fold_right mpos mrest mcaps]. rewrite (charPred_step _ _ _ _ _ Hp).
    cbn [step mrest orElse]. reflexivity.
  - destruct fuel as [|fuel]; [simpl in Hf; lia|].
    cbn [repeatMatcher Nat.eqb negb greedyRun].
    cbn [clear_caps fold_right mpos mrest mcaps option_map Nat.pred].
    rewrite (charPred_step _ _ _ _ _ Hp). cbn [step mrest mpos mcaps].
    destruct (p x); [|reflexivity].
    replace (Nat.eqb (S pos) pos) with false by (symmetry; apply Nat.eqb_neq; lia).
    cbn [andb]. rewrite IH by (simpl in Hf; lia). reflexivity.
Qed.

Lemma plus_greedy input r1 p (c : mstate -> option mstate) :
  charPred r1 = Some p ->
  forall r pos cps,
    m input (plus r1) (MState pos r cps) c
    = match r with
      | x :: r' => if p x then greedyRun p c (S pos) r' cps else None
      | [] => None
      end.
Proof.
  intros Hp r pos cps. unfold plus. cbn [m mrest].
  cbn [Nat.add repeatMatcher Nat.eqb negb].
  rewrite (charPred_groups _ _ Hp). cbn [clear_caps fold_right mpos mrest mcaps].
  rewrite (charPred_step _ _ _ _ _ Hp).
  destruct r as [|x r]; cbn [step mrest mpos mcaps]; [reflexivity|].
  destruct (p x); [|reflexivity]. cbn [andb Nat.pred option_map length].
  rewrite <- (charPred_groups _ _ Hp). apply star_greedy; [done|simpl; lia].
Qed.

Lemma star_greedy_m input r1 p (c : mstate -> option mstate) :
  charPred r1 = Some p ->
  forall r pos cps,
    m input (star r1) (MState pos r cps) c = greedyRun p c pos r cps.
Proof.
  intros Hp r pos cps. unfold star. cbn [m mrest Nat.add]. by apply star_greedy.
Qed.

(** A pattern anchored at the start matches at position 0 or not at all. *)
Lemma execFrom_late input r' ng rest : forall pos,
  (0 < pos)%nat -> execFrom input (Seq Bol r') ng pos rest = None.
Proof.
  induction rest as [|c rest IH]; intros pos Hpos; cbn [execFrom].
  - unfold matchAt. cbn [m mpos]. destruct pos; [lia|]. reflexivity.
  - unfold matchAt at 1. cbn [m mpos]. destruct pos; [lia|]. cbn [Nat.eqb].
    apply IH. lia.
Qed.

Lemma matchRe_anchored r' ng input :
  matchRe (Seq Bol r') ng input = matchAt input (Seq Bol r') ng 0 input.
Proof.
  unfold matchRe, exec. cbn [Nat.ltb Nat.leb]. rewrite drop_0.
  destruct input as [|c rest]; cbn [execFrom].
  - by destruct (matchAt _ _ _ _ _).
  - destruct (matchAt _ _ _ _ _); [reflexivity|]. apply execFrom_late. lia.
Qed.

Lemma sepTail_spec pos r cps :
  is_Some (sepTail (MState pos r cps)) <-> r = [ch "|"].
Proof.
  unfold sepTail, step. cbn [mrest mpos mcaps].
  destruct r as [|x [|y r]].
  - split; [by intros [? ?]|discriminate].
  - destruct (chr_eqb (ch "|") x) eqn:E.
    + apply N.eqb_eq in E. subst x. split; [done|eauto].
    + split; [by intros [? ?]|]. intros [= ->]. by rewrite N.eqb_refl in E.
  - split; [|discriminate]. destruct (chr_eqb _ _); by intros [? ?].
Qed.

Lemma orElse_is_Some {A} (x y : option A) : is_Some (orElse x y) <-> is_Some x \/ is_Some y.
Proof. destruct x; cbn; split; eauto. intros [[? ?]|?]; [discriminate|done]. Qed.

Lemma greedy_sep r : forall pos cps,
  is_Some (greedyRun sepChar sepTail pos r cps)
  <-> exists a, r = a ++ [ch "|"] /\ forallb sepChar a = true.
Proof.
  induction r as [|x r IH]; intros pos cps; cbn [greedyRun].
  - rewrite sepTail_spec. split; [discriminate|]. intros (a & Ha & _). by destruct a.
  - destruct (sepChar x) eqn:Ex.
    + rewrite orElse_is_Some, IH, sepTail_spec. split.
      * intros [(a & -> & Ha)|[= -> ->]].
        -- exists (x :: a). split; [reflexivity|]. cbn [forallb]. by rewrite Ex, Ha.
        -- by exists [].
      * intros (a & Ha & Hall). destruct a as [|y a].
        -- right. exact Ha.
        -- left. cbn [app] in Ha. injection Ha as -> ->. exists a. split; [reflexivity|].
           cbn [forallb] in Hall. by apply andb_prop in Hall as [_ ?].
    + rewrite sepTail_spec. split.
      * intros [= -> ->]. discriminate.
      * intros (a & Ha & Hall). destruct a as [|y a].
        -- injection Ha as -> ->. discriminate.
        -- cbn [app] in Ha. injection Ha as -> ->. cbn [forallb] in Hall. by rewrite Ex in Hall.
Qed.

Lemma isSeparatorLine_spec line :
  isSeparatorLine line = true
  <-> exists mid, line = ch "|" :: mid ++ [ch "|"] /\ mid <> [] /\ forallb sepChar mid = true.
Proof.
  unfold isSeparatorLine, test. rewrite bool_decide_eq_true.
  unfold separatorRegex. cbn [seqs]. rewrite matchRe_anchored.
  unfold matchAt. cbn [m mpos Nat.eqb replicate Lit lit Str list_ascii_of_string List.map].
  change (N_of_ascii "|") with (ch "|").
  destruct line as [|c0 line].
  { cbn. split; [by intros [? ?]|]. by intros (mid & ? & _). }
  cbn [step mrest mpos mcaps].
  destruct (chr_eqb (ch "|") c0) eqn:E0.
  2:{ split; [by intros [? ?]|]. intros (mid & [= -> ->] & _). by rewrite N.eqb_refl in E0. }
  apply N.eqb_eq in E0. subst c0.
  rewrite (plus_greedy _ _ sepChar) by reflexivity.
  assert (Hk : forall st, m (ch "|" :: line) (Seq (Chr (ch "|")) Eol) st Some = sepTail st).
  { intros st. reflexivity. }
  destruct line as [|x r].
  { split; [by intros [? ?]|]. intros (mid & Hm & Hne & _). by destruct mid. }
  destruct (sepChar x) eqn:Ex.
  - set (g := greedyRun _ _ _ _ _).
    assert (Hg : is_Some g <-> exists a, r = a ++ [ch "|"] /\ forallb sepChar a = true).
    { unfold g. rewrite <- greedy_sep. 
      erewrite (f_equal (fun c => greedyRun sepChar c _ _ _)); [reflexivity|reflexivity]. }
    split.
    + intros H. assert (Hs : is_Some g) by (destruct g; [eauto|by destruct H]).
      apply Hg in Hs as (a & -> & Ha). exists (x :: a). split; [reflexivity|].
      split; [done|]. cbn [forallb]. by rewrite Ex, Ha.
    + intros (mid & Hm & Hne & Hall). destruct mid as [|y mid]; [done|].
      cbn [app] in Hm. injection Hm as -> ->.
      assert (Hs : is_Some g).
      { apply Hg. exists mid. split; [done|]. cbn [forallb] in Hall. by apply andb_prop in Hall as [_ ?]. }
      destruct Hs as [st ->]. eauto.
  - split; [by intros [? ?]|]. intros (mid & Hm & Hne & Hall). destruct mid as [|y mid]; [done|].
    cbn [app] in Hm. injection Hm as -> ->. cbn [forallb] in Hall. by rewrite Ex in Hall.
Qed.

(** ** Documents of plain text *)

Lemma chr_eqb_sym a b : chr_eqb a b = chr_eqb b a.
Proof. apply N.eqb_sym. Qed.

Lemma inlineMark_elim c :
  inlineMark c = false ->
  chr_eqb (ch "*") c = false /\ chr_eqb (ch "_") c = false /\ chr_eqb (ch "`") c = false
  /\ chr_eqb (ch "[") c = false /\ chr_eqb (ch "~") c = false.
Proof.
  unfold inlineMark. rewrite !orb_false_iff, !(chr_eqb_sym c). tauto.
Qed.

Lemma matchAt_inline_none input pos rest :
  match rest with [] => True | c :: _ => inlineMark c = false end ->
  matchAt input inlineRegex 8 pos rest = None.
Proof.
  intros H. unfold matchAt, inlineRegex.
  destruct rest as [|c rest].
  - reflexivity.
  - apply inlineMark_elim in H as (H1 & H2 & H3 & H4 & H5).
    cbn [alts seqs m Lit lit Str list_ascii_of_string List.map step mrest mpos mcaps].
    change (N_of_ascii "*") with (ch "*"). change (N_of_ascii "_") with (ch "_").
    change (N_of_ascii "`") with (ch "`"). change (N_of_ascii "[") with (ch "[").
    change (N_of_ascii "~") with (ch "~").
    rewrite H1, H2, H3, H4, H5. reflexivity.
Qed.

Lemma execFrom_inline_none input rest : forall pos,
  forallb (fun c => negb (inlineMark c)) rest = true ->
  execFrom input inlineRegex 8 pos rest = None.
Proof.
  induction rest as [|c rest IH]; intros pos H; cbn [execFrom].
  - by rewrite matchAt_inline_none.
  - cbn [forallb] in H. apply andb_prop in H as [Hc H]. apply negb_true_iff in Hc.
    rewrite matchAt_inline_none by done. by apply IH.
Qed.

Lemma renderInline_plain text theme color attrs :
  forallb (fun c => negb (inlineMark c)) text = true ->
  renderInlineThemedWithDefault text theme color attrs = addChunk text (Some color) attrs.
Proof.
  intros H. unfold renderInlineThemedWithDefault.
  destruct text as [|c text]; [reflexivity|].
  cbn [length inlineLoop]. unfold exec. cbn [Nat.ltb Nat.leb]. rewrite drop_0.
  rewrite execFrom_inline_none by done. reflexivity.
Qed.

Lemma blockMark_elim c :
  blockMark c = false ->
  chr_eqb c (ch "`") = false /\ chr_eqb c (ch "|") = false /\ chr_eqb c (ch "#") = false
  /\ chr_eqb c (ch ">") = false /\ chr_eqb c (ch "-") = false /\ chr_eqb c (ch "_") = false
  /\ chr_eqb c (ch "*") = false /\ chr_eqb c (ch "+") = false /\ isDigit c = false.
Proof. unfold blockMark. rewrite !orb_false_iff. tauto. Qed.

Lemma digitClass c : cls_matches false [IRange (ch "0") (ch "9")] c = isDigit c.
Proof. unfold cls_matches, isDigit. cbn. by rewrite orb_false_r. Qed.

Lemma bulletClass_spec c :
  cls_matches false [IChar (ch "-"); IChar (ch "*"); IChar (ch "+")] c
  = chr_eqb c (ch "-") || chr_eqb c (ch "*") || chr_eqb c (ch "+").
Proof. unfold cls_matches. cbn. by rewrite orb_false_r, !orb_assoc. Qed.

(** What the block patterns give on a line whose first code unit opens no
    block, and on the empty line. *)
Lemma block_patterns_none (t : jsstring) :
  match t with [] => True | c :: _ => blockMark c = false end ->
  startsWith t fence = false
  /\ isTableLine t = false
  /\ matchRe headerRegex 2 t = None
  /\ test hrRegex 1 t = false
  /\ startsWith t (lit ">") = false
  /\ matchRe taskRegex 2 t = None
  /\ matchRe ulRegex 1 t = None
  /\ matchRe olRegex 2 t = None.
Proof.
  intros H.
  assert (Hhr : matchRe hrRegex 1 t = None).
  { unfold hrRegex. cbn [seqs]. rewrite matchRe_anchored. unfold matchAt.
    destruct t as [|c r]; [reflexivity|].
    apply blockMark_elim in H as (H1 & H2 & H3 & H4 & H5 & H6 & H7 & H8 & H9).
    rewrite (chr_eqb_sym c) in H5, H6, H7.
    cbn [alts seqs m atLeast Lit lit Str list_ascii_of_string List.map step mrest mpos mcaps
         Nat.eqb repeatMatcher Nat.add length negb clear_caps fold_right groups_of].
    change (N_of_ascii "-") with (ch "-"). change (N_of_ascii "_") with (ch "_").
    change (N_of_ascii "*") with (ch "*"). rewrite H5, H6, H7. reflexivity. }
  repeat split.
  - destruct t as [|c r]; [reflexivity|].
    apply blockMark_elim in H as (H1 & _). unfold fence.
    change (lit "```") with [ch "`"; ch "`"; ch "`"]. cbn [startsWith].
    by rewrite chr_eqb_sym, H1.
  - unfold isTableLine. destruct t as [|c r]; [reflexivity|].
    apply blockMark_elim in H as (_ & H2 & _).
    change (lit "|") with [ch "|"]. cbn [startsWith]. by rewrite chr_eqb_sym, H2.
  - unfold headerRegex. cbn [seqs]. rewrite matchRe_anchored. unfold matchAt.
    destruct t as [|c r]; [reflexivity|].
    apply blockMark_elim in H as (H1 & H2 & H3 & _). rewrite chr_eqb_sym in H3.
    cbn [seqs m between Lit lit Str list_ascii_of_string List.map step mrest mpos mcaps
         Nat.eqb repeatMatcher Nat.add length negb clear_caps fold_right groups_of].
    change (N_of_ascii "#") with (ch "#"). by rewrite H3.
  - unfold test. rewrite Hhr. apply bool_decide_eq_false. by intros [? ?].
  - destruct t as [|c r]; [reflexivity|].
    apply blockMark_elim in H as (_ & _ & _ & H4 & _).
    change (lit ">") with [ch ">"]. cbn [startsWith]. by rewrite chr_eqb_sym, H4.
  - unfold taskRegex. cbn [seqs]. rewrite matchRe_anchored. unfold matchAt.
    destruct t as [|c r]; [reflexivity|].
    apply blockMark_elim in H as (H1 & H2 & H3 & H4 & H5 & H6 & H7 & H8 & H9).
    cbn [seqs m bulletClass step mrest mpos mcaps Nat.eqb].
    by rewrite bulletClass_spec, H5, H7, H8.
  - unfold ulRegex. cbn [seqs]. rewrite matchRe_anchored. unfold matchAt.
    destruct t as [|c r]; [reflexivity|].
    apply blockMark_elim in H as (H1 & H2 & H3 & H4 & H5 & H6 & H7 & H8 & H9).
    cbn [seqs m bulletClass step mrest mpos mcaps Nat.eqb].
    by rewrite bulletClass_spec, H5, H7, H8.
  - unfold olRegex. cbn [seqs]. rewrite matchRe_anchored. unfold matchAt.
    destruct t as [|c r]; [reflexivity|].
    apply blockMark_elim in H as (H1 & H2 & H3 & H4 & H5 & H6 & H7 & H8 & H9).
    cbn [seqs m plus step mrest mpos mcaps
         Nat.eqb repeatMatcher Nat.add length negb clear_caps fold_right groups_of].
    by rewrite digitClass, H9.
Qed.

Section PlainLines.
Variable stringWidth : jsstring -> nat.
Variable theme : IntTheme.
Variable cols : Z.

Lemma renderLine_plain line next st :
  inCodeBlock st = false -> plainLine line = true ->
  renderLine stringWidth theme cols line next st = Some (plainChunks theme line, st).
Proof.
  intros Hc Hp. unfold plainLine in Hp. apply andb_prop in Hp as [Hin Hb].
  assert (Ht : match trim line with [] => True | c :: _ => blockMark c = false end).
  { destruct line as [|x l]; [exact I|]. destruct (trim (x :: l)); [done|].
    by apply negb_true_iff. }
  destruct (block_patterns_none (trim line) Ht) as (H1 & H2 & H3 & H4 & H5 & H6 & H7 & H8).
  unfold renderLine. rewrite H1, Hc, H2, H3, H4, H5, H6, H7, H8.
  unfold plainChunks.
  destruct (trim line) as [|c r] eqn:E.
  - destruct line as [|x l]; [reflexivity|]. rewrite E in Hb. discriminate.
  - unfold renderInlineThemed. by rewrite renderInline_plain.
Qed.

Lemma blockLoop_plain lines : forall st,
  inCodeBlock st = false -> forallb plainLine lines = true ->
  blockLoop stringWidth theme cols lines st = Some (concat (List.map (plainChunks theme) lines)).
Proof.
  induction lines as [|l lines IH]; intros st Hc H; [reflexivity|].
  cbn [forallb] in H. apply andb_prop in H as [Hl H].
  cbn [blockLoop]. rewrite renderLine_plain by done. cbn [mbind option_bind].
  rewrite IH by done. reflexivity.
Qed.

End PlainLines.

Lemma linesText_join lines : lines <> [] -> linesText lines = join [NL] lines ++ [NL].
Proof.
  induction lines as [|l lines IH]; [done|]. intros _.
  unfold linesText in *. cbn [List.map concat].
  destruct lines as [|l2 lines]; [by cbn; rewrite app_nil_r|].
  rewrite IH by done. rewrite join_cons. by rewrite <- !app_assoc.
Qed.

Lemma textOf_plainChunks theme lines :
  textOf (concat (List.map (plainChunks theme) lines)) = linesText lines.
Proof.
  induction lines as [|l lines IH]; [reflexivity|].
  cbn [List.map concat]. rewrite textOf_app, IH. unfold plainChunks.
  rewrite textOf_app, !textOf_addChunk. unfold linesText. cbn [List.map concat].
  by rewrite <- app_assoc.
Qed.

Lemma plain_document stringWidth md tuiTheme cols :
  forallb plainLine (split NL md) = true ->
  exists st,
    renderMarkdownThemedStyled stringWidth md tuiTheme cols = Some st
    /\ chunks st = concat (List.map (plainChunks (MarkdownTheme.map toIntRGBA tuiTheme))
                             (split NL md))
    /\ textOf (chunks st) = md ++ [NL].
Proof.
  intros H. unfold renderMarkdownThemedStyled.
  rewrite blockLoop_plain by done. cbn [mbind option_bind]. eexists. split; [reflexivity|].
  cbn [chunks]. split; [reflexivity|].
  rewrite textOf_plainChunks, linesText_join by apply split_nonempty.
  by rewrite join_split.
Qed.

(** ** Word wrap and split *)

Lemma str_eqb_eq a : forall b, str_eqb a b = true <-> a = b.
Proof.
  induction a as [|x a IH]; intros [|y b]; cbn [str_eqb]; try (split; [discriminate|done]);
    try done.
  rewrite andb_true_iff, IH. unfold chr_eqb. rewrite N.eqb_eq. split.
  - by intros [-> ->].
  - by intros [= -> ->].
Qed.

Section Wrap.
Variables (width : Z) (indent : jsstring).

Lemma wrapWord_inv st word :
  fitsWidth width (indent ++ word) = true ->
  wrapInv width indent st -> wrapInv width indent (Helpers.wrapWord width indent st word).
Proof.
  intros Hw [Hl Hline]. destruct st as [lines line]. cbn [fst snd] in *.
  unfold Helpers.wrapWord.
  destruct (str_eqb line indent) eqn:E.
  - apply str_eqb_eq in E. subst line. rewrite andb_false_r. cbn [app].
    split; [done|]. by right.
  - cbn [negb]. rewrite andb_true_r.
    destruct Hline as [->|Hfit].
    { assert (str_eqb indent indent = true) by (by apply str_eqb_eq). congruence. }
    destruct (Z.ltb_spec width (Z.of_nat (visibleWidth (line ++ lit " " ++ word)))).
    + split; cbn [fst snd]; [|by right].
      apply Forall_app. split; [done|]. by repeat constructor.
    + split; cbn [fst snd]; [done|]. right. unfold fitsWidth. by apply Z.leb_le.
Qed.

Lemma wrap_fold_inv words : forall st,
  forallb (fun w => fitsWidth width (indent ++ w)) words = true ->
  wrapInv width indent st -> wrapInv width indent (fold_left (Helpers.wrapWord width indent) words st).
Proof.
  induction words as [|w words IH]; intros st H Hst; [done|].
  cbn [forallb] in H. apply andb_prop in H as [Hw H].
  cbn [fold_left]. apply IH; [done|]. by apply wrapWord_inv.
Qed.

End Wrap.

Lemma wordWrapLines_fit text width indent :
  forallb (fun w => fitsWidth width (default [] indent ++ w)) (splitRe spacesRe text) = true ->
  forallb (fitsWidth width) (Helpers.wordWrapLines text width indent) = true.
Proof.
  intros H. unfold Helpers.wordWrapLines.
  pose proof (wrap_fold_inv width (default [] indent) (splitRe spacesRe text)
                ([], default [] indent) H) as Hinv.
  destruct (fold_left _ _ _) as [lines line].
  destruct Hinv as [Hl Hline]; [split; [constructor|by left]|].
  cbn [fst snd] in *.
  assert (Hlines : forallb (fitsWidth width) lines = true).
  { apply forallb_forall. intros l Hin. rewrite Forall_forall in Hl.
    by apply Hl, list_elem_of_In. }
  destruct (str_eqb line (default [] indent)) eqn:E; [done|].
  rewrite forallb_app, Hlines. cbn [forallb]. rewrite andb_true_r.
  destruct Hline as [->|Hfit]; [|done].
  assert (str_eqb (default [] indent) (default [] indent) = true) by (by apply str_eqb_eq).
  congruence.
Qed.

Lemma greedyRun_Some p r : forall pos cps,
  greedyRun p Some pos r cps
  = Some (MState (pos + runLen p r) (drop (runLen p r) r) cps).
Proof.
  induction r as [|x r IH]; intros pos cps; cbn [greedyRun runLen].
  - by rewrite Nat.add_0_r.
  - destruct (p x).
    + rewrite IH. cbn [orElse drop]. do 2 f_equal. lia.
    + by rewrite Nat.add_0_r.
Qed.

Lemma spaceClass c : cls_matches false [ISpace] c = isSpace c.
Proof. unfold cls_matches. cbn. by rewrite orb_false_r. Qed.

Lemma runLen_le p s : (runLen p s <= length s)%nat.
Proof. induction s as [|c s IH]; cbn; [lia|]. destruct (p c); simpl; lia. Qed.

Lemma wordsScan_skip s :
  wordsScan [] true s = wordsScan [] false (drop (runLen (cls_matches false [ISpace]) s) s).
Proof.
  induction s as [|c s IH]; [reflexivity|]. cbn [wordsScan runLen]. rewrite spaceClass.
  destruct (isSpace c) eqn:E; [exact IH|]. cbn [drop wordsScan]. by rewrite E.
Qed.

Lemma matchAt_spaces input q c r :
  matchAt input spacesRe 0 q (c :: r)
  = if isSpace c
    then Some (RMatch q (S q + runLen (cls_matches false [ISpace]) r) [None])
    else None.
Proof.
  unfold matchAt, spacesRe. rewrite (plus_greedy _ _ (cls_matches false [ISpace])) by reflexivity.
  rewrite spaceClass. destruct (isSpace c); [|reflexivity].
  by rewrite greedyRun_Some.
Qed.

Lemma splitLoop_scan n : forall rest pre cur fuel,
  (length rest <= n)%nat -> (length rest < fuel)%nat ->
  splitLoop spacesRe (pre ++ cur ++ rest) fuel (length pre) (length pre + length cur)
  = wordsScan cur false rest.
Proof.
  induction n as [|n IH]; intros rest pre cur fuel Hn Hf.
  - destruct rest; [|simpl in Hn; lia]. destruct fuel as [|fuel]; [lia|].
    cbn [splitLoop wordsScan]. rewrite !length_app. cbn [length].
    replace (Nat.ltb _ _) with false by (symmetry; apply Nat.ltb_ge; lia).
    unfold sliceFrom. by rewrite drop_app_length, app_nil_r.
  - destruct fuel as [|fuel]; [lia|].
    destruct rest as [|c r].
    { cbn [splitLoop wordsScan]. rewrite !length_app. cbn [length].
      replace (Nat.ltb _ _) with false by (symmetry; apply Nat.ltb_ge; lia).
      unfold sliceFrom. by rewrite drop_app_length, app_nil_r. }
    cbn [splitLoop]. rewrite !length_app. cbn [length].
    replace (Nat.ltb _ _) with true by (symmetry; apply Nat.ltb_lt; lia).
    assert (Hd : drop (length pre + length cur) (pre ++ cur ++ c :: r) = c :: r).
    { rewrite app_assoc. rewrite <- length_app. by rewrite drop_app_length. }
    rewrite Hd, matchAt_spaces. cbn [wordsScan].
    destruct (isSpace c) eqn:Ec.
    + cbn [endIndex].
      set (k := runLen (cls_matches false [ISpace]) r).
      pose proof (runLen_le (cls_matches false [ISpace]) r) as Hk. fold k in Hk.
      replace (Nat.min _ _) with (S (length pre + length cur) + k)%nat by lia.
      replace (Nat.eqb _ _) with false by (symmetry; apply Nat.eqb_neq; lia).
      f_equal.
      * unfold slice. rewrite drop_app_length.
        replace (length pre + length cur - length pre)%nat with (length cur) by lia.
        by rewrite take_app_length.
      * rewrite wordsScan_skip. fold k.
        set (pre' := pre ++ cur ++ c :: take k r).
        assert (Hlen : length pre' = (S (length pre + length cur) + k)%nat).
        { unfold pre'. rewrite !length_app. cbn [length]. rewrite length_take. lia. }
        assert (Hin : pre ++ cur ++ c :: r = pre' ++ [] ++ drop k r).
        { unfold pre'. cbn [app]. rewrite <- !app_assoc. cbn [app]. by rewrite take_drop. }
        rewrite Hin, <- Hlen.
        rewrite <- (Nat.add_0_r (length pre')) at 2.
        change 0%nat with (length (@nil char)).
        apply IH; rewrite length_drop; simpl in *; lia.
    + replace (pre ++ cur ++ c :: r) with (pre ++ (cur ++ [c]) ++ r)
        by (by rewrite <- !app_assoc).
      replace (S (length pre + length cur)) with (length pre + length (cur ++ [c]))%nat
        by (rewrite length_app; simpl; lia).
      apply IH; simpl in *; lia.
Qed.

Lemma splitRe_spaces text : splitRe spacesRe text = wordsScan [] false text.
Proof.
  destruct text as [|c r]; [reflexivity|].
  unfold splitRe. apply (splitLoop_scan (length (c :: r)) (c :: r) [] []); simpl; lia.
Qed.

(** ** Plain text in the renderer without colors *)

Lemma greedyRun_none p (c : mstate -> option mstate) (Q : char -> Prop) :
  (forall pos r' cps, match r' with [] => True | x :: _ => Q x end ->
                      c (MState pos r' cps) = None) ->
  forall r, Forall Q r -> forall pos cps, greedyRun p c pos r cps = None.
Proof.
  intros Hc. induction r as [|x r IH]; intros Hr pos cps; cbn [greedyRun].
  - by apply Hc.
  - inversion Hr; subst. rewrite IH by done. cbn [orElse].
    rewrite Hc by done. by destruct (p x).
Qed.

Lemma simpleMark_elim c :
  simpleMark c = false ->
  chr_eqb c (ch "`") = false /\ chr_eqb c (ch "#") = false /\ chr_eqb c (ch "-") = false
  /\ chr_eqb c (ch "*") = false /\ chr_eqb c (ch "+") = false /\ chr_eqb c (ch "_") = false.
Proof. unfold simpleMark. rewrite !orb_false_iff. tauto. Qed.

Lemma simple_patterns_none (line : jsstring) :
  Forall (fun c => simpleMark c = false) line ->
  startsWith line (lit "```") = false
  /\ matchRe simpleHeaderRegex 2 line = None
  /\ test hrRegex 1 (trim line) = false
  /\ matchRe simpleListRegex 2 line = None.
Proof.
  intros H. repeat split.
  - destruct line as [|c r]; [reflexivity|]. inversion H as [|? ? Hc _]; subst.
    apply simpleMark_elim in Hc as (H1 & _).
    change (lit "```") with [ch "`"; ch "`"; ch "`"]. cbn [startsWith].
    by rewrite chr_eqb_sym, H1.
  - unfold simpleHeaderRegex. cbn [seqs]. rewrite matchRe_anchored. unfold matchAt.
    destruct line as [|c r]; [reflexivity|]. inversion H as [|? ? Hc _]; subst.
    apply simpleMark_elim in Hc as (_ & H2 & _). rewrite chr_eqb_sym in H2.
    cbn [seqs m between Lit lit Str list_ascii_of_string List.map step mrest mpos mcaps
         Nat.eqb repeatMatcher Nat.add length negb clear_caps fold_right groups_of].
    change (N_of_ascii "#") with (ch "#"). by rewrite H2.
  - apply (ok_trim (fun c => simpleMark c = false)) in H.
    unfold test. apply bool_decide_eq_false. intros Hs.
    assert (E : matchRe hrRegex 1 (trim line) = None); [|rewrite E in Hs; by destruct Hs].
    unfold hrRegex. cbn [seqs]. rewrite matchRe_anchored. unfold matchAt.
    destruct (trim line) as [|c r]; [reflexivity|]. inversion H as [|? ? Hc _]; subst.
    apply simpleMark_elim in Hc as (H1 & H2 & H3 & H4 & H5 & H6).
    rewrite (chr_eqb_sym c) in H3, H4, H6.
    cbn [alts seqs m atLeast Lit lit Str list_ascii_of_string List.map step mrest mpos mcaps
         Nat.eqb repeatMatcher Nat.add length negb clear_caps fold_right groups_of].
    change (N_of_ascii "-") with (ch "-"). change (N_of_ascii "_") with (ch "_").
    change (N_of_ascii "*") with (ch "*"). rewrite H3, H4, H6. reflexivity.
  - unfold simpleListRegex. cbn [seqs]. rewrite matchRe_anchored. unfold matchAt.
    cbn [m mpos Nat.eqb].
    rewrite (star_greedy_m _ _ (cls_matches false [ISpace])) by reflexivity.
    rewrite (greedyRun_none _ _ (fun c => simpleMark c = false)); [reflexivity| |done].
    intros pos r' cps Hr.
    destruct r' as [|x r']; cbn [mpos mrest mcaps m bulletClass step]; [reflexivity|].
    apply simpleMark_elim in Hr as (H1 & H2 & H3 & H4 & H5 & H6).
    by rewrite bulletClass_spec, H3, H4, H5.
Qed.

Lemma simple_step_plain cols indent listPrefix st line :
  Simple.inCodeBlock st = false ->
  Forall (fun c => simpleMark c = false) line ->
  Simple.step cols indent listPrefix st line
  = Some (Simple.mk (Simple.result st ++ [line]) false (Simple.codeBlockContent st)).
Proof.
  intros Hc H. destruct (simple_patterns_none line H) as (H1 & H2 & H3 & H4).
  unfold Simple.step. by rewrite H1, Hc, H2, H3, H4.
Qed.

Lemma simple_loop_plain cols indent listPrefix lines : forall st,
  Simple.inCodeBlock st = false ->
  Forall (Forall (fun c => simpleMark c = false)) lines ->
  Simple.loop cols indent listPrefix lines st
  = Some (Simple.mk (Simple.result st ++ lines) false (Simple.codeBlockContent st)).
Proof.
  induction lines as [|l lines IH]; intros st Hc H.
  - cbn. rewrite app_nil_r. destruct st; cbn in *. by subst.
  - inversion H; subst. cbn [Simple.loop]. rewrite simple_step_plain by done.
    cbn [mbind option_bind]. rewrite IH by done. cbn. by rewrite <- app_assoc.
Qed.

Lemma renderMarkdownSimple_plain stdoutColumns md options :
  forallb (fun c => negb (simpleMark c)) md = true ->
  renderMarkdownSimple stdoutColumns md options = Some md.
Proof.
  intros H. unfold renderMarkdownSimple.
  rewrite simple_loop_plain; [|reflexivity|].
  - cbn. by rewrite join_split.
  - apply ok_split. apply Forall_forall. intros c Hc.
    rewrite forallb_forall in H. apply negb_true_iff, H. by apply list_elem_of_In.
Qed.

(** ** The chunks the styled renderer builds *)

Lemma role_color theme role : themeColor theme (Some (ThemeLoader.roleColor role theme)).
Proof. right. by exists role. Qed.

Section ChunkInv.
Variable P : char -> Prop.
Hypothesis P_lit : forall c, literalChar c = true -> P c.
Variable stringWidth : jsstring -> nat.
Variable theme : IntTheme.
Local Abbreviation cok := (chunkOk P theme).

Lemma ok_lit s : forallb literalChar s = true -> Forall P s.
Proof.
  intros H. apply Forall_forall. intros c Hc. apply P_lit.
  rewrite forallb_forall in H. by apply H, list_elem_of_In.
Qed.

Lemma cok_intro t col b a :
  t <> [] -> Forall P t -> themeColor theme col -> panelOrNone theme b ->
  cok (Chunk t col b a).
Proof. intros. by repeat split. Qed.

Lemma cok_addChunk t col a :
  Forall P t -> themeColor theme col -> Forall cok (addChunk t col a).
Proof.
  intros Ht Hc. destruct t as [|c t]; [constructor|].
  constructor; [|constructor]. apply cok_intro; try done. by left.
Qed.

Lemma cok_addChunkWithBg t f b a :
  Forall P t -> themeColor theme f -> panelOrNone theme b ->
  Forall cok (addChunkWithBg t f b a).
Proof.
  intros Ht Hf Hb. destruct t as [|c t]; [constructor|].
  constructor; [|constructor]. by apply cok_intro.
Qed.

Lemma cok_nl : Forall cok (addChunk [NL] None 0).
Proof. apply cok_addChunk; [by apply ok_lit|by left]. Qed.

Ltac role r := apply (role_color theme r).

Lemma cok_inlineMatchChunks text mt :
  Forall P text -> Forall cok (inlineMatchChunks text theme mt).
Proof.
  intros H. unfold inlineMatchChunks.
  assert (Hg : forall i s, group text mt i = Some s -> Forall P s).
  { intros i s Hs. by eapply ok_group. }
  assert (Hgs : forall s nested i, Forall P s -> Forall P (groupStr s nested i)).
  { intros. by apply ok_groupStr. }
  repeat case_match; repeat (apply Forall_app; split);
    try (apply cok_addChunk);
    try (by apply ok_lit); try (by eauto);
    first [ role ThemeLoader.markdownStrong | role ThemeLoader.markdownEmph
          | role ThemeLoader.markdownCode | role ThemeLoader.markdownLinkText
          | role ThemeLoader.markdownText | role ThemeLoader.markdownLink
          | role ThemeLoader.textMuted | constructor ].
Qed.

Lemma cok_inlineLoop text color attrs :
  Forall P text -> themeColor theme (Some color) ->
  forall fuel lastIndex, Forall cok (inlineLoop fuel text theme color attrs lastIndex).
Proof.
  intros H Hc.
  assert (Hrem : forall lastIndex,
            Forall cok (if Nat.ltb lastIndex (length text)
                        then addChunk (sliceFrom text lastIndex) (Some color) attrs else [])).
  { intros i. case_match; [|constructor]. apply cok_addChunk; [by apply ok_sliceFrom|done]. }
  induction fuel as [|fuel IH]; intros lastIndex; cbn [inlineLoop]; [apply Hrem|].
  destruct (exec inlineRegex 8 text lastIndex) as [mt|]; [|apply Hrem].
  repeat (apply Forall_app; split).
  - case_match; [|constructor]. apply cok_addChunk; [by apply ok_slice|done].
  - by apply cok_inlineMatchChunks.
  - apply IH.
Qed.

Lemma cok_inline text color attrs :
  Forall P text -> themeColor theme (Some color) ->
  Forall cok (renderInlineThemedWithDefault text theme color attrs).
Proof. intros. by apply cok_inlineLoop. Qed.

Lemma cok_inlineThemed text : Forall P text -> Forall cok (renderInlineThemed text theme).
Proof. intros. apply cok_inline; [done|role ThemeLoader.markdownText]. Qed.

Lemma P_sp : P SP.
Proof. by apply P_lit. Qed.

Lemma P_tick : P (ch "`").
Proof. by apply P_lit. Qed.

Lemma P_pipe : P (ch "|").
Proof. by apply P_lit. Qed.

Lemma ok_borderLine l m r ws t :
  forallb literalChar l = true -> forallb literalChar m = true ->
  forallb literalChar r = true ->
  borderLine l m r ws = Some t -> Forall P t.
Proof.
  intros Hl Hm Hr. unfold borderLine.
  destruct (mapM _ ws) as [segs|] eqn:E; [|discriminate]. cbn [mbind option_bind]. intros [= <-].
  apply mapM_Some in E.
  assert (Hsegs : Forall (Forall P) segs).
  { clear -E P_lit. induction E as [|w seg ws segs Hw _ IH]; constructor; [|done].
    eapply ok_repeat; [|exact Hw]. by apply ok_lit. }
  repeat (apply Forall_app; split); try (by apply ok_lit).
  apply ok_join; [by apply ok_lit|done].
Qed.

Lemma cok_headerCell ws i cell out :
  Forall P cell -> headerCell stringWidth theme ws i cell = Some out -> Forall cok out.
Proof.
  intros Hc. unfold headerCell. intros H.
  assert (Hb : themeColor theme (Some (MarkdownTheme.border theme))) by role ThemeLoader.border.
  assert (Hh : themeColor theme (Some (MarkdownTheme.markdownHeading theme)))
    by role ThemeLoader.markdownHeading.
  assert (Hwrap : forall body, Forall cok body ->
            Forall cok (addChunk (lit " ") (Some (MarkdownTheme.border theme)) 0 ++ body
                        ++ addChunk (lit " " ++ Box.vertical) (Some (MarkdownTheme.border theme)) 0)).
  { intros body Hbody. repeat (apply Forall_app; split); try done;
      apply cok_addChunk; try done; by apply ok_lit. }
  revert H.
  destruct (ws !! i) as [tw|].
  - destruct (Z.of_nat (stringWidth cell) <=? tw).
    + destruct (JS.repeat (lit " ") _) as [pad|] eqn:E; [|discriminate].
      cbn [mbind option_bind]. intros [= <-]. apply Hwrap.
      apply cok_addChunk; [|done]. apply Forall_app. split; [done|].
      eapply ok_repeat; [|exact E]. by apply ok_lit.
    + cbn [mbind option_bind]. intros [= <-]. apply Hwrap.
      apply cok_addChunk; [|done]. by apply ok_slice.
  - cbn [mbind option_bind]. intros [= <-]. apply Hwrap. by apply cok_addChunk.
Qed.

Lemma cok_renderCell txt w isHeader out :
  Forall P txt -> renderCell stringWidth theme txt w isHeader = Some out -> Forall cok out.
Proof.
  intros Ht. unfold renderCell. intros H.
  assert (Hm : themeColor theme (Some (MarkdownTheme.markdownText theme)))
    by role ThemeLoader.markdownText.
  assert (Hpad : forall n pad, JS.repeat (lit " ") n = Some pad ->
            Forall cok (addChunk pad (Some (MarkdownTheme.markdownText theme)) 0)).
  { intros n pad Hn. apply cok_addChunk; [|done]. eapply ok_repeat; [|exact Hn]. by apply ok_lit. }
  destruct txt as [|c txt].
  - destruct (JS.repeat (lit " ") w) eqn:E; [|discriminate]. cbn in H. injection H as <-.
    by eapply Hpad.
  - assert (Hcells : Forall cok
              (if isHeader
               then [Chunk (c :: txt) (Some (MarkdownTheme.markdownHeading theme)) None
                       (Some Attr.BOLD)]
               else renderInlineThemed (c :: txt) theme)).
    { destruct isHeader; [|by apply cok_inlineThemed].
      constructor; [|constructor]. apply cok_intro; try done; [|by left].
      role ThemeLoader.markdownHeading. }
    revert H. cbv zeta.
    set (cellChunks := if isHeader then _ else _) in *.
    destruct (_ <? w).
    + destruct (JS.repeat (lit " ") _) as [pad|] eqn:E; [|discriminate].
      cbn [mbind option_bind]. intros [= <-].
      apply Forall_app. split; [done|]. by eapply Hpad.
    + by intros [= <-].
Qed.

Lemma mapM_id_imap_all {A B} (F : nat -> A -> option B) (Q : B -> Prop) (l : list A) ys :
  (forall i x y, l !! i = Some x -> F i x = Some y -> Q y) ->
  mapM id (imap F l) = Some ys -> Forall Q ys.
Proof.
  intros HF H. apply mapM_Some in H.
  apply Forall_forall. intros y Hy.
  apply list_elem_of_lookup_1 in Hy as [i Hi].
  destruct (Forall2_lookup_r _ _ _ _ _ H Hi) as (o & Ho & Hoy).
  rewrite list_lookup_imap in Ho.
  destruct (l !! i) as [x|] eqn:Ex; [|discriminate]. cbn in Ho. injection Ho as <-.
  by eapply HF.
Qed.

Lemma mapM_all_out {A B} (f : A -> option B) (Q : B -> Prop) (l : list A) ys :
  (forall x y, x ∈ l -> f x = Some y -> Q y) ->
  mapM f l = Some ys -> Forall Q ys.
Proof.
  intros Hf H. apply mapM_Some in H.
  induction H as [|x y l ys Hxy _ IH]; constructor.
  - eapply Hf; [|exact Hxy]. by left.
  - apply IH. intros x' y' Hx'. apply Hf. by right.
Qed.

Lemma Forall_concat' {A} (Q : A -> Prop) (ls : list (list A)) :
  Forall (Forall Q) ls -> Forall Q (concat ls).
Proof. induction 1; cbn; [constructor|by apply Forall_app]. Qed.

Lemma cok_rowLine ws wrapped idx out :
  Forall (Forall (Forall P)) wrapped ->
  rowLine stringWidth theme ws wrapped idx = Some out -> Forall cok out.
Proof.
  intros Hw. unfold rowLine.
  destruct (mapM id _) as [cells|] eqn:E; [|discriminate]. cbn [mbind option_bind]. intros Hout; apply (inj Some) in Hout; subst out.
  assert (Hb : themeColor theme (Some (MarkdownTheme.border theme))) by role ThemeLoader.border.
  repeat (apply Forall_app; split).
  - apply cok_addChunk; [by apply ok_lit|done].
  - apply Forall_concat'. eapply mapM_id_imap_all; [|exact E].
    intros i lines y Hl Hy. cbn beta in Hy.
    destruct (renderCell _ _ _ _ _) as [body|] eqn:Eb; [|discriminate].
    cbn [mbind option_bind] in Hy. apply (inj Some) in Hy. subst y.
    repeat (apply Forall_app; split); try (apply cok_addChunk; [by apply ok_lit|done]).
    eapply cok_renderCell; [|exact Eb].
    destruct (lines !! idx) as [t|] eqn:Et; cbn; [|constructor].
    assert (Hlines : Forall (Forall P) lines).
    { rewrite Forall_forall in Hw. apply Hw. by eapply list_elem_of_lookup_2. }
    rewrite Forall_forall in Hlines. apply Hlines. by eapply list_elem_of_lookup_2.
  - apply cok_nl.
Qed.

Lemma cok_dataRow ws row out :
  Forall (Forall P) row ->
  dataRow stringWidth theme ws row = Some out -> Forall cok out.
Proof.
  intros Hr. unfold dataRow.
  destruct (mapM _ _) as [rows|] eqn:E; [|discriminate]. cbn [mbind option_bind]. intros Hout; apply (inj Some) in Hout; subst out.
  apply Forall_concat'. eapply mapM_all_out; [|exact E].
  intros idx y _ Hy. eapply cok_rowLine; [|exact Hy].
  apply Forall_forall. intros lines Hl.
  apply list_elem_of_lookup_1 in Hl as [i Hi]. rewrite list_lookup_imap in Hi.
  destruct (row !! i) as [cell|] eqn:Ec; [|discriminate]. cbn in Hi. injection Hi as <-.
  apply (ok_wordWrap P P_sp P_tick).
  rewrite Forall_forall in Hr. apply Hr. by eapply list_elem_of_lookup_2.
Qed.

Lemma ok_tableDataRows lines :
  Forall (Forall P) lines -> Forall (Forall (Forall P)) (tableDataRows lines).
Proof.
  intros H. unfold tableDataRows. apply Forall_fmap.
  apply Forall_forall. intros l Hl. apply (ok_parseRow P P_pipe).
  apply list_elem_of_In, filter_In in Hl as [Hl _]. apply list_elem_of_In in Hl.
  assert (Hd : Forall (Forall P) (drop 1 lines)) by (by apply Forall_drop).
  rewrite Forall_forall in Hd. by apply Hd.
Qed.

Lemma cok_renderTableThemed lines cols out :
  Forall (Forall P) lines ->
  renderTableThemed stringWidth theme lines cols = Some out -> Forall cok out.
Proof.
  intros Hl. unfold renderTableThemed.
  case_match; [intros Hout; apply (inj Some) in Hout; subst out; constructor|].
  assert (Hb : themeColor theme (Some (MarkdownTheme.border theme))) by role ThemeLoader.border.
  destruct (borderLine Box.topLeft _ _ _) as [top|] eqn:Et; [|discriminate].
  cbn [mbind option_bind].
  destruct (mapM id _) as [header|] eqn:Eh; [|discriminate]. cbn [mbind option_bind].
  destruct (borderLine Box.leftT _ _ _) as [sep|] eqn:Es; [|discriminate].
  cbn [mbind option_bind].
  destruct (mapM _ (tableDataRows lines)) as [rows|] eqn:Er; [|discriminate].
  cbn [mbind option_bind].
  destruct (borderLine Box.bottomLeft _ _ _) as [bottom|] eqn:Eb; [|discriminate].
  cbn [mbind option_bind]. intros Hout; apply (inj Some) in Hout; subst out.
  assert (Hhdr : Forall (Forall P) (parseRow (default [] (lines !! 0%nat)))).
  { apply (ok_parseRow P P_pipe). destruct (lines !! 0%nat) as [l|] eqn:E; cbn; [|constructor].
    rewrite Forall_forall in Hl. apply Hl. by eapply list_elem_of_lookup_2. }
  repeat (apply Forall_app; split).
  - apply cok_addChunk; [|done]. by eapply ok_borderLine; [| | |exact Et].
  - apply cok_addChunk; [by apply ok_lit|done].
  - apply Forall_concat'. eapply mapM_id_imap_all; [|exact Eh].
    intros i cell y Hc Hy. eapply cok_headerCell; [|exact Hy].
    rewrite Forall_forall in Hhdr. apply Hhdr. by eapply list_elem_of_lookup_2.
  - apply cok_nl.
  - apply cok_addChunk; [|done]. by eapply ok_borderLine; [| | |exact Es].
  - apply Forall_concat'. eapply mapM_all_out; [|exact Er].
    intros row y Hrow Hy. eapply cok_dataRow; [|exact Hy].
    pose proof (ok_tableDataRows lines Hl) as Hd. rewrite Forall_forall in Hd. by apply Hd.
  - apply cok_addChunk; [|done]. by eapply ok_borderLine; [| | |exact Eb].
Qed.

Lemma ok_replaceFirst r ng input f :
  Forall P input -> (forall mt, Forall P (f mt)) -> Forall P (replaceFirst r ng input f).
Proof.
  intros H Hf. unfold replaceFirst. destruct (matchRe r ng input); [|done].
  repeat (apply Forall_app; split); [by apply ok_slice|apply Hf|by apply ok_sliceFrom].
Qed.

Lemma ok_lineIndent line : Forall P line -> Forall P (lineIndent line).
Proof.
  intros H. unfold lineIndent. destruct (matchRe indentRegex 1 line); [|constructor].
  by apply ok_groupStr.
Qed.

Ltac some_pair :=
  let H := fresh "Hout" in
  intros H; apply (inj Some) in H;
  let H1 := fresh in let H2 := fresh in
  pose proof (f_equal fst H) as H1; pose proof (f_equal snd H) as H2;
  cbn [fst snd] in H1, H2; clear H;
  match type of H1 with _ = ?o => subst o end;
  match type of H2 with _ = ?s => subst s end.

Lemma cok_renderLine cols line next st out st' :
  Forall P line -> Forall (Forall P) (tableLines st) ->
  renderLine stringWidth theme cols line next st = Some (out, st') ->
  Forall cok out /\ Forall (Forall P) (tableLines st').
Proof.
  intros Hline Htab. unfold renderLine.
  assert (Htrim : Forall P (trim line)) by (by apply ok_trim).
  assert (Hcode : forall col a, themeColor theme col ->
            Forall cok (addChunk (lit "  " ++ line ++ [NL]) col a)).
  { intros col a Hc. apply cok_addChunk; [|done].
    repeat (apply Forall_app; split); try done; by apply ok_lit. }
  destruct (startsWith (trim line) fence).
  { destruct (inCodeBlock st); some_pair; by split. }
  destruct (inCodeBlock st).
  { destruct (str_eqb _ _).
    - destruct (startsWith _ _); [some_pair; split; [|done]; apply Hcode; role ThemeLoader.diffAdded|].
      destruct (startsWith _ _); some_pair; (split; [|done]); apply Hcode;
        [role ThemeLoader.diffRemoved|role ThemeLoader.markdownCodeBlock].
    - some_pair. split; [|done]. apply Hcode. role ThemeLoader.markdownCodeBlock. }
  destruct (isTableLine (trim line)).
  { set (lines' := (if inTable st then tableLines st else []) ++ [trim line]).
    assert (Hl' : Forall (Forall P) lines').
    { apply Forall_app. split; [by destruct (inTable st)|by constructor]. }
    destruct (match option_map trim next with None | Some [] => true | Some _ => _ end).
    - destruct (renderTableThemed _ _ _ _) as [o|] eqn:E; [|discriminate].
      cbn [mbind option_bind]. some_pair. split; [|constructor].
      by eapply cok_renderTableThemed.
    - some_pair. by split. }
  assert (Hh : themeColor theme (Some (MarkdownTheme.markdownHeading theme)))
    by role ThemeLoader.markdownHeading.
  destruct (matchRe headerRegex 2 (trim line)) as [hm|].
  { destruct (Nat.leb _ 2); some_pair; (split; [|done]); repeat (apply Forall_app; split);
      try apply cok_nl;
      try (apply cok_addChunkWithBg; [by apply ok_lit|done|by right]);
      apply cok_inline; try done; by apply ok_groupStr. }
  destruct (test hrRegex 1 (trim line)).
  { destruct (JS.repeat _ _) as [rule|] eqn:E; [|discriminate].
    cbn [mbind option_bind]. some_pair. split; [|done].
    apply cok_addChunk; [|role ThemeLoader.markdownHorizontalRule].
    apply Forall_app. split; [|by apply ok_lit].
    eapply ok_repeat; [|exact E]. by apply ok_lit. }
  destruct (startsWith (trim line) (lit ">")).
  { some_pair. split; [|done]. repeat (apply Forall_app; split); try apply cok_nl.
    - apply cok_addChunk; [by apply ok_lit|role ThemeLoader.border].
    - apply cok_inline; [|role ThemeLoader.markdownBlockQuote].
      apply ok_replaceFirst; [done|]. intros _. constructor. }
  assert (Hind : Forall P (lineIndent line)) by (by apply ok_lineIndent).
  assert (Hitem : themeColor theme (Some (MarkdownTheme.markdownListItem theme)))
    by role ThemeLoader.markdownListItem.
  destruct (matchRe taskRegex 2 (trim line)) as [tm|].
  { some_pair. split; [|done]. repeat (apply Forall_app; split); try apply cok_nl.
    - apply cok_addChunk; [|done]. apply Forall_app. split; [done|by apply ok_lit].
    - apply cok_addChunk; [by apply ok_lit|done].
    - destruct (_ || _); (apply cok_addChunk; [by apply ok_lit|]);
        [role ThemeLoader.diffAdded|role ThemeLoader.textMuted].
    - apply cok_addChunk; [by apply ok_lit|done].
    - apply cok_inlineThemed. by apply ok_groupStr. }
  destruct (matchRe ulRegex 1 (trim line)) as [um|].
  { some_pair. split; [|done]. repeat (apply Forall_app; split); try apply cok_nl.
    - apply cok_addChunk; [|done]. apply Forall_app. split; [done|by apply ok_lit].
    - apply cok_inlineThemed. by apply ok_groupStr. }
  destruct (matchRe olRegex 2 (trim line)) as [om|].
  { some_pair. split; [|done]. repeat (apply Forall_app; split); try apply cok_nl.
    - apply cok_addChunk; [|role ThemeLoader.markdownListEnumeration].
      repeat (apply Forall_app; split); try done; [by apply ok_groupStr|by apply ok_lit].
    - apply cok_inlineThemed. by apply ok_groupStr. }
  destruct (trim line); some_pair; (split; [|done]).
  - apply cok_nl.
  - apply Forall_app. split; [by apply cok_inlineThemed|apply cok_nl].
Qed.

Lemma cok_blockLoop cols lines : forall st out,
  Forall (Forall P) lines -> Forall (Forall P) (tableLines st) ->
  blockLoop stringWidth theme cols lines st = Some out -> Forall cok out.
Proof.
  induction lines as [|l lines IH]; intros st out Hl Ht; cbn [blockLoop].
  - intros H. apply (inj Some) in H. subst out. constructor.
  - inversion Hl; subst.
    destruct (renderLine _ _ _ _ _ _) as [[o st1]|] eqn:E; [|discriminate].
    cbn [mbind option_bind].
    destruct (blockLoop _ _ _ _ _) as [more|] eqn:Em; [|discriminate].
    cbn [mbind option_bind]. intros H. apply (inj Some) in H. subst out.
    destruct (cok_renderLine _ _ _ _ _ _ ltac:(done) Ht E) as [Ho Ht1].
    apply Forall_app. split; [done|]. by eapply IH.
Qed.

End ChunkInv.

Lemma renderer_chunks P stringWidth md tuiTheme cols st :
  (forall c, literalChar c = true -> P c) ->
  Forall P md ->
  renderMarkdownThemedStyled stringWidth md tuiTheme cols = Some st ->
  Forall (chunkOk P (MarkdownTheme.map toIntRGBA tuiTheme)) (chunks st).
Proof.
  intros HP Hmd. unfold renderMarkdownThemedStyled.
  destruct (blockLoop _ _ _ _ _) as [cs|] eqn:E; [|discriminate].
  cbn [mbind option_bind]. intros H. apply (inj Some) in H. subst st. cbn [chunks].
  eapply cok_blockLoop; [done| | |exact E]; [by apply ok_split|constructor].
Qed.

(** ** Fenced code *)

Section Fenced.
Variable stringWidth : jsstring -> nat.
Variable theme : IntTheme.
Variable cols : Z.

Lemma renderLine_code_line line next st :
  inCodeBlock st = true -> startsWith (trim line) fence = false ->
  str_eqb (codeBlockLang st) (lit "diff") = false ->
  renderLine stringWidth theme cols line next st = Some ([codeChunk theme line], st).
Proof.
  intros Hc Hf Hd. unfold renderLine. rewrite Hf, Hc, Hd. reflexivity.
Qed.

Lemma blockLoop_code body : forall rest st,
  inCodeBlock st = true -> str_eqb (codeBlockLang st) (lit "diff") = false ->
  forallb (fun l => negb (startsWith (trim l) fence)) body = true ->
  blockLoop stringWidth theme cols (body ++ rest) st
  = more ← blockLoop stringWidth theme cols rest st;
    Some (List.map (codeChunk theme) body ++ more).
Proof.
  induction body as [|l body IH]; intros rest st Hc Hd H.
  - cbn [app List.map]. by destruct (blockLoop _ _ _ _ _).
  - cbn [forallb] in H. apply andb_prop in H as [Hl H]. apply negb_true_iff in Hl.
    cbn [app blockLoop]. rewrite renderLine_code_line by done. cbn [mbind option_bind].
    rewrite IH by done. by destruct (blockLoop _ _ _ rest _).
Qed.

End Fenced.

Lemma split_lines_then body : forall closer,
  Forall nlFree body -> nlFree closer ->
  split NL (linesText body ++ closer) = body ++ [closer].
Proof.
  induction body as [|l body IH]; intros closer Hb Hc.
  - by apply split_nlFree.
  - inversion Hb; subst. unfold linesText in *. cbn [List.map concat].
    rewrite <- !app_assoc. cbn [app]. rewrite split_app_sep, split_nlFree by done.
    cbn [app]. f_equal. by apply IH.
Qed.

Lemma fenced_code stringWidth opener body closer tuiTheme cols :
  fencedBlock opener body closer = true ->
  renderMarkdownThemedStyled stringWidth (opener ++ NL :: linesText body ++ closer)
    tuiTheme cols
  = Some (mkStyledText
            (List.map (codeChunk (MarkdownTheme.map toIntRGBA tuiTheme)) body)).
Proof.
  unfold fencedBlock. rewrite !andb_true_iff, negb_true_iff.
  intros ((((((Ho & Hb) & Hc) & Hfo) & Hfc) & Hd) & Hbody).
  apply noNewline_Forall in Ho, Hc.
  assert (Hb' : Forall nlFree body).
  { apply Forall_forall. intros l Hl. apply noNewline_Forall.
    rewrite forallb_forall in Hb. by apply Hb, list_elem_of_In. }
  unfold renderMarkdownThemedStyled.
  rewrite split_app_sep, split_nlFree, split_lines_then by done.
  cbn [app blockLoop]. rewrite renderLine_fence by done. cbn [mbind option_bind inCodeBlock
    initialBlockState].
  rewrite blockLoop_code by done.
  cbn [blockLoop head]. rewrite renderLine_fence by done. cbn.
  by rewrite app_nil_r.
Qed.

Lemma roleColor_printable theme role :
  themePrintable theme = true -> colorOk (Some (ThemeLoader.roleColor role theme)) = true.
Proof.
  unfold themePrintable. rewrite forallb_forall. intros H. apply H.
  destruct role; cbn; tauto.
Qed.

Lemma chunkOk_plain theme c :
  themePrintable theme = true -> chunkOk (fun c => c <> ESC) theme c -> plainChunk c = true.
Proof.
  intros Ht (Hne & Hesc & Hfg & Hbg). unfold plainChunk.
  apply noEsc_Forall in Hesc. rewrite Hesc. cbn [andb].
  assert (Hf : colorOk (fg c) = true).
  { destruct Hfg as [->|[role ->]]; [reflexivity|by apply roleColor_printable]. }
  assert (Hb : colorOk (bg c) = true).
  { destruct Hbg as [->| ->]; [reflexivity|].
    by apply (roleColor_printable theme ThemeLoader.backgroundPanel). }
  by rewrite Hf, Hb.
Qed.

(** ** Parsing what the serializer writes *)

Lemma digitsP_spec fuel : forall n acc,
  (n < 10 ^ N.of_nat fuel)%N -> (0 < fuel)%nat ->
  exists ds, digitsP fuel n acc = ds ++ acc
             /\ Forall (fun c => isDigit c = true) ds
             /\ forall a, fold_left digitStep ds a = a * 10 ^ Z.of_nat (length ds) + Z.of_N n.
Proof.
  induction fuel as [|fuel IH]; intros n acc Hn Hf; [lia|].
  cbn [digitsP].
  assert (Hd : isDigit (48 + n mod 10)%N = true).
  { unfold isDigit. pose proof (N.mod_lt n 10 ltac:(lia)) as Hm.
    set (d := (n mod 10)%N) in *. apply andb_true_intro.
    split; apply N.leb_le; lia. }
  destruct (N.ltb_spec n 10).
  - exists [(48 + n mod 10)%N]. split; [reflexivity|]. split; [by repeat constructor|].
    intros a. cbn [fold_left length]. unfold digitStep.
    rewrite N.mod_small by lia. cbn [length]. lia.
  - destruct (IH (n / 10)%N ((48 + n mod 10)%N :: acc)) as (ds & -> & Hds & Hval).
    + replace (N.of_nat (S fuel)) with (N.succ (N.of_nat fuel)) in Hn by lia.
      rewrite N.pow_succ_r' in Hn. apply N.Div0.div_lt_upper_bound. lia.
    + destruct fuel; [|lia]. cbn in Hn. lia.
    + exists (ds ++ [(48 + n mod 10)%N]). split; [by rewrite <- app_assoc|].
      split; [apply Forall_app; split; [done|by repeat constructor]|].
      intros a. rewrite fold_left_app, Hval. cbn [fold_left]. unfold digitStep.
      rewrite length_app. cbn [length].
      replace (Z.of_nat (length ds + 1)) with (Z.succ (Z.of_nat (length ds))) by lia.
      rewrite Z.pow_succ_r by lia.
      pose proof (N.div_mod n 10 ltac:(lia)) as E.
      assert (E' : Z.of_N n = 10 * Z.of_N (n / 10) + Z.of_N (n mod 10)) by lia.
      lia.
Qed.

Lemma natToString_spec n :
  Forall (fun c => isDigit c = true) (natToString n)
  /\ digitsToNumber (natToString n) = Z.of_N n.
Proof.
  unfold natToString.
  destruct (digitsP_spec (S (N.to_nat (N.log2 n))) n []) as (ds & E & Hds & Hval).
  - destruct (N.eq_dec n 0%N) as [->|Hn]; [reflexivity|].
    destruct (N.log2_spec n) as [_ H]; [lia|].
    eapply N.lt_le_trans; [exact H|].
    replace (N.of_nat (S (N.to_nat (N.log2 n)))) with (N.succ (N.log2 n)) by lia.
    apply N.pow_le_mono_l. lia.
  - lia.
  - rewrite E, app_nil_r. split; [done|]. unfold digitsToNumber.
    change (fun acc c => 10 * acc + (Z.of_N c - 48)) with digitStep. rewrite Hval. lia.
Qed.

Lemma intToString_spec z :
  0 <= z ->
  Forall (fun c => isDigit c = true) (intToString z) /\ digitsToNumber (intToString z) = z.
Proof.
  intros H. unfold intToString. replace (z <? 0) with false by (symmetry; apply Z.ltb_ge; lia).
  destruct (natToString_spec (Z.to_N z)) as [H1 H2]. split; [done|]. rewrite H2. lia.
Qed.

Lemma isDigit_isParam c : isDigit c = true -> isParam c = true.
Proof.
  unfold isDigit, isParam, cls_matches, citem_matches. cbn [existsb xorb].
  change (ch "0") with 48%N. change (ch "9") with 57%N. intros ->. reflexivity.
Qed.

Lemma isDigit_not_semi c : isDigit c = true -> c <> ch ";".
Proof.
  unfold isDigit. intros H ->. discriminate.
Qed.

Lemma split_sepFree sep s : Forall (fun c => c <> sep) s -> split sep s = [s].
Proof.
  induction 1 as [|c s Hc Hs IH]; [reflexivity|]. cbn [split].
  replace (chr_eqb c sep) with false by (symmetry; by apply N.eqb_neq). by rewrite IH.
Qed.

Lemma split_join sep strs :
  strs <> [] -> Forall (Forall (fun c => c <> sep)) strs ->
  split sep (join [sep] strs) = strs.
Proof.
  induction strs as [|s strs IH]; [done|]. intros _ H. inversion H; subst.
  destruct strs as [|s2 strs]; [by apply split_sepFree|].
  rewrite join_cons. cbn [app]. rewrite split_app_sep, split_sepFree by done.
  cbn [app]. f_equal. by apply IH.
Qed.

Lemma paramString_parse codes :
  codes <> [] -> Forall (fun z => 0 <= z) codes ->
  List.map digitsToNumber (split (ch ";") (paramString codes)) = codes.
Proof.
  intros Hne Hc. unfold paramString. change (lit ";") with [ch ";"].
  rewrite split_join.
  - rewrite map_map. rewrite <- (map_id codes) at 2. apply map_ext_in.
    intros z Hz. rewrite Forall_forall in Hc. apply intToString_spec, Hc.
    by apply list_elem_of_In.
  - by destruct codes.
  - apply Forall_fmap. eapply Forall_impl; [exact Hc|]. intros z Hz. cbn.
    eapply Forall_impl; [apply (intToString_spec z Hz)|]. intros c. apply isDigit_not_semi.
Qed.

Lemma paramString_params codes :
  Forall (fun z => 0 <= z) codes -> forallb isParam (paramString codes) = true.
Proof.
  intros Hc. unfold paramString. apply forallb_forall. intros c Hin.
  assert (H : Forall (fun c => isParam c = true) (join (lit ";") (List.map intToString codes))).
  { apply ok_join; [by repeat constructor|].
    apply Forall_fmap. eapply Forall_impl; [exact Hc|]. intros z Hz. cbn.
    eapply Forall_impl; [apply (intToString_spec z Hz)|]. intros d. apply isDigit_isParam. }
  rewrite Forall_forall in H. by apply H, list_elem_of_In.
Qed.

Lemma paramsRun_all ps rest :
  forallb isParam ps = true -> paramsRun (ps ++ ch "m" :: rest) = length ps.
Proof.
  induction ps as [|c ps IH]; cbn [forallb app paramsRun length]; [reflexivity|].
  intros H. apply andb_prop in H as [-> H]. by rewrite IH.
Qed.

Lemma sgr_length codes : length (sgr codes) = (3 + length (paramString codes))%nat.
Proof. unfold sgr. fold (paramString codes). cbn [length]. rewrite length_app. cbn. lia. Qed.

Lemma exec_sgr pre codes rest :
  Forall (fun z => 0 <= z) codes ->
  exists mt,
    exec ansiCodesRe 1 (pre ++ sgr codes ++ rest) (length pre) = Some mt
    /\ index mt = length pre
    /\ endIndex mt = (length pre + length (sgr codes))%nat
    /\ groupStr (pre ++ sgr codes ++ rest) mt 1 = paramString codes.
Proof.
  intros Hc. pose proof (paramString_params codes Hc) as Hp.
  rewrite exec_at.
  set (input := pre ++ sgr codes ++ rest).
  assert (Hrest : sgr codes ++ rest = ESC :: ch "[" :: paramString codes ++ ch "m" :: rest).
  { unfold sgr. fold (paramString codes). cbn [app]. by rewrite <- app_assoc. }
  assert (Hlen : ansiLen (sgr codes ++ rest) = Some (length (sgr codes))).
  { rewrite Hrest. cbn [ansiLen].
    replace (chr_eqb ESC ESC && chr_eqb (ch "[") (ch "[")) with true by reflexivity.
    rewrite paramsLen_params by done. cbn [option_map]. by rewrite sgr_length. }
  pose proof (matchAt_ansiCodes_spec input (length pre) (sgr codes ++ rest)) as Hm.
  rewrite Hlen in Hm. destruct Hm as [cps Hm].
  exists (RMatch (length pre) (length pre + length (sgr codes)) cps).
  split.
  { rewrite Hrest in *. cbn [execFrom]. by rewrite Hm. }
  split; [reflexivity|]. split; [reflexivity|].
  apply matchAt_ansiCodes in Hm as (r & Hr & Hcap).
  rewrite Hrest in Hr. injection Hr as <-.
  unfold groupStr, group. rewrite Hcap. cbn [default from_option id].
  rewrite paramsRun_all by done. unfold slice, input. rewrite Hrest.
  replace (pre ++ ESC :: ch "[" :: paramString codes ++ ch "m" :: rest)
    with ((pre ++ [ESC; ch "["]) ++ paramString codes ++ ch "m" :: rest)
    by (by rewrite <- app_assoc).
  replace (S (S (length pre))) with (length (pre ++ [ESC; ch "["]))
    by (rewrite length_app; simpl; lia).
  rewrite drop_app_length, Nat.add_sub'.
  by rewrite take_app_length.
Qed.

Lemma ansiLoop_sgr fuel pre codes rest st acc :
  codes <> [] -> Forall (fun z => 0 <= z) codes ->
  ansiLoop (S fuel) (pre ++ sgr codes ++ rest) (length pre) st acc
  = st' ← codesLoop (length codes) codes 0 st;
    ansiLoop fuel (pre ++ sgr codes ++ rest) (length pre + length (sgr codes)) st' acc.
Proof.
  intros Hne Hc. destruct (exec_sgr pre codes rest Hc) as (mt & He & Hi & Hend & Hg).
  cbn [ansiLoop]. rewrite He, Hg, Hi, Hend, Nat.ltb_irrefl.
  by rewrite paramString_parse.
Qed.

Lemma execFrom_text input t : forall pos rest,
  noEsc t = true ->
  execFrom input ansiCodesRe 1 pos (t ++ ESC :: rest)
  = execFrom input ansiCodesRe 1 (pos + length t) (ESC :: rest).
Proof.
  induction t as [|c t IH]; intros pos rest H.
  - cbn [app length]. by rewrite Nat.add_0_r.
  - cbn [noEsc forallb] in H. apply andb_prop in H as [Hc H]. apply negb_true_iff in Hc.
    cbn [app execFrom].
    pose proof (matchAt_ansiCodes_spec input pos (c :: t ++ ESC :: rest)) as Hm.
    rewrite (ansiLen_other _ _ Hc) in Hm. rewrite Hm.
    rewrite IH by done. cbn [length].
    replace (pos + S (length t))%nat with (S pos + length t)%nat by lia. reflexivity.
Qed.

Lemma ansiLoop_text_reset fuel pre t rest st acc :
  t <> [] -> noEsc t = true ->
  ansiLoop (S fuel) (pre ++ t ++ sgr [0] ++ rest) (length pre) st acc
  = ansiLoop fuel (pre ++ t ++ sgr [0] ++ rest) (length pre + length t + length (sgr [0]))
      (mkStyle None None 0) (acc ++ [styledChunk t st]).
Proof.
  intros Hne Ht.
  destruct (exec_sgr (pre ++ t) [0] rest) as (mt & He & Hi & Hend & Hg);
    [by repeat constructor|].
  assert (He' : exec ansiCodesRe 1 (pre ++ t ++ sgr [0] ++ rest) (length pre) = Some mt).
  { rewrite exec_at in He. rewrite <- app_assoc, length_app in He.
    rewrite exec_at. change (sgr [0] ++ rest) with (ESC :: (lit "[0m" ++ rest)).
    rewrite execFrom_text by done. exact He. }
  rewrite <- app_assoc in Hg.
  cbn [ansiLoop]. rewrite He', Hg, Hi, Hend. rewrite length_app.
  replace (Nat.ltb (length pre) (length pre + length t)) with true.
  2:{ symmetry. apply Nat.ltb_lt. destruct t; [done|]. simpl. lia. }
  assert (Hs : slice (pre ++ t ++ sgr [0] ++ rest) (length pre) (length pre + length t) = t).
  { unfold slice. rewrite drop_app_length.
    replace (length pre + length t - length pre)%nat with (length t) by lia.
    by rewrite take_app_length. }
  rewrite Hs. destruct t as [|c t]; [done|]. reflexivity.
Qed.

Lemma opaque_elim col :
  opaque (Some col) = true ->
  exists r g b, col = Color.ofInts r g b 255 /\ 0 <= r /\ 0 <= g /\ 0 <= b.
Proof.
  destruct col as [[r|] [g|] [b|] a]; cbn; rewrite ?andb_false_r; try discriminate.
  rewrite !andb_true_iff, !Z.leb_le, bool_decide_eq_true. intros [[[? ?] ?] ->].
  by exists r, g, b.
Qed.

Lemma attrCode_sgr a mask (code : string) (k : Z) :
  ESC :: lit code = sgr [k] ->
  attrCode a mask code = concat (List.map sgr (if bitAnd a mask =? 0 then [] else [[k]])).
Proof.
  intros H. unfold attrCode. destruct (_ =? _); [reflexivity|].
  cbn [List.map concat]. by rewrite app_nil_r.
Qed.

Lemma concat_map_app {A B} (f : A -> list B) l1 l2 :
  concat (List.map f (l1 ++ l2)) = concat (List.map f l1) ++ concat (List.map f l2).
Proof. by rewrite map_app, concat_app. Qed.

Lemma sgr_fg r g b :
  sgr [38; 2; r; g; b] = rgbToAnsi (Some r) (Some g) (Some b).
Proof.
  unfold sgr, rgbToAnsi, numToString. cbn [List.map]. rewrite !join_cons. cbn [join].
  change (intToString 38) with (lit "38"). change (intToString 2) with (lit "2").
  rewrite <- !app_assoc. reflexivity.
Qed.

Lemma sgr_bg r g b :
  sgr [48; 2; r; g; b]
  = ESC :: lit "[48;2;" ++ numToString (Some r) ++ lit ";" ++ numToString (Some g) ++ lit ";"
        ++ numToString (Some b) ++ lit "m".
Proof.
  unfold sgr, numToString. cbn [List.map]. rewrite !join_cons. cbn [join].
  change (intToString 48) with (lit "48"). change (intToString 2) with (lit "2").
  rewrite <- !app_assoc. reflexivity.
Qed.

Lemma chunkCodes_seqs c :
  opaque (fg c) = true -> opaque (bg c) = true ->
  chunkCodes c = concat (List.map sgr (chunkSeqs c)).
Proof.
  intros Hf Hb. unfold chunkCodes, chunkSeqs. rewrite !concat_map_app. f_equal; [|f_equal].
  - destruct (attributes c) as [a|]; [|reflexivity].
    destruct (a =? 0); [reflexivity|]. unfold attrSeqs. rewrite !concat_map_app.
    repeat (f_equal; [by apply attrCode_sgr|]). by apply attrCode_sgr.
  - destruct (fg c) as [col|]; [|reflexivity].
    apply opaque_elim in Hf as (r & g & b & -> & _). cbn [colorSeq Color.ofInts Color.r
      Color.g Color.b List.map concat]. by rewrite app_nil_r, sgr_fg.
  - destruct (bg c) as [col|]; [|reflexivity].
    apply opaque_elim in Hb as (r & g & b & -> & _). cbn [colorSeq Color.ofInts Color.r
      Color.g Color.b List.map concat]. by rewrite app_nil_r, sgr_bg.
Qed.

Lemma ansiLoop_seqs seqs : forall pre rest st acc fuel,
  Forall goodCodes seqs ->
  ansiLoop (length seqs + fuel) (pre ++ concat (List.map sgr seqs) ++ rest) (length pre) st acc
  = st' ← applySeqs seqs st;
    ansiLoop fuel (pre ++ concat (List.map sgr seqs) ++ rest)
      (length pre + length (concat (List.map sgr seqs))) st' acc.
Proof.
  induction seqs as [|codes seqs IH]; intros pre rest st acc fuel H.
  - cbn [length Nat.add List.map concat applySeqs mbind option_bind app].
    by rewrite Nat.add_0_r.
  - inversion H as [|? ? [Hne Hc] Hs]; subst.
    cbn [length Nat.add List.map concat applySeqs]. rewrite <- app_assoc.
    rewrite ansiLoop_sgr by done.
    destruct (codesLoop (length codes) codes 0 st) as [st1|]; [|reflexivity].
    cbn [mbind option_bind].
    rewrite (app_assoc pre), <- length_app. rewrite IH by done.
    destruct (applySeqs seqs st1) as [st2|]; [|reflexivity]. cbn [mbind option_bind].
    rewrite !length_app. f_equal. lia.
Qed.

Lemma applySeqs_app s1 : forall s2 st,
  applySeqs (s1 ++ s2) st = st' ← applySeqs s1 st; applySeqs s2 st'.
Proof.
  induction s1 as [|codes s1 IH]; intros s2 st; [reflexivity|].
  cbn [app applySeqs]. destruct (codesLoop _ _ _ _) as [st1|]; [|reflexivity].
  cbn [mbind option_bind]. apply IH.
Qed.

Lemma attrSeqs_check :
  forallb (fun n =>
             let a := Z.of_nat n in
             negb (knownAttrs a)
             || match applySeqs (if a =? 0 then [] else attrSeqs a) (mkStyle None None 0) with
                | Some (mkStyle None None a') => a' =? a
                | _ => false
                end) (seq 0 256) = true.
Proof. vm_compute. reflexivity. Qed.

Lemma applySeqs_attrs a :
  knownAttrs a = true ->
  applySeqs (if a =? 0 then [] else attrSeqs a) (mkStyle None None 0)
  = Some (mkStyle None None a).
Proof.
  intros Ha. pose proof attrSeqs_check as C. rewrite forallb_forall in C.
  assert (Hr : 0 <= a < 256).
  { unfold knownAttrs in Ha. apply andb_prop in Ha as [Ha _]. apply andb_prop in Ha as [A B].
    apply Z.leb_le in A. apply Z.ltb_lt in B. lia. }
  specialize (C (Z.to_nat a)). rewrite Z2Nat.id in C by lia.
  assert (Hin : In (Z.to_nat a) (seq 0 256)) by (apply in_seq; lia).
  specialize (C Hin). cbv zeta in C. rewrite Ha in C. cbn [negb orb] in C.
  destruct (applySeqs _ _) as [[[?|] [?|] a']|]; try discriminate.
  apply Z.eqb_eq in C. by subst.
Qed.

Lemma applySeqs_fg col b a :
  opaque col = true ->
  applySeqs (colorSeq 38 col) (mkStyle None b a) = Some (mkStyle col b a).
Proof.
  destruct col as [col|]; [|reflexivity]. intros H.
  apply opaque_elim in H as (r & g & bl & -> & _). reflexivity.
Qed.

Lemma applySeqs_bg f col a :
  opaque col = true ->
  applySeqs (colorSeq 48 col) (mkStyle f None a) = Some (mkStyle f col a).
Proof.
  destruct col as [col|]; [|reflexivity]. intros H.
  apply opaque_elim in H as (r & g & bl & -> & _). reflexivity.
Qed.

Lemma attrSeqs_good a : Forall goodCodes (attrSeqs a).
Proof.
  unfold attrSeqs. repeat (apply Forall_app; split);
    (destruct (_ =? _); [constructor|]); repeat constructor; try done; lia.
Qed.

Lemma colorSeq_good lead col : 0 <= lead -> opaque col = true -> Forall goodCodes (colorSeq lead col).
Proof.
  intros Hl H. destruct col as [col|]; [|constructor].
  apply opaque_elim in H as (r & g & b & -> & ? & ? & ?). cbn.
  repeat constructor; try done; lia.
Qed.

Lemma chunkSeqs_good c :
  opaque (fg c) = true -> opaque (bg c) = true -> Forall goodCodes (chunkSeqs c).
Proof.
  intros Hf Hb. unfold chunkSeqs. repeat (apply Forall_app; split).
  - destruct (attributes c) as [a|]; [|constructor]. destruct (a =? 0); [constructor|].
    apply attrSeqs_good.
  - by apply colorSeq_good.
  - by apply colorSeq_good.
Qed.

Lemma applySeqs_chunk c a :
  attributes c = Some a -> knownAttrs a = true ->
  opaque (fg c) = true -> opaque (bg c) = true ->
  applySeqs (chunkSeqs c) (mkStyle None None 0) = Some (mkStyle (fg c) (bg c) a).
Proof.
  intros Ea Ha Hf Hb. unfold chunkSeqs. rewrite Ea, applySeqs_app.
  rewrite applySeqs_attrs by done. cbn [mbind option_bind].
  rewrite applySeqs_app, applySeqs_fg by done. cbn [mbind option_bind].
  by rewrite applySeqs_bg.
Qed.

Lemma roundTrips_elim c :
  roundTrips c = true ->
  exists a, attributes c = Some a /\ knownAttrs a = true
            /\ text c <> [] /\ noEsc (text c) = true
            /\ opaque (fg c) = true /\ opaque (bg c) = true /\ chunkCodes c <> [].
Proof.
  unfold roundTrips, parsedChunk. rewrite !andb_true_iff.
  intros [[[[[Ht Ha] Hf] Hb] He] Hc].
  destruct (attributes c) as [a|]; [|discriminate]. exists a.
  repeat split; try done.
  - by destruct (text c).
  - by destruct (chunkCodes c).
Qed.

Lemma chunkString_seqs c :
  roundTrips c = true ->
  chunkString c = concat (List.map sgr (chunkSeqs c)) ++ text c ++ sgr [0].
Proof.
  intros H. apply roundTrips_elim in H as (a & _ & _ & _ & _ & Hf & Hb & Hc).
  unfold chunkString. rewrite <- chunkCodes_seqs by done.
  destruct (chunkCodes c); [done|reflexivity].
Qed.

Lemma ansiLoop_chunk c pre rest acc fuel :
  roundTrips c = true ->
  ansiLoop (length (chunkSeqs c) + S fuel) (pre ++ chunkString c ++ rest) (length pre)
    (mkStyle None None 0) acc
  = ansiLoop fuel (pre ++ chunkString c ++ rest) (length pre + length (chunkString c))
      (mkStyle None None 0) (acc ++ [c]).
Proof.
  intros H. rewrite (chunkString_seqs c H).
  apply roundTrips_elim in H as (a & Ea & Ha & Ht & He & Hf & Hb & Hc).
  rewrite <- !app_assoc.
  rewrite ansiLoop_seqs by (by apply chunkSeqs_good).
  rewrite (applySeqs_chunk c a) by done. cbn [mbind option_bind].
  rewrite (app_assoc pre), <- length_app.
  rewrite ansiLoop_text_reset by done.
  assert (Hchunk : styledChunk (text c) (mkStyle (fg c) (bg c) a) = c).
  { destruct c as [t f b at_]. cbn in *. by subst. }
  rewrite Hchunk. rewrite <- !app_assoc, !length_app. f_equal. lia.
Qed.

Lemma ansiLoop_end fuel input st acc :
  ansiLoop (S fuel) input (length input) st acc = Some acc.
Proof.
  cbn [ansiLoop]. unfold exec. rewrite Nat.ltb_irrefl, drop_all. cbn [execFrom].
  pose proof (matchAt_ansiCodes_spec input (length input) []) as H. cbn [ansiLen] in H.
  by rewrite H.
Qed.

Lemma ansiLoop_chunks chunks : forall pre acc,
  forallb roundTrips chunks = true ->
  exists fuel,
    ansiLoop fuel (pre ++ concat (List.map chunkString chunks)) (length pre)
      (mkStyle None None 0) acc = Some (acc ++ chunks).
Proof.
  induction chunks as [|c chunks IH]; intros pre acc H.
  - exists 1%nat. cbn [List.map concat]. rewrite !app_nil_r. apply ansiLoop_end.
  - cbn [forallb] in H. apply andb_prop in H as [Hc H].
    destruct (IH (pre ++ chunkString c) (acc ++ [c]) H) as [fuel Hf].
    exists (length (chunkSeqs c) + S fuel)%nat. cbn [List.map concat].
    rewrite ansiLoop_chunk by done.
    rewrite <- app_assoc, length_app in Hf. rewrite Hf. by rewrite <- app_assoc.
Qed.

Lemma ansiLoop_more input : forall fuel lastIndex st acc cs,
  ansiLoop fuel input lastIndex st acc = Some cs ->
  ansiLoop (S fuel) input lastIndex st acc = Some cs.
Proof.
  induction fuel as [|fuel IH]; intros lastIndex st acc cs; [discriminate|].
  intros H. change (ansiLoop (S (S fuel)) input lastIndex st acc)
    with (match exec ansiCodesRe 1 input lastIndex with
          | Some mt =>
              let acc1 :=
                if Nat.ltb lastIndex (index mt) then
                  let t := slice input lastIndex (index mt) in
                  match t with [] => acc | _ => acc ++ [styledChunk t st] end
                else acc in
              let codes := List.map digitsToNumber (split (ch ";") (groupStr input mt 1)) in
              st' ← codesLoop (length codes) codes 0 st;
              ansiLoop (S fuel) input (endIndex mt) st' acc1
          | None =>
              Some (if Nat.ltb lastIndex (length input) then
                      let t := sliceFrom input lastIndex in
                      match t with [] => acc | _ => acc ++ [styledChunk t st] end
                    else acc)
          end).
  cbn [ansiLoop] in H.
  destruct (exec ansiCodesRe 1 input lastIndex) as [mt|]; [|exact H].
  cbv zeta in *.
  destruct (codesLoop _ _ _ _) as [st'|]; [|discriminate]. cbn [mbind option_bind] in *.
  by apply IH.
Qed.

Lemma ansiLoop_enough input fuel1 fuel2 lastIndex st acc cs1 cs2 :
  ansiLoop fuel1 input lastIndex st acc = Some cs1 ->
  ansiLoop fuel2 input lastIndex st acc = Some cs2 ->
  cs1 = cs2.
Proof.
  assert (Hup : forall k f cs, ansiLoop f input lastIndex st acc = Some cs ->
                  ansiLoop (k + f) input lastIndex st acc = Some cs).
  { induction k as [|k IHk]; intros f cs H; [exact H|]. cbn [Nat.add].
    by apply ansiLoop_more, IHk. }
  intros H1 H2.
  destruct (Nat.le_ge_cases fuel1 fuel2) as [Hle|Hle].
  - apply (Hup (fuel2 - fuel1)%nat) in H1.
    replace (fuel2 - fuel1 + fuel1)%nat with fuel2 in H1 by lia. congruence.
  - apply (Hup (fuel1 - fuel2)%nat) in H2.
    replace (fuel1 - fuel2 + fuel2)%nat with fuel1 in H2 by lia. congruence.
Qed.

Lemma parse_serialized chunks :
  forallb roundTrips chunks = true ->
  ansiToStyledText (textChunksToAnsi chunks) = Some (mkStyledText chunks).
Proof.
  intros H. destruct (ansiToStyledText_total (textChunksToAnsi chunks)) as [st Hst].
  rewrite Hst. f_equal. unfold ansiToStyledText in Hst.
  destruct (ansiLoop _ _ _ _ _) as [cs|] eqn:E; [|discriminate].
  cbn in Hst. injection Hst as <-. f_equal.
  destruct (ansiLoop_chunks chunks [] [] H) as [fuel Hf].
  cbn [app length] in Hf. rewrite <- textChunksToAnsi_concat in Hf.
  exact (ansiLoop_enough _ _ _ _ _ _ _ _ E Hf).
Qed.

(** ** Code spans *)

(** A greedy run over code units that all satisfy [p], stopped by one that
    does not: when the continuation accepts the stop, that is the result. *)
Lemma greedyRun_stop p (c : mstate -> option mstate) code x rest res :
  forallb p code = true -> p x = false ->
  forall pos cps,
    c (MState (pos + length code) (x :: rest) cps) = Some res ->
    greedyRun p c pos (code ++ x :: rest) cps = Some res.
Proof.
  intros Hcode Hx. induction code as [|y code IH]; intros pos cps Hc.
  - cbn [app greedyRun]. rewrite Hx. cbn [length] in Hc. by rewrite Nat.add_0_r in Hc.
  - cbn [forallb] in Hcode. apply andb_prop in Hcode as [Hy Hcode].
    cbn [app greedyRun]. rewrite Hy. rewrite IH; [reflexivity|done|].
    cbn [length] in Hc. by replace (S pos + length code)%nat with (pos + S (length code))%nat by lia.
Qed.

Lemma matchAt_code_span input pos y code rest :
  forallb notTick (y :: code) = true ->
  matchAt input inlineRegex 8 pos (ch "`" :: (y :: code) ++ ch "`" :: rest)
  = Some (RMatch pos (pos + S (S (S (length code))))
            (<[5%nat := Some (S pos, S (S pos) + length code)%nat]> (replicate 9 None))).
Proof.
  intros H. cbn [forallb] in H. apply andb_prop in H as [Hy Hcode].
  unfold matchAt, inlineRegex.
  cbn [alts seqs m Lit lit Str list_ascii_of_string List.map step mrest mpos mcaps orElse].
  change (N_of_ascii "*") with (ch "*"). change (N_of_ascii "_") with (ch "_").
  change (N_of_ascii "`") with (ch "`").
  change (chr_eqb (ch "*") (ch "`")) with false.
  change (chr_eqb (ch "_") (ch "`")) with false.
  change (chr_eqb (ch "`") (ch "`")) with true.
  cbn iota. cbn [orElse].
  rewrite (plus_greedy _ _ notTick) by reflexivity.
  cbn [app]. rewrite Hy.
  rewrite (greedyRun_stop notTick _ code (ch "`") rest
             (MState (S (S (S pos) + length code)) rest
                (<[5%nat := Some (S pos, S (S pos) + length code)%nat]> (replicate 9 None))));
    [|exact Hcode|reflexivity|].
  - cbn [orElse mpos mcaps]. do 2 f_equal. lia.
  - cbn [mpos mrest mcaps step]. change (chr_eqb (ch "`") (ch "`")) with true. cbn iota.
    reflexivity.
Qed.

Lemma execFrom_inline_skip input before : forall pos rest,
  forallb (fun c => negb (inlineMark c)) before = true ->
  execFrom input inlineRegex 8 pos (before ++ ch "`" :: rest)
  = execFrom input inlineRegex 8 (pos + length before) (ch "`" :: rest).
Proof.
  induction before as [|c before IH]; intros pos rest H.
  - cbn [app length]. by rewrite Nat.add_0_r.
  - cbn [forallb] in H. apply andb_prop in H as [Hc H]. apply negb_true_iff in Hc.
    cbn [app execFrom]. rewrite matchAt_inline_none by done.
    rewrite IH by done. cbn [length].
    replace (pos + S (length before))%nat with (S pos + length before)%nat by lia. reflexivity.
Qed.

Lemma code_span_chunks before y code after theme color attrs :
  forallb (fun c => negb (inlineMark c)) before = true ->
  forallb notTick (y :: code) = true ->
  forallb (fun c => negb (inlineMark c)) after = true ->
  renderInlineThemedWithDefault (before ++ ch "`" :: (y :: code) ++ ch "`" :: after)
    theme color attrs
  = addChunk before (Some color) attrs
    ++ [Chunk (y :: code) (Some (MarkdownTheme.markdownCode theme)) None (Some 0)]
    ++ addChunk after (Some color) attrs.
Proof.
  intros Hb Hc Ha. unfold renderInlineThemedWithDefault.
  set (text := before ++ ch "`" :: (y :: code) ++ ch "`" :: after).
  assert (Hlen : length text = (length before + S (S (S (length code))) + length after)%nat).
  { unfold text. rewrite !length_app. cbn [length]. rewrite length_app. cbn [length]. lia. }
  destruct (length text) as [|fuel] eqn:El; [lia|].
  set (mt := RMatch (length before) (length before + S (S (S (length code))))
               (<[5%nat := Some (S (length before), S (S (length before)) + length code)%nat]>
                  (replicate 9 None))).
  assert (He : exec inlineRegex 8 text 0 = Some mt).
  { unfold exec. cbn [Nat.ltb Nat.leb]. rewrite drop_0. unfold text.
    rewrite execFrom_inline_skip by done. cbn [Nat.add execFrom].
    by rewrite matchAt_code_span. }
  cbn [inlineLoop]. rewrite He. cbn [index endIndex mt].
  assert (Hs1 : slice text 0 (length before) = before).
  { unfold slice, text. rewrite drop_0, Nat.sub_0_r. by rewrite take_app_length. }
  assert (Hpre : (if Nat.ltb 0 (length before)
                  then addChunk (slice text 0 (length before)) (Some color) attrs else [])
                 = addChunk before (Some color) attrs).
  { rewrite Hs1. by destruct before. }
  rewrite Hpre. f_equal.
  assert (Hg : group text mt 5 = Some (y :: code)).
  { unfold group, mt. cbn [caps]. cbn [replicate]. cbn.
    unfold slice, text.
    replace (before ++ ch "`" :: (y :: code) ++ ch "`" :: after)
      with ((before ++ [ch "`"]) ++ (y :: code) ++ ch "`" :: after)
      by (by rewrite <- app_assoc).
    replace (S (length before)) with (length (before ++ [ch "`"]))
      by (rewrite length_app; simpl; lia).
    rewrite drop_app_length.
    replace (_ - _)%nat with (length (y :: code)) by (simpl; lia).
    by rewrite take_app_length. }
  assert (Hm : inlineMatchChunks text theme mt
               = [Chunk (y :: code) (Some (MarkdownTheme.markdownCode theme)) None (Some 0)]).
  { unfold inlineMatchChunks. rewrite Hg. reflexivity. }
  rewrite Hm. f_equal.
  assert (Hend : sliceFrom text (length before + S (S (S (length code)))) = after).
  { unfold sliceFrom, text.
    replace (before ++ ch "`" :: (y :: code) ++ ch "`" :: after)
      with ((before ++ ch "`" :: (y :: code) ++ [ch "`"]) ++ after).
    2:{ rewrite <- !app_assoc. cbn [app]. by rewrite <- app_assoc. }
    replace (length before + S (S (S (length code))))%nat
      with (length (before ++ ch "`" :: (y :: code) ++ [ch "`"])).
    2:{ rewrite length_app. cbn [length]. rewrite length_app. cbn [length]. lia. }
    by rewrite drop_app_length. }
  assert (Hno : exec inlineRegex 8 text (length before + S (S (S (length code)))) = None).
  { unfold exec. replace (Nat.ltb _ _) with false by (symmetry; apply Nat.ltb_ge; lia).
    fold (sliceFrom text (length before + S (S (S (length code))))). rewrite Hend.
    by apply execFrom_inline_none. }
  assert (Hrem : (if Nat.ltb (length before + S (S (S (length code)))) (length text)
                  then addChunk (sliceFrom text (length before + S (S (S (length code)))))
                         (Some color) attrs
                  else []) = addChunk after (Some color) attrs).
  { clear Hpre. rewrite Hend, El, Hlen. destruct after as [|a after].
    - case_match; reflexivity.
    - case_match eqn:E; [reflexivity|]. apply Nat.ltb_ge in E. cbn [length] in E. lia. }
  destruct fuel as [|fuel]; cbn [inlineLoop]; rewrite ?Hno; exact Hrem.
Qed.

(** ** Code blocks in the renderer without colors *)

Lemma join_indent indent body :
  body <> [] ->
  indent ++ join ([NL] ++ indent) body = join [NL] (List.map (app indent) body).
Proof.
  induction body as [|l body IH]; [done|]. intros _.
  destruct body as [|l2 body]; [reflexivity|].
  rewrite join_cons.
  change (List.map (app indent) (l :: l2 :: body))
    with ((indent ++ l) :: List.map (app indent) (l2 :: body)).
  specialize (IH ltac:(done)).
  destruct (List.map (app indent) (l2 :: body)) as [|q more] eqn:E; [done|].
  rewrite join_cons, <- IH. by rewrite <- !app_assoc.
Qed.

Lemma simple_loop_body cols indent listPrefix body : forall st,
  Simple.inCodeBlock st = true ->
  forallb (fun l => negb (startsWith l fence)) body = true ->
  Simple.loop cols indent listPrefix body st
  = Some (Simple.mk (Simple.result st) true (Simple.codeBlockContent st ++ body)).
Proof.
  induction body as [|l body IH]; intros st Hin H.
  - cbn. rewrite app_nil_r. destruct st; cbn in *. by subst.
  - cbn [forallb] in H. apply andb_prop in H as [Hl H]. apply negb_true_iff in Hl.
    cbn [Simple.loop]. unfold Simple.step. change (lit "```") with fence. rewrite Hl, Hin.
    cbn [mbind option_bind]. rewrite IH by done. cbn. by rewrite <- app_assoc.
Qed.

Lemma simple_fenced_code stdoutColumns opener body closer options :
  simpleFenced opener body closer = true ->
  renderMarkdownSimple stdoutColumns (opener ++ NL :: linesText body ++ closer) options
  = Some (join [NL] (List.map (app (default (lit "  ") (Options.indent options))) body)).
Proof.
  unfold simpleFenced. rewrite !andb_true_iff, negb_true_iff.
  intros ((((((Ho & Hb) & Hc) & Hfo) & Hfc) & Hne) & Hbody).
  apply noNewline_Forall in Ho, Hc. apply Nat.eqb_neq in Hne.
  assert (Hb' : Forall nlFree body).
  { apply Forall_forall. intros l Hl. apply noNewline_Forall.
    rewrite forallb_forall in Hb. by apply Hb, list_elem_of_In. }
  unfold renderMarkdownSimple.
  rewrite split_app_sep, split_nlFree, split_lines_then by done.
  cbn [app Simple.loop]. unfold Simple.step at 1. change (lit "```") with fence.
  rewrite Hfo. cbn [Simple.inCodeBlock mbind option_bind].
  rewrite simple_loop_app, simple_loop_body by done. cbn [mbind option_bind].
  cbn [Simple.loop]. unfold Simple.step. change (lit "```") with fence.
  rewrite Hfc. cbn [Simple.inCodeBlock Simple.result Simple.codeBlockContent mbind option_bind
    app join].
  f_equal. apply join_indent. by destruct body.
Qed.

(** ** Tokens, separator shape, blank text and colored output *)

Lemma breakLongToken_concat token maxLen :
  concat (List.map (unquote (isQuotedToken token)) (breakLongToken token maxLen))
  = unquote (isQuotedToken token) token.
Proof.
  unfold breakLongToken. fold (isQuotedToken token).
  destruct (Z.of_nat (length token) <=? maxLen).
  - cbn [List.map concat]. by rewrite app_nil_r.
  - pose proof (breakLoop_concat (isQuotedToken token) maxLen
                  (unquote (isQuotedToken token) token) [] []) as H.
    cbn [List.map concat app] in H. exact H.
Qed.

Lemma separatorShape_spec line :
  separatorShape line = true
  <-> exists mid, line = ch "|" :: mid ++ [ch "|"] /\ mid <> [] /\ forallb sepChar mid = true.
Proof.
  unfold separatorShape. rewrite !andb_true_iff. split.
  - intros (((Hlen & Hs) & He) & Hall).
    destruct line as [|c rest]; [discriminate|].
    change (lit "|") with [ch "|"] in *. cbn [startsWith] in Hs.
    apply andb_prop in Hs as [Hc _]. apply N.eqb_eq in Hc. subst c.
    destruct rest as [|y mid _] using rev_ind; [discriminate|].
    unfold endsWith in He. cbn [rev] in He. rewrite rev_app_distr in He.
    cbn [rev app startsWith] in He. apply andb_prop in He as [Hy _].
    apply N.eqb_eq in Hy. subst y.
    exists mid. split; [reflexivity|]. split.
    + intros ->. discriminate.
    + cbn [forallb] in Hall. apply andb_prop in Hall as [_ Hall].
      rewrite forallb_app in Hall. by apply andb_prop in Hall as [? _].
  - intros (mid & -> & Hne & Hall). repeat split.
    + apply Nat.leb_le. cbn [length]. rewrite length_app. cbn [length]. destruct mid; [done|].
      cbn [length]. lia.
    + destruct mid; [done|]. reflexivity.
    + unfold endsWith. cbn [rev]. rewrite rev_app_distr. cbn [rev app].
      destruct (rev mid ++ [ch "|"]) eqn:E; [by destruct (rev mid)|]. reflexivity.
    + cbn [forallb]. rewrite forallb_app, Hall. reflexivity.
Qed.

Lemma isSeparatorLine_shape line : isSeparatorLine line = separatorShape line.
Proof.
  apply eq_true_iff_eq. by rewrite isSeparatorLine_spec, separatorShape_spec.
Qed.

Lemma str_eqb_refl a : str_eqb a a = true.
Proof. by apply str_eqb_eq. Qed.

Lemma wordsScan_blank text :
  forallb isSpace text = true -> wordsScan [] true text = [[]].
Proof.
  induction text as [|c r IH]; [reflexivity|]. cbn [forallb wordsScan].
  intros H. apply andb_prop in H as [-> H]. by apply IH.
Qed.

Lemma wordWrap_blank text width indent :
  forallb isSpace text = true -> Helpers.wordWrap text width indent = [].
Proof.
  intros H. unfold Helpers.wordWrap, Helpers.wordWrapLines. rewrite splitRe_spaces.
  assert (E : forall words, Forall (fun w => w = []) words ->
            fold_left (Helpers.wrapWord width (default [] indent)) words
              ([], default [] indent) = ([], default [] indent)).
  { induction 1 as [|w words -> _ IH]; [reflexivity|]. cbn [fold_left].
    unfold Helpers.wrapWord at 2. rewrite str_eqb_refl, andb_false_r, !app_nil_r. exact IH. }
  rewrite E.
  - by rewrite str_eqb_refl.
  - destruct text as [|c r]; [by repeat constructor|].
    cbn [forallb] in H. apply andb_prop in H as [Hc H].
    cbn [wordsScan]. rewrite Hc, wordsScan_blank by done. by repeat constructor.
Qed.

Lemma stripScan_chunks chunks :
  forallb plainChunk chunks = true ->
  stripScan 0 (concat (List.map chunkString chunks)) = textOf chunks.
Proof.
  intros H. induction chunks as [|c chunks IH]; [reflexivity|].
  cbn [forallb] in H. apply andb_prop in H as [Hc H].
  unfold plainChunk in Hc. apply andb_prop in Hc as [Hc Hbg]. apply andb_prop in Hc as [Ht Hfg].
  unfold textOf. cbn [List.map concat]. unfold chunkString at 1. rewrite <- !app_assoc.
  rewrite stripScan_sgrs by (by apply chunkCodes_sgrs).
  rewrite stripScan_plain by done. f_equal.
  rewrite stripScan_sgrs; [by apply IH|].
  destruct (chunkCodes c); [constructor|].
  change (ESC :: lit "[0m") with (ESC :: ch "[" :: lit "0" ++ [ch "m"]). by apply sgrs_one.
Qed.

Lemma fromDocument_chunks stringWidth md tuiTheme cols st :
  renderMarkdownThemedStyled stringWidth md tuiTheme cols = Some st ->
  Forall (chunkOk (fromDocument md) (MarkdownTheme.map toIntRGBA tuiTheme)) (chunks st).
Proof.
  apply renderer_chunks.
  - intros c Hc. by right.
  - apply Forall_forall. intros c Hc. left. by apply list_elem_of_In.
Qed.

Lemma escFree_chunks stringWidth md tuiTheme cols st :
  noEsc md = true ->
  themePrintable (MarkdownTheme.map toIntRGBA tuiTheme) = true ->
  renderMarkdownThemedStyled stringWidth md tuiTheme cols = Some st ->
  forallb plainChunk (chunks st) = true.
Proof.
  intros Hmd Ht Hst. apply forallb_forall. intros c Hc.
  apply (chunkOk_plain _ c Ht).
  assert (H : Forall (chunkOk (fun c => c <> ESC) (MarkdownTheme.map toIntRGBA tuiTheme))
                (chunks st)).
  { eapply renderer_chunks; [|by apply noEsc_Forall|exact Hst].
    intros x Hx ->. vm_compute in Hx. discriminate. }
  rewrite Forall_forall in H. by apply H, list_elem_of_In.
Qed.

(** * The claims *)

(** ** Tables *)




(** C2: the shrink loop of [renderTableThemed] terminates for every table
    block and every terminal width: the widths the table is drawn with are
    reached from the natural widths by a finite run that takes one unit from
    a widest column while the total exceeds [cols - 4] and some column is
    above 10 ([shrinkRun]); every column keeps its natural width or ends at
    10 or more; and on exit the table fits or every column is at most 10. *)
Theorem shrink_loop_terminates_above_floor (stringWidth : jsstring -> nat)
    (tableLines : list jsstring) (cols : Z) :
  let natural := naturalWidths stringWidth (parseRow (default [] (tableLines !! 0%nat)))
                   (tableDataRows tableLines) in
  let final := tableColWidths stringWidth tableLines cols in
  shrinkRun (cols - 4) natural final
  /\ Forall2 (fun w0 w => w = w0 \/ (10 <= w /\ w <= w0)) natural final
  /\ (calcWidth final <= cols - 4 \/ Forall (fun w => w <= 10) final).
Proof.
  intros natural final. apply fitWidths_run.
Qed.

(** ** Inline elements *)

(** C3: on [**bold *and italic* text**] the inline tokenizer pushes exactly
    three chunks, in order: [bold ] with the strong color and the bold
    attribute, [and italic] with the strong color and bold|italic, and
    [ text] with the strong color and bold. *)
Theorem nested_emphasis_three_fragments (theme : IntTheme) (defaultColor : RGBA)
    (defaultAttrs : Z) :
  renderInlineThemedWithDefault (lit "**bold *and italic* text**") theme
    defaultColor defaultAttrs
  = [ Chunk (lit "bold ") (Some (MarkdownTheme.markdownStrong theme)) None (Some Attr.BOLD);
      Chunk (lit "and italic") (Some (MarkdownTheme.markdownStrong theme)) None
            (Some (bitOr Attr.BOLD Attr.ITALIC));
      Chunk (lit " text") (Some (MarkdownTheme.markdownStrong theme)) None
            (Some Attr.BOLD) ].
Proof. vm_compute. reflexivity. Qed.

(** ** The ANSI parser *)

(** C4, where the code departs from it: the parser has no case for code 8,
    so [ESC [ 8 m] leaves the attributes at 0 and the hidden flag (64) is
    lost, although [textChunksToAnsi] writes that very code for the flag. *)
Theorem hidden_code_not_recognised :
  ansiToStyledText (ESC :: lit "[8mx")
  = Some (mkStyledText [Chunk (lit "x") None None (Some 0)])
  /\ textChunksToAnsi [Chunk (lit "x") None None (Some Attr.HIDDEN)]
     = ESC :: lit "[8mx" ++ ESC :: lit "[0m".
Proof. split; vm_compute; reflexivity. Qed.

(** ** Rendering without colors *)

(** C5, as stated, fails: the renderer without colors copies a line of
    plain text as it is, escape sequences included. *)
Lemma plain_render_keeps_escape :
  renderMarkdown None unitWidth (ESC :: lit "[1mhi")
    (Options.mk None None None None (Some false) None)
  = Some (ESC :: lit "[1mhi")
  /\ containsAnsi (ESC :: lit "[1mhi") = true.
Proof. split; vm_compute; reflexivity. Qed.

(** C5, amended: for a document without ESC code unit, rendered with
    [colors = false] on a terminal of width 4 or more (the indent and list
    prefix options without ESC as well), [renderMarkdown] returns a string
    that has no ESC code unit and hence no ANSI escape sequence. *)
Theorem plain_render_no_escape (stdoutColumns : option Z) (stringWidth : jsstring -> nat)
    (md : jsstring) (options : Options.t) :
  Options.colors options = Some false ->
  noEsc md = true ->
  noEsc (default (lit "  ") (Options.indent options)) = true ->
  noEsc (default (lit "- ") (Options.listPrefix options)) = true ->
  4 <= resolveCols stdoutColumns options ->
  exists out, renderMarkdown stdoutColumns stringWidth md options = Some out
              /\ noEsc out = true /\ containsAnsi out = false.
Proof.
  intros Hc Hmd Hi Hp Hcols. unfold renderMarkdown. rewrite Hc. cbn [default from_option id negb].
  unfold renderMarkdownSimple.
  apply noEsc_Forall in Hmd, Hi, Hp.
  destruct (simple_loop_clean (resolveCols stdoutColumns options)
              (default (lit "  ") (Options.indent options))
              (default (lit "- ") (Options.listPrefix options))
              (split NL md) (Simple.mk [] false []) Hcols) as (st & -> & Hst);
    try done; try (by apply ok_split); try constructor.
  cbn [mbind option_bind]. eexists. split; [reflexivity|].
  assert (Hout : escFree (join [NL] (Simple.result st))).
  { apply ok_join; [by repeat constructor|done]. }
  split; [by apply noEsc_Forall|by apply containsAnsi_escFree].
Qed.

Lemma plain_render_no_escape_witness :
  Options.colors (Options.mk None None None None (Some false) None) = Some false
  /\ noEsc (lit "# Title") = true
  /\ exists out,
       renderMarkdown None unitWidth (lit "# Title")
         (Options.mk None None None None (Some false) None) = Some out
       /\ noEsc out = true /\ containsAnsi out = false.
Proof.
  split; [reflexivity|]. split; [reflexivity|].
  apply (plain_render_no_escape None unitWidth (lit "# Title")
           (Options.mk None None None None (Some false) None));
    [reflexivity|reflexivity|reflexivity|reflexivity|vm_compute; discriminate].
Defined.

(** ** Totality *)

(** C6, where the code departs from it: on a terminal narrower than 4
    columns a horizontal rule asks for a negative repeat count, and the
    renderer throws instead of returning chunks. *)
Theorem hr_narrow_terminal_throws (stringWidth : jsstring -> nat) (theme : TuiTheme) :
  renderMarkdownThemedStyled stringWidth (lit "---") theme 3 = None.
Proof. vm_compute. reflexivity. Qed.

(** ** Code fences *)




(** ** Theme loading *)

(** C8: for every theme and every color role, the loaded theme's field for
    the role is what [resolve] gives for the role's key, and when the key is
    missing from the theme data this is the default white
    [{r: 1, g: 1, b: 1, a: 1}]. *)
Theorem loadTheme_missing_role_white (opencode : ThemeLoader.ThemeData)
    (bundled : gmap jsstring ThemeLoader.ThemeData) (themeName : option jsstring)
    (mode : ThemeLoader.Mode) (role : ThemeLoader.Role) :
  let data := ThemeLoader.themeDataOf opencode bundled themeName in
  ThemeLoader.roleColor role (ThemeLoader.loadTheme opencode bundled themeName mode)
  = ThemeLoader.resolve data mode (ThemeLoader.roleKey role)
  /\ (default ∅ (ThemeLoader.theme data) !! ThemeLoader.roleKey role = None ->
      ThemeLoader.roleColor role (ThemeLoader.loadTheme opencode bundled themeName mode)
      = ThemeLoader.white).
Proof.
  intros data.
  assert (E : ThemeLoader.roleColor role
                (ThemeLoader.loadTheme opencode bundled themeName mode)
              = ThemeLoader.resolve data mode (ThemeLoader.roleKey role)).
  { destruct role; reflexivity. }
  split; [exact E|]. intros H. rewrite E. unfold ThemeLoader.resolve. rewrite H.
  reflexivity.
Qed.

Lemma loadTheme_missing_role_white_witness :
  default ∅ (ThemeLoader.theme
               (ThemeLoader.themeDataOf (ThemeLoader.mkThemeData None None) ∅ None))
    !! ThemeLoader.roleKey ThemeLoader.markdownStrong = None
  /\ ThemeLoader.roleColor ThemeLoader.markdownStrong
       (ThemeLoader.loadTheme (ThemeLoader.mkThemeData None None) ∅ None ThemeLoader.dark)
     = ThemeLoader.white.
Proof.
  split; [vm_compute; reflexivity|].
  apply (loadTheme_missing_role_white (ThemeLoader.mkThemeData None None) ∅ None
           ThemeLoader.dark ThemeLoader.markdownStrong).
  vm_compute. reflexivity.
Defined.

(** ** Width and escape sequences *)

(** C9, as stated, fails: stripping can assemble a new escape sequence out
    of the code units around a removed one. *)
Lemma visibleWidth_stripAnsi_counterexample :
  visibleWidth (stripAnsi (ESC :: lit "[" ++ ESC :: lit "[0mm")) = 0%nat
  /\ visibleWidth (ESC :: lit "[" ++ ESC :: lit "[0mm") = 3%nat.
Proof. split; vm_compute; reflexivity. Qed.

(** C9, amended: for every text in which every ESC code unit begins a
    complete escape sequence, [visibleWidth (stripAnsi text)] equals
    [visibleWidth text]. *)
Theorem visibleWidth_stripAnsi_wellformed (text : jsstring) :
  everyEscOpens text = true ->
  visibleWidth (stripAnsi text) = visibleWidth text.
Proof.
  intros H. unfold visibleWidth. rewrite !stripAnsi_scan.
  by rewrite (stripScan_noEsc _ (stripScan_out 0 _ H)).
Qed.

Lemma visibleWidth_stripAnsi_wellformed_witness :
  everyEscOpens (ESC :: lit "[1mhi" ++ ESC :: lit "[0m") = true
  /\ visibleWidth (stripAnsi (ESC :: lit "[1mhi" ++ ESC :: lit "[0m"))
     = visibleWidth (ESC :: lit "[1mhi" ++ ESC :: lit "[0m").
Proof.
  split; [reflexivity|].
  apply (visibleWidth_stripAnsi_wellformed (ESC :: lit "[1mhi" ++ ESC :: lit "[0m")).
  reflexivity.
Defined.




(** * Further properties of the code *)

(** ** Escape sequences, padding and wrapping *)

(** X1: [stripAnsi] only deletes code units: its result is a subsequence of
    its argument, and the visible width of a string is at most its
    length. *)
Theorem stripAnsi_only_deletes (s : jsstring) :
  sublist (stripAnsi s) s /\ (visibleWidth s <= length s)%nat.
Proof.
  assert (H : sublist (stripAnsi s) s) by (rewrite stripAnsi_scan; apply stripScan_sublist).
  split; [exact H|]. unfold visibleWidth. by apply sublist_length.
Qed.

(** X2: with a padding of one code unit [c] that cannot be part of an
    escape sequence (the default, a space, is one), [padRight] appends to
    [str] as many [c] as [width] exceeds its visible width, none when it
    does not; the escape sequences of [str] are stripped as before, and the
    visible width of the result is the larger of [width] and the visible
    width of [str]. *)
Theorem padRight_pads_to_width (str : jsstring) (width : Z) (padding : option jsstring)
    (c : char) :
  padUnit padding = Some c ->
  let missing := Z.to_nat (width - Z.of_nat (visibleWidth str)) in
  padRight str width padding = Some (str ++ replicate missing c)
  /\ stripAnsi (str ++ replicate missing c) = stripAnsi str ++ replicate missing c
  /\ Z.of_nat (visibleWidth (str ++ replicate missing c))
     = Z.max (Z.of_nat (visibleWidth str)) width.
Proof. apply padRight_spec. Qed.

Lemma padRight_pads_to_width_witness :
  padUnit None = Some SP
  /\ padRight (ESC :: lit "[1mab" ++ ESC :: lit "[0m") 5 None
     = Some ((ESC :: lit "[1mab" ++ ESC :: lit "[0m") ++ lit "   ").
Proof.
  split; [reflexivity|].
  exact (proj1 (padRight_pads_to_width (ESC :: lit "[1mab" ++ ESC :: lit "[0m") 5 None SP
                  eq_refl)).
Defined.

(** X3: with such a padding, [padCenter] puts [str] between [left] and
    [right] copies of [c], where [left] is half the missing width rounded
    down and [right] the rest, so that [left <= right <= left + 1]; the
    visible width of the result is the larger of [width] and the visible
    width of [str]. *)
Theorem padCenter_centres (str : jsstring) (width : Z) (padding : option jsstring)
    (c : char) :
  padUnit padding = Some c ->
  let missing := Z.to_nat (width - Z.of_nat (visibleWidth str)) in
  let left := (missing / 2)%nat in
  let right := (missing - left)%nat in
  padCenter str width padding = Some (replicate left c ++ str ++ replicate right c)
  /\ (left <= right <= left + 1)%nat
  /\ Z.of_nat (visibleWidth (replicate left c ++ str ++ replicate right c))
     = Z.max (Z.of_nat (visibleWidth str)) width.
Proof. apply padCenter_spec. Qed.

Lemma padCenter_centres_witness :
  padUnit (Some (lit "*")) = Some (ch "*")
  /\ padCenter (lit "ab") 7 (Some (lit "*")) = Some (lit "**ab***").
Proof.
  split; [reflexivity|].
  exact (proj1 (padCenter_centres (lit "ab") 7 (Some (lit "*")) (ch "*") eq_refl)).
Defined.

(** X4: when every word of [text], put after the indent, fits [width],
    every line [wordWrap] joins fits [width]: the width is exceeded only by
    a word that is too long on a line of its own. *)
Theorem wordWrap_lines_fit (text : jsstring) (width : Z) (indent : option jsstring) :
  forallb (fun w => fitsWidth width (default [] indent ++ w)) (splitRe spacesRe text) = true ->
  forallb (fitsWidth width) (Helpers.wordWrapLines text width indent) = true.
Proof. apply wordWrapLines_fit. Qed.

Lemma wordWrap_lines_fit_witness :
  forallb (fun w => fitsWidth 9 (default [] (Some (lit "> ")) ++ w))
          (splitRe spacesRe (lit "one two  three four")) = true
  /\ forallb (fitsWidth 9)
       (Helpers.wordWrapLines (lit "one two  three four") 9 (Some (lit "> "))) = true.
Proof.
  split; [vm_compute; reflexivity|].
  apply (wordWrap_lines_fit (lit "one two  three four") 9 (Some (lit "> "))).
  vm_compute. reflexivity.
Defined.

(** X5: for a text that is empty or holds only whitespace, [wordWrap]
    returns the empty string, whatever the width and the indent. *)
Theorem wordWrap_blank_text (text : jsstring) (width : Z) (indent : option jsstring) :
  forallb isSpace text = true -> Helpers.wordWrap text width indent = [].
Proof. apply wordWrap_blank. Qed.

Lemma wordWrap_blank_text_witness :
  forallb isSpace (lit "  ") = true
  /\ Helpers.wordWrap (lit "  ") 10 (Some (lit "> ")) = [].
Proof.
  split; [reflexivity|].
  apply (wordWrap_blank_text (lit "  ") 10 (Some (lit "> "))). reflexivity.
Defined.

(** ** The ANSI parser and serializer *)

(** X6: [ansiToStyledText] returns for every input, and the texts of its
    chunks, put together, are the input with its escape sequences stripped:
    no visible code unit is lost, added or moved. *)
Theorem ansiToStyledText_keeps_text (input : jsstring) :
  exists st, ansiToStyledText input = Some st /\ textOf (chunks st) = stripAnsi input.
Proof. apply ansiToStyledText_text. Qed.




(** X9: for a palette index from 0 to 255, [ansi256ToRgb] returns three
    channels from 0 to 255. *)
Theorem ansi256ToRgb_bytes (n : Z) :
  0 <= n <= 255 ->
  exists r g b, ansi256ToRgb n = Some (r, g, b)
                /\ 0 <= r <= 255 /\ 0 <= g <= 255 /\ 0 <= b <= 255.
Proof. apply ansi256ToRgb_range. Qed.

Lemma ansi256ToRgb_bytes_witness :
  0 <= 196 <= 255
  /\ exists r g b, ansi256ToRgb 196 = Some (r, g, b)
                   /\ 0 <= r <= 255 /\ 0 <= g <= 255 /\ 0 <= b <= 255.
Proof. split; [lia|]. apply (ansi256ToRgb_bytes 196). lia. Defined.

(** ** Segments *)

(** X10: a document none of whose lines opens a code fence is one text
    segment, with the whole document as its content. *)
Theorem parseMarkdownSegments_no_fence (md : jsstring) :
  forallb (fun l => negb (isFenceLine l)) (split NL md) = true ->
  parseMarkdownSegments md = [TextSegment md].
Proof. apply parseMarkdownSegments_plain. Qed.

Lemma parseMarkdownSegments_no_fence_witness :
  forallb (fun l => negb (isFenceLine l)) (split NL (lit "# a" ++ NL :: lit "b")) = true
  /\ parseMarkdownSegments (lit "# a" ++ NL :: lit "b")
     = [TextSegment (lit "# a" ++ NL :: lit "b")].
Proof.
  split; [reflexivity|].
  apply (parseMarkdownSegments_no_fence (lit "# a" ++ NL :: lit "b")). reflexivity.
Defined.

(** X11: every code segment [parseMarkdownSegments] returns names a
    language: the language is never the empty string. *)
Theorem parseMarkdownSegments_language_named (md : jsstring) :
  Forall namesLanguage (parseMarkdownSegments md).
Proof. apply parseMarkdownSegments_language. Qed.

(** ** Tables *)

(** X12: [parseRow] reads a written row back: for cells without backslash,
    written between pipes with every pipe of a cell escaped, it returns the
    cells, trimmed. *)
Theorem parseRow_reads_written_row (cells : list jsstring) :
  forallb noBackslash cells = true ->
  parseRow (tableRow cells) = List.map trim cells.
Proof. apply parseRow_tableRow_eq. Qed.

Lemma parseRow_reads_written_row_witness :
  forallb noBackslash [lit " a|b "; lit "c"] = true
  /\ parseRow (tableRow [lit " a|b "; lit "c"]) = List.map trim [lit " a|b "; lit "c"].
Proof.
  split; [reflexivity|].
  apply (parseRow_reads_written_row [lit " a|b "; lit "c"]). reflexivity.
Defined.

(** X13: the tokenizer of the table's word wrap only cuts: the tokens, put
    together, are the text. *)
Theorem tokenize_keeps_text (text : jsstring) :
  concat (tokenize text [] [] false) = text.
Proof. apply (tokenize_concat text [] [] false). Qed.

(** X14: [breakLongToken] only cuts: the parts, each without the quotes
    put around it when the token is quoted, give the token without its
    quotes. *)
Theorem breakLongToken_keeps_token (token : jsstring) (maxLen : Z) :
  concat (List.map (unquote (isQuotedToken token)) (breakLongToken token maxLen))
  = unquote (isQuotedToken token) token.
Proof. apply breakLongToken_concat. Qed.

(** X15: the shrink loop takes no more than it must: the table it leaves
    is exactly [maxWidth] wide when the natural widths were wider, and as
    wide as before when they were not, unless it stopped because every
    column is at most 10. *)
Theorem fitWidths_exact (maxWidth : Z) (colWidths : list Z) :
  calcWidth (fitWidths maxWidth colWidths) = Z.min (calcWidth colWidths) maxWidth
  \/ Forall (fun w => w <= 10) (fitWidths maxWidth colWidths).
Proof. eapply shrinkRun_exact, fitWidths_run. Qed.

(** X16: the shrink loop is even-handed: a column that lost width ends
    at most one unit below every other column. *)
Theorem fitWidths_balanced (maxWidth : Z) (colWidths : list Z) :
  Forall2 (fun w0 w => w = w0 \/ Forall (fun v => v - 1 <= w) (fitWidths maxWidth colWidths))
          colWidths (fitWidths maxWidth colWidths).
Proof.
  apply (shrinkRun_balanced maxWidth colWidths); [apply fitWidths_run|apply balanced_refl].
Qed.

(** X17: [isSeparatorLine] accepts exactly the lines of at least three
    code units that begin and end with a pipe and hold nothing but
    whitespace, dashes, colons and pipes. *)
Theorem isSeparatorLine_exact (line : jsstring) :
  isSeparatorLine line = separatorShape line.
Proof. apply isSeparatorLine_shape. Qed.

(** ** The styled renderer *)

(** X18: a table row on its own, followed by a line that is no table row,
    is dropped: the document renders as it does without the row. *)
Theorem lone_table_row_dropped (stringWidth : jsstring -> nat) (line rest : jsstring)
    (theme : TuiTheme) (cols : Z) :
  noNewline line = true ->
  isTableLine (trim line) = true ->
  isTableLine (trim (firstLine rest)) = false ->
  renderMarkdownThemedStyled stringWidth (line ++ NL :: rest) theme cols
  = renderMarkdownThemedStyled stringWidth rest theme cols.
Proof. apply lone_row_dropped. Qed.

Lemma lone_table_row_dropped_witness :
  noNewline (lit "| a | b |") = true
  /\ isTableLine (trim (lit "| a | b |")) = true
  /\ isTableLine (trim (firstLine (lit "text"))) = false
  /\ renderMarkdownThemedStyled unitWidth (lit "| a | b |" ++ NL :: lit "text")
       createDefaultCliTheme 80
     = renderMarkdownThemedStyled unitWidth (lit "text") createDefaultCliTheme 80.
Proof.
  split; [reflexivity|]. split; [reflexivity|]. split; [reflexivity|].
  apply (lone_table_row_dropped unitWidth (lit "| a | b |") (lit "text")
           createDefaultCliTheme 80); reflexivity.
Defined.

(** X19: a document of plain lines (no inline mark, no block mark first
    on a line) renders, at every width, to its lines in the text color,
    each followed by a newline chunk; the text of the chunks is the document
    and a final newline. *)
Theorem plain_text_document (stringWidth : jsstring -> nat) (md : jsstring)
    (theme : TuiTheme) (cols : Z) :
  forallb plainLine (split NL md) = true ->
  exists st,
    renderMarkdownThemedStyled stringWidth md theme cols = Some st
    /\ chunks st = concat (List.map (plainChunks (MarkdownTheme.map toIntRGBA theme))
                             (split NL md))
    /\ textOf (chunks st) = md ++ [NL].
Proof. apply plain_document. Qed.

Lemma plain_text_document_witness :
  forallb plainLine (split NL (lit "Hello, world." ++ NL :: NL :: lit "  Bye.")) = true
  /\ exists st,
       renderMarkdownThemedStyled unitWidth (lit "Hello, world." ++ NL :: NL :: lit "  Bye.")
         createDefaultCliTheme 3 = Some st
       /\ chunks st
          = concat (List.map (plainChunks (MarkdownTheme.map toIntRGBA createDefaultCliTheme))
                      (split NL (lit "Hello, world." ++ NL :: NL :: lit "  Bye.")))
       /\ textOf (chunks st) = (lit "Hello, world." ++ NL :: NL :: lit "  Bye.") ++ [NL].
Proof.
  split; [vm_compute; reflexivity|].
  apply (plain_text_document unitWidth (lit "Hello, world." ++ NL :: NL :: lit "  Bye.")
           createDefaultCliTheme 3).
  vm_compute. reflexivity.
Defined.

(** X20: on a terminal of width 4 or more the renderer returns chunks
    that each have a non-empty text, made of code units of the document and
    of the few the renderer writes of its own accord, a foreground that is
    absent or a color of the theme, and a background that is absent or the
    panel background of the theme. *)
Theorem renderer_chunks_from_document (stringWidth : jsstring -> nat) (md : jsstring)
    (theme : TuiTheme) (cols : Z) :
  4 <= cols ->
  exists st,
    renderMarkdownThemedStyled stringWidth md theme cols = Some st
    /\ Forall (chunkOk (fromDocument md) (MarkdownTheme.map toIntRGBA theme)) (chunks st).
Proof.
  intros Hc.
  destruct (renderMarkdownThemedStyled_total stringWidth md theme cols Hc) as [st Hst].
  exists st. split; [exact Hst|]. by eapply fromDocument_chunks.
Qed.

Lemma renderer_chunks_from_document_witness :
  4 <= 40
  /\ exists st,
       renderMarkdownThemedStyled unitWidth (lit "# T" ++ NL :: lit "- *a* `b`")
         createDefaultCliTheme 40 = Some st
       /\ Forall (chunkOk (fromDocument (lit "# T" ++ NL :: lit "- *a* `b`"))
                    (MarkdownTheme.map toIntRGBA createDefaultCliTheme)) (chunks st).
Proof.
  split; [lia|].
  apply (renderer_chunks_from_document unitWidth (lit "# T" ++ NL :: lit "- *a* `b`")
           createDefaultCliTheme 40).
  lia.
Defined.



(** X22: a fenced block that announces no diff renders to one chunk a
    line of code: the line as it is, characters that are markdown elsewhere
    included, after two spaces and before a newline, in the code color and
    italic.  The fence lines print nothing. *)
Theorem fenced_code_verbatim (stringWidth : jsstring -> nat) (opener : jsstring)
    (body : list jsstring) (closer : jsstring) (theme : TuiTheme) (cols : Z) :
  fencedBlock opener body closer = true ->
  renderMarkdownThemedStyled stringWidth (opener ++ NL :: linesText body ++ closer)
    theme cols
  = Some (mkStyledText (List.map (codeChunk (MarkdownTheme.map toIntRGBA theme)) body)).
Proof. apply fenced_code. Qed.

Lemma fenced_code_verbatim_witness :
  fencedBlock (lit "```ts") [lit "# **x**"; lit "| a |"] (lit "```") = true
  /\ renderMarkdownThemedStyled unitWidth
       (lit "```ts" ++ NL :: linesText [lit "# **x**"; lit "| a |"] ++ lit "```")
       createDefaultCliTheme 2
     = Some (mkStyledText
               (List.map (codeChunk (MarkdownTheme.map toIntRGBA createDefaultCliTheme))
                  [lit "# **x**"; lit "| a |"])).
Proof.
  split; [reflexivity|].
  apply (fenced_code_verbatim unitWidth (lit "```ts") [lit "# **x**"; lit "| a |"] (lit "```")
           createDefaultCliTheme 2).
  reflexivity.
Defined.

(** X23: the inline renderer returns a text without inline mark as one
    chunk with the default color and attributes (no chunk for the empty
    text). *)
Theorem inline_plain_text_one_chunk (text : jsstring) (theme : IntTheme) (color : RGBA)
    (attrs : Z) :
  forallb (fun c => negb (inlineMark c)) text = true ->
  renderInlineThemedWithDefault text theme color attrs = addChunk text (Some color) attrs.
Proof. apply renderInline_plain. Qed.

Lemma inline_plain_text_one_chunk_witness :
  forallb (fun c => negb (inlineMark c)) (lit "a < b & c") = true
  /\ renderInlineThemedWithDefault (lit "a < b & c") defaultIntTheme
       (Color.ofInts 1 2 3 255) Attr.BOLD
     = addChunk (lit "a < b & c") (Some (Color.ofInts 1 2 3 255)) Attr.BOLD.
Proof.
  split; [reflexivity|].
  apply (inline_plain_text_one_chunk (lit "a < b & c") defaultIntTheme
           (Color.ofInts 1 2 3 255) Attr.BOLD).
  reflexivity.
Defined.

(** X24: a code span between texts without inline mark renders to the
    text before it, the code as it is in the code color without attributes,
    other marks inside it left alone, and the text after it. *)
Theorem inline_code_span_literal (before : jsstring) (y : char) (code after : jsstring)
    (theme : IntTheme) (color : RGBA) (attrs : Z) :
  forallb (fun c => negb (inlineMark c)) before = true ->
  forallb notTick (y :: code) = true ->
  forallb (fun c => negb (inlineMark c)) after = true ->
  renderInlineThemedWithDefault (before ++ ch "`" :: (y :: code) ++ ch "`" :: after)
    theme color attrs
  = addChunk before (Some color) attrs
    ++ [Chunk (y :: code) (Some (MarkdownTheme.markdownCode theme)) None (Some 0)]
    ++ addChunk after (Some color) attrs.
Proof. apply code_span_chunks. Qed.

Lemma inline_code_span_literal_witness :
  forallb (fun c => negb (inlineMark c)) (lit "run ") = true
  /\ forallb notTick (lit "**a**") = true
  /\ forallb (fun c => negb (inlineMark c)) (lit " now") = true
  /\ renderInlineThemedWithDefault (lit "run " ++ ch "`" :: lit "**a**" ++ ch "`" :: lit " now")
       defaultIntTheme (Color.ofInts 1 2 3 255) 0
     = addChunk (lit "run ") (Some (Color.ofInts 1 2 3 255)) 0
       ++ [Chunk (lit "**a**") (Some (MarkdownTheme.markdownCode defaultIntTheme)) None
                 (Some 0)]
       ++ addChunk (lit " now") (Some (Color.ofInts 1 2 3 255)) 0.
Proof.
  split; [reflexivity|]. split; [reflexivity|]. split; [reflexivity|].
  apply (inline_code_span_literal (lit "run ") (ch "*") (lit "*a**") (lit " now")
           defaultIntTheme (Color.ofInts 1 2 3 255) 0); reflexivity.
Defined.

(** ** The renderer without colors *)

(** X25: with [colors = false], [renderMarkdown] returns a document that
    holds none of the characters the renderer without colors reacts to
    (backtick, [#], [-], [*], [+], [_]) as it is. *)
Theorem plain_renderer_identity (stdoutColumns : option Z) (stringWidth : jsstring -> nat)
    (md : jsstring) (options : Options.t) :
  Options.colors options = Some false ->
  forallb (fun c => negb (simpleMark c)) md = true ->
  renderMarkdown stdoutColumns stringWidth md options = Some md.
Proof.
  intros Hc H. unfold renderMarkdown. rewrite Hc. cbn [default from_option id negb].
  by apply renderMarkdownSimple_plain.
Qed.

Lemma plain_renderer_identity_witness :
  Options.colors (Options.mk None None None None (Some false) None) = Some false
  /\ forallb (fun c => negb (simpleMark c)) (lit "| a |" ++ NL :: lit "> 1. [x](y)") = true
  /\ renderMarkdown None unitWidth (lit "| a |" ++ NL :: lit "> 1. [x](y)")
       (Options.mk None None None None (Some false) None)
     = Some (lit "| a |" ++ NL :: lit "> 1. [x](y)").
Proof.
  split; [reflexivity|]. split; [reflexivity|].
  apply (plain_renderer_identity None unitWidth (lit "| a |" ++ NL :: lit "> 1. [x](y)")
           (Options.mk None None None None (Some false) None)); reflexivity.
Defined.

(** X26: the renderer without colors drops a code block that is never
    closed: a document that ends in an opening fence line and lines of
    code renders as the document before the fence does. *)
Theorem plain_renderer_drops_unclosed_fence (stdoutColumns : option Z)
    (md tail : jsstring) (options : Options.t) :
  simpleFenceState false (split NL md) = false ->
  startsWith (firstLine tail) fence = true ->
  forallb (fun l => negb (startsWith l fence)) (List.tl (split NL tail)) = true ->
  renderMarkdownSimple stdoutColumns (md ++ NL :: tail) options
  = renderMarkdownSimple stdoutColumns md options.
Proof. apply simple_unclosed_dropped. Qed.

Lemma plain_renderer_drops_unclosed_fence_witness :
  simpleFenceState false (split NL (lit "intro")) = false
  /\ startsWith (firstLine (lit "```sh" ++ NL :: lit "ls")) fence = true
  /\ forallb (fun l => negb (startsWith l fence))
       (List.tl (split NL (lit "```sh" ++ NL :: lit "ls"))) = true
  /\ renderMarkdownSimple None (lit "intro" ++ NL :: lit "```sh" ++ NL :: lit "ls")
       (Options.mk None None None None None None)
     = renderMarkdownSimple None (lit "intro") (Options.mk None None None None None None).
Proof.
  split; [reflexivity|]. split; [reflexivity|]. split; [reflexivity|].
  apply (plain_renderer_drops_unclosed_fence None (lit "intro")
           (lit "```sh" ++ NL :: lit "ls") (Options.mk None None None None None None));
    reflexivity.
Defined.

(** X27: the renderer without colors prints a closed code block as its
    lines of code, each after the indent (two spaces by default); the fence
    lines print nothing. *)
Theorem plain_renderer_indents_code (stdoutColumns : option Z) (opener : jsstring)
    (body : list jsstring) (closer : jsstring) (options : Options.t) :
  simpleFenced opener body closer = true ->
  renderMarkdownSimple stdoutColumns (opener ++ NL :: linesText body ++ closer) options
  = Some (join [NL] (List.map (app (default (lit "  ") (Options.indent options))) body)).
Proof. apply simple_fenced_code. Qed.

Lemma plain_renderer_indents_code_witness :
  simpleFenced (lit "```sh") [lit "# ls"; lit "cd -"] (lit "```") = true
  /\ renderMarkdownSimple None
       (lit "```sh" ++ NL :: linesText [lit "# ls"; lit "cd -"] ++ lit "```")
       (Options.mk None None None None None None)
     = Some (lit "  # ls" ++ NL :: lit "  cd -").
Proof.
  split; [reflexivity|].
  apply (plain_renderer_indents_code None (lit "```sh") [lit "# ls"; lit "cd -"] (lit "```")
           (Options.mk None None None None None None)).
  reflexivity.
Defined.

(** ** Theme colors *)

(** X28: a color of six hexadecimal digits after [#] loads as the three
    bytes its digit pairs denote, opaque: [toIntRGBA] gives back the
    integers from 0 to 255. *)
Theorem hex_color_bytes (d1 d2 d3 d4 d5 d6 : char) (r g b : Z) :
  hexByte d1 d2 = Some r -> hexByte d3 d4 = Some g -> hexByte d5 d6 = Some b ->
  toIntRGBA (ThemeLoader.hexToRGBA (ch "#" :: [d1; d2; d3; d4; d5; d6]))
  = Color.ofInts r g b 255
  /\ 0 <= r <= 255 /\ 0 <= g <= 255 /\ 0 <= b <= 255.
Proof. apply hexToRGBA_six_digits. Qed.

Lemma hex_color_bytes_witness :
  hexByte (ch "f") (ch "a") = Some 250
  /\ hexByte (ch "B") (ch "2") = Some 178
  /\ hexByte (ch "0") (ch "9") = Some 9
  /\ toIntRGBA (ThemeLoader.hexToRGBA (lit "#faB209")) = Color.ofInts 250 178 9 255.
Proof.
  split; [reflexivity|]. split; [reflexivity|]. split; [reflexivity|].
  exact (proj1 (hex_color_bytes (ch "f") (ch "a") (ch "B") (ch "2") (ch "0") (ch "9")
                  250 178 9 eq_refl eq_refl eq_refl)).
Defined.

(** X29: the three-digit shorthand is not expanded: the loader reads the
    first two digits as red, the third alone as green, and finds no blue,
    so the blue channel is not a number. *)
Theorem hex_shorthand_not_expanded (d1 d2 d3 : char) (r g : Z) :
  hexByte d1 d2 = Some r -> ThemeLoader.hexDigit d3 = Some g ->
  toIntRGBA (ThemeLoader.hexToRGBA (ch "#" :: [d1; d2; d3]))
  = Color.mk (Some r) (Some g) None (Some 255).
Proof. apply hexToRGBA_three_digits. Qed.

Lemma hex_shorthand_not_expanded_witness :
  hexByte (ch "f") (ch "8") = Some 248
  /\ ThemeLoader.hexDigit (ch "0") = Some 0
  /\ toIntRGBA (ThemeLoader.hexToRGBA (lit "#f80"))
     = Color.mk (Some 248) (Some 0) None (Some 255).
Proof.
  split; [reflexivity|]. split; [reflexivity|].
  exact (hex_shorthand_not_expanded (ch "f") (ch "8") (ch "0") 248 0 eq_refl eq_refl).
Defined.


